(** * maze.js: the cell store, the geometry primitives, the Branches
    iterator, the loader and the four step-by-step solvers.

    The JavaScript classes are embedded as records and functions on them;
    every mutation of [this] or of the shared [maze] object is made
    explicit by returning the updated value.  Generators are embedded as
    a resumable state (the point of suspension with the live locals) and
    a [next] function that runs the body up to the following [yield]. *)

From Stdlib Require Import ZArith Lia Bool List.
From Stdlib.Strings Require Import Byte.
From stdpp Require Import base decidable option list gmap.

Local Open Scope Z_scope.

(* ================================================================== *)
(** ** 1. Enums and constants                                         *)
(* ================================================================== *)

(** [const Direction = { North: 0, East: 1, South: 2, West: 3,
    Uninitialized: 4 }] *)
Inductive Direction : Set :=
  | North | East | South | West | Uninitialized.

#[global] Instance Direction_eq_dec : EqDecision Direction.
Proof. solve_decision. Defined.

Definition Direction_eqb (a b : Direction) : bool := bool_decide (a = b).

Module InternalBit.
Definition EAST_BIT : Z := 1.
Definition SOUTH_BIT : Z := 2.
Definition VISITED_BIT : Z := 4.
Definition PATH_BIT : Z := 8.
Definition PARENT_NORTH : Z := 16.
Definition PARENT_EAST : Z := 32.
Definition PARENT_SOUTH : Z := 64.
Definition PARENT_WEST : Z := 128.
Definition PARENT_MASK : Z := 240.
Definition ON_STACK_BIT : Z := 256.
Definition DEAD_N : Z := 0x1000.
Definition DEAD_E : Z := 0x2000.
Definition DEAD_S : Z := 0x4000.
Definition DEAD_W : Z := 0x8000.
Definition OCCUPIED_N : Z := 0x10000.
Definition OCCUPIED_E : Z := 0x20000.
Definition OCCUPIED_S : Z := 0x40000.
Definition OCCUPIED_W : Z := 0x80000.
Definition VISITED_TB : Z := 0x100000.
Definition VISITED_BT : Z := 0x200000.
Definition DEAD_JUNCTION_BIT : Z := 0x400000.
Definition PRUNED_BIT : Z := 0x800000.
End InternalBit.
Import InternalBit.

(** The value an [Int32Array] slot holds after a store of [v]
    (ToInt32: wrap-around into the signed 32-bit range). *)
Definition ToInt32 (v : Z) : Z := (v + 2 ^ 31) mod 2 ^ 32 - 2 ^ 31.

(** Reading and writing an [Int32Array] at a numeric index: a read out
    of range is [undefined] ([None]), a write out of range is ignored. *)
Definition ta_get (a : list Z) (i : Z) : option Z :=
  if 0 <=? i then a !! Z.to_nat i else None.

Definition ta_set (a : list Z) (i v : Z) : list Z :=
  if 0 <=? i then <[Z.to_nat i := ToInt32 v]> a else a.

(** The two arrays of a maze are plain arrays ([[]]) as the constructor
    makes them and [Int32Array]s from the allocation in [Load] on.  A
    plain array is what was stored under each index, with its [length]:
    a read of an index nothing was stored under is [undefined]
    ([None]), a store keeps the number as it is, a store at an array
    index from [length] on extends the array, and a store under
    another index (a negative one) makes a property that [length]
    ignores. *)
Inductive JSArray : Type :=
  | Array (elems : gmap Z Z) (len : Z)
  | Int32Array (slots : list Z).

Definition arr_get (a : JSArray) (i : Z) : option Z :=
  match a with
  | Array elems _ => elems !! i
  | Int32Array slots => ta_get slots i
  end.

Definition arr_set (a : JSArray) (i v : Z) : JSArray :=
  match a with
  | Array elems len =>
      Array (<[i := v]> elems)
            (if (0 <=? i) && (i <? 2 ^ 32 - 1) then Z.max len (i + 1) else len)
  | Int32Array slots => Int32Array (ta_set slots i v)
  end.

(** [a.length] *)
Definition arr_length (a : JSArray) : Z :=
  match a with
  | Array _ len => len
  | Int32Array slots => Z.of_nat (length slots)
  end.

(* ================================================================== *)
(** ** 2. Helper classes                                              *)
(* ================================================================== *)

Record Position : Set := mkPosition { row : Z; col : Z }.

#[global] Instance Position_eq_dec : EqDecision Position.
Proof. solve_decision. Defined.

Module Pos.
Definition eq (this other : Position) : bool :=
  (row this =? row other) && (col this =? col other).
Definition ne (this other : Position) : bool := negb (eq this other).

Definition move (this : Position) (dir : Direction) : Position :=
  match dir with
  | North => mkPosition (row this - 1) (col this)
  | South => mkPosition (row this + 1) (col this)
  | East => mkPosition (row this) (col this + 1)
  | West => mkPosition (row this) (col this - 1)
  | Uninitialized => this
  end.
End Pos.

Definition reverseDir (d : Direction) : Direction :=
  match d with
  | North => South
  | South => North
  | East => West
  | West => East
  | Uninitialized => Uninitialized
  end.

(* ================================================================== *)
(** ** 4. Maze and shared data                                        *)
(* ================================================================== *)

Record Maze : Type := mkMaze {
  width : Z;
  height : Z;
  poMazeData : JSArray;           (* [] until Load, then Int32Array *)
  visitOrder : JSArray;           (* [] until Load, then Int32Array *)
  thread_ownership : gmap Z Z     (* Map: cell index -> thread id *)
}.

(** [constructor()] *)
Definition Maze_new : Maze := mkMaze 0 0 (Array ∅ 0) (Array ∅ 0) ∅.

Definition _cellIndex (m : Maze) (pos : Position) : Z :=
  row pos * width m + col pos.

Definition setVisitOrder (m : Maze) (pos : Position) (order : Z) : Maze :=
  mkMaze (width m) (height m) (poMazeData m)
         (arr_set (visitOrder m) (_cellIndex m pos) order)
         (thread_ownership m).

Definition getVisitOrder (m : Maze) (pos : Position) : option Z :=
  arr_get (visitOrder m) (_cellIndex m pos).

Definition getStart (m : Maze) : Position := mkPosition 0 (width m / 2).
Definition getEnd (m : Maze) : Position :=
  mkPosition (height m - 1) (width m / 2).

Definition in_grid (m : Maze) (pos : Position) : bool :=
  (0 <=? row pos) && (row pos <? height m) &&
  (0 <=? col pos) && (col pos <? width m).

(** [getCell]: the result is only ever consumed by the 32-bit operators
    [&] and [|], under which an [undefined] read behaves as 0. *)
Definition getCell (m : Maze) (pos : Position) : Z :=
  if in_grid m pos
  then default 0 (arr_get (poMazeData m) (_cellIndex m pos))
  else 0.

Definition setCell (m : Maze) (pos : Position) (value : Z) : Maze :=
  mkMaze (width m) (height m)
         (arr_set (poMazeData m) (_cellIndex m pos) value)
         (visitOrder m) (thread_ownership m).

Definition _hasFlag (m : Maze) (pos : Position) (val : Z) : bool :=
  negb (Z.land (getCell m pos) val =? 0).
Definition _setFlag (m : Maze) (pos : Position) (val : Z) : Maze :=
  setCell m pos (Z.lor (getCell m pos) val).
Definition _clearFlag (m : Maze) (pos : Position) (val : Z) : Maze :=
  setCell m pos (Z.land (getCell m pos) (Z.lnot val)).

Definition canMove (m : Maze) (pos : Position) (direction : Direction) : bool :=
  match direction with
  | North =>
      if row pos =? 0 then false
      else negb (_hasFlag m (Pos.move pos North) SOUTH_BIT)
  | South =>
      if row pos =? height m - 1 then false
      else negb (_hasFlag m pos SOUTH_BIT)
  | East =>
      if col pos =? width m - 1 then false
      else negb (_hasFlag m pos EAST_BIT)
  | West =>
      if col pos =? 0 then false
      else negb (_hasFlag m (Pos.move pos West) EAST_BIT)
  | Uninitialized => false
  end.

Definition isJunction (m : Maze) (pos : Position) : bool :=
  let exits := 0 in
  let exits := if canMove m pos North then exits + 1 else exits in
  let exits := if canMove m pos South then exits + 1 else exits in
  let exits := if canMove m pos East then exits + 1 else exits in
  let exits := if canMove m pos West then exits + 1 else exits in
  2 <? exits.

Definition Reset_mask : Z :=
  Z.lnot (Z.lor VISITED_BIT (Z.lor PATH_BIT (Z.lor PARENT_MASK
         (Z.lor ON_STACK_BIT (Z.lor PRUNED_BIT 0xFFFF000))))).

(** [Reset]: the loop runs over the indices of [poMazeData], whose
    length no store of the loop changes; [n] counts the iterations
    left.  The store into [visitOrder] at an index an Int32Array does
    not have is ignored, and a plain [visitOrder] keeps what it holds
    from the length of [poMazeData] on. *)
Fixpoint Reset_loop (n : nat) (i : Z) (data vo : JSArray) : JSArray * JSArray :=
  match n with
  | O => (data, vo)
  | S n' =>
      let data := arr_set data i (Z.land (default 0 (arr_get data i)) Reset_mask) in
      let vo := arr_set vo i (-1) in
      Reset_loop n' (i + 1) data vo
  end.

Definition Reset (m : Maze) : Maze :=
  let '(data, vo) := Reset_loop (Z.to_nat (arr_length (poMazeData m))) 0
                                (poMazeData m) (visitOrder m) in
  mkMaze (width m) (height m) data vo ∅.

(** *** Standard BFS/DFS helpers *)

Definition setDirectionRouteBT (m : Maze) (pos : Position) (parent_dir : Direction) : Maze :=
  let val := getCell m pos in
  let val := Z.land val (Z.lnot PARENT_MASK) in
  let val := Z.lor val VISITED_BIT in
  let val :=
    match parent_dir with
    | North => Z.lor val PARENT_NORTH
    | East => Z.lor val PARENT_EAST
    | South => Z.lor val PARENT_SOUTH
    | West => Z.lor val PARENT_WEST
    | Uninitialized => val
    end in
  setCell m pos val.

Definition getDirectionRouteBT (m : Maze) (pos : Position) : Direction :=
  let val := getCell m pos in
  if negb (Z.land val PARENT_NORTH =? 0) then North
  else if negb (Z.land val PARENT_EAST =? 0) then East
  else if negb (Z.land val PARENT_SOUTH =? 0) then South
  else if negb (Z.land val PARENT_WEST =? 0) then West
  else Uninitialized.

Definition markPath (m : Maze) (pos : Position) : Maze :=
  _setFlag m pos PATH_BIT.

Definition markOnStack (m : Maze) (pos : Position) (on_stack : bool) : Maze :=
  if on_stack then _setFlag m pos ON_STACK_BIT
  else _clearFlag m pos ON_STACK_BIT.

(** *** MT specific bit operations *)

Definition dead_bit (dir : Direction) : Z :=
  match dir with
  | North => DEAD_N | East => DEAD_E | South => DEAD_S | West => DEAD_W
  | Uninitialized => 0
  end.

Definition occupied_bit (dir : Direction) : Z :=
  match dir with
  | North => OCCUPIED_N | East => OCCUPIED_E
  | South => OCCUPIED_S | West => OCCUPIED_W
  | Uninitialized => 0
  end.

Definition checkBranchDead (m : Maze) (pos : Position) (dir : Direction) : bool :=
  _hasFlag m pos (dead_bit dir).
Definition setBranchDeadFromOrigin (m : Maze) (pos : Position) (dir : Direction) : Maze :=
  _setFlag m pos (dead_bit dir).
Definition checkBranchOccupied (m : Maze) (pos : Position) (dir : Direction) : bool :=
  _hasFlag m pos (occupied_bit dir).
Definition setBranchOccupied (m : Maze) (pos : Position) (dir : Direction) : Maze :=
  _setFlag m pos (occupied_bit dir).

Definition markVisitedTeam (m : Maze) (pos : Position) (is_tb : bool) : Maze :=
  if is_tb then _setFlag m pos VISITED_TB else _setFlag m pos VISITED_BT.

Definition markDeadJunction (m : Maze) (pos : Position) : Maze :=
  let m := _clearFlag m pos VISITED_TB in
  let m := _clearFlag m pos VISITED_BT in
  _setFlag m pos DEAD_JUNCTION_BIT.

Definition unmarkVisitedTeam (m : Maze) (pos : Position) : Maze :=
  let m := _clearFlag m pos VISITED_TB in
  let m := _clearFlag m pos VISITED_BT in
  _clearFlag m pos VISITED_BIT.

Definition isVisitedByTeam (m : Maze) (pos : Position) (is_tb : bool) : bool :=
  if is_tb then _hasFlag m pos VISITED_TB else _hasFlag m pos VISITED_BT.

Definition setThreadOwner (m : Maze) (pos : Position) (thread_id : Z) : Maze :=
  mkMaze (width m) (height m) (poMazeData m) (visitOrder m)
         (<[_cellIndex m pos := thread_id]> (thread_ownership m)).

Definition getThreadOwner (m : Maze) (pos : Position) : Z :=
  default (-1) (thread_ownership m !! _cellIndex m pos).

(** *** MT_M1 helpers *)

Definition markPruned (m : Maze) (pos : Position) : Maze :=
  _setFlag m pos PRUNED_BIT.
Definition isPruned (m : Maze) (pos : Position) : bool :=
  _hasFlag m pos PRUNED_BIT.

Definition getAvailableMovesNoPruned (m : Maze) (pos : Position) : list Direction :=
  filter (fun d => canMove m pos d && negb (isPruned m (Pos.move pos d)) = true)
         [North; South; East; West].

(** *** The loader

    [Load] is [async] only for the fetch; its input here is the fetched
    [ArrayBuffer].  An exception leaves [this] as mutated so far, so the
    maze after the call is returned next to the completion. *)

Inductive Error : Set := RangeError | TypeError.

(** [DataView.getInt32(offset, true)]: little-endian, signed; a
    [RangeError] ([None]) when the four bytes are not all inside. *)
Definition byteLength (buffer : list byte) : Z := Z.of_nat (length buffer).

Definition byte_at (buffer : list byte) (i : Z) : Z :=
  match buffer !! Z.to_nat i with
  | Some b => Z.of_N (Byte.to_N b)
  | None => 0
  end.

Definition getInt32 (buffer : list byte) (offset : Z) : option Z :=
  if (0 <=? offset) && (offset + 4 <=? byteLength buffer) then
    Some (ToInt32 (byte_at buffer offset
                   + Z.shiftl (byte_at buffer (offset + 1)) 8
                   + Z.shiftl (byte_at buffer (offset + 2)) 16
                   + Z.shiftl (byte_at buffer (offset + 3)) 24))
  else None.

(** [new Int32Array(size)]: a [RangeError] ([None]) for a negative
    length and for one whose [4 * size] bytes exceed 2^53 - 1.  Within
    these bounds engines differ in the lengths they grant (some stop
    short of 2^32 entries), so the lengths the engine of the run grants
    are an input, [engine]; a length it refuses is a [RangeError] too.
    The slots start at 0. *)
Definition Int32Array_new (engine : Z -> bool) (size : Z) : option (list Z) :=
  if (size <? 0) || (2 ^ 53 - 1 <? 4 * size) || negb (engine size) then None
  else Some (replicate (Z.to_nat size) 0).

(** The [for (let i = 0; i < 16; i++)] loop over the cells of one word;
    [n] counts the iterations left. *)
Fixpoint Load_cells (n : nat) (this : Maze) (row col bits : Z) : Maze * Z :=
  match n with
  | O => (this, col)
  | S n' =>
      if width this <=? col then (this, col)
      else
        let east := Z.land bits 1 in
        let south := Z.land (Z.shiftr bits 1) 1 in
        let idx := row * width this + col in
        let val := 0 in
        let val := if east =? 0 then val else Z.lor val EAST_BIT in
        let val := if south =? 0 then val else Z.lor val SOUTH_BIT in
        let this := mkMaze (width this) (height this)
                           (arr_set (poMazeData this) idx val)
                           (visitOrder this) (thread_ownership this) in
        Load_cells n' this row (col + 1) (ToInt32 (Z.shiftr bits 2))
  end.

(** The [while (col < this.width)] loop of one row.  Every iteration
    that does not leave the loop advances [col], so [width - col]
    iterations are enough ([Load_words_fuel] below). *)
Fixpoint Load_words (fuel : nat) (buffer : list byte) (this : Maze)
    (row col offset : Z) : Maze * Z * option Error :=
  match fuel with
  | O => (this, offset, None)
  | S fuel' =>
      if col <? width this then
        if byteLength buffer <=? offset then (this, offset, None)
        else
          match getInt32 buffer offset with
          | None => (this, offset, Some RangeError)
          | Some bits =>
              let '(this, col) := Load_cells 16 this row col bits in
              Load_words fuel' buffer this row col (offset + 4)
          end
      else (this, offset, None)
  end.

(** The [for (let row = 0; row < this.height; row++)] loop. *)
Fixpoint Load_rows (n : nat) (buffer : list byte) (this : Maze)
    (row offset : Z) : Maze * option Error :=
  match n with
  | O => (this, None)
  | S n' =>
      match Load_words (Z.to_nat (width this)) buffer this row 0 offset with
      | (this, _, Some e) => (this, Some e)
      | (this, offset, None) => Load_rows n' buffer this (row + 1) offset
      end
  end.

(** [Load], from the bytes fetched on.  What was assigned to a field of
    [this] before a throw stays assigned.  The two arrays are asked of
    the same engine with the same length.  The product
    [this.width * this.height] is exact whenever the allocation lets it
    through. *)
Definition Load (engine : Z -> bool) (this : Maze) (buffer : list byte)
    : Maze * option Error :=
  match getInt32 buffer 0 with
  | None => (this, Some RangeError)
  | Some w =>
  let this := mkMaze w (height this) (poMazeData this) (visitOrder this)
                     (thread_ownership this) in
  match getInt32 buffer 4 with
  | None => (this, Some RangeError)
  | Some h =>
  let this := mkMaze (width this) h (poMazeData this) (visitOrder this)
                     (thread_ownership this) in
  match getInt32 buffer 8 with
  | None => (this, Some RangeError)
  | Some solvable =>
  let size := width this * height this in
  match Int32Array_new engine size with
  | None => (this, Some RangeError)
  | Some data =>
  let this := mkMaze (width this) (height this) (Int32Array data) (visitOrder this)
                     (thread_ownership this) in
  match Int32Array_new engine size with
  | None => (this, Some RangeError)
  | Some vo =>
  let this := mkMaze (width this) (height this) (poMazeData this)
                     (Int32Array (replicate (length vo) (-1)))
                     (thread_ownership this) in
  Load_rows (Z.to_nat (height this)) buffer this 0 12
  end end end end end.

(* ================================================================== *)
(** ** Ported logic: Branches and Junction                            *)
(* ================================================================== *)

Module Branches.

Record t : Set := mk {
  directions : list Direction;   (* always four slots *)
  count : Z;
  index : Z
}.

(** [this.directions[i]]: the array has four slots and the cursor is
    always the result of [& 3], so a read is never out of range. *)
Definition slot (ds : list Direction) (i : Z) : Direction :=
  default Uninitialized (ds !! Z.to_nat i).

Definition set_slot (ds : list Direction) (i : Z) (d : Direction) : list Direction :=
  <[Z.to_nat i := d]> ds.

(** The [for (let d of dirs)] loop of the constructor. *)
Fixpoint new_loop (maze : Maze) (pos : Position) (dirs : list Direction)
    (idx : Z) (this : t) : t :=
  match dirs with
  | [] => this
  | d :: dirs' =>
      let this :=
        if canMove maze pos d
        then mk (set_slot (directions this) idx d) (count this + 1) (index this)
        else mk (set_slot (directions this) idx Uninitialized) (count this) (index this) in
      new_loop maze pos dirs' (idx + 1) this
  end.

Definition new (maze : Maze) (pos : Position) (threadID : Z) : t :=
  new_loop maze pos [North; East; South; West] 0
    (mk [Uninitialized; Uninitialized; Uninitialized; Uninitialized] 0
        (Z.land threadID 3)).

Fixpoint remove_loop (n : nat) (i : Z) (this : t) (d : Direction) : t :=
  match n with
  | O => this
  | S n' =>
      if Direction_eqb (slot (directions this) i) d
      then mk (set_slot (directions this) i Uninitialized) (count this - 1) (index this)
      else remove_loop n' (i + 1) this d
  end.

Definition remove (this : t) (d : Direction) : t := remove_loop 4 0 this d.

(** The [for (let i = 0; i < 4; i++)] loop of [getNextThreads]; [n]
    counts the iterations left, the result is the returned direction
    with the updated [this] and [maze]. *)
Fixpoint getNextThreads_loop (n : nat) (this : t) (fallbackIndex : Z)
    (at_ : Position) (maze : Maze) : Direction * t * Maze :=
  match n with
  | O =>
      if negb (fallbackIndex =? -1) then
        let this := mk (directions this) (count this) fallbackIndex in
        (slot (directions this) (index this), this, maze)
      else (Uninitialized, this, maze)
  | S n' =>
      let this := mk (directions this) (count this) (Z.land (index this + 1) 3) in
      let d := slot (directions this) (index this) in
      if Direction_eqb d Uninitialized then
        getNextThreads_loop n' this fallbackIndex at_ maze
      else if checkBranchDead maze at_ d then
        let this := mk (set_slot (directions this) (index this) Uninitialized)
                       (count this - 1) (index this) in
        if count this =? 0 then (Uninitialized, this, maze)
        else getNextThreads_loop n' this fallbackIndex at_ maze
      else
        let fallbackIndex :=
          if fallbackIndex =? -1 then index this else fallbackIndex in
        if checkBranchOccupied maze at_ d then
          getNextThreads_loop n' this fallbackIndex at_ maze
        else (d, this, setBranchOccupied maze at_ d)
  end.

Definition getNextThreads (this : t) (at_ : Position) (maze : Maze)
    : Direction * t * Maze :=
  if count this =? 0 then (Uninitialized, this, maze)
  else getNextThreads_loop 4 this (-1) at_ maze.

Definition popCurrThreads (this : t) (at_ : Position) (maze : Maze)
    : Direction * t * Maze :=
  let d := slot (directions this) (index this) in
  if negb (Direction_eqb d Uninitialized) then
    let maze := setBranchDeadFromOrigin maze at_ d in
    let this := mk (set_slot (directions this) (index this) Uninitialized)
                   (count this - 1) (index this) in
    (d, this, maze)
  else (d, this, maze).

Fixpoint getNext_loop (n : nat) (this : t) : Direction * t :=
  match n with
  | O => (Uninitialized, this)
  | S n' =>
      let this := mk (directions this) (count this) (Z.land (index this + 1) 3) in
      if negb (Direction_eqb (slot (directions this) (index this)) Uninitialized)
      then (slot (directions this) (index this), this)
      else getNext_loop n' this
  end.

Definition getNext (this : t) : Direction * t :=
  if count this =? 0 then (Uninitialized, this) else getNext_loop 4 this.

Definition size (this : t) : Z := count this.

(** The class invariant: four slots, a cursor in range, and [count]
    the number of slots in use. *)
Definition live (ds : list Direction) : Z :=
  Z.of_nat (length (filter (fun d => d ≠ Uninitialized) ds)).

Definition wf (this : t) : Prop :=
  length (directions this) = 4%nat ∧ 0 <= index this <= 3 ∧
  count this = live (directions this).

End Branches.

Record Junction : Set := mkJunction {
  at_ : Position;
  came_from : Direction;
  branches : Branches.t;
  isOverlap : bool
}.

(* ================================================================== *)
(** ** 5. Solvers                                                     *)
(* ================================================================== *)

(** The phase tokens the generators yield. *)
Inductive Token : Set := SEARCHING | BACKTRACKING | FINISHED | NO_SOLUTION.

#[global] Instance Token_eq_dec : EqDecision Token.
Proof. solve_decision. Defined.

(** The result of one [generator.next()]: a yielded token, the end of
    the generator, or an exception. *)
Inductive IterResult : Set :=
  | Yield (t : Token)
  | Return
  | Throw (e : Error)
  | Pending.   (* the call has not come back within the fuel of an inner loop *)

(** What the driver sees after calling [next()] at most [fuel] times:
    the tokens yielded so far and how the generator stands. *)
Inductive Outcome (S : Type) : Type :=
  | Completed (m : Maze)
  | Failed (e : Error) (m : Maze)
  | Suspended (s : S) (m : Maze).
Arguments Completed {S} m.
Arguments Failed {S} e m.
Arguments Suspended {S} s m.

Fixpoint drive {S : Type} (next : S -> Maze -> IterResult * S * Maze)
    (fuel : nat) (s : S) (m : Maze) : list Token * Outcome S :=
  match fuel with
  | O => ([], Suspended s m)
  | Datatypes.S fuel' =>
      match next s m with
      | (Yield t, s', m') =>
          let '(ts, o) := drive next fuel' s' m' in (t :: ts, o)
      | (Return, _, m') => ([], Completed m')
      | (Throw e, _, m') => ([], Failed e m')
      | (Pending, _, _) => ([], Suspended s m)
      end
  end.

(** The reversed-direction [if] chain that BFS and DFS write out. *)
Definition parent_of (d : Direction) : Direction :=
  let parent := Uninitialized in
  match d with
  | North => South
  | South => North
  | East => West
  | West => East
  | Uninitialized => parent
  end.

Module BFSSolver.

(** Where the generator is suspended, with the locals that are live
    there. *)
Inductive state : Set :=
  | Start
  | AtSearching (q : list Position) (visit_counter : Z)
  | AtBacktracking (curr : Position)
  | AtLast
  | Finished.

(** The [for (let d of dirs)] loop expanding [cur]. *)
Fixpoint expand (dirs : list Direction) (cur : Position) (maze : Maze)
    (q : list Position) (visit_counter : Z) : Maze * list Position * Z :=
  match dirs with
  | [] => (maze, q, visit_counter)
  | d :: dirs' =>
      if canMove maze cur d then
        let nextPos := Pos.move cur d in
        if bool_decide (getVisitOrder maze nextPos = Some (-1)) then
          let parent := parent_of d in
          let maze := setDirectionRouteBT maze nextPos parent in
          let maze := setVisitOrder maze nextPos visit_counter in
          expand dirs' cur maze (q ++ [nextPos]) (visit_counter + 1)
        else expand dirs' cur maze q visit_counter
      else expand dirs' cur maze q visit_counter
  end.

(** From the test of [while (q.length > 0)] to the next [yield]. *)
Definition loop_head (q : list Position) (visit_counter : Z) (maze : Maze)
    : IterResult * state * Maze :=
  if 0 <? Z.of_nat (length q) then (Yield SEARCHING, AtSearching q visit_counter, maze)
  else (Yield NO_SOLUTION, AtLast, maze).

Definition next (s : state) (maze : Maze) : IterResult * state * Maze :=
  match s with
  | Start =>
      let start := getStart maze in
      let q := [start] in
      let visit_counter := 0 in
      let maze := setVisitOrder maze start visit_counter in
      let visit_counter := visit_counter + 1 in
      let maze := setDirectionRouteBT maze start Uninitialized in
      loop_head q visit_counter maze
  | AtSearching q visit_counter =>
      match q with
      | [] => (Throw TypeError, Finished, maze)
      | cur :: q =>
          if Pos.eq cur (getEnd maze) then
            let curr := getEnd maze in
            let maze := markPath maze curr in
            (Yield BACKTRACKING, AtBacktracking curr, maze)
          else
            let '(maze, q, visit_counter) :=
              expand [South; West; East; North] cur maze q visit_counter in
            loop_head q visit_counter maze
      end
  | AtBacktracking curr =>
      if Pos.eq curr (getStart maze) then (Yield FINISHED, AtLast, maze)
      else
        let parent_dir := getDirectionRouteBT maze curr in
        if Direction_eqb parent_dir Uninitialized then (Yield FINISHED, AtLast, maze)
        else
          let curr := Pos.move curr parent_dir in
          let maze := markPath maze curr in
          (Yield BACKTRACKING, AtBacktracking curr, maze)
  | AtLast => (Return, Finished, maze)
  | Finished => (Return, Finished, maze)
  end.

Definition solve_step_by_step (fuel : nat) (maze : Maze) : list Token * Outcome state :=
  drive next fuel Start maze.

End BFSSolver.

Module DFSSolver.

Inductive state : Set :=
  | Start
  | AtSearching (stack : list (Position * Direction)) (visit_counter : Z)
  | AtBacktracking (curr : Position)
  | AtLast
  | Finished.

(** The first [for (let d of dirs)] loop: it stops at the first
    unvisited open neighbour it has pushed. *)
Fixpoint advance (dirs : list Direction) (curr : Position) (maze : Maze)
    (stack : list (Position * Direction)) (visit_counter : Z)
    : Maze * list (Position * Direction) * Z * bool :=
  match dirs with
  | [] => (maze, stack, visit_counter, false)
  | d :: dirs' =>
      if canMove maze curr d then
        let nextPos := Pos.move curr d in
        if bool_decide (getVisitOrder maze nextPos = Some (-1)) then
          let maze := setVisitOrder maze nextPos visit_counter in
          let visit_counter := visit_counter + 1 in
          let maze := markOnStack maze nextPos true in
          let parent := parent_of d in
          let maze := setDirectionRouteBT maze nextPos parent in
          (maze, stack ++ [(nextPos, parent)], visit_counter, true)
        else advance dirs' curr maze stack visit_counter
      else advance dirs' curr maze stack visit_counter
  end.

(** The second loop, which only computes [has_opts]. *)
Fixpoint has_opts (dirs : list Direction) (p_top : Position) (maze : Maze) : bool :=
  match dirs with
  | [] => false
  | d :: dirs' =>
      if canMove maze p_top d then
        let np := Pos.move p_top d in
        if bool_decide (getVisitOrder maze np = Some (-1)) then true
        else has_opts dirs' p_top maze
      else has_opts dirs' p_top maze
  end.

(** From the test of [while (stack.length > 0)] to the next [yield]. *)
Definition loop_head (stack : list (Position * Direction)) (visit_counter : Z)
    (maze : Maze) : IterResult * state * Maze :=
  if 0 <? Z.of_nat (length stack) then (Yield SEARCHING, AtSearching stack visit_counter, maze)
  else (Yield NO_SOLUTION, AtLast, maze).

Definition next (s : state) (maze : Maze) : IterResult * state * Maze :=
  match s with
  | Start =>
      let start := getStart maze in
      let stack := [(start, Uninitialized)] in
      let visit_counter := 0 in
      let maze := setVisitOrder maze start visit_counter in
      let visit_counter := visit_counter + 1 in
      let maze := markOnStack maze start true in
      let maze := setDirectionRouteBT maze start Uninitialized in
      loop_head stack visit_counter maze
  | AtSearching stack visit_counter =>
      match last stack with
      | None => (Throw TypeError, Finished, maze)
      | Some (curr, _) =>
          if Pos.eq curr (getEnd maze) then
            let curr := getEnd maze in
            let maze := markPath maze curr in
            (Yield BACKTRACKING, AtBacktracking curr, maze)
          else
            let '(maze, stack, visit_counter, moved) :=
              advance [South; East; West; North] curr maze stack visit_counter in
            if negb moved then
              match last stack with
              | Some (p_top, _) =>
                  if negb (has_opts [South; East; West; North] p_top maze) then
                    let p := p_top in
                    let stack := removelast stack in
                    let maze := markOnStack maze p false in
                    let maze := _clearFlag maze p VISITED_BIT in
                    let maze := if isJunction maze p then markDeadJunction maze p else maze in
                    loop_head stack visit_counter maze
                  else loop_head stack visit_counter maze
              | None => loop_head stack visit_counter maze
              end
            else loop_head stack visit_counter maze
      end
  | AtBacktracking curr =>
      if Pos.eq curr (getStart maze) then (Yield FINISHED, AtLast, maze)
      else
        let parent_dir := getDirectionRouteBT maze curr in
        if Direction_eqb parent_dir Uninitialized then (Yield FINISHED, AtLast, maze)
        else
          let curr := Pos.move curr parent_dir in
          let maze := markPath maze curr in
          (Yield BACKTRACKING, AtBacktracking curr, maze)
  | AtLast => (Return, Finished, maze)
  | Finished => (Return, Finished, maze)
  end.

Definition solve_step_by_step (fuel : nat) (maze : Maze) : list Token * Outcome state :=
  drive next fuel Start maze.

End DFSSolver.

(** *** Multi-threaded logic (M2) *)

Definition set_last {A : Type} (l : list A) (x : A) : list A :=
  removelast l ++ [x].

Module DFSThread.

Record t : Set := mk {
  id : Z;
  is_tb : bool;
  stack : list Junction;          (* top of the stack is the last element *)
  finished : bool;
  state : Z;
  target_pos : option Position;   (* null until the first junction step *)
  corridor_dir : Direction;
  backtrack_target : option Position
}.

Definition new (threadID : Z) (is_tb : bool) (start_pos : Position) (maze : Maze) : t :=
  let branches := Branches.new maze start_pos threadID in
  mk threadID is_tb [mkJunction start_pos Uninitialized branches false]
     false 0 None Uninitialized None.

Inductive StepResult : Set := DEAD | FOUND_TARGET | CONTINUE.

Definition set_finished (this : t) (b : bool) : t :=
  mk (id this) (is_tb this) (stack this) b (state this) (target_pos this)
     (corridor_dir this) (backtrack_target this).

(** State 0: junction processing. *)
Definition step_junction (this : t) (maze : Maze) (junc : Junction)
    : option StepResult * t * Maze :=
  let collision :=
    if is_tb this then
      if Pos.eq (at_ junc) (getEnd maze) then true
      else isVisitedByTeam maze (at_ junc) false
    else isVisitedByTeam maze (at_ junc) true in
  if collision then (Some FOUND_TARGET, this, maze)
  else
    let maze := markVisitedTeam maze (at_ junc) (is_tb this) in
    let maze := setThreadOwner maze (at_ junc) (id this) in
    let '(d, br, maze) :=
      if 0 <? Branches.size (branches junc)
      then Branches.getNextThreads (branches junc) (at_ junc) maze
      else (Uninitialized, branches junc, maze) in
    let junc := mkJunction (at_ junc) (came_from junc) br (isOverlap junc) in
    let stack := set_last (stack this) junc in
    if Direction_eqb d Uninitialized then
      let stack := removelast stack in
      let maze :=
        if isJunction maze (at_ junc) then markDeadJunction maze (at_ junc)
        else unmarkVisitedTeam maze (at_ junc) in
      match last stack with
      | Some parent =>
          let '(_, pbr, maze) :=
            Branches.popCurrThreads (branches parent) (at_ parent) maze in
          let parent := mkJunction (at_ parent) (came_from parent) pbr (isOverlap parent) in
          let stack := set_last stack parent in
          (Some CONTINUE,
           mk (id this) (is_tb this) stack (finished this) 2
              (Some (at_ junc)) (corridor_dir this) (Some (at_ parent)),
           maze)
      | None =>
          (Some DEAD,
           mk (id this) (is_tb this) stack (finished this) (state this)
              (target_pos this) (corridor_dir this) (backtrack_target this),
           maze)
      end
    else
      (Some CONTINUE,
       mk (id this) (is_tb this) stack (finished this) 1
          (Some (at_ junc)) d (backtrack_target this),
       maze).

(** State 1: corridor movement. *)
Definition step_corridor (this : t) (maze : Maze) (target : Position)
    : option StepResult * t * Maze :=
  let next_p := Pos.move target (corridor_dir this) in
  let parent_rev := reverseDir (corridor_dir this) in
  let collision_found :=
    if is_tb this then
      Pos.eq next_p (getEnd maze) || isVisitedByTeam maze next_p false
    else isVisitedByTeam maze next_p true in
  if collision_found then
    (Some FOUND_TARGET,
     mk (id this) (is_tb this)
        (stack this ++
           [mkJunction next_p parent_rev (Branches.new maze next_p (id this)) false])
        (finished this) (state this) (Some next_p) (corridor_dir this)
        (backtrack_target this),
     maze)
  else
    let maze := markVisitedTeam maze next_p (is_tb this) in
    let maze := setThreadOwner maze next_p (id this) in
    let maze := setDirectionRouteBT maze next_p parent_rev in
    let br := Branches.new maze next_p (id this) in
    let br := Branches.remove br parent_rev in
    if negb (Branches.size br =? 1) then
      (Some CONTINUE,
       mk (id this) (is_tb this)
          (stack this ++ [mkJunction next_p parent_rev br false])
          (finished this) 0 (Some next_p) (corridor_dir this)
          (backtrack_target this),
       maze)
    else
      (Some CONTINUE,
       mk (id this) (is_tb this) (stack this) (finished this) (state this)
          (Some next_p) (fst (Branches.getNext br)) (backtrack_target this),
       maze).

(** State 2: backtracking. *)
Definition step_backtrack (this : t) (maze : Maze) (target : Position)
    : option StepResult * t * Maze :=
  let maze :=
    if negb (isJunction maze target) then unmarkVisitedTeam maze target
    else maze in
  match backtrack_target this with
  | None => (None, this, maze)
  | Some goal =>
      if Pos.eq target goal then
        (Some CONTINUE,
         mk (id this) (is_tb this) (stack this) (finished this) 0
            (target_pos this) (corridor_dir this) (backtrack_target this),
         maze)
      else
        let parent_dir := getDirectionRouteBT maze target in
        if Direction_eqb parent_dir Uninitialized then
          (Some CONTINUE,
           mk (id this) (is_tb this) (stack this) (finished this) 0
              (target_pos this) (corridor_dir this) (backtrack_target this),
           maze)
        else
          (Some CONTINUE,
           mk (id this) (is_tb this) (stack this) (finished this) (state this)
              (Some (Pos.move target parent_dir)) (corridor_dir this)
              (backtrack_target this),
           maze)
  end.

(** [step]: [None] stands for the TypeError of a method call on a
    position that is still [null]. *)
Definition step (this : t) (maze : Maze) : option StepResult * t * Maze :=
  if finished this || (Z.of_nat (length (stack this)) =? 0) then (Some DEAD, this, maze)
  else if state this =? 0 then
    match last (stack this) with
    | Some junc => step_junction this maze junc
    | None => (None, this, maze)
    end
  else if state this =? 1 then
    match target_pos this with
    | Some target => step_corridor this maze target
    | None => (None, this, maze)
    end
  else if state this =? 2 then
    match target_pos this with
    | Some target => step_backtrack this maze target
    | None => (None, this, maze)
    end
  else (Some DEAD, this, maze).

End DFSThread.

Module MTSolver.

Definition NESW : list Direction := [North; East; South; West].

Inductive state : Set :=
  | Start
  | AtSearching (threads : list DFSThread.t) (found : bool)
      (collision_pos : option Position) (active_threads : Z)
  | AtBacktrackingTB (threads : list DFSThread.t) (collision_pos : Position)
      (path_tb : list Position) (i : Z)
  | AtBacktrackingNode (bt_thread : DFSThread.t) (stack_idx : Z) (curr : Position)
  | AtBacktrackingCorridor (bt_thread : DFSThread.t) (stack_idx : Z)
      (curr : Position) (jump_dir : Direction)
  | AtLast
  | Finished.

(** The [for (let t of this.threads)] loop of one round: [done] are
    the threads already passed, [todo] those still to come. *)
Fixpoint round (todo done : list DFSThread.t) (maze : Maze) (found : bool)
    (collision_pos : option Position) (active_threads : Z)
    : option (list DFSThread.t * Maze * bool * option Position * Z) :=
  match todo with
  | [] => Some (done, maze, found, collision_pos, active_threads)
  | t :: todo' =>
      if DFSThread.finished t then
        round todo' (done ++ [t]) maze found collision_pos active_threads
      else
        match DFSThread.step t maze with
        | (None, _, _) => None
        | (Some DFSThread.DEAD, t, maze) =>
            round todo' (done ++ [DFSThread.set_finished t true]) maze found
                  collision_pos active_threads
        | (Some DFSThread.FOUND_TARGET, t, maze) =>
            let collision_pos :=
              if 0 <? Z.of_nat (length (DFSThread.stack t))
              then DFSThread.target_pos t else collision_pos in
            Some (done ++ t :: todo', maze, true, collision_pos, active_threads)
        | (Some DFSThread.CONTINUE, t, maze) =>
            round todo' (done ++ [t]) maze found collision_pos (active_threads + 1)
        end
  end.

(** The first [VISITED_TB] neighbour of the collision cell, if it is
    not itself [VISITED_TB]. *)
Fixpoint tb_neighbour (dirs : list Direction) (curr_tb : Position) (maze : Maze) : Position :=
  match dirs with
  | [] => curr_tb
  | d :: dirs' =>
      let n := Pos.move curr_tb d in
      if isVisitedByTeam maze n true then n
      else tb_neighbour dirs' curr_tb maze
  end.

(** [while (!temp.eq(start))]: nothing bounds this loop in the
    source, so it takes fuel; [None] when the fuel runs out. *)
Fixpoint collect_tb (fuel : nat) (temp start : Position) (maze : Maze)
    (path_tb : list Position) : option (list Position) :=
  match fuel with
  | O => None
  | S fuel' =>
      if negb (Pos.eq temp start) then
        let path_tb := path_tb ++ [temp] in
        let parent_dir := getDirectionRouteBT maze temp in
        if Direction_eqb parent_dir Uninitialized then Some path_tb
        else collect_tb fuel' (Pos.move temp parent_dir) start maze path_tb
      else Some path_tb
  end.

(** The loop over [check_list] that finds the BT thread. *)
Fixpoint find_bt_thread (check_list : list Position) (threads : list DFSThread.t)
    (maze : Maze) : option DFSThread.t :=
  match check_list with
  | [] => None
  | pos :: rest =>
      if isVisitedByTeam maze pos false then
        let tid := getThreadOwner maze pos in
        if 3 <=? tid then threads !! Z.to_nat tid
        else find_bt_thread rest threads maze
      else find_bt_thread rest threads maze
  end.

Definition stack_at (bt_thread : DFSThread.t) (i : Z) : option Junction :=
  if 0 <=? i then DFSThread.stack bt_thread !! Z.to_nat i else None.

(** [for (let i = length - 1; i >= 0; i--)] searching the collision
    cell in the stack; [n] is [i + 1]. *)
Fixpoint find_in_stack (n : nat) (bt_thread : DFSThread.t)
    (collision_pos : Position) (stack_idx : Z) : Z :=
  match n with
  | O => stack_idx
  | S i =>
      match DFSThread.stack bt_thread !! i with
      | Some j =>
          if Pos.eq (at_ j) collision_pos then Z.of_nat i
          else find_in_stack i bt_thread collision_pos stack_idx
      | None => find_in_stack i bt_thread collision_pos stack_idx
      end
  end.

(** The three [for] loops of the corridor walk. *)
Fixpoint next_to_goal (dirs : list Direction) (curr goal : Position)
    : option (Direction * Position) :=
  match dirs with
  | [] => None
  | d :: dirs' =>
      if Pos.eq (Pos.move curr d) goal then Some (d, Pos.move curr d)
      else next_to_goal dirs' curr goal
  end.

Fixpoint regular_step (dirs : list Direction) (curr : Position) (back_dir : Direction)
    (bt_id : Z) (maze : Maze) : option (Direction * Position) :=
  match dirs with
  | [] => None
  | d :: dirs' =>
      if Direction_eqb d back_dir then regular_step dirs' curr back_dir bt_id maze
      else if negb (canMove maze curr d) then regular_step dirs' curr back_dir bt_id maze
      else
        let n := Pos.move curr d in
        if (getThreadOwner maze n =? bt_id) && isVisitedByTeam maze n false
        then Some (d, n)
        else regular_step dirs' curr back_dir bt_id maze
  end.

Fixpoint fallback_step (dirs : list Direction) (curr : Position) (back_dir : Direction)
    (maze : Maze) : option (Direction * Position) :=
  match dirs with
  | [] => None
  | d :: dirs' =>
      if Direction_eqb d back_dir then fallback_step dirs' curr back_dir maze
      else if negb (canMove maze curr d) then fallback_step dirs' curr back_dir maze
      else
        let n := Pos.move curr d in
        if isVisitedByTeam maze n false then Some (d, n)
        else fallback_step dirs' curr back_dir maze
  end.

(** From the test of [while (stack_idx > 0)] to the next [yield]. *)
Definition outer_head (bt_thread : DFSThread.t) (stack_idx : Z) (curr : Position)
    (maze : Maze) : IterResult * state * Maze :=
  if 0 <? stack_idx then
    let maze := markPath maze curr in
    (Yield BACKTRACKING, AtBacktrackingNode bt_thread stack_idx curr, maze)
  else
    let maze := markPath maze (getEnd maze) in
    (Yield FINISHED, AtLast, maze).

(** From the test of [while (!curr.eq(node_goal.at))] to the next
    [yield]. *)
Definition inner_head (bt_thread : DFSThread.t) (stack_idx : Z) (curr : Position)
    (jump_dir : Direction) (maze : Maze) : IterResult * state * Maze :=
  match stack_at bt_thread (stack_idx - 1) with
  | None => (Throw TypeError, Finished, maze)
  | Some node_goal =>
      if negb (Pos.eq curr (at_ node_goal)) then
        let maze := markPath maze curr in
        (Yield BACKTRACKING, AtBacktrackingCorridor bt_thread stack_idx curr jump_dir, maze)
      else outer_head bt_thread (stack_idx - 1) curr maze
  end.

(** Part 2 of the reconstruction, up to its first [yield]. *)
Definition part2 (threads : list DFSThread.t) (collision_pos : Position) (maze : Maze)
    : IterResult * state * Maze :=
  let check_list := collision_pos :: map (Pos.move collision_pos) NESW in
  match find_bt_thread check_list threads maze with
  | Some bt_thread =>
      if 0 <? Z.of_nat (length (DFSThread.stack bt_thread)) then
        let stack_idx := Z.of_nat (length (DFSThread.stack bt_thread)) - 1 in
        match stack_at bt_thread stack_idx with
        | None => (Throw TypeError, Finished, maze)
        | Some top =>
            let stack_idx :=
              if negb (Pos.eq (at_ top) collision_pos)
              then find_in_stack (length (DFSThread.stack bt_thread)) bt_thread
                                 collision_pos stack_idx
              else stack_idx in
            match stack_at bt_thread stack_idx with
            | None => (Throw TypeError, Finished, maze)
            | Some j => outer_head bt_thread stack_idx (at_ j) maze
            end
        end
      else (Yield FINISHED, AtLast, maze)
  | None => (Yield FINISHED, AtLast, maze)
  end.

(** From the test of [while (!found)] to the next [yield]; [fuel]
    bounds the parent walk of part 1. *)
Definition loop_head (fuel : nat) (threads : list DFSThread.t) (found : bool)
    (collision_pos : option Position) (maze : Maze) : IterResult * state * Maze :=
  if negb found then
    match round threads [] maze found collision_pos 0 with
    | None => (Throw TypeError, Finished, maze)
    | Some (threads, maze, found, collision_pos, active_threads) =>
        (Yield SEARCHING, AtSearching threads found collision_pos active_threads, maze)
    end
  else
    match collision_pos with
    | Some collision_pos =>
        let start := getStart maze in
        let curr_tb := collision_pos in
        let curr_tb :=
          if negb (isVisitedByTeam maze curr_tb true)
          then tb_neighbour NESW curr_tb maze else curr_tb in
        match collect_tb fuel curr_tb start maze [] with
        | None => (Pending, Finished, maze)
        | Some path_tb =>
            let path_tb := path_tb ++ [start] in
            let i := Z.of_nat (length path_tb) - 1 in
            match path_tb !! Z.to_nat i with
            | None => (Throw TypeError, Finished, maze)
            | Some p =>
                (Yield BACKTRACKING,
                 AtBacktrackingTB threads collision_pos path_tb i,
                 markPath maze p)
            end
        end
    | None => (Yield NO_SOLUTION, AtLast, maze)
    end.

Definition next (fuel : nat) (s : state) (maze : Maze) : IterResult * state * Maze :=
  match s with
  | Start =>
      let start := getStart maze in
      let end_ := getEnd maze in
      let threads :=
        map (fun i => DFSThread.new i true start maze) [0; 1; 2] ++
        map (fun i => DFSThread.new (i + 3) false end_ maze) [0; 1; 2] in
      let maze := markVisitedTeam maze start true in
      let maze := setThreadOwner maze start 0 in
      let maze := markVisitedTeam maze end_ false in
      let maze := setThreadOwner maze end_ 3 in
      loop_head fuel threads false None maze
  | AtSearching threads found collision_pos active_threads =>
      if (active_threads =? 0) && negb found then
        (* break: found is false here *)
        (Yield NO_SOLUTION, AtLast, maze)
      else loop_head fuel threads found collision_pos maze
  | AtBacktrackingTB threads collision_pos path_tb i =>
      let i := i - 1 in
      if 0 <=? i then
        match path_tb !! Z.to_nat i with
        | None => (Throw TypeError, Finished, maze)
        | Some p =>
            (Yield BACKTRACKING,
             AtBacktrackingTB threads collision_pos path_tb i,
             markPath maze p)
        end
      else part2 threads collision_pos maze
  | AtBacktrackingNode bt_thread stack_idx curr =>
      match stack_at bt_thread stack_idx with
      | None => (Throw TypeError, Finished, maze)
      | Some node_curr =>
          let jump_dir := came_from node_curr in
          let curr := Pos.move curr jump_dir in
          inner_head bt_thread stack_idx curr jump_dir maze
      end
  | AtBacktrackingCorridor bt_thread stack_idx curr jump_dir =>
      match stack_at bt_thread (stack_idx - 1) with
      | None => (Throw TypeError, Finished, maze)
      | Some node_goal =>
          let back_dir := reverseDir jump_dir in
          match next_to_goal NESW curr (at_ node_goal) with
          | Some (d, n) => inner_head bt_thread stack_idx n d maze
          | None =>
              match regular_step NESW curr back_dir (DFSThread.id bt_thread) maze with
              | Some (d, n) => inner_head bt_thread stack_idx n d maze
              | None =>
                  match fallback_step NESW curr back_dir maze with
                  | Some (d, n) => inner_head bt_thread stack_idx n d maze
                  | None =>
                      (* "Lost in corridor reconstruction": leave the walk *)
                      outer_head bt_thread (stack_idx - 1) curr maze
                  end
              end
          end
      end
  | AtLast => (Return, Finished, maze)
  | Finished => (Return, Finished, maze)
  end.

Definition solve_step_by_step (fuel : nat) (maze : Maze) : list Token * Outcome state :=
  drive (next fuel) fuel Start maze.

End MTSolver.

(* ================================================================== *)
(** ** 6. MT_M1 solver                                                *)
(* ================================================================== *)

(** The four in-queues are shared: pruner [i] reads [queues[i]] and
    appends to its neighbours'.  The store of queues is threaded through
    the steps and a pruner holds indices into it. *)
Definition Queues : Set := list (list Position).

Definition queue_append (qs : Queues) (i : Z) (p : Position) : Queues :=
  match qs !! Z.to_nat i with
  | Some q => <[Z.to_nat i := q ++ [p]]> qs
  | None => qs
  end.

Inductive Phase : Set := SCAN | PRUNE.

Module PruneThread.

Record t : Set := mk {
  id : Z;
  row_start : Z;
  row_end : Z;
  in_q : Z;                       (* index of its queue *)
  out_qs : option Z * option Z;   (* [Top, Bottom], null for none *)
  stack : list Position;
  phase : Phase;
  iter_row : Z;
  iter_col : Z;
  finished : bool
}.

Definition new (tid : Z) (row_start row_end : Z) (in_q : Z)
    (out_qs : option Z * option Z) : t :=
  mk tid row_start row_end in_q out_qs [] SCAN row_start 0 false.

Definition set_iter (this : t) (r c : Z) : t :=
  mk (id this) (row_start this) (row_end this) (in_q this) (out_qs this)
     (stack this) (phase this) r c (finished this).
Definition set_stack (this : t) (st : list Position) : t :=
  mk (id this) (row_start this) (row_end this) (in_q this) (out_qs this)
     st (phase this) (iter_row this) (iter_col this) (finished this).
Definition set_phase (this : t) (ph : Phase) : t :=
  mk (id this) (row_start this) (row_end this) (in_q this) (out_qs this)
     (stack this) ph (iter_row this) (iter_col this) (finished this).

(** The [for (let k = 0; k < this.maze.width; k++)] loop of the scan
    phase; [n] counts the iterations left. *)
Fixpoint scan_loop (n : nat) (this : t) (maze : Maze) : t :=
  match n with
  | O => this
  | S n' =>
      let this :=
        if width maze <=? iter_col this
        then set_iter this (iter_row this + 1) 0 else this in
      if row_end this <=? iter_row this then set_phase this PRUNE
      else
        let pos := mkPosition (iter_row this) (iter_col this) in
        if Pos.eq pos (getStart maze) || Pos.eq pos (getEnd maze) then
          scan_loop n' (set_iter this (iter_row this) (iter_col this + 1)) maze
        else
          let moves := getAvailableMovesNoPruned maze pos in
          let this :=
            if Z.of_nat (length moves) <=? 1
            then set_stack this (stack this ++ [pos]) else this in
          scan_loop n' (set_iter this (iter_row this) (iter_col this + 1)) maze
  end.

(** The body of [while (stack.length > 0 && processed_count < 1)]: the
    counter lets it run once. *)
Definition prune_one (this : t) (maze : Maze) (queues : Queues) (pos : Position)
    : t * Maze * Queues :=
  if isPruned maze pos then (this, maze, queues)
  else
    let maze := markPruned maze pos in
    let maze := setThreadOwner maze pos (id this) in
    let moves := getAvailableMovesNoPruned maze pos in
    match moves with
    | [d] =>
        let neighbor := Pos.move pos d in
        if Pos.eq neighbor (getStart maze) || Pos.eq neighbor (getEnd maze)
        then (this, maze, queues)
        else
          let n_moves := getAvailableMovesNoPruned maze neighbor in
          if Z.of_nat (length n_moves) <=? 1 then
            if row neighbor <? row_start this then
              match fst (out_qs this) with
              | Some i => (this, maze, queue_append queues i neighbor)
              | None => (this, maze, queues)
              end
            else if row_end this <=? row neighbor then
              match snd (out_qs this) with
              | Some i => (this, maze, queue_append queues i neighbor)
              | None => (this, maze, queues)
              end
            else (set_stack this (stack this ++ [neighbor]), maze, queues)
          else (this, maze, queues)
    | _ => (this, maze, queues)
    end.

Definition step (this : t) (maze : Maze) (queues : Queues) : t * Maze * Queues :=
  if finished this then (this, maze, queues)
  else
    match phase this with
    | SCAN => (scan_loop (Z.to_nat (width maze)) this maze, maze, queues)
    | PRUNE =>
        (* drain the in-queue onto the stack *)
        let inq := default [] (queues !! Z.to_nat (in_q this)) in
        let this := set_stack this (stack this ++ inq) in
        let queues := <[Z.to_nat (in_q this) := []]> queues in
        match last (stack this) with
        | None => (this, maze, queues)
        | Some pos =>
            let this := set_stack this (removelast (stack this)) in
            prune_one this maze queues pos
        end
    end.

End PruneThread.

Module WalkThreadTB.

Record t : Set := mk {
  curr : Position;
  came_from : Direction;
  finished : bool;
  found : bool;
  overlap : option Position
}.

Definition new (maze : Maze) : t :=
  mk (getStart maze) Uninitialized false false None.

(** [moves.indexOf(came_from)] and [splice]: drop the first
    occurrence. *)
Fixpoint remove_first (d : Direction) (moves : list Direction) : list Direction :=
  match moves with
  | [] => []
  | x :: moves' => if Direction_eqb x d then moves' else x :: remove_first d moves'
  end.

(** [step]: the shared [solve_list] and [first_exit.val] go in and
    come out. *)
Definition step (this : t) (maze : Maze) (solve_list : list Direction)
    (first_exit : bool) : t * Maze * list Direction * bool :=
  if finished this then (this, maze, solve_list, first_exit)
  else
    let target := getEnd maze in
    if negb (Direction_eqb (getDirectionRouteBT maze (curr this)) Uninitialized) then
      (mk (curr this) (came_from this) true (found this) (Some (curr this)),
       maze, solve_list, first_exit)
    else if Pos.eq (curr this) target then
      (mk (curr this) (came_from this) true true (overlap this),
       maze, solve_list, true)
    else
      let moves := getAvailableMovesNoPruned maze (curr this) in
      let moves :=
        if negb (Direction_eqb (came_from this) Uninitialized)
        then remove_first (came_from this) moves else moves in
      match moves with
      | [go_to] =>
          let solve_list := solve_list ++ [go_to] in
          let c := Pos.move (curr this) go_to in
          let maze := markVisitedTeam maze c true in
          (mk c (reverseDir go_to) (finished this) (found this) (Some c),
           maze, solve_list, first_exit)
      | [] =>
          (mk (curr this) (came_from this) true (found this) (overlap this),
           maze, solve_list, first_exit)
      | _ => (this, maze, solve_list, first_exit)
      end.

End WalkThreadTB.

Module BFSThreadBT.

Record t : Set := mk {
  q : list Position;
  finished : bool;
  found : bool
}.

Definition new (maze : Maze) : t * Maze :=
  (mk [getEnd maze] false false,
   setDirectionRouteBT maze (getEnd maze) Uninitialized).

Fixpoint expand (dirs : list Direction) (cur : Position) (maze : Maze)
    (q : list Position) : Maze * list Position :=
  match dirs with
  | [] => (maze, q)
  | d :: dirs' =>
      if canMove maze cur d then
        let nextPos := Pos.move cur d in
        if isPruned maze nextPos then expand dirs' cur maze q
        else if Direction_eqb (getDirectionRouteBT maze nextPos) Uninitialized then
          let parent := reverseDir d in
          let maze := setDirectionRouteBT maze nextPos parent in
          let q := q ++ [nextPos] in
          let maze := markVisitedTeam maze nextPos false in
          expand dirs' cur maze q
        else expand dirs' cur maze q
      else expand dirs' cur maze q
  end.

(** [while (this.q.length > 0 && steps < 2)]; [n] is [2 - steps]. *)
Fixpoint step_loop (n : nat) (this : t) (maze : Maze) (first_exit : bool)
    : t * Maze * bool :=
  match n with
  | O => (this, maze, first_exit)
  | S n' =>
      match q this with
      | [] => (this, maze, first_exit)
      | cur :: rest =>
          let this := mk rest (finished this) (found this) in
          if isPruned maze cur then step_loop n' this maze first_exit
          else if Pos.eq cur (getStart maze) then
            (mk (q this) true true, maze, true)
          else
            let '(maze, q') := expand [South; West; East; North] cur maze (q this) in
            step_loop n' (mk q' (finished this) (found this)) maze first_exit
      end
  end.

Definition step (this : t) (maze : Maze) (first_exit : bool) : t * Maze * bool :=
  if finished this || first_exit then
    (mk (q this) true (found this), maze, first_exit)
  else step_loop 2 this maze first_exit.

End BFSThreadBT.

Module MT_M1_Solver.

Record t : Set := mk {
  pruners : list PruneThread.t;
  queues : Queues;
  walker : WalkThreadTB.t;
  bfs : BFSThreadBT.t;
  solve_list : list Direction;
  first_exit : bool
}.

(** The loop of the constructor that builds the pruners; [i] runs
    from 0 to [N - 1]. *)
Definition make_pruner (N chunk remainder i : Z) : PruneThread.t :=
  let row_start := i * chunk + Z.min i remainder in
  let row_end := (i + 1) * chunk + Z.min (i + 1) remainder in
  let top := if 0 <? i then Some (i - 1) else None in
  let bottom := if i <? N - 1 then Some (i + 1) else None in
  PruneThread.new i row_start row_end i (top, bottom).

Definition new (maze : Maze) : t * Maze :=
  let N := 4 in
  let chunk := height maze / N in
  let remainder := Z.rem (height maze) N in
  let queues := [[]; []; []; []] in
  let pruners := map (make_pruner N chunk remainder) [0; 1; 2; 3] in
  let walker := WalkThreadTB.new maze in
  let '(bfs, maze) := BFSThreadBT.new maze in
  (mk pruners queues walker bfs [] false, maze).

Inductive state : Set :=
  | Start (this : t)
  | AtSearching (this : t)
  | AtBacktrackingTB (curr : Position) (rest : list Direction)
  | AtBacktrackingBT (curr : Position)
  | AtLast
  | Finished.

Fixpoint step_pruners (todo done : list PruneThread.t) (maze : Maze) (queues : Queues)
    : list PruneThread.t * Maze * Queues :=
  match todo with
  | [] => (done, maze, queues)
  | p :: todo' =>
      let '(p, maze, queues) := PruneThread.step p maze queues in
      step_pruners todo' (done ++ [p]) maze queues
  end.

Definition last_mark (maze : Maze) : IterResult * state * Maze :=
  (Yield FINISHED, AtLast, markPath maze (getEnd maze)).

(** From the test of [while (!curr.eq(this.maze.getEnd()))] to the
    next [yield]. *)
Definition bt_head (curr : Position) (maze : Maze) : IterResult * state * Maze :=
  if negb (Pos.eq curr (getEnd maze)) then
    let maze := markPath maze curr in
    let d := getDirectionRouteBT maze curr in
    if Direction_eqb d Uninitialized then last_mark maze
    else (Yield BACKTRACKING, AtBacktrackingBT (Pos.move curr d), maze)
  else last_mark maze.

(** From the head of [for (let d of this.solve_list)] to the next
    [yield]. *)
Definition tb_head (curr : Position) (rest : list Direction) (maze : Maze)
    : IterResult * state * Maze :=
  match rest with
  | d :: rest' =>
      let maze := markPath maze curr in
      (Yield BACKTRACKING, AtBacktrackingTB (Pos.move curr d) rest', maze)
  | [] => bt_head curr maze
  end.

(** From the test of the main [while] to the next [yield]. *)
Definition loop_head (this : t) (maze : Maze) : IterResult * state * Maze :=
  if negb (first_exit this) &&
     (negb (WalkThreadTB.finished (walker this)) || negb (BFSThreadBT.finished (bfs this)))
  then
    let '(pruners, maze, queues) := step_pruners (pruners this) [] maze (queues this) in
    let '(walker, maze, solve_list, first_exit) :=
      WalkThreadTB.step (walker this) maze (solve_list this) (first_exit this) in
    let '(bfs, maze, first_exit) := BFSThreadBT.step (bfs this) maze first_exit in
    let this := mk pruners queues walker bfs solve_list first_exit in
    if WalkThreadTB.finished walker && bool_decide (WalkThreadTB.overlap walker ≠ None)
    then tb_head (getStart maze) solve_list maze
    else (Yield SEARCHING, AtSearching this, maze)
  else tb_head (getStart maze) (solve_list this) maze.

Definition next (s : state) (maze : Maze) : IterResult * state * Maze :=
  match s with
  | Start this => loop_head this maze
  | AtSearching this => loop_head this maze
  | AtBacktrackingTB curr rest => tb_head curr rest maze
  | AtBacktrackingBT curr => bt_head curr maze
  | AtLast => (Return, Finished, maze)
  | Finished => (Return, Finished, maze)
  end.

(** [new MT_M1_Solver(maze).solve_step_by_step()] *)
Definition solve_step_by_step (fuel : nat) (maze : Maze) : list Token * Outcome state :=
  let '(this, maze) := new maze in
  drive next fuel (Start this) maze.

End MT_M1_Solver.

(* ================================================================== *)
(** ** Mazes used as concrete inputs                                  *)
(* ================================================================== *)

(** The wire format of section 6.1: a little-endian 32-bit word, and a
    blob made of the three header words and the body words. *)
Definition le32 (v : Z) : list byte :=
  map (fun k => default x00 (Byte.of_N (Z.to_N (Z.land (Z.shiftr v (8 * k)) 255))))
      [0; 1; 2; 3].

Definition blob (w h : Z) (words : list Z) : list byte :=
  le32 w ++ le32 h ++ le32 1 ++ concat (map le32 words).

(** An engine with room for every array the specification allows. *)
Definition roomy : Z -> bool := fun _ => true.

Definition load_blob (w h : Z) (words : list Z) : Maze :=
  fst (Load roomy Maze_new (blob w h words)).

(** One cell. *)
Definition maze_1x1 : Maze := load_blob 1 1 [0].

(** Three by three without inner walls. *)
Definition maze_open3 : Maze := load_blob 3 3 [0; 0; 0].

(** Three by three, a single corridor
    (0,1) - (0,2) - (1,2) - (1,1) - (2,1), every other edge walled. *)
Definition maze_snake : Maze := load_blob 3 3 [27; 51; 63].

(** One column of three cells, a wall under the middle one: End is cut
    off and Start has a one-cell dead end below it. *)
Definition maze_deadend : Maze := load_blob 1 3 [0; 2; 0].

(** One column of two cells with a wall between Start and End. *)
Definition maze_walled : Maze := load_blob 1 2 [2; 0].

(** Two columns, four rows: Start (0,1) opens onto the ring
    (1,1) - (1,0) - (2,0) - (2,1); End (3,1) is walled off. *)
Definition maze_ring : Maze := load_blob 2 4 [7; 4; 14; 15].

(* ================================================================== *)
(** ** Notions the statements use                                     *)
(* ================================================================== *)

(** The bits a solver or the loader ever sets. *)
Definition KNOWN_BITS : Z := 0xFFF1FF.
Definition known (v : Z) : Prop := Z.land v KNOWN_BITS = v.


(** The slots of the two arrays once they are Int32Arrays (none for a
    plain array), and a maze whose two arrays are Int32Arrays. *)
Definition cell_words (m : Maze) : list Z :=
  match poMazeData m with Int32Array slots => slots | Array _ _ => [] end.

Definition order_slots (m : Maze) : list Z :=
  match visitOrder m with Int32Array slots => slots | Array _ _ => [] end.

Definition typed (m : Maze) : Prop :=
  poMazeData m = Int32Array (cell_words m) /\
  visitOrder m = Int32Array (order_slots m).

(** The number of cells. *)
Definition cells (m : Maze) : Z := width m * height m.

(** A maze as the loader leaves it (or [Reset] after it): positive
    dimensions, both arrays Int32Arrays of the size of the grid, only
    wall bits in the cell words, no visit order yet.  The cell count
    fits the signed 32-bit slots of [visitOrder]. *)
Record fresh (m : Maze) : Prop := mkFresh {
  fresh_width : 0 < width m;
  fresh_height : 0 < height m;
  fresh_cells : cells m < 2 ^ 31;
  fresh_typed : typed m;
  fresh_data : length (cell_words m) = Z.to_nat (cells m);
  fresh_order : length (order_slots m) = Z.to_nat (cells m);
  fresh_walls : Forall (fun v => Z.land v 3 = v) (cell_words m);
  fresh_unvisited : Forall (fun v => v = -1) (order_slots m)
}.

(** The positions of the grid, row by row. *)
Definition grid_positions (m : Maze) : list Position :=
  r ← seqZ 0 (height m); c ← seqZ 0 (width m); [mkPosition r c].

Definition on_path (m : Maze) (p : Position) : bool := _hasFlag m p PATH_BIT.

Definition on_path_count (m : Maze) : nat :=
  length (filter (fun p => on_path m p = true) (grid_positions m)).

(** Two cells joined by an open edge. *)
Definition open_edge (m : Maze) (a b : Position) : Prop :=
  exists d, canMove m a d = true /\ Pos.move a d = b.

Fixpoint linked (m : Maze) (l : list Position) : Prop :=
  match l with
  | a :: (b :: _) as t => open_edge m a b /\ linked m t
  | _ => True
  end.

(** A chain of grid cells from Start to End along open edges. *)
Record route (m : Maze) (l : list Position) : Prop := mkRoute {
  route_start : head l = Some (getStart m);
  route_end : last l = Some (getEnd m);
  route_grid : Forall (fun p => in_grid m p = true) l;
  route_linked : linked m l
}.

Definition solvable (m : Maze) : Prop := exists l, route m l.

(** The cells marked ON_PATH are exactly the cells of the chain [l]. *)
Definition path_marked (m : Maze) (l : list Position) : Prop :=
  route m l /\
  forall p, in_grid m p = true -> (on_path m p = true <-> p ∈ l).

(** The distance from Start to End counted in cells: the least number
    of cells of a chain from Start to End. *)
Definition distance_in_cells (m : Maze) (n : nat) : Prop :=
  (exists l, route m l /\ length l = n) /\
  (forall l, route m l -> (n <= length l)%nat).

(** A token sequence that stops with one terminal token and has none
    before it. *)
Definition terminal (t : Token) : Prop := t = FINISHED \/ t = NO_SOLUTION.

Definition ends_once (toks : list Token) (t : Token) : Prop :=
  exists pre, toks = pre ++ [t] /\ terminal t /\
              Forall (fun x => ~ terminal x) pre.

(** What the claim words of [getNextThreads] say, one rule per
    sentence.  [scan at_ maze n b fb r]: with [n] cursor advances left,
    the object [b] and the fallback [fb] recorded so far, the call ends
    with [r] (direction returned, the object and the maze after). *)
Definition advance (b : Branches.t) : Branches.t :=
  Branches.mk (Branches.directions b) (Branches.count b)
              (Z.land (Branches.index b + 1) 3).







(** *** Notions for the search invariants *)

(** The grid and its two arrays fit together. *)
Record grid_ok (m : Maze) : Prop := mkGridOk {
  go_width : 0 < width m;
  go_height : 0 < height m;
  go_cells : cells m < 2 ^ 31;
  go_typed : typed m;
  go_data : length (cell_words m) = Z.to_nat (cells m);
  go_order : length (order_slots m) = Z.to_nat (cells m);
  go_known : Forall known (cell_words m)
}.

(** [m'] is [m] with the word of cell [p] replaced by [f] of it. *)
Record cell_update (m m' : Maze) (p : Position) (f : Z -> Z) : Prop := mkCellUpdate {
  cu_width : width m' = width m;
  cu_height : height m' = height m;
  cu_order : visitOrder m' = visitOrder m;
  cu_cell : forall q,
      getCell m' q = if decide (p = q) then f (getCell m p) else getCell m q;
  cu_ok : grid_ok m'
}.

(** The visit order of a cell, -1 also for a missing entry. *)
Definition order (m : Maze) (p : Position) : Z :=
  default (-1) (getVisitOrder m p).

Definition unvisited_count (m : Maze) : nat :=
  length (filter (fun v => v = -1) (order_slots m)).

(** The walls of [m] are those of [m0]. *)
Definition same_walls (m0 m : Maze) : Prop :=
  width m = width m0 /\ height m = height m0 /\
  forall p, Z.land (getCell m p) 3 = Z.land (getCell m0 p) 3.

(** The parent direction held in a cell word. *)
Definition dir_of (v : Z) : Direction :=
  if negb (Z.land v PARENT_NORTH =? 0) then North
  else if negb (Z.land v PARENT_EAST =? 0) then East
  else if negb (Z.land v PARENT_SOUTH =? 0) then South
  else if negb (Z.land v PARENT_WEST =? 0) then West
  else Uninitialized.

(** [l] runs from Start along parent pointers read backwards: every
    cell after the first points with its parent bits to the cell before
    it, across an open edge. *)
Fixpoint parent_links (m : Maze) (l : list Position) : Prop :=
  match l with
  | a :: (b :: _) as t =>
      (getDirectionRouteBT m b <> Uninitialized /\
       Pos.move b (getDirectionRouteBT m b) = a /\
       canMove m b (getDirectionRouteBT m b) = true /\
       b <> getStart m) /\
      parent_links m t
  | _ => True
  end.

(** The word [setDirectionRouteBT] writes for parent direction [d]. *)
Definition route_word (d : Direction) (v : Z) : Z :=
  let val := Z.lor (Z.land v (Z.lnot PARENT_MASK)) VISITED_BIT in
  match d with
  | North => Z.lor val PARENT_NORTH
  | East => Z.lor val PARENT_EAST
  | South => Z.lor val PARENT_SOUTH
  | West => Z.lor val PARENT_WEST
  | Uninitialized => val
  end.

(** What an update of one word leaves alone. *)
Definition keeps (mask : Z) (f : Z -> Z) : Prop :=
  forall v, Z.land (f v) mask = Z.land v mask.

(** [m'] is [m] with cell [n] given visit order [o] and its word
    replaced by [f] of it. *)
Record visit_update (m m' : Maze) (n : Position) (f : Z -> Z) (o : Z) : Prop := mkVisitUpdate {
  vu_width : width m' = width m;
  vu_height : height m' = height m;
  vu_cell : forall q,
      getCell m' q = if decide (n = q) then f (getCell m n) else getCell m q;
  vu_order : forall q, in_grid m q = true ->
      order m' q = if decide (n = q) then o else order m q;
  vu_count : S (unvisited_count m') = unvisited_count m;
  vu_ok : grid_ok m'
}.

Definition visited_cell (m : Maze) (p : Position) : Prop :=
  in_grid m p = true /\ 0 <= order m p.

(** The breadth-first search between two expansions: [q] is the queue,
    [vc] the visit counter, [dep] the depth of each visited cell in the
    tree of parent pointers.  The cells of order below
    [vc - length q] have left the queue, and every order below [vc] has
    been given to a cell. *)
Record bfs_core (m0 m : Maze) (q : list Position) (vc : Z) (dep : Position -> Z)
  : Prop := mkBfsCore {
  bc_ok : grid_ok m;
  bc_walls : same_walls m0 m;
  bc_nopath : forall p, on_path m p = false;
  bc_count : vc + Z.of_nat (unvisited_count m) = cells m;
  bc_done : 0 <= vc - Z.of_nat (length q);
  bc_order : forall p, in_grid m p = true -> -1 <= order m p < vc;
  bc_start : in_grid m (getStart m) = true /\ order m (getStart m) = 0 /\
             dep (getStart m) = 0;
  bc_queue : forall i p, q !! i = Some p ->
      in_grid m p = true /\ order m p = vc - Z.of_nat (length q) + Z.of_nat i;
  bc_inj : forall p p', visited_cell m p -> in_grid m p' = true ->
      order m p = order m p' -> p = p';
  bc_parent : forall p, visited_cell m p -> p <> getStart m ->
      getDirectionRouteBT m p <> Uninitialized /\
      canMove m p (getDirectionRouteBT m p) = true /\
      0 <= order m (Pos.move p (getDirectionRouteBT m p)) < vc - Z.of_nat (length q) /\
      order m (Pos.move p (getDirectionRouteBT m p)) < order m p /\
      dep p = dep (Pos.move p (getDirectionRouteBT m p)) + 1;
  bc_dep : forall p, visited_cell m p -> 0 <= dep p;
  bc_mono : forall p p', visited_cell m p -> in_grid m p' = true ->
      order m p <= order m p' -> dep p <= dep p';
  bc_end : forall p, in_grid m p = true ->
      0 <= order m p < vc - Z.of_nat (length q) -> p <> getEnd m;
  bc_ranks : forall k, 0 <= k < vc -> exists p, in_grid m p = true /\ order m p = k
}.

(** The edge out of [p] in direction [d], if open, leads to a visited
    cell at most one deeper. *)
Definition bfs_closed (m : Maze) (dep : Position -> Z) (p : Position) (d : Direction)
  : Prop :=
  canMove m p d = true ->
  0 <= order m (Pos.move p d) /\ dep (Pos.move p d) <= dep p + 1.

Record bfs_inv (m0 m : Maze) (q : list Position) (vc : Z) (dep : Position -> Z)
  : Prop := mkBfsInv {
  bi_core : bfs_core m0 m q vc dep;
  bi_closed : forall p d, in_grid m p = true ->
      0 <= order m p < vc - Z.of_nat (length q) -> bfs_closed m dep p d;
  bi_front : forall cur p, head q = Some cur -> visited_cell m p ->
      dep p <= dep cur + 1
}.

(** The same in the middle of the expansion of [cur], the directions
    [done] having been tried. *)
Record bfs_mid (m0 m : Maze) (cur : Position) (q : list Position) (vc : Z)
    (dep : Position -> Z) (done : list Direction) : Prop := mkBfsMid {
  bm_core : bfs_core m0 m q vc dep;
  bm_cur : in_grid m cur = true /\ 0 <= order m cur /\
           order m cur = vc - Z.of_nat (length q) - 1;
  bm_closed : forall p d, in_grid m p = true ->
      0 <= order m p < vc - Z.of_nat (length q) ->
      (p = cur -> d ∈ done) -> bfs_closed m dep p d;
  bm_front : forall p, visited_cell m p -> dep p <= dep cur + 1
}.

(** The generator, driven to its end from state [s] and maze [m],
    yields [toks] and leaves the maze [m']. *)
Definition runs {S : Type} (next : S -> Maze -> IterResult * S * Maze)
    (s : S) (m : Maze) (toks : list Token) (m' : Maze) : Prop :=
  exists n, drive next n s m = (toks, Completed m').

(** [m'] is [m] with the cells of [l] marked ON_PATH. *)
Record path_update (m m' : Maze) (l : list Position) : Prop := mkPathUpdate {
  pu_width : width m' = width m;
  pu_height : height m' = height m;
  pu_order : visitOrder m' = visitOrder m;
  pu_cell : forall q,
      getCell m' q
      = if bool_decide (q ∈ l) then Z.lor (getCell m q) PATH_BIT else getCell m q;
  pu_ok : grid_ok m'
}.

(** What a run that ends with FINISHED leaves: the chain [l] is marked,
    and it is a chain of the maze as loaded. *)
Record finished_with (m0 m' : Maze) (l : list Position) : Prop := mkFinishedWith {
  fw_marked : path_marked m' l;
  fw_nodup : NoDup l;
  fw_route : route m0 l;
  fw_walls : same_walls m0 m';
  fw_cells : Z.of_nat (length l) <= cells m0;
  fw_ok : grid_ok m'
}.

(** The two ways a search can end, with at most [bound] SEARCHING
    tokens. *)
Inductive search_result (m0 : Maze) (bound : Z) (toks : list Token) (m' : Maze)
    (l : list Position) : Prop :=
  | result_finished a :
      toks = repeat SEARCHING a ++ repeat BACKTRACKING (length l) ++ [FINISHED] ->
      Z.of_nat a <= bound ->
      finished_with m0 m' l ->
      search_result m0 bound toks m' l
  | result_no_solution a :
      toks = repeat SEARCHING a ++ [NO_SOLUTION] ->
      Z.of_nat a <= bound ->
      l = [] ->
      ~ solvable m0 ->
      (forall p, on_path m' p = false) ->
      same_walls m0 m' ->
      grid_ok m' ->
      search_result m0 bound toks m' l.

(** The number of cells of the grid that hold a visit order below that
    of [p]: the counter gives each cell it discovers the next number,
    so these are the cells discovered before [p]. *)
Definition discovered_before (m : Maze) (p : Position) : nat :=
  length (filter (fun q => 0 <= order m q < order m p) (grid_positions m)).

(** What breadth-first search adds when it finds End: no chain is
    shorter, the visit order of End is at least the number of edges
    of the chain, and it is the number of cells discovered before
    End. *)
Definition bfs_extra (m0 m' : Maze) (l : list Position) : Prop :=
  l <> [] ->
  (forall l', route m0 l' -> (length l <= length l')%nat) /\
  Z.of_nat (length l) - 1 <= order m' (getEnd m0) < cells m0 /\
  Z.of_nat (discovered_before m' (getEnd m0)) = order m' (getEnd m0).

(** The depth-first search between two steps: [stack] is the stack of
    the solver, [vc] its visit counter. *)
Record dfs_inv (m0 m : Maze) (stack : list (Position * Direction)) (vc : Z)
  : Prop := mkDfsInv {
  di_ok : grid_ok m;
  di_walls : same_walls m0 m;
  di_nopath : forall p, on_path m p = false;
  di_count : vc + Z.of_nat (unvisited_count m) = cells m;
  di_len : 0 < vc /\ Z.of_nat (length stack) <= vc;
  di_start : in_grid m (getStart m) = true /\ order m (getStart m) <> -1;
  di_head : forall p, head (map fst stack) = Some p -> p = getStart m;
  di_grid : Forall (fun p => in_grid m p = true /\ order m p <> -1) (map fst stack);
  di_links : parent_links m (map fst stack);
  di_nodup : NoDup (map fst stack);
  di_closed : forall p d, in_grid m p = true -> order m p <> -1 ->
      p ∉ map fst stack -> canMove m p d = true ->
      order m (Pos.move p d) <> -1;
  di_end : forall p, in_grid m p = true -> order m p <> -1 ->
      p ∉ map fst stack -> p <> getEnd m
}.

(** The word DFS leaves in a cell it pushes, and in one it pops. *)
Definition push_word (d : Direction) (v : Z) : Z :=
  route_word d (Z.lor v ON_STACK_BIT).

Definition pop_word (junction : bool) (v : Z) : Z :=
  let v := Z.land (Z.land v (Z.lnot ON_STACK_BIT)) (Z.lnot VISITED_BIT) in
  if junction
  then Z.lor (Z.land (Z.land v (Z.lnot VISITED_TB)) (Z.lnot VISITED_BT)) DEAD_JUNCTION_BIT
  else v.


(** *** Notions for the walkers that never stop *)

(** A walker with [base] put under its stack. *)
Definition with_base (base : list Junction) (t : DFSThread.t) : DFSThread.t :=
  DFSThread.mk (DFSThread.id t) (DFSThread.is_tb t) (base ++ DFSThread.stack t)
               (DFSThread.finished t) (DFSThread.state t) (DFSThread.target_pos t)
               (DFSThread.corridor_dir t) (DFSThread.backtrack_target t).

Definition with_bases (bases : list (list Junction)) (threads : list DFSThread.t)
    : list DFSThread.t :=
  zip_with with_base bases threads.

(** A walker that is out of the race, or has two junctions on its
    stack: one step cannot empty it. *)
Definition deep (t : DFSThread.t) : bool :=
  DFSThread.finished t || (2 <=? Z.of_nat (length (DFSThread.stack t))).

(** [n] rounds of the MT-M2 main loop in which nothing is found, every
    walker that steps is deep and each round ends with SEARCHING. *)
Fixpoint searching_rounds (n : nat) (threads : list DFSThread.t)
    (collision_pos : option Position) (active_threads : Z) (maze : Maze)
    : option (list DFSThread.t * option Position * Z * Maze) :=
  match n with
  | O => Some (threads, collision_pos, active_threads, maze)
  | S n' =>
      if forallb deep threads && negb (active_threads =? 0) then
        match MTSolver.round threads [] maze false collision_pos 0 with
        | Some (threads', maze', false, collision_pos', active_threads') =>
            if Nat.eqb (length threads') (length threads)
            then searching_rounds n' threads' collision_pos' active_threads' maze'
            else None
        | _ => None
        end
      else None
  end.

(** The walkers, the collision cell, the count of active walkers and
    the maze after [n] rounds of MT-M2 on the ring maze. *)
Definition ring_rounds (n : nat)
    : option (list DFSThread.t * option Position * Z * Maze) :=
  match drive (MTSolver.next 0) n MTSolver.Start maze_ring with
  | (_, Suspended (MTSolver.AtSearching threads false collision_pos active_threads) maze) =>
      Some (threads, collision_pos, active_threads, maze)
  | _ => None
  end.

(** The top two junctions of a stack, and what lies under them. *)
Definition top2 (t : DFSThread.t) : DFSThread.t :=
  DFSThread.mk (DFSThread.id t) (DFSThread.is_tb t)
               (drop (length (DFSThread.stack t) - 2) (DFSThread.stack t))
               (DFSThread.finished t) (DFSThread.state t) (DFSThread.target_pos t)
               (DFSThread.corridor_dir t) (DFSThread.backtrack_target t).

Definition under2 (t : DFSThread.t) : list Junction :=
  take (length (DFSThread.stack t) - 2) (DFSThread.stack t).

(** MT-M2 on the ring maze after 19 rounds, when its walkers have
    started to go round: the walkers, the maze, the walkers cut down to
    the top two junctions of their stacks, and what one lap puts under
    these. *)
Definition ring_threads : list DFSThread.t :=
  match ring_rounds 19 with
  | Some (threads, _, _, _) => threads
  | None => []
  end.

Definition ring_maze : Maze :=
  match ring_rounds 19 with
  | Some (_, _, _, maze) => maze
  | None => maze_ring
  end.

Definition ring_core : list DFSThread.t := map top2 ring_threads.

Definition ring_lap : list (list Junction) :=
  map (fun t => take 1 (DFSThread.stack t)) ring_core.

(** *** Notions for the further properties *)

(** One call of a mutator of [Maze] on a cell of the grid, and any
    number of them. *)
Inductive mutates (m : Maze) : Maze -> Prop :=
  | mut_setVisitOrder p o :
      in_grid m p = true -> mutates m (setVisitOrder m p o)
  | mut_setDirectionRouteBT p d :
      in_grid m p = true -> mutates m (setDirectionRouteBT m p d)
  | mut_markPath p : in_grid m p = true -> mutates m (markPath m p)
  | mut_markOnStack p b : in_grid m p = true -> mutates m (markOnStack m p b)
  | mut_clearVisited p : in_grid m p = true -> mutates m (_clearFlag m p VISITED_BIT)
  | mut_setBranchDeadFromOrigin p d :
      in_grid m p = true -> mutates m (setBranchDeadFromOrigin m p d)
  | mut_setBranchOccupied p d :
      in_grid m p = true -> mutates m (setBranchOccupied m p d)
  | mut_markVisitedTeam p b : in_grid m p = true -> mutates m (markVisitedTeam m p b)
  | mut_markDeadJunction p : in_grid m p = true -> mutates m (markDeadJunction m p)
  | mut_unmarkVisitedTeam p : in_grid m p = true -> mutates m (unmarkVisitedTeam m p)
  | mut_setThreadOwner p t : mutates m (setThreadOwner m p t)
  | mut_markPruned p : in_grid m p = true -> mutates m (markPruned m p).

Inductive marks (m : Maze) : Maze -> Prop :=
  | marks_refl : marks m m
  | marks_step m1 m2 : marks m m1 -> mutates m1 m2 -> marks m m2.

(** *** Notions for the safety of MT-M1 *)

(** Where a list of moves leads, and that it stays in the grid. *)
Definition walk (p : Position) (l : list Direction) : Position :=
  fold_left Pos.move l p.

Fixpoint path_in_grid (m : Maze) (p : Position) (l : list Direction) : Prop :=
  in_grid m p = true /\
  match l with
  | [] => True
  | d :: l' => path_in_grid m (Pos.move p d) l'
  end.

(** Every parent direction stored in a cell of the grid points to a
    cell of the grid. *)
Definition pointers_ok (m : Maze) : Prop :=
  forall c, in_grid m c = true -> getDirectionRouteBT m c <> Uninitialized ->
            in_grid m (Pos.move c (getDirectionRouteBT m c)) = true.

(** A cell of the grid other than Start and End. *)
Definition inner (m : Maze) (p : Position) : Prop :=
  in_grid m p = true /\ p <> getStart m /\ p <> getEnd m.

(** The maze [m] has been reached from [m0] by marking cells of the
    grid only, and neither Start nor End is pruned. *)
Record safe (m0 m : Maze) : Prop := mkSafe {
  safe_ok : grid_ok m;
  safe_marks : marks m0 m;
  safe_walls : same_walls m0 m;
  safe_pointers : pointers_ok m;
  safe_start : isPruned m (getStart m) = false;
  safe_end : isPruned m (getEnd m) = false
}.

Definition pruner_ok (m0 : Maze) (p : PruneThread.t) : Prop :=
  0 <= PruneThread.iter_row p /\ PruneThread.row_end p <= height m0 /\
  0 <= PruneThread.iter_col p /\ Forall (inner m0) (PruneThread.stack p).

Record m1_inv (m0 : Maze) (this : MT_M1_Solver.t) : Prop := mkM1Inv {
  mi_pruners : Forall (pruner_ok m0) (MT_M1_Solver.pruners this);
  mi_queues : Forall (Forall (inner m0)) (MT_M1_Solver.queues this);
  mi_walker : WalkThreadTB.curr (MT_M1_Solver.walker this)
              = walk (getStart m0) (MT_M1_Solver.solve_list this);
  mi_path : path_in_grid m0 (getStart m0) (MT_M1_Solver.solve_list this);
  mi_bfs : Forall (fun p => in_grid m0 p = true) (BFSThreadBT.q (MT_M1_Solver.bfs this))
}.

(** What holds of MT-M1 between two steps. *)
Definition m1_state_ok (m0 : Maze) (s : MT_M1_Solver.state) (m : Maze) : Prop :=
  safe m0 m /\
  match s with
  | MT_M1_Solver.Start this | MT_M1_Solver.AtSearching this => m1_inv m0 this
  | MT_M1_Solver.AtBacktrackingTB curr rest =>
      path_in_grid m0 curr rest /\ on_path m (getStart m0) = true
  | MT_M1_Solver.AtBacktrackingBT curr =>
      in_grid m0 curr = true /\ on_path m (getStart m0) = true
  | MT_M1_Solver.AtLast | MT_M1_Solver.Finished =>
      on_path m (getStart m0) = true /\ on_path m (getEnd m0) = true
  end.

(** The maze held by an outcome. *)
Definition outcome_maze {S : Type} (o : Outcome S) : Maze :=
  match o with
  | Completed m | Failed _ m | Suspended _ m => m
  end.

(** What a call of [next] gives in a good state: a token and a good
    state, the last one exactly with FINISHED. *)
Definition m1_step_ok (m0 : Maze) (r : IterResult * MT_M1_Solver.state * Maze) : Prop :=
  m1_state_ok m0 (snd (fst r)) (snd r) /\
  ((fst (fst r) = Yield FINISHED /\ snd (fst r) = MT_M1_Solver.AtLast) \/
   (exists t, fst (fst r) = Yield t /\ t <> FINISHED /\
              snd (fst r) <> MT_M1_Solver.AtLast /\
              snd (fst r) <> MT_M1_Solver.Finished)).

(** *** Notions for the wire format *)

(** The pair of bits of cell [k] of a row, in the words that start at
    [base]. *)
Definition Load_pair (buffer : list byte) (base k : Z) : Z :=
  Z.land (Z.shiftr (default 0 (getInt32 buffer (base + 4 * (k / 16)))) (2 * (k mod 16))) 3.

(** *** Notions for what MT-M1 prunes *)

(** A cell with at most one exit that is not pruned. *)
Definition dead (m : Maze) (p : Position) : Prop :=
  (length (getAvailableMovesNoPruned m p) <= 1)%nat.

(** [m'] has the open edges of [m] and at least its pruned cells. *)
Definition grows (m m' : Maze) : Prop :=
  (forall p d, canMove m' p d = canMove m p d) /\
  (forall p, isPruned m p = true -> isPruned m' p = true).

(** No cell of a chain from Start to End without repetition is
    pruned. *)
Definition clear_routes (m0 m : Maze) : Prop :=
  forall l, route m0 l -> NoDup l -> forall p, p ∈ l -> isPruned m p = false.

(** Every cell waiting on a pruner's stack or in a queue is dead. *)
Definition waiting_dead (m : Maze) (pruners : list PruneThread.t) (qs : Queues) : Prop :=
  Forall (fun pr => Forall (dead m) (PruneThread.stack pr)) pruners /\
  Forall (Forall (dead m)) qs.

Definition m1_prune_ok (m0 : Maze) (s : MT_M1_Solver.state) (m : Maze) : Prop :=
  clear_routes m0 m /\
  match s with
  | MT_M1_Solver.Start this | MT_M1_Solver.AtSearching this =>
      waiting_dead m (MT_M1_Solver.pruners this) (MT_M1_Solver.queues this)
  | _ => True
  end.

(** *** Notions for the search phase of MT-M2 *)

(** A direction a walker may take from [p]: an open edge, or none. *)
Definition opens (m : Maze) (p : Position) (d : Direction) : Prop :=
  d = Uninitialized \/ canMove m p d = true.

(** A junction of the grid whose branch slots hold open edges. *)
Definition junction_ok (m0 : Maze) (j : Junction) : Prop :=
  in_grid m0 (at_ j) = true /\
  Forall (opens m0 (at_ j)) (Branches.directions (branches j)).

(** A walker whose next step stays in the grid and calls no method on
    a position that is still null. *)
Record walker_ok (m0 : Maze) (t : DFSThread.t) : Prop := mkWalkerOk {
  wk_stack : Forall (junction_ok m0) (DFSThread.stack t);
  wk_target : forall p, DFSThread.target_pos t = Some p -> in_grid m0 p = true;
  wk_corridor : DFSThread.state t = 1 ->
    exists p, DFSThread.target_pos t = Some p /\ opens m0 p (DFSThread.corridor_dir t);
  wk_backtrack : DFSThread.state t = 2 ->
    DFSThread.target_pos t <> None /\ DFSThread.backtrack_target t <> None
}.

Definition m2_searching (s : MTSolver.state) : Prop :=
  match s with
  | MTSolver.Start | MTSolver.AtSearching _ _ _ _ => True
  | _ => False
  end.

Definition m2_state_ok (m0 : Maze) (s : MTSolver.state) (m : Maze) : Prop :=
  safe m0 m /\
  match s with
  | MTSolver.AtSearching threads found _ _ =>
      found = false -> Forall (walker_ok m0) threads
  | _ => True
  end.

(** What a call of [next] gives in the search phase: the next token,
    with a good state again if that token is SEARCHING; never an
    exception. *)
Definition m2_step_ok (m0 : Maze) (r : IterResult * MTSolver.state * Maze) : Prop :=
  match fst (fst r) with
  | Yield SEARCHING => m2_searching (snd (fst r)) /\ m2_state_ok m0 (snd (fst r)) (snd r)
  | Yield _ | Pending => True
  | Return | Throw _ => False
  end.

(** *** Notions for what the walkers of MT-M2 reach *)

(** [b] can be reached from [a] along open edges. *)
Inductive reach (m : Maze) (a : Position) : Position -> Prop :=
  | reach_here : in_grid m a = true -> reach m a a
  | reach_step b d :
      reach m a b -> canMove m b d = true -> reach m a (Pos.move b d).

(** Where the walkers of a team start. *)
Definition team_origin (m : Maze) (is_tb : bool) : Position :=
  if is_tb then getStart m else getEnd m.

(** Every cell that carries the mark of a team can be reached from
    where that team starts, and every parent direction stored in a
    cell is an open edge. *)
Definition conn_ok (m0 m : Maze) : Prop :=
  (forall c b, isVisitedByTeam m c b = true -> reach m0 (team_origin m0 b) c) /\
  (forall c, in_grid m0 c = true -> getDirectionRouteBT m c <> Uninitialized ->
             canMove m0 c (getDirectionRouteBT m c) = true).

(** The junctions and the target of a walker can be reached from
    where its team starts. *)
Record walker_conn (m0 : Maze) (t : DFSThread.t) : Prop := mkWalkerConn {
  wc_stack : Forall (fun j => reach m0 (team_origin m0 (DFSThread.is_tb t)) (at_ j))
                    (DFSThread.stack t);
  wc_target : forall p, DFSThread.target_pos t = Some p ->
                        reach m0 (team_origin m0 (DFSThread.is_tb t)) p
}.

(** The state of the solver while no two walkers have met. *)
Definition m2_apart (m0 : Maze) (s : MTSolver.state) (m : Maze) : Prop :=
  m2_searching s /\ m2_state_ok m0 s m /\ conn_ok m0 m /\
  match s with
  | MTSolver.AtSearching threads found _ _ =>
      found = false /\ Forall (walker_conn m0) threads
  | _ => True
  end.

(* ================================================================== *)
(** ** Words, bits and typed arrays                                   *)
(* ================================================================== *)

Lemma ToInt32_small v : - 2 ^ 31 <= v < 2 ^ 31 -> ToInt32 v = v.
Proof. intros H. unfold ToInt32. rewrite Z.mod_small; lia. Qed.

Lemma known_range v : known v -> 0 <= v < 2 ^ 24.
Proof.
  unfold known. intros H.
  assert (E : Z.land v (Z.ones 24) = v).
  { rewrite <- H at 1. rewrite <- Z.land_assoc.
    change (Z.land KNOWN_BITS (Z.ones 24)) with KNOWN_BITS. exact H. }
  rewrite Z.land_ones in E by lia.
  rewrite <- E. apply Z.mod_pos_bound. lia.
Qed.

Lemma known_ToInt32 v : known v -> ToInt32 v = v.
Proof. intros H. apply known_range in H. apply ToInt32_small. lia. Qed.

Lemma known_lor a b : known a -> known b -> known (Z.lor a b).
Proof.
  unfold known. intros Ha Hb. rewrite Z.land_lor_distr_l. congruence.
Qed.

Lemma known_land a b : known a -> known (Z.land a b).
Proof.
  unfold known. intros Ha.
  rewrite <- Z.land_assoc, (Z.land_comm b), Z.land_assoc. congruence.
Qed.

Lemma known_0 : known 0.
Proof. reflexivity. Qed.

Lemma ta_set_length a i v : length (ta_set a i v) = length a.
Proof. unfold ta_set. destruct (0 <=? i); [apply length_insert | reflexivity]. Qed.

Lemma ta_get_set_eq a i v :
  0 <= i < Z.of_nat (length a) -> ta_get (ta_set a i v) i = Some (ToInt32 v).
Proof.
  intros H. unfold ta_get, ta_set.
  destruct (Z.leb_spec 0 i); [|lia].
  apply list_lookup_insert_eq. lia.
Qed.

Lemma ta_get_set_ne a i j v : i <> j -> ta_get (ta_set a i v) j = ta_get a j.
Proof.
  intros H. unfold ta_get, ta_set.
  destruct (Z.leb_spec 0 j); [|reflexivity].
  destruct (Z.leb_spec 0 i); [|reflexivity].
  apply list_lookup_insert_ne. lia.
Qed.

Lemma ta_set_Forall (P : Z -> Prop) a i v :
  Forall P a -> P (ToInt32 v) -> Forall P (ta_set a i v).
Proof.
  intros Ha Hv. unfold ta_set. destruct (0 <=? i); [|exact Ha].
  rewrite Forall_lookup in *. intros k x Hk.
  destruct (decide (k = Z.to_nat i)) as [->|Hne].
  - destruct (decide (Z.to_nat i < length a)%nat).
    + rewrite list_lookup_insert_eq in Hk by lia. congruence.
    + rewrite list_insert_ge in Hk by lia. eauto.
  - rewrite list_lookup_insert_ne in Hk by congruence. eauto.
Qed.

Lemma ta_get_Forall (P : Z -> Prop) a i v :
  Forall P a -> ta_get a i = Some v -> P v.
Proof.
  unfold ta_get. intros Ha H. destruct (0 <=? i); [|discriminate].
  rewrite Forall_lookup in Ha. eauto.
Qed.

(* ================================================================== *)
(** ** Geometry                                                       *)
(* ================================================================== *)

(** C10. The geometry primitives accept the [Uninitialized] sentinel:
    moving by it gives back the same position and no edge is open in
    that direction. *)
Theorem geometry_total_on_Uninitialized (m : Maze) (p : Position) :
  Pos.move p Uninitialized = p ∧ canMove m p Uninitialized = false.
Proof. split; reflexivity. Qed.

(* C5 *)

Lemma in_grid_spec m p :
  in_grid m p = true <-> 0 <= row p < height m /\ 0 <= col p < width m.
Proof. unfold in_grid. rewrite !andb_true_iff. lia. Qed.

Lemma move_back p d : Pos.move (Pos.move p d) (reverseDir d) = p.
Proof.
  destruct p as [r c], d; simpl; f_equal; lia.
Qed.

(** C5, as amended.  Between two cells of the grid the wall query gives
    the same answer from either side. *)
Theorem canMove_symmetric_in_grid (m : Maze) (p : Position) (d : Direction) :
  in_grid m p = true ->
  in_grid m (Pos.move p d) = true ->
  canMove m p d = canMove m (Pos.move p d) (reverseDir d).
Proof.
  intros Hp Hq. apply in_grid_spec in Hp, Hq.
  destruct p as [r c]. destruct d; simpl in *.
  - pose proof (move_back (mkPosition r c) North) as E. simpl in E.
    destruct (Z.eqb_spec r 0); [lia|].
    destruct (Z.eqb_spec (r - 1) (height m - 1)); [lia|]. reflexivity.
  - pose proof (move_back (mkPosition r c) East) as E. simpl in E. rewrite E.
    destruct (Z.eqb_spec c (width m - 1)); [lia|].
    destruct (Z.eqb_spec (c + 1) 0); [lia|]. reflexivity.
  - pose proof (move_back (mkPosition r c) South) as E. simpl in E. rewrite E.
    destruct (Z.eqb_spec r (height m - 1)); [lia|].
    destruct (Z.eqb_spec (r + 1) 0); [lia|]. reflexivity.
  - pose proof (move_back (mkPosition r c) West) as E. simpl in E.
    destruct (Z.eqb_spec c 0); [lia|].
    destruct (Z.eqb_spec (c - 1) (width m - 1)); [lia|]. reflexivity.
  - reflexivity.
Qed.

Lemma canMove_symmetric_in_grid_witness :
  canMove maze_snake (mkPosition 1 1) South
  = canMove maze_snake (mkPosition 2 1) North.
Proof.
  apply (canMove_symmetric_in_grid maze_snake (mkPosition 1 1) South);
    vm_compute; reflexivity.
Defined.

(** C5 as stated fails at the edge of the grid: from the top row no move
    north is allowed, yet from the position above it the move south is
    reported open. *)
Lemma canMove_not_symmetric_at_the_edge :
  canMove maze_1x1 (mkPosition 0 0) North = false /\
  canMove maze_1x1 (Pos.move (mkPosition 0 0) North) (reverseDir North) = true.
Proof. split; vm_compute; reflexivity. Qed.

(* ================================================================== *)
(** ** The loader                                                     *)
(* ================================================================== *)

Lemma getInt32_short buffer offset :
  byteLength buffer < offset + 4 -> getInt32 buffer offset = None.
Proof.
  intros H. unfold getInt32.
  destruct (Z.leb_spec (offset + 4) (byteLength buffer)); [lia|].
  rewrite andb_false_r. reflexivity.
Qed.


Lemma Load_cells_width n this r c bits :
  width (fst (Load_cells n this r c bits)) = width this /\
  height (fst (Load_cells n this r c bits)) = height this.
Proof.
  revert this c bits. induction n as [|n IH]; intros; cbn [Load_cells]; [auto|].
  destruct (width this <=? c); [auto|]. cbv zeta.
  match goal with |- context [Load_cells n ?t _ _ _] =>
    destruct (IH t (c + 1) (ToInt32 (Z.shiftr bits 2))) as [-> ->] end.
  auto.
Qed.



(** The fuel given to the row loop is enough: more fuel changes nothing. *)
Lemma Load_cells_col n this r c bits :
  c <= snd (Load_cells n this r c bits) /\
  (n <> O -> c < width this -> c < snd (Load_cells n this r c bits)).
Proof.
  revert this c bits.
  induction n as [|n IH]; intros; cbn [Load_cells]; [cbn [snd]; split; [lia|congruence]|].
  destruct (Z.leb_spec (width this) c); [cbn [snd]; split; lia|]. cbv zeta.
  match goal with |- context [Load_cells n ?t _ _ _] =>
    destruct (IH t (c + 1) (ToInt32 (Z.shiftr bits 2))) as [I _] end.
  split; intros; lia.
Qed.

Lemma Load_words_fuel fuel extra buffer this r c offset :
  (Z.to_nat (width this - c) <= fuel)%nat ->
  Load_words (fuel + extra) buffer this r c offset
  = Load_words fuel buffer this r c offset.
Proof.
  revert this c offset. induction fuel as [|fuel IH]; intros this c offset Hf.
  - destruct extra as [|extra]; [reflexivity|]. cbn [Nat.add Load_words].
    destruct (Z.ltb_spec c (width this)); [lia|reflexivity].
  - cbn [Nat.add Load_words]. destruct (Z.ltb_spec c (width this)); [|reflexivity].
    destruct (byteLength buffer <=? offset); [reflexivity|].
    destruct (getInt32 buffer offset) as [bits|]; [|reflexivity].
    pose proof (Load_cells_col 16 this r c bits) as [_ Hc].
    pose proof (Load_cells_width 16 this r c bits) as [Hw _].
    destruct (Load_cells 16 this r c bits) as [this' c']. cbn [fst snd] in *.
    apply IH. specialize (Hc ltac:(discriminate) ltac:(lia)). lia.
Qed.

(* ================================================================== *)
(** ** Reset and the reachable states                                 *)
(* ================================================================== *)

Lemma typed_intro m d v :
  poMazeData m = Int32Array d -> visitOrder m = Int32Array v ->
  typed m /\ cell_words m = d /\ order_slots m = v.
Proof.
  intros Hd Hv. unfold typed, cell_words, order_slots. rewrite Hd, Hv. auto.
Qed.

Lemma setCell_typed m p v :
  typed m ->
  typed (setCell m p v) /\
  cell_words (setCell m p v) = ta_set (cell_words m) (_cellIndex m p) v /\
  order_slots (setCell m p v) = order_slots m.
Proof.
  intros [Hd Hv]. apply typed_intro; cbn [setCell poMazeData visitOrder].
  - rewrite Hd. reflexivity.
  - exact Hv.
Qed.

Lemma setVisitOrder_typed m p o :
  typed m ->
  typed (setVisitOrder m p o) /\
  cell_words (setVisitOrder m p o) = cell_words m /\
  order_slots (setVisitOrder m p o) = ta_set (order_slots m) (_cellIndex m p) o.
Proof.
  intros [Hd Hv]. apply typed_intro; cbn [setVisitOrder poMazeData visitOrder].
  - exact Hd.
  - rewrite Hv. reflexivity.
Qed.

Lemma getCell_typed m p :
  typed m ->
  getCell m p
  = if in_grid m p then default 0 (ta_get (cell_words m) (_cellIndex m p)) else 0.
Proof. intros [Hd _]. unfold getCell. rewrite Hd. reflexivity. Qed.

Lemma getVisitOrder_typed m p :
  typed m -> getVisitOrder m p = ta_get (order_slots m) (_cellIndex m p).
Proof. intros [_ Hv]. unfold getVisitOrder. rewrite Hv. reflexivity. Qed.















(** The loop of [Reset] on two Int32Arrays, slot by slot. *)
Lemma Reset_loop_lookup n k data vo :
  exists data' vo',
    Reset_loop n (Z.of_nat k) (Int32Array data) (Int32Array vo)
    = (Int32Array data', Int32Array vo') /\
    length data' = length data /\ length vo' = length vo /\
    forall i : nat,
      data' !! i
      = (if bool_decide (k <= i < k + n)%nat
         then (fun v => ToInt32 (Z.land v Reset_mask)) <$> data !! i
         else data !! i) /\
      vo' !! i
      = (if bool_decide (k <= i < k + n)%nat
         then (fun _ => -1) <$> vo !! i
         else vo !! i).
Proof.
  revert k data vo. induction n as [|n IH]; intros k data vo; cbn [Reset_loop].
  - exists data, vo. repeat split; try reflexivity;
      rewrite bool_decide_eq_false_2 by lia; reflexivity.
  - cbv zeta. cbn [arr_set arr_get]. replace (Z.of_nat k + 1) with (Z.of_nat (S k)) by lia.
    destruct (IH (S k)
                (ta_set data (Z.of_nat k)
                        (Z.land (default 0 (ta_get data (Z.of_nat k))) Reset_mask))
                (ta_set vo (Z.of_nat k) (-1))) as (data' & vo' & E & L1 & L2 & I).
    exists data', vo'. rewrite E, L1, L2, !ta_set_length.
    split; [reflexivity|]. split; [reflexivity|]. split; [reflexivity|].
    intros i. destruct (I i) as [I1 I2]. rewrite I1, I2. clear IH I I1 I2 E L1 L2.
    unfold ta_set, ta_get. destruct (Z.leb_spec 0 (Z.of_nat k)); [|lia].
    rewrite Nat2Z.id.
    destruct (decide (i = k)) as [->|Hne].
    + rewrite (bool_decide_eq_false_2 (S k <= k < S k + n)%nat) by lia.
      rewrite (bool_decide_eq_true_2 (k <= k < k + S n)%nat) by lia.
      split.
      * destruct (data !! k) as [v|] eqn:E.
        -- rewrite list_lookup_insert_eq by (apply lookup_lt_Some in E; exact E).
           reflexivity.
        -- rewrite list_insert_ge by (apply lookup_ge_None in E; exact E).
           rewrite E. reflexivity.
      * destruct (vo !! k) as [v|] eqn:E.
        -- rewrite list_lookup_insert_eq by (apply lookup_lt_Some in E; exact E).
           reflexivity.
        -- rewrite list_insert_ge by (apply lookup_ge_None in E; exact E).
           rewrite E. reflexivity.
    + rewrite !list_lookup_insert_ne by congruence.
      destruct (bool_decide (S k <= i < S k + n)%nat) eqn:B.
      * apply bool_decide_eq_true_1 in B.
        rewrite bool_decide_eq_true_2 by lia. auto.
      * apply bool_decide_eq_false_1 in B.
        rewrite bool_decide_eq_false_2 by lia. auto.
Qed.

Lemma Reset_typed m :
  typed m ->
  typed (Reset m) /\
  length (cell_words (Reset m)) = length (cell_words m) /\
  length (order_slots (Reset m)) = length (order_slots m) /\
  forall i : nat,
    cell_words (Reset m) !! i
    = (fun v => ToInt32 (Z.land v Reset_mask)) <$> cell_words m !! i /\
    order_slots (Reset m) !! i
    = (if bool_decide (i < length (cell_words m))%nat
       then (fun _ => -1) <$> order_slots m !! i else order_slots m !! i).
Proof.
  intros [Hd Hv].
  destruct (Reset_loop_lookup (length (cell_words m)) 0 (cell_words m) (order_slots m))
    as (data' & vo' & E & L1 & L2 & I). change (Z.of_nat 0) with 0 in E.
  assert (R : Reset m = mkMaze (width m) (height m) (Int32Array data') (Int32Array vo') ∅).
  { unfold Reset. rewrite Hd, Hv. cbn [arr_length]. rewrite Nat2Z.id, E. reflexivity. }
  destruct (typed_intro (Reset m) data' vo') as [Ht [Ed Ev]];
    [rewrite R; reflexivity | rewrite R; reflexivity |].
  split; [exact Ht|]. rewrite Ed, Ev. split; [exact L1|]. split; [exact L2|].
  intros i. destruct (I i) as [I1 I2]. rewrite I1, I2. split.
  - destruct (bool_decide (0 <= i < 0 + length (cell_words m))%nat) eqn:B; [reflexivity|].
    apply bool_decide_eq_false_1 in B.
    rewrite (proj2 (lookup_ge_None (cell_words m) i)) by lia. reflexivity.
  - destruct (bool_decide (0 <= i < 0 + length (cell_words m))%nat) eqn:B.
    + apply bool_decide_eq_true_1 in B. rewrite bool_decide_eq_true_2 by lia. reflexivity.
    + apply bool_decide_eq_false_1 in B. rewrite bool_decide_eq_false_2 by lia.
      reflexivity.
Qed.

Lemma Reset_data m i :
  typed m ->
  cell_words (Reset m) !! i
  = (fun v => ToInt32 (Z.land v Reset_mask)) <$> cell_words m !! i.
Proof. intros Ht. apply (Reset_typed m Ht). Qed.

Lemma Reset_order m i :
  typed m ->
  order_slots (Reset m) !! i
  = (if bool_decide (i < length (cell_words m))%nat
     then (fun _ => -1) <$> order_slots m !! i else order_slots m !! i).
Proof. intros Ht. apply (Reset_typed m Ht). Qed.

Lemma Reset_lengths m :
  typed m ->
  length (cell_words (Reset m)) = length (cell_words m) /\
  length (order_slots (Reset m)) = length (order_slots m).
Proof. intros Ht. destruct (Reset_typed m Ht) as (_ & L1 & L2 & _). auto. Qed.

Lemma Reset_thread_ownership m : thread_ownership (Reset m) = ∅.
Proof. unfold Reset. destruct (Reset_loop _ _ _ _). reflexivity. Qed.

Lemma known_Reset_mask v : known v -> ToInt32 (Z.land v Reset_mask) = Z.land v 3.
Proof.
  intros H. assert (E : Z.land v Reset_mask = Z.land v 3).
  { unfold known in H. rewrite <- H. rewrite <- !Z.land_assoc. reflexivity. }
  rewrite E. apply known_ToInt32. apply known_land. exact H.
Qed.






(* ================================================================== *)
(** ** Branches                                                       *)
(* ================================================================== *)


Lemma live_cons d ds :
  Branches.live (d :: ds)
  = (if decide (d = Uninitialized) then 0 else 1) + Branches.live ds.
Proof.
  unfold Branches.live. rewrite filter_cons.
  destruct (decide (d <> Uninitialized)) as [H|H]; destruct (decide (d = Uninitialized));
    try contradiction; cbn [length]; lia.
Qed.





(* ================================================================== *)
(** ** The MT-M2 walker                                               *)
(* ================================================================== *)

(** C4.  A walker in CORRIDOR state that sees a collision at the next
    cell returns FOUND_TARGET, pushes the dummy junction for that cell,
    takes it as its target and writes nothing to the maze: team bits,
    owner and parent bits of the cell stay as they were. *)
Theorem corridor_collision_leaves_cell_untouched
    (t : DFSThread.t) (m : Maze) (target : Position) :
  DFSThread.finished t = false ->
  DFSThread.stack t <> [] ->
  DFSThread.state t = 1 ->
  DFSThread.target_pos t = Some target ->
  (if DFSThread.is_tb t
   then Pos.eq (Pos.move target (DFSThread.corridor_dir t)) (getEnd m)
        || isVisitedByTeam m (Pos.move target (DFSThread.corridor_dir t)) false
   else isVisitedByTeam m (Pos.move target (DFSThread.corridor_dir t)) true) = true ->
  exists t' m',
    DFSThread.step t m = (Some DFSThread.FOUND_TARGET, t', m') /\
    DFSThread.stack t'
    = DFSThread.stack t ++
        [mkJunction (Pos.move target (DFSThread.corridor_dir t))
                    (reverseDir (DFSThread.corridor_dir t))
                    (Branches.new m (Pos.move target (DFSThread.corridor_dir t))
                                  (DFSThread.id t))
                    false] /\
    DFSThread.target_pos t' = Some (Pos.move target (DFSThread.corridor_dir t)) /\
    m' = m /\
    (forall team,
        isVisitedByTeam m' (Pos.move target (DFSThread.corridor_dir t)) team
        = isVisitedByTeam m (Pos.move target (DFSThread.corridor_dir t)) team) /\
    getThreadOwner m' (Pos.move target (DFSThread.corridor_dir t))
    = getThreadOwner m (Pos.move target (DFSThread.corridor_dir t)) /\
    getDirectionRouteBT m' (Pos.move target (DFSThread.corridor_dir t))
    = getDirectionRouteBT m (Pos.move target (DFSThread.corridor_dir t)).
Proof.
  intros Hfin Hstack Hstate Htarget Hcoll.
  unfold DFSThread.step. rewrite Hfin, Hstate, Htarget.
  destruct (DFSThread.stack t) as [|j st] eqn:Est; [contradiction|].
  cbn [length orb]. destruct (Z.eqb_spec (Z.of_nat (S (length st))) 0) as [E|_]; [lia|].
  change (1 =? 0) with false. change (1 =? 1) with true. cbv iota.
  unfold DFSThread.step_corridor. cbv zeta. rewrite Hcoll.
  eexists _, m. split; [reflexivity|]. cbn. rewrite Est. auto 10.
Qed.

Lemma corridor_collision_leaves_cell_untouched_witness :
  let m := markVisitedTeam maze_snake (mkPosition 1 1) false in
  let t := DFSThread.mk 0 true
             [mkJunction (mkPosition 0 1) Uninitialized
                         (Branches.new m (mkPosition 0 1) 0) false]
             false 1 (Some (mkPosition 1 2)) West None in
  exists t' m',
    DFSThread.step t m = (Some DFSThread.FOUND_TARGET, t', m') /\
    DFSThread.stack t'
    = DFSThread.stack t ++
        [mkJunction (mkPosition 1 1) East
                    (Branches.new m (mkPosition 1 1) 0) false] /\
    DFSThread.target_pos t' = Some (mkPosition 1 1) /\
    m' = m /\
    (forall team,
        isVisitedByTeam m' (mkPosition 1 1) team = isVisitedByTeam m (mkPosition 1 1) team) /\
    getThreadOwner m' (mkPosition 1 1) = getThreadOwner m (mkPosition 1 1) /\
    getDirectionRouteBT m' (mkPosition 1 1) = getDirectionRouteBT m (mkPosition 1 1).
Proof.
  intros m t.
  apply (corridor_collision_leaves_cell_untouched t m (mkPosition 1 2));
    try reflexivity; discriminate.
Defined.

(* ================================================================== *)
(** ** Runs of the solvers on the small mazes                         *)
(* ================================================================== *)

(** C9.  On the one-cell maze BFS, DFS and MT-M1 end with FINISHED and
    the cell on the path.  MT-M2 does not: walker 0 reports FOUND_TARGET
    from its first junction step, where [target_pos] is still null, so
    the solver has [found] set and no collision cell, answers
    NO_SOLUTION and marks nothing. *)
Theorem one_cell_maze_runs :
  (exists m, BFSSolver.solve_step_by_step 4 maze_1x1
             = ([SEARCHING; BACKTRACKING; FINISHED], Completed m) /\
             on_path m (mkPosition 0 0) = true) /\
  (exists m, DFSSolver.solve_step_by_step 4 maze_1x1
             = ([SEARCHING; BACKTRACKING; FINISHED], Completed m) /\
             on_path m (mkPosition 0 0) = true) /\
  (exists m, MT_M1_Solver.solve_step_by_step 3 maze_1x1
             = ([SEARCHING; FINISHED], Completed m) /\
             on_path m (mkPosition 0 0) = true) /\
  (exists m, MTSolver.solve_step_by_step 3 maze_1x1
             = ([SEARCHING; NO_SOLUTION], Completed m) /\
             on_path m (mkPosition 0 0) = false).
Proof.
  repeat split; eexists; split; vm_compute; reflexivity.
Qed.

Lemma route_start_end m l :
  route m l -> getStart m <> getEnd m ->
  exists l' x, l = l' ++ [x; getEnd m].
Proof.
  intros [Hs He _ _] Hne.
  destruct l as [|a l] using rev_ind; [discriminate|].
  rewrite last_snoc in He. injection He as ->.
  destruct l as [|b l] using rev_ind.
  - cbn in Hs. congruence.
  - exists l, b. rewrite <- app_assoc. reflexivity.
Qed.

Lemma linked_app_inv m l1 l2 : linked m (l1 ++ l2) -> linked m l2.
Proof.
  induction l1 as [|a l1 IH]; [auto|]. intros H. apply IH.
  destruct l1 as [|b l1]; cbn in H.
  - destruct l2; [exact I | apply H].
  - apply H.
Qed.

(** A chain that ends at End got there from a cell of the chain through
    an open edge. *)
Lemma route_enters_end m l :
  path_marked m l -> getStart m <> getEnd m ->
  exists d, canMove m (Pos.move (getEnd m) (reverseDir d)) d = true /\
            in_grid m (Pos.move (getEnd m) (reverseDir d)) = true /\
            on_path m (Pos.move (getEnd m) (reverseDir d)) = true.
Proof.
  intros [Hr Hm] Hne. destruct (route_start_end m l Hr Hne) as (l' & x & ->).
  pose proof (route_linked m _ Hr) as HL. apply linked_app_inv in HL.
  destruct HL as [(d & Hc & Hmv) _].
  assert (Hx : x = Pos.move (getEnd m) (reverseDir d)).
  { rewrite <- Hmv. symmetry. apply move_back. }
  assert (Hg : in_grid m x = true).
  { pose proof (route_grid m _ Hr) as G. rewrite Forall_forall in G. apply G.
    rewrite elem_of_app. right. left. }
  exists d. rewrite <- Hx. repeat split; try assumption.
  apply Hm; [exact Hg|]. rewrite elem_of_app. right. left.
Qed.

(** C1 as stated fails for both multi-walker solvers.  On the snake maze
    MT-M2 ends with FINISHED and leaves (1,1), the only cell that leads
    into End, off the path; on the dead-end maze, where End cannot be
    reached at all, MT-M1 ends with FINISHED. *)
Lemma multi_walker_paths_are_broken :
  (exists toks m, MTSolver.solve_step_by_step 8 maze_snake = (toks, Completed m) /\
                  last toks = Some FINISHED /\
                  ~ exists l, path_marked m l) /\
  (exists toks m, MT_M1_Solver.solve_step_by_step 4 maze_deadend = (toks, Completed m) /\
                  last toks = Some FINISHED /\
                  ~ exists l, path_marked m l).
Proof.
  split.
  - eexists _, _. split; [vm_compute; reflexivity|]. split; [reflexivity|].
    intros [l Hl]. apply route_enters_end in Hl; [|vm_compute; discriminate].
    destruct Hl as (d & Hc & Hg & Hp).
    destruct d; vm_compute in Hc, Hg, Hp; discriminate.
  - eexists _, _. split; [vm_compute; reflexivity|]. split; [reflexivity|].
    intros [l Hl]. apply route_enters_end in Hl; [|vm_compute; discriminate].
    destruct Hl as (d & Hc & Hg & Hp).
    destruct d; vm_compute in Hc, Hg, Hp; discriminate.
Qed.

(** A chain cannot span more rows than it has cells. *)
Lemma linked_rows m l a b :
  linked m l -> head l = Some a -> last l = Some b ->
  row b - row a < Z.of_nat (length l).
Proof.
  revert a. induction l as [|x l IH]; intros a HL Hh Ht; [discriminate|].
  injection Hh as ->. destruct l as [|y l].
  - cbn in Ht. injection Ht as ->. cbn. lia.
  - destruct HL as [(d & _ & Hmv) HL].
    specialize (IH y HL eq_refl Ht).
    assert (row y <= row a + 1).
    { rewrite <- Hmv. destruct a, d; cbn; lia. }
    cbn [length] in *. lia.
Qed.

Lemma open3_distance : distance_in_cells maze_open3 3.
Proof.
  split.
  - exists [mkPosition 0 1; mkPosition 1 1; mkPosition 2 1]. split; [|reflexivity].
    split; try reflexivity.
    + repeat constructor.
    + cbn. repeat split; exists South; split; vm_compute; reflexivity.
  - intros l [Hs He _ HL].
    pose proof (linked_rows _ _ _ _ HL Hs He) as H.
    change (row (getEnd maze_open3)) with 2 in H.
    change (row (getStart maze_open3)) with 0 in H. lia.
Qed.

(** C3 as stated fails on the open three-by-three maze: End is three
    cells away from Start, the visit order stored at End is 4, and three
    cells are on the path. *)
Lemma BFS_visit_order_is_not_the_distance :
  exists toks m,
    BFSSolver.solve_step_by_step 10 maze_open3 = (toks, Completed m) /\
    last toks = Some FINISHED /\
    distance_in_cells maze_open3 3 /\
    getVisitOrder m (getEnd m) = Some 4 /\
    on_path_count m = 3%nat.
Proof.
  eexists _, _. split; [vm_compute; reflexivity|]. split; [reflexivity|].
  split; [exact open3_distance|split; vm_compute; reflexivity].
Qed.

(** How [drive] composes, and what it gives on a state that yields
    without changing. *)
Lemma drive_app {S : Type} (next : S -> Maze -> IterResult * S * Maze) a b s m ts s' m' :
  drive next a s m = (ts, Suspended s' m') ->
  (length ts = a)%nat ->
  drive next (a + b) s m
  = (ts ++ fst (drive next b s' m'), snd (drive next b s' m')).
Proof.
  revert s m ts. induction a as [|a IH]; intros s m ts H L.
  - cbn in H. injection H as <- <- <-. cbn. destruct (drive next b s m); reflexivity.
  - cbn [drive Nat.add] in *. destruct (next s m) as [[[t| |e|] s1] m1].
    + destruct (drive next a s1 m1) as [ts1 o1] eqn:E. injection H as <- ->.
      cbn [length] in L. rewrite (IH s1 m1 ts1 E) by lia. reflexivity.
    + injection H as <- ?. discriminate.
    + injection H as <- ?. discriminate.
    + injection H as <- ?. discriminate.
Qed.

Lemma drive_stuck {S : Type} (next : S -> Maze -> IterResult * S * Maze) t s m n :
  next s m = (Yield t, s, m) ->
  drive next n s m = (repeat t n, Suspended s m).
Proof.
  intros H. induction n as [|n IH]; [reflexivity|].
  cbn [drive]. rewrite H, IH. reflexivity.
Qed.

Lemma MT_M1_solve_unfold n m :
  MT_M1_Solver.solve_step_by_step n m
  = drive MT_M1_Solver.next n (MT_M1_Solver.Start (fst (MT_M1_Solver.new m)))
          (snd (MT_M1_Solver.new m)).
Proof.
  unfold MT_M1_Solver.solve_step_by_step. destruct (MT_M1_Solver.new m). reflexivity.
Qed.

Lemma MT_M1_walled_fixed_point :
  exists s m,
    MT_M1_Solver.solve_step_by_step 3 maze_walled
    = (repeat SEARCHING 3, Suspended s m) /\
    MT_M1_Solver.next s m = (Yield SEARCHING, s, m).
Proof. eexists _, _. split; [vm_compute; reflexivity | vm_compute; reflexivity]. Qed.

(** On the maze whose Start is walled off MT-M1 yields SEARCHING for
    ever: the walker gives up, the queue of the backward search runs
    dry without its [finished] flag being set, and the main loop goes
    on. *)
Lemma MT_M1_walled_runs n :
  exists s m,
    MT_M1_Solver.solve_step_by_step n maze_walled = (repeat SEARCHING n, Suspended s m).
Proof.
  destruct (le_lt_dec 3 n) as [Hn|Hn].
  - destruct MT_M1_walled_fixed_point as (s & m & H3 & Hfix).
    exists s, m. rewrite MT_M1_solve_unfold in H3 |- *.
    replace n with (3 + (n - 3))%nat by lia.
    rewrite (drive_app _ 3 (n - 3) _ _ _ _ _ H3 eq_refl).
    rewrite (drive_stuck _ SEARCHING s m (n - 3) Hfix). cbn [fst snd].
    rewrite <- repeat_app. reflexivity.
  - destruct n as [|[|[|n]]]; [| | |lia]; eexists _, _; vm_compute; reflexivity.
Qed.

(* ================================================================== *)
(** ** Cells of the grid and updates of one cell                      *)
(* ================================================================== *)

Lemma cellIndex_range m p :
  0 < width m -> in_grid m p = true -> 0 <= _cellIndex m p < cells m.
Proof.
  intros Hw Hp. apply in_grid_spec in Hp. unfold _cellIndex, cells. nia.
Qed.

Lemma cellIndex_inj m p q :
  in_grid m p = true -> in_grid m q = true ->
  _cellIndex m p = _cellIndex m q -> p = q.
Proof.
  intros Hp Hq E. apply in_grid_spec in Hp, Hq. unfold _cellIndex in E.
  destruct p as [r c], q as [r' c']. cbn in *.
  assert (r = r') by nia. subst r'. f_equal. lia.
Qed.

Lemma in_grid_dims m m' p :
  width m' = width m -> height m' = height m -> in_grid m' p = in_grid m p.
Proof. intros Hw Hh. unfold in_grid. rewrite Hw, Hh. reflexivity. Qed.

Lemma getCell_in_grid m p :
  typed m -> in_grid m p = true ->
  getCell m p = default 0 (ta_get (cell_words m) (_cellIndex m p)).
Proof. intros Ht H. rewrite (getCell_typed m p Ht), H. reflexivity. Qed.

Lemma getCell_outside m p : in_grid m p = false -> getCell m p = 0.
Proof. intros H. unfold getCell. rewrite H. reflexivity. Qed.

Lemma grid_ok_known m p : grid_ok m -> known (getCell m p).
Proof.
  intros H. rewrite (getCell_typed m p (go_typed m H)).
  destruct (in_grid m p); [|apply known_0].
  destruct (ta_get (cell_words m) (_cellIndex m p)) as [v|] eqn:E; [|apply known_0].
  exact (ta_get_Forall known _ _ _ (go_known m H) E).
Qed.

Lemma setCell_update m p f :
  grid_ok m -> in_grid m p = true -> (forall v, known v -> known (f v)) ->
  cell_update m (setCell m p (f (getCell m p))) p f.
Proof.
  intros Hok Hp Hf.
  pose proof (cellIndex_range m p (go_width m Hok) Hp) as Hr.
  pose proof (Hf _ (grid_ok_known m p Hok)) as Hk.
  destruct (setCell_typed m p (f (getCell m p)) (go_typed m Hok)) as [Ht' [Ed Ev]].
  split; try reflexivity.
  - intros q. rewrite (getCell_typed _ q Ht'), Ed.
    rewrite (in_grid_dims m (setCell m p _) q) by reflexivity.
    destruct (in_grid m q) eqn:Hq.
    + change (_cellIndex (setCell m p _) q) with (_cellIndex m q).
      destruct (decide (p = q)) as [->|Hne].
      * rewrite ta_get_set_eq by (rewrite (go_data m Hok); lia).
        cbn. apply known_ToInt32. exact Hk.
      * rewrite ta_get_set_ne.
        -- rewrite (getCell_in_grid m q (go_typed m Hok) Hq). reflexivity.
        -- intros E. apply Hne. exact (cellIndex_inj m p q Hp Hq E).
    + destruct (decide (p = q)) as [->|Hne]; [congruence|].
      rewrite (getCell_outside m q Hq). reflexivity.
  - destruct Hok. split; try exact Ht'; rewrite ?Ed, ?Ev;
      cbn [setCell width height]; try assumption.
    + unfold cells in *. cbn. rewrite ta_set_length. assumption.
    + apply ta_set_Forall; [assumption|]. rewrite known_ToInt32; exact Hk.
Qed.

Lemma cell_update_compose m m1 m2 p f g :
  cell_update m m1 p f -> cell_update m1 m2 p g ->
  cell_update m m2 p (fun v => g (f v)).
Proof.
  intros [W1 H1 O1 C1 K1] [W2 H2 O2 C2 K2].
  split; try congruence.
  intros q. rewrite C2. destruct (decide (p = q)) as [->|Hne].
  - rewrite C1. destruct (decide (q = q)); [reflexivity|contradiction].
  - rewrite C1. destruct (decide (p = q)); [contradiction|reflexivity].
Qed.

Lemma cell_update_ext m m' p f g :
  (forall v, f v = g v) -> cell_update m m' p f -> cell_update m m' p g.
Proof.
  intros E [W H O C K]. split; try assumption.
  intros q. rewrite C. destruct (decide (p = q)); [apply E|reflexivity].
Qed.

Lemma cell_update_in_grid m m' p f q :
  cell_update m m' p f -> in_grid m' q = in_grid m q.
Proof. intros [W H _ _ _]. apply in_grid_dims; assumption. Qed.

Lemma _setFlag_update m p b :
  grid_ok m -> in_grid m p = true -> known b ->
  cell_update m (_setFlag m p b) p (fun v => Z.lor v b).
Proof.
  intros Hok Hp Hb. apply (setCell_update m p (fun v => Z.lor v b)); try assumption.
  intros v Hv. apply known_lor; assumption.
Qed.

Lemma _clearFlag_update m p b :
  grid_ok m -> in_grid m p = true ->
  cell_update m (_clearFlag m p b) p (fun v => Z.land v (Z.lnot b)).
Proof.
  intros Hok Hp. apply (setCell_update m p (fun v => Z.land v (Z.lnot b))); try assumption.
  intros v Hv. apply known_land; assumption.
Qed.

Lemma setDirectionRouteBT_update m p d :
  grid_ok m -> in_grid m p = true ->
  cell_update m (setDirectionRouteBT m p d) p (route_word d).
Proof.
  intros Hok Hp.
  assert (E : setDirectionRouteBT m p d = setCell m p (route_word d (getCell m p))).
  { unfold setDirectionRouteBT, route_word. destruct d; reflexivity. }
  rewrite E. apply setCell_update; try assumption.
  intros v Hv. unfold route_word.
  assert (K : known (Z.lor (Z.land v (Z.lnot PARENT_MASK)) VISITED_BIT)).
  { apply known_lor; [apply known_land; exact Hv | reflexivity]. }
  destruct d; try (apply known_lor; [exact K | reflexivity]). exact K.
Qed.

Lemma markPath_update m p :
  grid_ok m -> in_grid m p = true ->
  cell_update m (markPath m p) p (fun v => Z.lor v PATH_BIT).
Proof. intros. apply _setFlag_update; try assumption. reflexivity. Qed.

Lemma markOnStack_update m p b :
  grid_ok m -> in_grid m p = true ->
  cell_update m (markOnStack m p b) p
    (fun v => if b then Z.lor v ON_STACK_BIT else Z.land v (Z.lnot ON_STACK_BIT)).
Proof.
  intros. destruct b; [apply _setFlag_update; try assumption; reflexivity
                      | apply _clearFlag_update; assumption].
Qed.

Lemma markDeadJunction_update m p :
  grid_ok m -> in_grid m p = true ->
  cell_update m (markDeadJunction m p) p
    (fun v => Z.lor (Z.land (Z.land v (Z.lnot VISITED_TB)) (Z.lnot VISITED_BT))
                    DEAD_JUNCTION_BIT).
Proof.
  intros Hok Hp. unfold markDeadJunction.
  pose proof (_clearFlag_update m p VISITED_TB Hok Hp) as U1.
  pose proof (_clearFlag_update _ p VISITED_BT (cu_ok _ _ _ _ U1)
                ltac:(rewrite (cell_update_in_grid _ _ _ _ p U1); exact Hp)) as U2.
  pose proof (_setFlag_update _ p DEAD_JUNCTION_BIT (cu_ok _ _ _ _ U2)
                ltac:(rewrite (cell_update_in_grid _ _ _ _ p U2),
                              (cell_update_in_grid _ _ _ _ p U1); exact Hp)
                ltac:(reflexivity)) as U3.
  exact (cell_update_compose _ _ _ _ _ _ (cell_update_compose _ _ _ _ _ _ U1 U2) U3).
Qed.

Ltac bits :=
  repeat (rewrite Z.land_lor_distr_l);
  repeat (rewrite <- Z.land_assoc);
  cbn;
  rewrite ?Z.land_0_r, ?Z.lor_0_r; try reflexivity.

Lemma keeps_route_word_walls d : keeps 3 (route_word d).
Proof. intros v. unfold route_word. destruct d; bits. Qed.

Lemma keeps_route_word_path d : keeps PATH_BIT (route_word d).
Proof. intros v. unfold route_word. destruct d; bits. Qed.

Lemma dir_of_mask v : dir_of (Z.land v PARENT_MASK) = dir_of v.
Proof. unfold dir_of. rewrite <- !Z.land_assoc. reflexivity. Qed.

Lemma keeps_dir_of f v : keeps PARENT_MASK f -> dir_of (f v) = dir_of v.
Proof. intros H. rewrite <- (dir_of_mask (f v)), H. apply dir_of_mask. Qed.

Lemma dir_of_route_word d v : d <> Uninitialized -> dir_of (route_word d v) = d.
Proof.
  intros Hd. rewrite <- dir_of_mask.
  assert (E : Z.land (route_word d v) PARENT_MASK
              = match d with
                | North => PARENT_NORTH | East => PARENT_EAST
                | South => PARENT_SOUTH | West => PARENT_WEST
                | Uninitialized => 0
                end).
  { unfold route_word. destruct d; bits. }
  rewrite E. destruct d; reflexivity.
Qed.

Lemma getDirectionRouteBT_dir_of m p : getDirectionRouteBT m p = dir_of (getCell m p).
Proof. reflexivity. Qed.

Lemma keeps_lor mask b : Z.land b mask = 0 -> keeps mask (fun v => Z.lor v b).
Proof. intros H v. rewrite Z.land_lor_distr_l, H. apply Z.lor_0_r. Qed.

Lemma keeps_land mask b : Z.land b mask = mask -> keeps mask (fun v => Z.land v b).
Proof. intros H v. rewrite <- Z.land_assoc, H. reflexivity. Qed.

Lemma keeps_compose mask f g : keeps mask f -> keeps mask g -> keeps mask (fun v => g (f v)).
Proof. intros Hf Hg v. rewrite Hg, Hf. reflexivity. Qed.

(* ================================================================== *)
(** ** Visit order, walls and what a cell update preserves            *)
(* ================================================================== *)

Lemma getVisitOrder_order m p :
  grid_ok m -> in_grid m p = true -> getVisitOrder m p = Some (order m p).
Proof.
  intros Hok Hp. pose proof (cellIndex_range m p (go_width m Hok) Hp) as Hr.
  unfold order. rewrite (getVisitOrder_typed m p (go_typed m Hok)). unfold ta_get.
  destruct (Z.leb_spec 0 (_cellIndex m p)); [|lia].
  destruct (order_slots m !! Z.to_nat (_cellIndex m p)) as [o|] eqn:E; [reflexivity|].
  apply lookup_ge_None in E. rewrite (go_order m Hok) in E. lia.
Qed.

Lemma unvisited_test m p :
  grid_ok m -> in_grid m p = true ->
  bool_decide (getVisitOrder m p = Some (-1)) = bool_decide (order m p = -1).
Proof.
  intros Hok Hp. rewrite (getVisitOrder_order m p Hok Hp).
  apply bool_decide_ext. split; [intros [= ->]; reflexivity | intros ->; reflexivity].
Qed.

Lemma setVisitOrder_grid_ok m p o : grid_ok m -> grid_ok (setVisitOrder m p o).
Proof.
  intros Hok. destruct (setVisitOrder_typed m p o (go_typed m Hok)) as [Ht' [Ed Ev]].
  destruct Hok. split; try exact Ht'; rewrite ?Ed, ?Ev;
    cbn [setVisitOrder width height]; try assumption.
  unfold cells in *. cbn. rewrite ta_set_length. assumption.
Qed.

Lemma setVisitOrder_getCell m p o q : getCell (setVisitOrder m p o) q = getCell m q.
Proof. reflexivity. Qed.

Lemma setVisitOrder_in_grid m p o q : in_grid (setVisitOrder m p o) q = in_grid m q.
Proof. reflexivity. Qed.

Lemma order_setVisitOrder m p o q :
  grid_ok m -> in_grid m p = true -> in_grid m q = true ->
  - 2 ^ 31 <= o < 2 ^ 31 ->
  order (setVisitOrder m p o) q = if decide (p = q) then o else order m q.
Proof.
  intros Hok Hp Hq Ho.
  pose proof (cellIndex_range m p (go_width m Hok) Hp) as Hr.
  destruct (setVisitOrder_typed m p o (go_typed m Hok)) as [Ht' [Ed Ev]].
  unfold order. rewrite (getVisitOrder_typed _ q Ht'), Ev.
  rewrite (getVisitOrder_typed m q (go_typed m Hok)).
  change (_cellIndex (setVisitOrder m p o) q) with (_cellIndex m q).
  destruct (decide (p = q)) as [->|Hne].
  - rewrite ta_get_set_eq by (rewrite (go_order m Hok); lia).
    cbn. apply ToInt32_small. exact Ho.
  - rewrite ta_get_set_ne; [reflexivity|].
    intros E. apply Hne. exact (cellIndex_inj m p q Hp Hq E).
Qed.

Lemma filter_insert_count (l : list Z) i v :
  l !! i = Some (-1) -> v <> -1 ->
  S (length (filter (fun x => x = -1) (<[i:=v]> l)))
  = length (filter (fun x => x = -1) l).
Proof.
  revert i. induction l as [|x l IH]; intros i Hi Hv; [discriminate|].
  destruct i as [|i]; cbn in Hi.
  - injection Hi as ->. cbn [insert list_insert]. rewrite !filter_cons.
    destruct (decide (v = -1)); [contradiction|].
    destruct (decide (-1 = -1)); [|contradiction]. reflexivity.
  - cbn [insert list_insert]. rewrite !filter_cons.
    specialize (IH i Hi Hv).
    destruct (decide (x = -1)); cbn [length]; [f_equal|]; exact IH.
Qed.

Lemma unvisited_count_visit m p o :
  grid_ok m -> in_grid m p = true -> order m p = -1 ->
  0 <= o < 2 ^ 31 ->
  S (unvisited_count (setVisitOrder m p o)) = unvisited_count m.
Proof.
  intros Hok Hp Ho Hr.
  pose proof (cellIndex_range m p (go_width m Hok) Hp) as Hi.
  pose proof (getVisitOrder_order m p Hok Hp) as E. rewrite Ho in E.
  rewrite (getVisitOrder_typed m p (go_typed m Hok)) in E. unfold ta_get in E.
  destruct (setVisitOrder_typed m p o (go_typed m Hok)) as [_ [_ Ev]].
  unfold unvisited_count. rewrite Ev. unfold ta_set.
  destruct (Z.leb_spec 0 (_cellIndex m p)); [|lia].
  apply filter_insert_count; [exact E|].
  rewrite ToInt32_small by lia. lia.
Qed.

Lemma hasFlag_land m p b :
  _hasFlag m p b = negb (Z.land (getCell m p) b =? 0).
Proof. reflexivity. Qed.

Lemma canMove_same_walls m0 m p d :
  same_walls m0 m -> canMove m p d = canMove m0 p d.
Proof.
  intros (Hw & Hh & Hc).
  assert (HS : forall q, _hasFlag m q SOUTH_BIT = _hasFlag m0 q SOUTH_BIT).
  { intros q. rewrite !hasFlag_land.
    change SOUTH_BIT with (Z.land 3 SOUTH_BIT). rewrite !Z.land_assoc, Hc. reflexivity. }
  assert (HE : forall q, _hasFlag m q EAST_BIT = _hasFlag m0 q EAST_BIT).
  { intros q. rewrite !hasFlag_land.
    change EAST_BIT with (Z.land 3 EAST_BIT). rewrite !Z.land_assoc, Hc. reflexivity. }
  unfold canMove. rewrite Hw, Hh. destruct d; rewrite ?HS, ?HE; reflexivity.
Qed.

Lemma canMove_in_grid m p d :
  in_grid m p = true -> canMove m p d = true -> in_grid m (Pos.move p d) = true.
Proof.
  intros Hp Hc. apply in_grid_spec in Hp. apply in_grid_spec.
  destruct p as [r c]. unfold canMove in Hc. destruct d; cbn in *.
  - destruct (Z.eqb_spec r 0); [discriminate|]. lia.
  - destruct (Z.eqb_spec c (width m - 1)); [discriminate|]. lia.
  - destruct (Z.eqb_spec r (height m - 1)); [discriminate|]. lia.
  - destruct (Z.eqb_spec c 0); [discriminate|]. lia.
  - discriminate.
Qed.

Lemma canMove_not_Uninitialized m p d : canMove m p d = true -> d <> Uninitialized.
Proof. intros H ->. discriminate. Qed.

Lemma canMove_back m p d :
  in_grid m p = true -> canMove m p d = true ->
  canMove m (Pos.move p d) (reverseDir d) = true.
Proof.
  intros Hp Hc. pose proof (canMove_in_grid m p d Hp Hc) as Hq.
  apply in_grid_spec in Hp, Hq.
  destruct p as [r c]. unfold canMove in *. destruct d; cbn in *.
  - destruct (Z.eqb_spec r 0); [discriminate|].
    destruct (Z.eqb_spec (r - 1) (height m - 1)); [lia|]. exact Hc.
  - destruct (Z.eqb_spec c (width m - 1)); [discriminate|].
    destruct (Z.eqb_spec (c + 1) 0); [lia|].
    replace (c + 1 - 1) with c by lia. exact Hc.
  - destruct (Z.eqb_spec r (height m - 1)); [discriminate|].
    destruct (Z.eqb_spec (r + 1) 0); [lia|].
    replace (r + 1 - 1) with r by lia. exact Hc.
  - destruct (Z.eqb_spec c 0); [discriminate|].
    destruct (Z.eqb_spec (c - 1) (width m - 1)); [lia|]. exact Hc.
  - discriminate.
Qed.

Lemma reverseDir_involutive d : reverseDir (reverseDir d) = d.
Proof. destruct d; reflexivity. Qed.

Lemma parent_of_reverseDir d : parent_of d = reverseDir d.
Proof. destruct d; reflexivity. Qed.

Lemma move_forth p d : Pos.move (Pos.move p (reverseDir d)) d = p.
Proof. destruct p as [r c], d; cbn; f_equal; lia. Qed.

Lemma Pos_eq_spec p q : Pos.eq p q = true <-> p = q.
Proof.
  unfold Pos.eq. rewrite andb_true_iff, !Z.eqb_eq.
  destruct p, q; cbn. split; [intros [-> ->]; reflexivity | intros [= -> ->]; auto].
Qed.

Lemma Pos_eq_false p q : Pos.eq p q = false <-> p <> q.
Proof.
  rewrite <- Pos_eq_spec. destruct (Pos.eq p q); split; intros; congruence.
Qed.

Section CellUpdate.
Variables (m m' : Maze) (p : Position) (f : Z -> Z).
Hypothesis U : cell_update m m' p f.

Lemma cu_order_eq q : order m' q = order m q.
Proof.
  unfold order, getVisitOrder, _cellIndex.
  rewrite (cu_order _ _ _ _ U), (cu_width _ _ _ _ U). reflexivity.
Qed.

Lemma cu_unvisited : unvisited_count m' = unvisited_count m.
Proof.
  unfold unvisited_count, order_slots. rewrite (cu_order _ _ _ _ U). reflexivity.
Qed.

Lemma cu_cells : cells m' = cells m.
Proof. unfold cells. rewrite (cu_width _ _ _ _ U), (cu_height _ _ _ _ U). reflexivity. Qed.

Lemma cu_start : getStart m' = getStart m.
Proof. unfold getStart. rewrite (cu_width _ _ _ _ U). reflexivity. Qed.

Lemma cu_end : getEnd m' = getEnd m.
Proof.
  unfold getEnd. rewrite (cu_width _ _ _ _ U), (cu_height _ _ _ _ U). reflexivity.
Qed.

Lemma cu_land mask q : keeps mask f ->
  Z.land (getCell m' q) mask = Z.land (getCell m q) mask.
Proof.
  intros K. rewrite (cu_cell _ _ _ _ U).
  destruct (decide (p = q)) as [->|]; [apply K | reflexivity].
Qed.

Lemma cu_same_walls m0 : keeps 3 f -> same_walls m0 m -> same_walls m0 m'.
Proof.
  intros K (Hw & Hh & Hc). split; [|split].
  - rewrite (cu_width _ _ _ _ U). exact Hw.
  - rewrite (cu_height _ _ _ _ U). exact Hh.
  - intros q. rewrite (cu_land 3 q K). apply Hc.
Qed.

Lemma cu_canMove q d : keeps 3 f -> canMove m' q d = canMove m q d.
Proof.
  intros K. apply canMove_same_walls. split; [|split].
  - exact (cu_width _ _ _ _ U).
  - exact (cu_height _ _ _ _ U).
  - intros r. apply cu_land. exact K.
Qed.

Lemma cu_on_path q : keeps PATH_BIT f -> on_path m' q = on_path m q.
Proof.
  intros K. unfold on_path. rewrite !hasFlag_land, (cu_land _ q K). reflexivity.
Qed.

Lemma cu_dir q : keeps PARENT_MASK f ->
  getDirectionRouteBT m' q = getDirectionRouteBT m q.
Proof.
  intros K. rewrite !getDirectionRouteBT_dir_of, (cu_cell _ _ _ _ U).
  destruct (decide (p = q)) as [->|]; [apply keeps_dir_of; exact K | reflexivity].
Qed.

Lemma cu_dir_other q : p <> q ->
  getDirectionRouteBT m' q = getDirectionRouteBT m q.
Proof.
  intros Hne. rewrite !getDirectionRouteBT_dir_of, (cu_cell _ _ _ _ U).
  destruct (decide (p = q)); [contradiction | reflexivity].
Qed.

Lemma cu_isJunction q : keeps 3 f -> isJunction m' q = isJunction m q.
Proof. intros K. unfold isJunction. rewrite !cu_canMove by exact K. reflexivity. Qed.
End CellUpdate.

(* ================================================================== *)
(** ** Visiting a cell                                                *)
(* ================================================================== *)

Lemma visit_update_make m m1 m2 n f o :
  cell_update m m1 n f -> m2 = setVisitOrder m1 n o ->
  grid_ok m -> in_grid m n = true -> order m n = -1 -> 0 <= o < 2 ^ 31 ->
  visit_update m m2 n f o.
Proof.
  intros U -> Hok Hn Ho Hr.
  pose proof (cu_ok _ _ _ _ U) as Hok1.
  assert (Hg : forall q, in_grid m1 q = in_grid m q)
    by (intros q; apply (cell_update_in_grid _ _ _ _ q U)).
  split.
  - exact (cu_width _ _ _ _ U).
  - exact (cu_height _ _ _ _ U).
  - intros q. rewrite setVisitOrder_getCell. apply (cu_cell _ _ _ _ U).
  - intros q Hq. rewrite order_setVisitOrder; try rewrite Hg; try assumption; [|lia].
    destruct (decide (n = q)); [reflexivity|]. apply (cu_order_eq _ _ _ _ U).
  - rewrite unvisited_count_visit; try rewrite Hg; try assumption.
    + apply (cu_unvisited _ _ _ _ U).
    + rewrite (cu_order_eq _ _ _ _ U). exact Ho.
  - apply setVisitOrder_grid_ok. exact Hok1.
Qed.

Section VisitUpdate.
Variables (m m' : Maze) (n : Position) (f : Z -> Z) (o : Z).
Hypothesis U : visit_update m m' n f o.

Lemma vu_in_grid q : in_grid m' q = in_grid m q.
Proof. apply in_grid_dims; [exact (vu_width _ _ _ _ _ U) | exact (vu_height _ _ _ _ _ U)]. Qed.

Lemma vu_cells : cells m' = cells m.
Proof.
  unfold cells. rewrite (vu_width _ _ _ _ _ U), (vu_height _ _ _ _ _ U). reflexivity.
Qed.

Lemma vu_start : getStart m' = getStart m.
Proof. unfold getStart. rewrite (vu_width _ _ _ _ _ U). reflexivity. Qed.

Lemma vu_end : getEnd m' = getEnd m.
Proof.
  unfold getEnd. rewrite (vu_width _ _ _ _ _ U), (vu_height _ _ _ _ _ U). reflexivity.
Qed.

Lemma vu_land mask q : keeps mask f ->
  Z.land (getCell m' q) mask = Z.land (getCell m q) mask.
Proof.
  intros K. rewrite (vu_cell _ _ _ _ _ U).
  destruct (decide (n = q)) as [->|]; [apply K | reflexivity].
Qed.

Lemma vu_same_walls m0 : keeps 3 f -> same_walls m0 m -> same_walls m0 m'.
Proof.
  intros K (Hw & Hh & Hc). split; [|split].
  - rewrite (vu_width _ _ _ _ _ U). exact Hw.
  - rewrite (vu_height _ _ _ _ _ U). exact Hh.
  - intros q. rewrite (vu_land 3 q K). apply Hc.
Qed.

Lemma vu_canMove q d : keeps 3 f -> canMove m' q d = canMove m q d.
Proof.
  intros K. apply canMove_same_walls. split; [|split].
  - exact (vu_width _ _ _ _ _ U).
  - exact (vu_height _ _ _ _ _ U).
  - intros r. apply vu_land. exact K.
Qed.

Lemma vu_on_path q : keeps PATH_BIT f -> on_path m' q = on_path m q.
Proof.
  intros K. unfold on_path. rewrite !hasFlag_land, (vu_land _ q K). reflexivity.
Qed.

Lemma vu_dir_other q : n <> q ->
  getDirectionRouteBT m' q = getDirectionRouteBT m q.
Proof.
  intros Hne. rewrite !getDirectionRouteBT_dir_of, (vu_cell _ _ _ _ _ U).
  destruct (decide (n = q)); [contradiction | reflexivity].
Qed.

Lemma vu_dir_new : getDirectionRouteBT m' n = dir_of (f (getCell m n)).
Proof.
  rewrite getDirectionRouteBT_dir_of, (vu_cell _ _ _ _ _ U).
  destruct (decide (n = n)); [reflexivity | contradiction].
Qed.

Lemma vu_order_new : in_grid m n = true -> order m' n = o.
Proof.
  intros Hn. rewrite (vu_order _ _ _ _ _ U) by exact Hn.
  destruct (decide (n = n)); [reflexivity | contradiction].
Qed.

Lemma vu_order_other q : in_grid m q = true -> n <> q -> order m' q = order m q.
Proof.
  intros Hq Hne. rewrite (vu_order _ _ _ _ _ U) by exact Hq.
  destruct (decide (n = q)); [contradiction | reflexivity].
Qed.

Lemma vu_order_old q : in_grid m q = true -> order m n = -1 -> 0 <= order m q ->
  order m' q = order m q.
Proof.
  intros Hq Hn Ho. apply vu_order_other; [exact Hq|]. intros ->. lia.
Qed.
End VisitUpdate.

Lemma bfs_visit_update m n d vc :
  grid_ok m -> in_grid m n = true -> order m n = -1 -> 0 <= vc < 2 ^ 31 ->
  visit_update m (setVisitOrder (setDirectionRouteBT m n (parent_of d)) n vc) n
               (route_word (parent_of d)) vc.
Proof.
  intros Hok Hn Ho Hr.
  apply (visit_update_make m (setDirectionRouteBT m n (parent_of d))); try assumption;
    [|reflexivity].
  apply setDirectionRouteBT_update; assumption.
Qed.

(* ================================================================== *)
(** ** Breadth-first search: the expansion of one cell                *)
(* ================================================================== *)

Lemma bfs_mid_visit m0 m m' cur q vc dep done d :
  bfs_mid m0 m cur q vc dep done ->
  canMove m cur d = true ->
  order m (Pos.move cur d) = -1 ->
  visit_update m m' (Pos.move cur d) (route_word (parent_of d)) vc ->
  bfs_mid m0 m' cur (q ++ [Pos.move cur d]) (vc + 1)
          (fun x => if decide (x = Pos.move cur d) then dep cur + 1 else dep x)
          (done ++ [d]).
Proof.
  intros [C (Hcg & Hc0 & Hco) Hcl Hfr] Hmv Hun U.
  assert (Hback : Pos.move (Pos.move cur d) (reverseDir d) = cur) by apply move_back.
  pose proof (canMove_in_grid m cur d Hcg Hmv) as Hn.
  pose proof (canMove_back m cur d Hcg Hmv) as Hcb.
  remember (Pos.move cur d) as n eqn:En'.
  assert (Hne : cur <> n) by (intros E; rewrite E in Hc0; lia).
  pose proof (keeps_route_word_walls (parent_of d)) as Kw.
  pose proof (keeps_route_word_path (parent_of d)) as Kp.
  assert (G : forall x, in_grid m' x = in_grid m x) by (intros; eapply vu_in_grid; eauto).
  assert (Onew : order m' n = vc) by (eapply vu_order_new; eauto).
  assert (Oold : forall x, in_grid m x = true -> x <> n -> order m' x = order m x).
  { intros x Hx Hxn. eapply vu_order_other; eauto. }
  assert (CM : forall x e, canMove m' x e = canMove m x e)
    by (intros; eapply vu_canMove; eauto).
  assert (St : getStart m' = getStart m) by (eapply vu_start; eauto).
  assert (En : getEnd m' = getEnd m) by (eapply vu_end; eauto).
  assert (V : forall x, visited_cell m' x -> x <> n -> visited_cell m x).
  { intros x [Hx Ho] Hxn. rewrite G in Hx. split; [exact Hx|].
    rewrite <- (Oold x Hx Hxn). exact Ho. }
  assert (Hlen : Z.of_nat (length (q ++ [n])) = Z.of_nat (length q) + 1).
  { rewrite length_app. cbn. lia. }
  assert (Ha : vc + 1 - Z.of_nat (length (q ++ [n])) = vc - Z.of_nat (length q)) by lia.
  pose proof (bc_done _ _ _ _ _ C) as Hdone.
  pose proof (bc_start _ _ _ _ _ C) as (Hsg & Hso & Hsd).
  assert (Hsn : getStart m <> n) by (intros E; rewrite <- E in Hun; lia).
  split; [split| | |].
  - exact (vu_ok _ _ _ _ _ U).
  - eapply vu_same_walls; eauto. exact (bc_walls _ _ _ _ _ C).
  - intros x. rewrite (vu_on_path _ _ _ _ _ U x Kp). apply (bc_nopath _ _ _ _ _ C).
  - rewrite (vu_cells _ _ _ _ _ U). pose proof (bc_count _ _ _ _ _ C).
    pose proof (vu_count _ _ _ _ _ U). lia.
  - lia.
  - intros x Hx. rewrite G in Hx. destruct (decide (x = n)) as [->|Hxn].
    + rewrite Onew. lia.
    + rewrite (Oold x Hx Hxn). pose proof (bc_order _ _ _ _ _ C x Hx). lia.
  - rewrite St. rewrite G, (Oold _ Hsg Hsn).
    destruct (decide (getStart m = n)); [contradiction|]. auto.
  - intros i x Hi. rewrite Ha, G.
    destruct (decide (i < length q)%nat) as [Hlt|Hge].
    + rewrite lookup_app_l in Hi by exact Hlt.
      destruct (bc_queue _ _ _ _ _ C i x Hi) as [Hx Hox].
      split; [exact Hx|]. rewrite Oold; [exact Hox|exact Hx|].
      intros ->. lia.
    + rewrite lookup_app_r in Hi by lia.
      destruct (i - length q)%nat as [|k] eqn:Ek; cbn in Hi; [|destruct k; discriminate].
      injection Hi as <-. split; [exact Hn|]. rewrite Onew. lia.
  - intros x y Hvx Hy Hxy. rewrite G in Hy.
    destruct (decide (x = n)) as [->|Hxn]; destruct (decide (y = n)) as [->|Hyn].
    + reflexivity.
    + rewrite Onew, (Oold y Hy Hyn) in Hxy.
      pose proof (bc_order _ _ _ _ _ C y Hy). lia.
    + destruct (V x Hvx Hxn) as [Hx Hox].
      rewrite Onew, (Oold x Hx Hxn) in Hxy.
      pose proof (bc_order _ _ _ _ _ C x Hx). lia.
    + pose proof (V x Hvx Hxn) as Hvx'. destruct Hvx' as [Hx Hox].
      rewrite (Oold x Hx Hxn), (Oold y Hy Hyn) in Hxy.
      apply (bc_inj _ _ _ _ _ C x y); [split|idtac|idtac]; assumption.
  - intros x Hvx Hxs. rewrite St in Hxs. rewrite Ha.
    destruct (decide (x = n)) as [->|Hxn].
    + rewrite (vu_dir_new _ _ _ _ _ U), dir_of_route_word, parent_of_reverseDir;
        [|rewrite parent_of_reverseDir; destruct d; try discriminate;
          apply canMove_not_Uninitialized in Hmv; contradiction].
      rewrite Hback, CM.
      split; [destruct d; try discriminate;
              apply canMove_not_Uninitialized in Hmv; contradiction|].
      split; [exact Hcb|].
      rewrite (Oold cur Hcg Hne), Onew.
      destruct (decide (n = n)); [|contradiction].
      destruct (decide (cur = n)); [contradiction|]. lia.
    + pose proof (V x Hvx Hxn) as Hvx'.
      destruct (bc_parent _ _ _ _ _ C x Hvx' Hxs) as (P1 & P2 & P3 & P4 & P5).
      destruct Hvx' as [Hx Hox].
      rewrite (vu_dir_other _ _ _ _ _ U x) by congruence.
      pose proof (canMove_in_grid m x _ Hx P2) as Hpar.
      assert (Hparn : Pos.move x (getDirectionRouteBT m x) <> n)
        by (intros E; rewrite E in P3; lia).
      rewrite CM, (Oold _ Hpar Hparn), (Oold x Hx Hxn).
      destruct (decide (x = n)); [contradiction|].
      destruct (decide (Pos.move x (getDirectionRouteBT m x) = n)); [contradiction|].
      auto.
  - intros x Hvx. destruct (decide (x = n)) as [->|Hxn].
    + pose proof (bc_dep _ _ _ _ _ C cur (conj Hcg Hc0)). lia.
    + apply (bc_dep _ _ _ _ _ C). apply V; assumption.
  - intros x y Hvx Hy Hxy. rewrite G in Hy.
    destruct (decide (x = n)) as [->|Hxn]; destruct (decide (y = n)) as [->|Hyn].
    + lia.
    + rewrite Onew, (Oold y Hy Hyn) in Hxy.
      pose proof (bc_order _ _ _ _ _ C y Hy). lia.
    + apply Hfr. apply V; assumption.
    + pose proof (V x Hvx Hxn) as Hvx'. destruct Hvx' as [Hx Hox].
      rewrite (Oold x Hx Hxn), (Oold y Hy Hyn) in Hxy.
      apply (bc_mono _ _ _ _ _ C x y); [split|idtac|idtac]; assumption.
  - intros x Hx Hox. rewrite G in Hx. rewrite Ha in Hox. rewrite En.
    assert (Hxn : x <> n) by (intros ->; rewrite Onew in Hox; lia).
    rewrite (Oold x Hx Hxn) in Hox. apply (bc_end _ _ _ _ _ C x Hx Hox).
  - intros k Hk. destruct (decide (k = vc)) as [->|Hkv].
    + exists n. split; [rewrite G; exact Hn|exact Onew].
    + destruct (bc_ranks _ _ _ _ _ C k ltac:(lia)) as (x & Hx & Hox).
      exists x. split; [rewrite G; exact Hx|]. rewrite Oold; [exact Hox|exact Hx|].
      intros ->. rewrite Hun in Hox. lia.
  - rewrite G, (Oold cur Hcg Hne). repeat split; try assumption. lia.
  - intros x e Hx Hox Hdone' Hce. rewrite G in Hx. rewrite Ha in Hox. rewrite CM in Hce.
    assert (Hxn : x <> n) by (intros ->; rewrite Onew in Hox; lia).
    rewrite (Oold x Hx Hxn) in Hox.
    destruct (decide (x = n)); [contradiction|].
    destruct (decide (x = cur /\ e = d)) as [[-> ->]|Hnot].
    + rewrite <- En', Onew. destruct (decide (n = n)); [|contradiction]. lia.
    + assert (Hold : x = cur -> e ∈ done).
      { intros E. specialize (Hdone' E). rewrite elem_of_app in Hdone'.
        destruct Hdone' as [H|H]; [exact H|].
        apply list_elem_of_singleton in H. exfalso. apply Hnot. auto. }
      destruct (Hcl x e Hx Hox Hold Hce) as [H1 H2].
      pose proof (canMove_in_grid m x e Hx Hce) as Hy.
      assert (Hyn : Pos.move x e <> n) by (intros E; rewrite E in H1; lia).
      rewrite (Oold _ Hy Hyn).
      destruct (decide (Pos.move x e = n)); [contradiction|]. auto.
  - intros x Hvx. destruct (decide (cur = n)); [contradiction|].
    destruct (decide (x = n)) as [->|Hxn]; [lia|]. apply Hfr. apply V; assumption.
Qed.

Lemma bfs_mid_skip m0 m cur q vc dep done d :
  bfs_mid m0 m cur q vc dep done ->
  (canMove m cur d = true -> order m (Pos.move cur d) <> -1) ->
  bfs_mid m0 m cur q vc dep (done ++ [d]).
Proof.
  intros [C (Hcg & Hc0 & Hco) Hcl Hfr] Hskip.
  split; try assumption; [repeat split; assumption|].
  intros x e Hx Hox Hdone' Hce.
  destruct (decide (x = cur /\ e = d)) as [[-> ->]|Hnot].
  - specialize (Hskip Hce).
    pose proof (canMove_in_grid m cur d Hcg Hce) as Hy.
    pose proof (bc_order _ _ _ _ _ C _ Hy) as Ho.
    split; [lia|]. apply Hfr. split; [exact Hy|lia].
  - apply Hcl; try assumption. intros E. specialize (Hdone' E).
    rewrite elem_of_app in Hdone'. destruct Hdone' as [H|H]; [exact H|].
    apply list_elem_of_singleton in H. exfalso. apply Hnot. auto.
Qed.

Lemma bfs_expand m0 cur dirs : forall done m q vc dep,
  bfs_mid m0 m cur q vc dep done ->
  exists dep',
    bfs_mid m0 (fst (fst (BFSSolver.expand dirs cur m q vc))) cur
            (snd (fst (BFSSolver.expand dirs cur m q vc)))
            (snd (BFSSolver.expand dirs cur m q vc)) dep' (done ++ dirs) /\
    Z.of_nat (length (snd (fst (BFSSolver.expand dirs cur m q vc))))
    + Z.of_nat (unvisited_count (fst (fst (BFSSolver.expand dirs cur m q vc))))
    = Z.of_nat (length q) + Z.of_nat (unvisited_count m).
Proof.
  induction dirs as [|d dirs IH]; intros done m q vc dep H.
  - cbn [BFSSolver.expand fst snd]. rewrite app_nil_r. exists dep. split; [exact H|reflexivity].
  - cbn [BFSSolver.expand].
    replace (done ++ d :: dirs) with ((done ++ [d]) ++ dirs)
      by (rewrite <- app_assoc; reflexivity).
    pose proof (bm_core _ _ _ _ _ _ _ H) as C.
    destruct (bm_cur _ _ _ _ _ _ _ H) as (Hcg & Hc0 & Hco).
    destruct (canMove m cur d) eqn:Hmv.
    + pose proof (canMove_in_grid m cur d Hcg Hmv) as Hn.
      rewrite (unvisited_test m _ (bc_ok _ _ _ _ _ C) Hn).
      case_bool_decide as Ho.
      * cbv zeta.
        assert (Hr : 0 <= vc < 2 ^ 31).
        { pose proof (bc_done _ _ _ _ _ C). pose proof (bc_count _ _ _ _ _ C).
          pose proof (go_cells _ (bc_ok _ _ _ _ _ C)). lia. }
        pose proof (bfs_visit_update m _ d vc (bc_ok _ _ _ _ _ C) Hn Ho Hr) as U.
        pose proof (bfs_mid_visit _ _ _ _ _ _ _ _ _ H Hmv Ho U) as H'.
        destruct (IH _ _ _ _ _ H') as (dep' & I1 & I2).
        exists dep'. split; [exact I1|]. rewrite I2, length_app.
        pose proof (vu_count _ _ _ _ _ U). cbn [length]. lia.
      * eapply IH. apply bfs_mid_skip; [exact H|]. intros _. exact Ho.
    + eapply IH. apply bfs_mid_skip; [exact H|]. intros E. congruence.
Qed.

Lemma bfs_pop m0 m cur q vc dep :
  bfs_inv m0 m (cur :: q) vc dep -> cur <> getEnd m ->
  bfs_mid m0 m cur q vc dep [].
Proof.
  intros [C Hcl Hfr] Hce.
  destruct (bc_queue _ _ _ _ _ C 0%nat cur eq_refl) as [Hcg Hco].
  cbn [length] in *.
  assert (Hl : Z.of_nat (S (length q)) = Z.of_nat (length q) + 1) by (cbn [length] in *; lia).
  pose proof (bc_done _ _ _ _ _ C) as Hdone.
  pose proof (bc_order _ _ _ _ _ C cur Hcg) as Hcr.
  split; [split| | |].
  - exact (bc_ok _ _ _ _ _ C).
  - exact (bc_walls _ _ _ _ _ C).
  - exact (bc_nopath _ _ _ _ _ C).
  - exact (bc_count _ _ _ _ _ C).
  - (cbn [length] in *; lia).
  - exact (bc_order _ _ _ _ _ C).
  - exact (bc_start _ _ _ _ _ C).
  - intros i x Hi. destruct (bc_queue _ _ _ _ _ C (S i) x Hi) as [Hx Hox].
    split; [exact Hx|]. (cbn [length] in *; lia).
  - exact (bc_inj _ _ _ _ _ C).
  - intros x Hvx Hxs. destruct (bc_parent _ _ _ _ _ C x Hvx Hxs) as (P1 & P2 & P3 & P4 & P5).
    repeat split; try assumption; (cbn [length] in *; lia).
  - exact (bc_dep _ _ _ _ _ C).
  - exact (bc_mono _ _ _ _ _ C).
  - intros x Hx Hox. destruct (decide (order m x = order m cur)) as [E|E].
    + assert (x = cur).
      { symmetry. apply (bc_inj _ _ _ _ _ C cur x); [split; [exact Hcg|(cbn [length] in *; lia)] | exact Hx | (cbn [length] in *; lia)]. }
      subst x. exact Hce.
    + apply (bc_end _ _ _ _ _ C x Hx). (cbn [length] in *; lia).
  - exact (bc_ranks _ _ _ _ _ C).
  - repeat split; try assumption; (cbn [length] in *; lia).
  - intros x e Hx Hox Hdone'. destruct (decide (order m x = order m cur)) as [E|E].
    + assert (x = cur).
      { symmetry. apply (bc_inj _ _ _ _ _ C cur x); [split; [exact Hcg|(cbn [length] in *; lia)] | exact Hx | (cbn [length] in *; lia)]. }
      specialize (Hdone' H). apply elem_of_nil in Hdone'. contradiction.
    + apply Hcl; [exact Hx|(cbn [length] in *; lia)].
  - intros x Hvx. apply (Hfr cur x eq_refl Hvx).
Qed.

Lemma bfs_close m0 m cur q vc dep :
  bfs_mid m0 m cur q vc dep [South; West; East; North] ->
  bfs_inv m0 m q vc dep.
Proof.
  intros [C (Hcg & Hc0 & Hco) Hcl Hfr]. split; [exact C| |].
  - intros x e Hx Hox Hce. apply Hcl; try assumption.
    intros _. apply canMove_not_Uninitialized in Hce.
    destruct e; try contradiction; apply list_elem_of_In; cbn; auto.
  - intros c x Hh Hvx. destruct q as [|c' q]; [discriminate|]. injection Hh as ->.
    destruct (bc_queue _ _ _ _ _ C 0%nat c eq_refl) as [Hc Hoc].
    pose proof (Hfr x Hvx).
    pose proof (bc_mono _ _ _ _ _ C cur c (conj Hcg Hc0) Hc ltac:(lia)). lia.
Qed.

(** One pass of the search loop on a cell that is not End. *)
Lemma bfs_search_step m0 m cur q vc dep :
  bfs_inv m0 m (cur :: q) vc dep -> cur <> getEnd m ->
  exists m' q' vc' dep',
    BFSSolver.expand [South; West; East; North] cur m q vc = (m', q', vc') /\
    bfs_inv m0 m' q' vc' dep' /\
    Z.of_nat (length q') + Z.of_nat (unvisited_count m')
    = Z.of_nat (length q) + Z.of_nat (unvisited_count m).
Proof.
  intros H Hce. pose proof (bfs_pop _ _ _ _ _ _ H Hce) as Hm.
  destruct (bfs_expand m0 cur [South; West; East; North] [] m q vc dep Hm)
    as (dep' & I1 & I2).
  destruct (BFSSolver.expand [South; West; East; North] cur m q vc) as [[m' q'] vc'].
  cbn [fst snd app] in *. exists m', q', vc', dep'.
  split; [reflexivity|]. split; [|exact I2]. exact (bfs_close _ _ _ _ _ _ I1).
Qed.

(* ================================================================== *)
(** ** Driving a generator to its end                                 *)
(* ================================================================== *)

Lemma runs_yield {S : Type} (next : S -> Maze -> IterResult * S * Maze)
    s m t s1 m1 toks m' :
  next s m = (Yield t, s1, m1) -> runs next s1 m1 toks m' ->
  runs next s m (t :: toks) m'.
Proof.
  intros H [n Hn]. exists (Datatypes.S n). cbn [drive]. rewrite H, Hn. reflexivity.
Qed.

Lemma runs_return {S : Type} (next : S -> Maze -> IterResult * S * Maze) s m s1 m1 :
  next s m = (Return, s1, m1) -> runs next s m [] m1.
Proof. intros H. exists 1%nat. cbn [drive]. rewrite H. reflexivity. Qed.

Lemma drive_more {S : Type} (next : S -> Maze -> IterResult * S * Maze) n k s m toks m' :
  drive next n s m = (toks, Completed m') ->
  drive next (n + k) s m = (toks, Completed m').
Proof.
  revert s m toks. induction n as [|n IH]; intros s m toks H; [discriminate|].
  cbn [drive Nat.add] in *. destruct (next s m) as [[[t| |e|] s1] m1].
  - destruct (drive next n s1 m1) as [ts o] eqn:E. injection H as <- ->.
    rewrite (IH _ _ _ E). reflexivity.
  - exact H.
  - discriminate.
  - discriminate.
Qed.

Lemma runs_unique {S : Type} (next : S -> Maze -> IterResult * S * Maze)
    s m toks m' n toks2 m2 :
  runs next s m toks m' -> drive next n s m = (toks2, Completed m2) ->
  toks2 = toks /\ m2 = m'.
Proof.
  intros [k Hk] Hn.
  pose proof (drive_more next k n s m toks m' Hk) as H1.
  pose proof (drive_more next n k s m toks2 m2 Hn) as H2.
  rewrite Nat.add_comm in H2. rewrite H1 in H2. injection H2 as <- <-. auto.
Qed.

(* ================================================================== *)
(** ** Fresh mazes                                                    *)
(* ================================================================== *)

Lemma walls_only_known v : Z.land v 3 = v -> known v.
Proof. intros H. unfold known. rewrite <- H, <- Z.land_assoc. reflexivity. Qed.

Lemma fresh_grid_ok m : fresh m -> grid_ok m.
Proof.
  intros []. split; try assumption.
  eapply Forall_impl; [eassumption|]. intros v Hv. apply walls_only_known. exact Hv.
Qed.

Lemma fresh_cell m p : fresh m -> Z.land (getCell m p) 3 = getCell m p.
Proof.
  intros H. rewrite (getCell_typed m p (fresh_typed m H)).
  destruct (in_grid m p); [|reflexivity].
  destruct (ta_get (cell_words m) (_cellIndex m p)) as [v|] eqn:E; [|reflexivity].
  exact (ta_get_Forall _ _ _ _ (fresh_walls m H) E).
Qed.

Lemma fresh_not_visited m p : fresh m -> in_grid m p = true -> order m p = -1.
Proof.
  intros H Hp. pose proof (getVisitOrder_order m p (fresh_grid_ok m H) Hp) as E.
  rewrite (getVisitOrder_typed m p (fresh_typed m H)) in E.
  exact (ta_get_Forall _ _ _ _ (fresh_unvisited m H) E).
Qed.

Lemma fresh_no_path m p : fresh m -> on_path m p = false.
Proof.
  intros H. unfold on_path. rewrite hasFlag_land, <- (fresh_cell m p H).
  rewrite <- Z.land_assoc. change (Z.land 3 PATH_BIT) with 0.
  rewrite Z.land_0_r. reflexivity.
Qed.

Lemma fresh_unvisited_count m : fresh m -> Z.of_nat (unvisited_count m) = cells m.
Proof.
  intros H. unfold unvisited_count.
  assert (E : filter (fun v => v = -1) (order_slots m) = order_slots m).
  { pose proof (fresh_unvisited m H) as F.
    induction F as [|x l Hx F IH]; [reflexivity|].
    rewrite filter_cons. destruct (decide (x = -1)); [|contradiction]. f_equal. exact IH. }
  rewrite E. destruct H as [? ? ? ? ? Hlen ? ?]. rewrite Hlen. unfold cells in *. nia.
Qed.

Lemma start_in_grid m : 0 < width m -> 0 < height m -> in_grid m (getStart m) = true.
Proof.
  intros Hw Hh. apply in_grid_spec. cbn.
  pose proof (Z.div_pos (width m) 2). pose proof (Z.div_lt (width m) 2). lia.
Qed.

Lemma end_in_grid m : 0 < width m -> 0 < height m -> in_grid m (getEnd m) = true.
Proof.
  intros Hw Hh. apply in_grid_spec. cbn.
  pose proof (Z.div_pos (width m) 2). pose proof (Z.div_lt (width m) 2). lia.
Qed.

(* ================================================================== *)
(** ** The reconstruction loop of BFS and DFS                         *)
(* ================================================================== *)

Lemma parent_links_cons m a b l :
  parent_links m (a :: b :: l)
  = ((getDirectionRouteBT m b <> Uninitialized /\
      Pos.move b (getDirectionRouteBT m b) = a /\
      canMove m b (getDirectionRouteBT m b) = true /\
      b <> getStart m) /\
     parent_links m (b :: l)).
Proof. reflexivity. Qed.

Lemma linked_cons m a b l :
  linked m (a :: b :: l) = (open_edge m a b /\ linked m (b :: l)).
Proof. reflexivity. Qed.

Lemma parent_links_snoc m l a b :
  parent_links m (l ++ [a; b]) <->
  parent_links m (l ++ [a]) /\
  (getDirectionRouteBT m b <> Uninitialized /\
   Pos.move b (getDirectionRouteBT m b) = a /\
   canMove m b (getDirectionRouteBT m b) = true /\
   b <> getStart m).
Proof.
  induction l as [|x l IH].
  - cbn. tauto.
  - destruct l as [|y l].
    + cbn. tauto.
    + change ((x :: y :: l) ++ [a; b]) with (x :: (y :: l) ++ [a; b]).
      change ((x :: y :: l) ++ [a]) with (x :: (y :: l) ++ [a]).
      cbn [parent_links app] in *. rewrite IH. tauto.
Qed.

Lemma parent_links_ext m m' l :
  (forall q, getDirectionRouteBT m' q = getDirectionRouteBT m q) ->
  (forall q d, canMove m' q d = canMove m q d) ->
  getStart m' = getStart m ->
  parent_links m l -> parent_links m' l.
Proof.
  intros Hd Hc Hs. induction l as [|a l IH]; [auto|].
  destruct l as [|b l]; [auto|]. rewrite !parent_links_cons.
  intros [H1 H2]. split; [rewrite Hd, Hc, Hs; exact H1|]. apply IH. exact H2.
Qed.

Lemma parent_links_linked m l :
  Forall (fun p => in_grid m p = true) l -> parent_links m l -> linked m l.
Proof.
  induction l as [|a l IH]; [auto|]. intros Hg H.
  destruct l as [|b l]; [exact I|].
  apply Forall_cons in Hg as [Ha Hg]. pose proof Hg as Hg'.
  apply Forall_cons in Hg' as [Hb _].
  rewrite parent_links_cons in H. rewrite linked_cons.
  destruct H as [(H1 & H2 & H3 & _) H]. split; [|apply IH; assumption].
  exists (reverseDir (getDirectionRouteBT m b)). rewrite <- H2. split.
  - apply canMove_back; assumption.
  - apply move_back.
Qed.

Lemma keeps_path_walls : keeps 3 (fun v => Z.lor v PATH_BIT).
Proof. apply keeps_lor. reflexivity. Qed.

Lemma keeps_path_parent : keeps PARENT_MASK (fun v => Z.lor v PATH_BIT).
Proof. apply keeps_lor. reflexivity. Qed.

Lemma path_update_nil m : grid_ok m -> path_update m m [].
Proof.
  intros H. split; [reflexivity|reflexivity|reflexivity| |exact H].
  intros q. rewrite bool_decide_eq_false_2; [reflexivity|]. apply not_elem_of_nil.
Qed.

Lemma path_update_step m m1 m' p l :
  cell_update m m1 p (fun v => Z.lor v PATH_BIT) -> path_update m1 m' l ->
  path_update m m' (l ++ [p]).
Proof.
  intros U [W H O C K]. split.
  - rewrite W. exact (cu_width _ _ _ _ U).
  - rewrite H. exact (cu_height _ _ _ _ U).
  - rewrite O. exact (cu_order _ _ _ _ U).
  - intros q. rewrite C, (cu_cell _ _ _ _ U).
    destruct (decide (p = q)) as [->|Hne].
    + rewrite (bool_decide_eq_true_2 (q ∈ l ++ [q])) by (rewrite elem_of_app; right; left).
      destruct (bool_decide (q ∈ l)); [|reflexivity].
      rewrite <- Z.lor_assoc, Z.lor_diag. reflexivity.
    + destruct (bool_decide (q ∈ l)) eqn:B.
      * apply bool_decide_eq_true_1 in B.
        rewrite bool_decide_eq_true_2 by (rewrite elem_of_app; left; exact B). reflexivity.
      * apply bool_decide_eq_false_1 in B.
        rewrite bool_decide_eq_false_2; [reflexivity|].
        rewrite elem_of_app. intros [?|E]; [contradiction|].
        apply list_elem_of_singleton in E. congruence.
  - exact K.
Qed.

Section PathUpdate.
Variables (m m' : Maze) (l : list Position).
Hypothesis U : path_update m m' l.

Lemma pu_in_grid q : in_grid m' q = in_grid m q.
Proof. apply in_grid_dims; [exact (pu_width _ _ _ U) | exact (pu_height _ _ _ U)]. Qed.

Lemma pu_start : getStart m' = getStart m.
Proof. unfold getStart. rewrite (pu_width _ _ _ U). reflexivity. Qed.

Lemma pu_end : getEnd m' = getEnd m.
Proof. unfold getEnd. rewrite (pu_width _ _ _ U), (pu_height _ _ _ U). reflexivity. Qed.

Lemma pu_order_eq q : order m' q = order m q.
Proof.
  unfold order, getVisitOrder, _cellIndex.
  rewrite (pu_order _ _ _ U), (pu_width _ _ _ U). reflexivity.
Qed.

Lemma pu_land mask q : Z.land PATH_BIT mask = 0 ->
  Z.land (getCell m' q) mask = Z.land (getCell m q) mask.
Proof.
  intros K. rewrite (pu_cell _ _ _ U). destruct (bool_decide (q ∈ l)); [|reflexivity].
  rewrite Z.land_lor_distr_l, K. apply Z.lor_0_r.
Qed.

Lemma pu_same_walls m0 : same_walls m0 m -> same_walls m0 m'.
Proof.
  intros (Hw & Hh & Hc). split; [|split].
  - rewrite (pu_width _ _ _ U). exact Hw.
  - rewrite (pu_height _ _ _ U). exact Hh.
  - intros q. rewrite (pu_land 3 q) by reflexivity. apply Hc.
Qed.

Lemma pu_canMove q d : canMove m' q d = canMove m q d.
Proof.
  apply canMove_same_walls. split; [|split].
  - exact (pu_width _ _ _ U).
  - exact (pu_height _ _ _ U).
  - intros r. apply pu_land. reflexivity.
Qed.

Lemma pu_on_path q : on_path m' q = on_path m q || bool_decide (q ∈ l).
Proof.
  unfold on_path. rewrite !hasFlag_land, (pu_cell _ _ _ U).
  destruct (bool_decide (q ∈ l)); [|rewrite orb_false_r; reflexivity].
  rewrite orb_true_r, Z.land_lor_distr_l. change (Z.land PATH_BIT PATH_BIT) with 8.
  destruct (Z.eqb_spec (Z.lor (Z.land (getCell m q) PATH_BIT) 8) 0) as [E|E];
    [|reflexivity].
  apply Z.lor_eq_0_iff in E. destruct E. discriminate.
Qed.
End PathUpdate.

Section Backtrack.
Context {S : Type} (next : S -> Maze -> IterResult * S * Maze).
Variables (AtB : Position -> S) (AtL Fin : S).
Hypothesis next_AtB : forall curr maze,
  next (AtB curr) maze
  = if Pos.eq curr (getStart maze) then (Yield FINISHED, AtL, maze)
    else
      let parent_dir := getDirectionRouteBT maze curr in
      if Direction_eqb parent_dir Uninitialized then (Yield FINISHED, AtL, maze)
      else
        let curr := Pos.move curr parent_dir in
        let maze := markPath maze curr in
        (Yield BACKTRACKING, AtB curr, maze).
Hypothesis next_AtL : forall maze, next AtL maze = (Return, Fin, maze).

(** From a cell whose parent pointers lead back to Start through
    [pre], the loop marks the cells of [pre], yields BACKTRACKING for
    each and then FINISHED. *)
Lemma backtrack_runs pre : forall curr m,
  grid_ok m ->
  head (pre ++ [curr]) = Some (getStart m) ->
  Forall (fun p => in_grid m p = true) (pre ++ [curr]) ->
  parent_links m (pre ++ [curr]) ->
  exists m',
    runs next (AtB curr) m (repeat BACKTRACKING (length pre) ++ [FINISHED]) m' /\
    path_update m m' pre.
Proof.
  induction pre as [|p pre IH] using rev_ind; intros curr m Hok Hh Hg Hl.
  - cbn in Hh. injection Hh as ->. exists m. split; [|apply path_update_nil; exact Hok].
    cbn. eapply runs_yield.
    + rewrite next_AtB. rewrite (proj2 (Pos_eq_spec _ _) eq_refl). reflexivity.
    + eapply runs_return. apply next_AtL.
  - rewrite <- app_assoc in Hl, Hg, Hh. cbn [app] in Hl, Hg, Hh.
    apply parent_links_snoc in Hl as [Hl (L1 & L2 & L3 & L4)].
    assert (Hp : in_grid m p = true).
    { rewrite Forall_app in Hg. destruct Hg as [_ Hg].
      apply Forall_cons in Hg as [Hg _]. exact Hg. }
    pose proof (markPath_update m p Hok Hp) as U.
    assert (Hl' : parent_links (markPath m p) (pre ++ [p])).
    { apply (parent_links_ext m); try assumption.
      - intros q. apply (cu_dir _ _ _ _ U). exact keeps_path_parent.
      - intros q d. apply (cu_canMove _ _ _ _ U). exact keeps_path_walls.
      - exact (cu_start _ _ _ _ U). }
    assert (Hh' : head (pre ++ [p]) = Some (getStart (markPath m p))).
    { rewrite (cu_start _ _ _ _ U). destruct pre; cbn in *; exact Hh. }
    assert (Hg' : Forall (fun x => in_grid (markPath m p) x = true) (pre ++ [p])).
    { rewrite Forall_app in Hg |- *. destruct Hg as [G1 G2]. split.
      - eapply Forall_impl; [exact G1|]. intros x Hx.
        rewrite (cell_update_in_grid _ _ _ _ x U). exact Hx.
      - constructor; [|constructor].
        rewrite (cell_update_in_grid _ _ _ _ p U). exact Hp. }
    destruct (IH p (markPath m p) (cu_ok _ _ _ _ U) Hh' Hg' Hl') as (m' & R & P).
    exists m'. split.
    + rewrite length_app. cbn [length].
      replace (length pre + 1)%nat with (Datatypes.S (length pre)) by lia.
      cbn [repeat app]. eapply runs_yield; [|exact R].
      rewrite next_AtB. rewrite (proj2 (Pos_eq_false _ _) L4).
      cbv zeta. unfold Direction_eqb. rewrite bool_decide_eq_false_2 by exact L1.
      rewrite L2. reflexivity.
    + exact (path_update_step _ _ _ _ _ U P).
Qed.
End Backtrack.

(* ================================================================== *)
(** ** Breadth-first search: from the first step to the last          *)
(* ================================================================== *)

Lemma bfs_init m0 :
  fresh m0 ->
  bfs_inv m0 (setDirectionRouteBT (setVisitOrder m0 (getStart m0) 0) (getStart m0)
                                  Uninitialized)
          [getStart m0] 1 (fun _ => 0).
Proof.
  intros Hf. pose proof (fresh_grid_ok m0 Hf) as Hok.
  pose proof (start_in_grid m0 (go_width _ Hok) (go_height _ Hok)) as Hs.
  set (s := getStart m0) in *. set (m1 := setVisitOrder m0 s 0).
  pose proof (setVisitOrder_grid_ok m0 s 0 Hok) as Hok1.
  assert (Hs1 : in_grid m1 s = true) by exact Hs.
  pose proof (setDirectionRouteBT_update m1 s Uninitialized Hok1 Hs1) as U.
  set (m := setDirectionRouteBT m1 s Uninitialized) in *.
  assert (G : forall x, in_grid m x = in_grid m0 x).
  { intros x. rewrite (cell_update_in_grid _ _ _ _ x U). reflexivity. }
  assert (St : getStart m = s) by (rewrite (cu_start _ _ _ _ U); reflexivity).
  assert (O : forall x, in_grid m0 x = true -> order m x = if decide (s = x) then 0 else -1).
  { intros x Hx. rewrite (cu_order_eq _ _ _ _ U).
    unfold m1. rewrite order_setVisitOrder by (try assumption; lia).
    destruct (decide (s = x)); [reflexivity|]. apply fresh_not_visited; assumption. }
  assert (Os : order m s = 0).
  { rewrite (O s Hs). destruct (decide (s = s)); [reflexivity|contradiction]. }
  assert (V : forall x, visited_cell m x -> x = s).
  { intros x [Hx Ho]. rewrite G in Hx. rewrite (O x Hx) in Ho.
    destruct (decide (s = x)); [congruence|lia]. }
  split; [split| |].
  - exact (cu_ok _ _ _ _ U).
  - apply (cu_same_walls _ _ _ _ U); [apply keeps_route_word_walls|].
    split; [reflexivity|split; [reflexivity|]]. intros x. reflexivity.
  - intros x. rewrite (cu_on_path _ _ _ _ U x (keeps_route_word_path _)).
    change (on_path m1 x) with (on_path m0 x). apply fresh_no_path. exact Hf.
  - rewrite (cu_cells _ _ _ _ U), (cu_unvisited _ _ _ _ U).
    change (cells m1) with (cells m0).
    pose proof (unvisited_count_visit m0 s 0 Hok Hs (fresh_not_visited m0 s Hf Hs) ltac:(lia)).
    pose proof (fresh_unvisited_count m0 Hf). fold m1 in H. lia.
  - cbn. lia.
  - intros x Hx. rewrite G in Hx. rewrite (O x Hx). destruct (decide (s = x)); lia.
  - rewrite St, G. auto.
  - intros i x Hi. destruct i as [|i]; [|destruct i; discriminate].
    injection Hi as <-. rewrite G. cbn. split; [exact Hs|]. rewrite Os. lia.
  - intros x y Hx Hy E. apply V in Hx. subst x. rewrite G in Hy.
    rewrite Os, (O y Hy) in E. destruct (decide (s = y)); [assumption|lia].
  - intros x Hx Hxs. apply V in Hx. rewrite St in Hxs. contradiction.
  - intros; lia.
  - intros; lia.
  - intros x Hx Ho. cbn in Ho. lia.
  - intros k Hk. exists s. split; [rewrite G; exact Hs|]. rewrite Os. lia.
  - intros x d Hx Ho. cbn in Ho. lia.
  - intros c x Hc Hx. lia.
Qed.

(** The parent pointers of a visited cell lead back to Start. *)
Lemma bfs_chain m0 m q vc dep :
  bfs_core m0 m q vc dep ->
  forall k p, visited_cell m p -> order m p <= Z.of_nat k ->
  exists l,
    head (l ++ [p]) = Some (getStart m) /\
    Forall (fun x => in_grid m x = true) (l ++ [p]) /\
    parent_links m (l ++ [p]) /\
    Forall (fun x => order m x < order m p) l /\
    NoDup (l ++ [p]) /\
    Z.of_nat (length l) = dep p /\
    dep p <= order m p.
Proof.
  intros C. induction k as [|k IH]; intros p Hv Ho.
  - destruct Hv as [Hp Hp0].
    destruct (bc_start _ _ _ _ _ C) as (Hsg & Hso & Hsd).
    assert (p = getStart m).
    { symmetry. apply (bc_inj _ _ _ _ _ C); [split; [exact Hsg|lia] | exact Hp | lia]. }
    subst p. exists []. cbn [app length]. rewrite Hsd, Hso.
    split; [reflexivity|]. split; [constructor; [exact Hsg|constructor]|].
    split; [exact I|]. split; [constructor|]. split; [apply NoDup_singleton|].
    split; [reflexivity|lia].
  - destruct (decide (p = getStart m)) as [->|Hps].
    + destruct (bc_start _ _ _ _ _ C) as (Hsg & Hso & Hsd).
      exists []. cbn [app length]. rewrite Hsd, Hso.
      split; [reflexivity|]. split; [constructor; [exact Hsg|constructor]|].
      split; [exact I|]. split; [constructor|]. split; [apply NoDup_singleton|].
      split; [reflexivity|lia].
    + destruct (bc_parent _ _ _ _ _ C p Hv Hps) as (P1 & P2 & P3 & P4 & P5).
      destruct Hv as [Hp Hp0].
      pose proof (canMove_in_grid m p _ Hp P2) as Hpar.
      remember (Pos.move p (getDirectionRouteBT m p)) as par eqn:Epar.
      assert (Hk : order m par <= Z.of_nat k) by lia.
      destruct (IH par (conj Hpar (proj1 P3)) Hk)
        as (l & I1 & I2 & I3 & I4 & I5 & I6 & I7).
      exists (l ++ [par]). rewrite <- app_assoc. cbn [app].
      split; [destruct l; cbn in *; exact I1|].
      split; [rewrite Forall_app in I2 |- *; destruct I2 as [G1 G2]; split;
              [exact G1|constructor; [exact Hpar|constructor; [exact Hp|constructor]]]|].
      split; [apply parent_links_snoc; split; [exact I3|]; repeat split; try assumption; congruence|].
      split; [rewrite Forall_app; split;
              [eapply Forall_impl; [exact I4|]; intros x Hx; cbn in Hx; lia
              |constructor; [lia|constructor]]|].
      split.
      * replace (l ++ [par; p]) with ((l ++ [par]) ++ [p])
          by (rewrite <- app_assoc; reflexivity).
        apply NoDup_app. split; [exact I5|]. split; [|constructor; [apply not_elem_of_nil|constructor]].
        intros x Hx Hxp. apply list_elem_of_singleton in Hxp. subst x.
        rewrite elem_of_app in Hx. destruct Hx as [Hx|Hx].
        -- rewrite Forall_forall in I4. specialize (I4 p Hx). lia.
        -- apply list_elem_of_singleton in Hx. rewrite Hx in P4. lia.
      * rewrite length_app. cbn [length]. lia.
Qed.

Lemma linked_snoc m l a b :
  linked m (l ++ [a; b]) <-> linked m (l ++ [a]) /\ open_edge m a b.
Proof.
  induction l as [|x l IH].
  - cbn. tauto.
  - destruct l as [|y l].
    + cbn. tauto.
    + change ((x :: y :: l) ++ [a; b]) with (x :: y :: (l ++ [a; b])).
      change ((x :: y :: l) ++ [a]) with (x :: y :: (l ++ [a])).
      rewrite !linked_cons.
      change (y :: l ++ [a; b]) with ((y :: l) ++ [a; b]).
      change (y :: l ++ [a]) with ((y :: l) ++ [a]).
      rewrite IH. tauto.
Qed.

Lemma linked_ext m m' l :
  (forall q d, canMove m' q d = canMove m q d) -> linked m l -> linked m' l.
Proof.
  intros Hc. induction l as [|a l IH]; [auto|].
  destruct l as [|b l]; [auto|]. rewrite !linked_cons.
  intros [(d & H1 & H2) H]. split; [|apply IH; exact H].
  exists d. rewrite Hc. auto.
Qed.

Lemma route_same_walls m0 m l : same_walls m0 m -> route m0 l -> route m l.
Proof.
  intros W [Hs He Hg Hl]. destruct W as (Hw & Hh & Hc).
  split.
  - unfold getStart in *. rewrite Hw. exact Hs.
  - unfold getEnd in *. rewrite Hw, Hh. exact He.
  - eapply Forall_impl; [exact Hg|]. intros x Hx. cbn.
    rewrite (in_grid_dims m0 m x Hw Hh). exact Hx.
  - apply (linked_ext m0); [|exact Hl]. intros q d.
    apply canMove_same_walls. split; [exact Hw|split; [exact Hh|exact Hc]].
Qed.

Lemma same_walls_sym m0 m : same_walls m0 m -> same_walls m m0.
Proof. intros (Hw & Hh & Hc). split; [|split]; auto. Qed.

Lemma last_app_singleton {A} (l : list A) (p x : A) :
  last (l ++ [p]) = Some x -> x = p.
Proof. rewrite last_snoc. congruence. Qed.

(** Every cell that a chain from Start reaches in fewer than [D] steps
    is visited and no deeper than the steps taken, when the visited
    cells less deep than [D] have all left the queue. *)
Lemma bfs_reach m0 m q vc dep D :
  bfs_inv m0 m q vc dep ->
  (forall x, visited_cell m x -> dep x < D -> order m x < vc - Z.of_nat (length q)) ->
  forall l p,
    head (l ++ [p]) = Some (getStart m) ->
    Forall (fun x => in_grid m x = true) (l ++ [p]) ->
    linked m (l ++ [p]) ->
    Z.of_nat (length l) < D ->
    visited_cell m p /\ dep p <= Z.of_nat (length l).
Proof.
  intros [C Hcl _] HD.
  induction l as [|p' l IH] using rev_ind; intros p Hh Hg Hl Hlen.
  - cbn in Hh. injection Hh as ->.
    destruct (bc_start _ _ _ _ _ C) as (Hsg & Hso & Hsd).
    cbn. split; [split; [exact Hsg|lia]|lia].
  - rewrite <- app_assoc in Hh, Hg, Hl. cbn [app] in Hh, Hg, Hl.
    apply linked_snoc in Hl as [Hl (d & E1 & E2)].
    rewrite length_app in Hlen |- *. cbn [length] in *.
    assert (Hg' : Forall (fun x => in_grid m x = true) (l ++ [p'])).
    { rewrite Forall_app in Hg |- *. destruct Hg as [G1 G2]. split; [exact G1|].
      apply Forall_cons in G2 as [G2 _]. constructor; [exact G2|constructor]. }
    assert (Hh' : head (l ++ [p']) = Some (getStart m))
      by (destruct l; cbn in *; exact Hh).
    destruct (IH p' Hh' Hg' Hl ltac:(lia)) as [Hv Hd].
    pose proof (HD p' Hv ltac:(lia)) as Hproc.
    destruct Hv as [Hp' Ho'].
    destruct (Hcl p' d Hp' ltac:(lia) E1) as [H1 H2]. rewrite E2 in H1, H2.
    split; [split; [|exact H1]|lia].
    rewrite <- E2. apply canMove_in_grid; assumption.
Qed.

Lemma route_split m l :
  route m l -> exists l', l = l' ++ [getEnd m].
Proof.
  intros [_ He _ _]. destruct l as [|x l] using rev_ind; [discriminate|].
  apply last_app_singleton in He. subst x. eauto.
Qed.

Lemma bfs_none m0 m vc dep : bfs_inv m0 m [] vc dep -> ~ solvable m0.
Proof.
  intros H [l Hr]. pose proof (bi_core _ _ _ _ _ H) as C.
  apply (route_same_walls m0 m l (bc_walls _ _ _ _ _ C)) in Hr.
  destruct (route_split m l Hr) as [l' ->]. destruct Hr as [Hs He Hg Hl].
  assert (HD : forall x, visited_cell m x -> dep x < Z.of_nat (length l') + 1 ->
                         order m x < vc - Z.of_nat (@length Position [])).
  { intros x [Hx _] _. pose proof (bc_order _ _ _ _ _ C x Hx). cbn. lia. }
  destruct (bfs_reach _ _ _ _ _ _ H HD l' (getEnd m) Hs Hg Hl ltac:(lia)) as [[He1 He2] _].
  pose proof (bc_order _ _ _ _ _ C _ He1).
  apply (bc_end _ _ _ _ _ C (getEnd m) He1); [cbn; lia|reflexivity].
Qed.

Lemma BFS_next_AtBacktracking curr maze :
  BFSSolver.next (BFSSolver.AtBacktracking curr) maze
  = if Pos.eq curr (getStart maze) then (Yield FINISHED, BFSSolver.AtLast, maze)
    else
      let parent_dir := getDirectionRouteBT maze curr in
      if Direction_eqb parent_dir Uninitialized
      then (Yield FINISHED, BFSSolver.AtLast, maze)
      else
        let curr := Pos.move curr parent_dir in
        let maze := markPath maze curr in
        (Yield BACKTRACKING, BFSSolver.AtBacktracking curr, maze).
Proof. reflexivity. Qed.

(** From a maze in which the parent pointers of End lead back to Start
    and nothing is marked, marking End and running the reconstruction
    loop leaves exactly that chain marked. *)
Lemma reconstruction_marks m0 m m' pre :
  grid_ok m -> same_walls m0 m -> (forall p, on_path m p = false) ->
  head (pre ++ [getEnd m]) = Some (getStart m) ->
  Forall (fun x => in_grid m x = true) (pre ++ [getEnd m]) ->
  parent_links m (pre ++ [getEnd m]) ->
  NoDup (pre ++ [getEnd m]) ->
  Z.of_nat (length (pre ++ [getEnd m])) <= cells m0 ->
  path_update (markPath m (getEnd m)) m' pre ->
  finished_with m0 m' (pre ++ [getEnd m]).
Proof.
  intros Hok W Hnp Hh Hg Hl Hnd Hlen P.
  assert (He : in_grid m (getEnd m) = true).
  { rewrite Forall_app in Hg. destruct Hg as [_ Hg].
    apply Forall_cons in Hg as [Hg _]. exact Hg. }
  pose proof (markPath_update m (getEnd m) Hok He) as U.
  assert (W' : same_walls m0 m').
  { apply (pu_same_walls _ _ _ P). apply (cu_same_walls _ _ _ _ U); [|exact W].
    exact keeps_path_walls. }
  assert (CM : forall q d, canMove m' q d = canMove m q d).
  { intros q d. rewrite (pu_canMove _ _ _ P). apply (cu_canMove _ _ _ _ U).
    exact keeps_path_walls. }
  assert (G : forall q, in_grid m' q = in_grid m q).
  { intros q. rewrite (pu_in_grid _ _ _ P). apply (cell_update_in_grid _ _ _ _ q U). }
  assert (R : route m' (pre ++ [getEnd m])).
  { split.
    - rewrite (pu_start _ _ _ P), (cu_start _ _ _ _ U). exact Hh.
    - rewrite (pu_end _ _ _ P), (cu_end _ _ _ _ U). apply last_snoc.
    - eapply Forall_impl; [exact Hg|]. intros x Hx. cbn. rewrite G. exact Hx.
    - apply (linked_ext m); [exact CM|]. apply parent_links_linked; assumption. }
  split; try assumption.
  - split; [exact R|]. intros q Hq.
    rewrite (pu_on_path _ _ _ P). unfold on_path at 1.
    rewrite hasFlag_land, (cu_cell _ _ _ _ U), elem_of_app, list_elem_of_singleton.
    destruct (decide (getEnd m = q)) as [E|E].
    + split; [auto|]. intros _. apply orb_true_iff. left.
      rewrite Z.land_lor_distr_l. change (Z.land PATH_BIT PATH_BIT) with 8.
      destruct (Z.eqb_spec (Z.lor (Z.land (getCell m (getEnd m)) PATH_BIT) 8) 0) as [Z0|Z0];
        [|reflexivity].
      apply Z.lor_eq_0_iff in Z0. destruct Z0. discriminate.
    + specialize (Hnp q). unfold on_path in Hnp. rewrite hasFlag_land in Hnp.
      rewrite Hnp. cbn [orb]. rewrite bool_decide_eq_true. split; [auto|].
      intros [H|H]; [exact H|congruence].
  - apply (route_same_walls m' m0); [|exact R]. apply same_walls_sym. exact W'.
  - exact (pu_ok _ _ _ P).
Qed.

Lemma repeat_snoc_app {A} (x : A) n (l : list A) :
  x :: repeat x n ++ l = repeat x (n + 1) ++ l.
Proof. rewrite Nat.add_comm. reflexivity. Qed.

Lemma elem_of_grid_positions m p : p ∈ grid_positions m <-> in_grid m p = true.
Proof.
  unfold grid_positions. rewrite in_grid_spec, list_elem_of_bind. split.
  - intros (r & Hp & Hr). apply list_elem_of_bind in Hp as (c & Hp & Hc).
    apply list_elem_of_singleton in Hp. subst p.
    apply elem_of_seqZ in Hr. apply elem_of_seqZ in Hc. cbn. lia.
  - intros [Hr Hc]. exists (row p). split; [|apply elem_of_seqZ; lia].
    apply list_elem_of_bind. exists (col p). split; [|apply elem_of_seqZ; lia].
    destruct p. left.
Qed.

Lemma NoDup_grid_positions m : NoDup (grid_positions m).
Proof.
  unfold grid_positions. apply NoDup_bind; [| |apply NoDup_seqZ].
  - intros r1 r2 p _ _ H1 H2.
    apply list_elem_of_bind in H1 as (c1 & H1 & _).
    apply list_elem_of_bind in H2 as (c2 & H2 & _).
    apply list_elem_of_singleton in H1. apply list_elem_of_singleton in H2. congruence.
  - intros r _. apply NoDup_bind; [| |apply NoDup_seqZ].
    + intros c1 c2 p _ _ H1 H2.
      apply list_elem_of_singleton in H1. apply list_elem_of_singleton in H2. congruence.
    + intros c _. apply NoDup_singleton.
Qed.

(** Orders given one to a cell, and every one below [vc] given: the
    cells of order below [o] are [o]. *)
Lemma ranks_count m vc :
  (forall p p', visited_cell m p -> in_grid m p' = true ->
                order m p = order m p' -> p = p') ->
  (forall k, 0 <= k < vc -> exists p, in_grid m p = true /\ order m p = k) ->
  forall o : nat, Z.of_nat o <= vc ->
  length (filter (fun q => 0 <= order m q < Z.of_nat o) (grid_positions m)) = o.
Proof.
  intros Hinj Hsurj o Ho.
  assert (L : exists l, NoDup l /\ length l = o /\
                forall p, p ∈ l <-> in_grid m p = true /\ 0 <= order m p < Z.of_nat o).
  { induction o as [|o IH].
    - exists []. split; [constructor|]. split; [reflexivity|].
      intros p. split; [intros H; inversion H | lia].
    - destruct IH as (l & Hnd & Hlen & Hl); [lia|].
      destruct (Hsurj (Z.of_nat o)) as (p0 & Hg & Hp0); [lia|].
      exists (p0 :: l). split; [constructor; [rewrite Hl; lia | exact Hnd]|].
      split; [cbn [length]; lia|].
      intros p. rewrite elem_of_cons, Hl. split.
      + intros [->|[? ?]]; split; auto; lia.
      + intros [Hp Hop]. destruct (decide (order m p = Z.of_nat o)) as [E|E].
        * left. symmetry. apply Hinj; [split; [exact Hg|lia] | exact Hp | congruence].
        * right. split; [exact Hp|lia]. }
  destruct L as (l & Hnd & Hlen & Hl). transitivity (length l); [|exact Hlen].
  apply Permutation_length, NoDup_Permutation;
    [apply NoDup_filter, NoDup_grid_positions | exact Hnd |].
  intros p. rewrite list_elem_of_filter, elem_of_grid_positions, Hl. tauto.
Qed.

Lemma discovered_before_ext m m' p :
  width m' = width m -> height m' = height m ->
  (forall q, order m' q = order m q) ->
  discovered_before m' p = discovered_before m p.
Proof.
  intros Hw Hh Ho. unfold discovered_before, grid_positions. rewrite Hw, Hh, (Ho p).
  generalize (r ← seqZ 0 (height m); c ← seqZ 0 (width m); [mkPosition r c]).
  intros l. induction l as [|a l IH]; [reflexivity|].
  rewrite !filter_cons, (Ho a).
  destruct (decide (0 <= order m a < order m p)); cbn [length]; rewrite IH; reflexivity.
Qed.

Lemma bfs_found m0 m q vc dep :
  bfs_inv m0 m (getEnd m :: q) vc dep ->
  exists m' l,
    runs BFSSolver.next (BFSSolver.AtSearching (getEnd m :: q) vc) m
         (repeat BACKTRACKING (length l) ++ [FINISHED]) m' /\
    finished_with m0 m' l /\ bfs_extra m0 m' l.
Proof.
  intros H. pose proof (bi_core _ _ _ _ _ H) as C.
  pose proof (bc_ok _ _ _ _ _ C) as Hok.
  destruct (bc_queue _ _ _ _ _ C 0%nat _ eq_refl) as [He Heo].
  pose proof (bc_done _ _ _ _ _ C) as Hdone. cbn [length] in *.
  assert (Hev : visited_cell m (getEnd m)) by (split; [exact He|lia]).
  destruct (bfs_chain _ _ _ _ _ C (Z.to_nat (order m (getEnd m))) (getEnd m) Hev
              ltac:(lia)) as (pre & I1 & I2 & I3 & I4 & I5 & I6 & I7).
  pose proof (markPath_update m (getEnd m) Hok He) as U.
  assert (Hl' : parent_links (markPath m (getEnd m)) (pre ++ [getEnd m])).
  { apply (parent_links_ext m); try assumption.
    - intros x. apply (cu_dir _ _ _ _ U). exact keeps_path_parent.
    - intros x d. apply (cu_canMove _ _ _ _ U). exact keeps_path_walls.
    - exact (cu_start _ _ _ _ U). }
  assert (Hh' : head (pre ++ [getEnd m]) = Some (getStart (markPath m (getEnd m))))
    by (rewrite (cu_start _ _ _ _ U); exact I1).
  assert (Hg' : Forall (fun x => in_grid (markPath m (getEnd m)) x = true)
                       (pre ++ [getEnd m])).
  { eapply Forall_impl; [exact I2|]. intros x Hx. cbn.
    rewrite (cell_update_in_grid _ _ _ _ x U). exact Hx. }
  destruct (backtrack_runs BFSSolver.next BFSSolver.AtBacktracking BFSSolver.AtLast
              BFSSolver.Finished BFS_next_AtBacktracking ltac:(reflexivity)
              pre (getEnd m) (markPath m (getEnd m)) (cu_ok _ _ _ _ U) Hh' Hg' Hl')
    as (m' & R & P).
  pose proof (bc_order _ _ _ _ _ C _ He) as Hor.
  pose proof (bc_count _ _ _ _ _ C) as Hcount.
  assert (Hcells : cells m = cells m0).
  { destruct (bc_walls _ _ _ _ _ C) as (Hw & Hh & _). unfold cells. rewrite Hw, Hh.
    reflexivity. }
  assert (Hend0 : getEnd m0 = getEnd m).
  { destruct (bc_walls _ _ _ _ _ C) as (Hw & Hh & _). unfold getEnd. rewrite Hw, Hh.
    reflexivity. }
  assert (Hlen : Z.of_nat (length (pre ++ [getEnd m])) <= cells m0).
  { rewrite length_app. cbn [length]. lia. }
  exists m', (pre ++ [getEnd m]). split; [|split].
  - rewrite length_app. cbn [length]. rewrite <- repeat_snoc_app.
    eapply runs_yield; [|exact R].
    cbn [BFSSolver.next]. rewrite (proj2 (Pos_eq_spec _ _) eq_refl). reflexivity.
  - apply (reconstruction_marks m0 m m' pre); try assumption.
    + exact (bc_walls _ _ _ _ _ C).
    + exact (bc_nopath _ _ _ _ _ C).
  - intros _. split.
    + intros l' Hr'.
      apply (route_same_walls m0 m l' (bc_walls _ _ _ _ _ C)) in Hr'.
      destruct (route_split m l' Hr') as [l'' ->]. destruct Hr' as [Hs' He' Hg'' Hl''].
      rewrite !length_app. cbn [length].
      destruct (decide (Z.of_nat (length l'') < dep (getEnd m))) as [Hlt|Hge];
        [|lia].
      assert (HD : forall x, visited_cell m x -> dep x < dep (getEnd m) ->
                             order m x < vc - Z.of_nat (S (length q))).
      { intros x Hx Hdx. destruct (Z.lt_ge_cases (order m x) (order m (getEnd m)))
          as [Hlt'|Hge']; [lia|].
        pose proof (bc_mono _ _ _ _ _ C (getEnd m) x Hev (proj1 Hx) Hge'). lia. }
      destruct (bfs_reach _ _ _ _ _ _ H HD l'' (getEnd m) Hs' Hg'' Hl'' Hlt) as [_ Hd].
      lia.
    + assert (Oe : forall x, order m' x = order m x).
      { intros x. rewrite (pu_order_eq _ _ _ P), (cu_order_eq _ _ _ _ U). reflexivity. }
      rewrite Hend0, Oe, length_app. split; [cbn [length]; lia|].
      rewrite (discovered_before_ext m m' (getEnd m)); [| | |exact Oe].
      * unfold discovered_before.
        pose proof (ranks_count m vc (bc_inj _ _ _ _ _ C) (bc_ranks _ _ _ _ _ C)
                      (Z.to_nat (order m (getEnd m))) ltac:(lia)) as RC.
        rewrite Z2Nat.id in RC by lia. rewrite RC. lia.
      * rewrite (pu_width _ _ _ P). exact (cu_width _ _ _ _ U).
      * rewrite (pu_height _ _ _ P). exact (cu_height _ _ _ _ U).
Qed.

Lemma BFS_loop_head_nil vc m :
  BFSSolver.loop_head [] vc m = (Yield NO_SOLUTION, BFSSolver.AtLast, m).
Proof. reflexivity. Qed.

Lemma BFS_loop_head_cons p q vc m :
  BFSSolver.loop_head (p :: q) vc m
  = (Yield SEARCHING, BFSSolver.AtSearching (p :: q) vc, m).
Proof.
  unfold BFSSolver.loop_head. cbn [length].
  destruct (Z.ltb_spec 0 (Z.of_nat (S (length q)))); [reflexivity|lia].
Qed.

(** From any state of the search loop the generator runs to its end,
    with fewer further SEARCHING tokens than queue entries and
    unvisited cells together. *)
Lemma bfs_search_runs m0 : forall k m q vc dep,
  bfs_inv m0 m q vc dep -> q <> [] ->
  Z.of_nat (length q) + Z.of_nat (unvisited_count m) <= Z.of_nat k ->
  exists toks m' l,
    runs BFSSolver.next (BFSSolver.AtSearching q vc) m toks m' /\
    search_result m0 (Z.of_nat k - 1) toks m' l /\ bfs_extra m0 m' l.
Proof.
  induction k as [|k IH]; intros m q vc dep H Hq Hk.
  - destruct q; [contradiction|]. cbn [length] in Hk. lia.
  - destruct q as [|cur q]; [contradiction|]. cbn [length] in Hk.
    destruct (decide (cur = getEnd m)) as [->|Hce].
    + destruct (bfs_found _ _ _ _ _ H) as (m' & l & R & F & X).
      exists (repeat BACKTRACKING (length l) ++ [FINISHED]), m', l.
      split; [exact R|]. split; [|exact X].
      apply (result_finished _ _ _ _ _ 0%nat); [reflexivity|lia|exact F].
    + destruct (bfs_search_step _ _ _ _ _ _ H Hce) as (m1 & q1 & vc1 & dep1 & E & H1 & M1).
      assert (Hnext : BFSSolver.next (BFSSolver.AtSearching (cur :: q) vc) m
                      = BFSSolver.loop_head q1 vc1 m1).
      { cbn [BFSSolver.next]. rewrite (proj2 (Pos_eq_false _ _) Hce), E. reflexivity. }
      destruct q1 as [|p1 q1].
      * exists [NO_SOLUTION], m1, []. split; [|split].
        -- eapply runs_yield; [rewrite Hnext; apply BFS_loop_head_nil|].
           eapply runs_return. reflexivity.
        -- apply (result_no_solution _ _ _ _ _ 0%nat); [reflexivity|lia|reflexivity| | | |].
           ++ exact (bfs_none _ _ _ _ H1).
           ++ exact (bc_nopath _ _ _ _ _ (bi_core _ _ _ _ _ H1)).
           ++ exact (bc_walls _ _ _ _ _ (bi_core _ _ _ _ _ H1)).
           ++ exact (bc_ok _ _ _ _ _ (bi_core _ _ _ _ _ H1)).
        -- intros E'. contradiction.
      * destruct (IH m1 (p1 :: q1) vc1 dep1 H1 ltac:(discriminate) ltac:(lia))
          as (toks & m' & l & R & Res & X).
        exists (SEARCHING :: toks), m', l. split; [|split; [|exact X]].
        -- eapply runs_yield; [rewrite Hnext; apply BFS_loop_head_cons|exact R].
        -- destruct Res as [a Ht Ha F|a Ht Ha El Hns Hnp W' Hok'].
           ++ apply (result_finished _ _ _ _ _ (S a)); [rewrite Ht; reflexivity|lia|exact F].
           ++ apply (result_no_solution _ _ _ _ _ (S a));
                [rewrite Ht; reflexivity|lia|assumption..].
Qed.

(** Breadth-first search on a fresh maze runs to its end. *)
Lemma BFS_total m0 :
  fresh m0 ->
  exists toks m' l,
    runs BFSSolver.next BFSSolver.Start m0 toks m' /\
    search_result m0 (cells m0) toks m' l /\ bfs_extra m0 m' l.
Proof.
  intros Hf. pose proof (bfs_init m0 Hf) as H.
  pose proof (bi_core _ _ _ _ _ H) as C.
  pose proof (bc_count _ _ _ _ _ C) as Hc.
  assert (Hcells : cells (setDirectionRouteBT (setVisitOrder m0 (getStart m0) 0)
                                              (getStart m0) Uninitialized) = cells m0).
  { destruct (bc_walls _ _ _ _ _ C) as (Hw & Hh & _). unfold cells. rewrite Hw, Hh.
    reflexivity. }
  pose proof (go_cells _ (fresh_grid_ok m0 Hf)) as Hlt.
  pose proof (fresh_width m0 Hf). pose proof (fresh_height m0 Hf).
  assert (0 < cells m0) by (unfold cells; nia).
  destruct (bfs_search_runs m0 (Z.to_nat (cells m0)) _ _ _ _ H ltac:(discriminate)
              ltac:(cbn [length]; lia)) as (toks & m' & l & R & Res & X).
  exists (SEARCHING :: toks), m', l. split; [|split; [|exact X]].
  - eapply runs_yield; [|exact R]. reflexivity.
  - destruct Res as [a Ht Ha F|a Ht Ha El Hns Hnp W' Hok'].
    + apply (result_finished _ _ _ _ _ (S a)); [rewrite Ht; reflexivity|lia|exact F].
    + apply (result_no_solution _ _ _ _ _ (S a));
        [rewrite Ht; reflexivity|lia|assumption..].
Qed.

(* ================================================================== *)
(** ** Depth-first search                                             *)
(* ================================================================== *)

Lemma visit_update_make_first m m1 m2 n f o :
  m1 = setVisitOrder m n o -> cell_update m1 m2 n f ->
  grid_ok m -> in_grid m n = true -> order m n = -1 -> 0 <= o < 2 ^ 31 ->
  visit_update m m2 n f o.
Proof.
  intros -> U Hok Hn Ho Hr. split.
  - rewrite (cu_width _ _ _ _ U). reflexivity.
  - rewrite (cu_height _ _ _ _ U). reflexivity.
  - intros q. rewrite (cu_cell _ _ _ _ U). reflexivity.
  - intros q Hq. rewrite (cu_order_eq _ _ _ _ U).
    apply order_setVisitOrder; try assumption. lia.
  - rewrite (cu_unvisited _ _ _ _ U). apply unvisited_count_visit; assumption.
  - exact (cu_ok _ _ _ _ U).
Qed.

Lemma dfs_push_update m n d vc :
  grid_ok m -> in_grid m n = true -> order m n = -1 -> 0 <= vc < 2 ^ 31 ->
  visit_update m
    (setDirectionRouteBT (markOnStack (setVisitOrder m n vc) n true) n (parent_of d))
    n (push_word (parent_of d)) vc.
Proof.
  intros Hok Hn Ho Hr.
  apply (visit_update_make_first m (setVisitOrder m n vc)); try assumption; [reflexivity|].
  pose proof (setVisitOrder_grid_ok m n vc Hok) as Hok1.
  assert (Hn1 : in_grid (setVisitOrder m n vc) n = true) by exact Hn.
  pose proof (markOnStack_update _ n true Hok1 Hn1) as U1.
  pose proof (setDirectionRouteBT_update _ n (parent_of d) (cu_ok _ _ _ _ U1)
                ltac:(rewrite (cell_update_in_grid _ _ _ _ n U1); exact Hn1)) as U2.
  exact (cell_update_compose _ _ _ _ _ _ U1 U2).
Qed.

Lemma dfs_pop_update m p :
  grid_ok m -> in_grid m p = true ->
  let m2 := _clearFlag (markOnStack m p false) p VISITED_BIT in
  cell_update m (if isJunction m2 p then markDeadJunction m2 p else m2) p
              (pop_word (isJunction m p)).
Proof.
  intros Hok Hp m2.
  pose proof (markOnStack_update m p false Hok Hp) as U1.
  assert (Hp1 : in_grid (markOnStack m p false) p = true)
    by (rewrite (cell_update_in_grid _ _ _ _ p U1); exact Hp).
  pose proof (_clearFlag_update _ p VISITED_BIT (cu_ok _ _ _ _ U1) Hp1) as U2.
  fold m2 in U2.
  pose proof (cell_update_compose _ _ _ _ _ _ U1 U2) as U12. cbv beta in U12.
  assert (K : keeps 3 (fun v => Z.land (Z.land v (Z.lnot ON_STACK_BIT)) (Z.lnot VISITED_BIT))).
  { intros v. rewrite <- !Z.land_assoc. reflexivity. }
  assert (J : isJunction m2 p = isJunction m p) by (apply (cu_isJunction _ _ _ _ U12); exact K).
  rewrite J. unfold pop_word. destruct (isJunction m p).
  - assert (Hp2 : in_grid m2 p = true)
      by (rewrite (cell_update_in_grid _ _ _ _ p U12); exact Hp).
    pose proof (markDeadJunction_update m2 p (cu_ok _ _ _ _ U12) Hp2) as U3.
    exact (cell_update_compose _ _ _ _ _ _ U12 U3).
  - exact U12.
Qed.

Lemma keeps_push_word_walls d : keeps 3 (push_word d).
Proof.
  unfold push_word. apply (keeps_compose 3 (fun v => Z.lor v ON_STACK_BIT) (route_word d)).
  - apply keeps_lor. reflexivity.
  - apply keeps_route_word_walls.
Qed.

Lemma keeps_push_word_path d : keeps PATH_BIT (push_word d).
Proof.
  unfold push_word.
  apply (keeps_compose PATH_BIT (fun v => Z.lor v ON_STACK_BIT) (route_word d)).
  - apply keeps_lor. reflexivity.
  - apply keeps_route_word_path.
Qed.

Lemma keeps_pop_word mask b :
  Z.land (Z.lnot ON_STACK_BIT) mask = mask -> Z.land (Z.lnot VISITED_BIT) mask = mask ->
  Z.land (Z.lnot VISITED_TB) mask = mask -> Z.land (Z.lnot VISITED_BT) mask = mask ->
  Z.land DEAD_JUNCTION_BIT mask = 0 ->
  keeps mask (pop_word b).
Proof.
  intros H1 H2 H3 H4 H5 v. unfold pop_word. destruct b.
  - rewrite Z.land_lor_distr_l, H5, Z.lor_0_r.
    rewrite <- !Z.land_assoc, H4, H3, H2, H1. reflexivity.
  - rewrite <- !Z.land_assoc, H2, H1. reflexivity.
Qed.

Lemma keeps_pop_word_walls b : keeps 3 (pop_word b).
Proof. apply keeps_pop_word; reflexivity. Qed.

Lemma keeps_pop_word_path b : keeps PATH_BIT (pop_word b).
Proof. apply keeps_pop_word; reflexivity. Qed.

Lemma keeps_pop_word_parent b : keeps PARENT_MASK (pop_word b).
Proof. apply keeps_pop_word; reflexivity. Qed.

(** What the first loop of a DFS step does, and that the second loop
    agrees with it. *)
Lemma dfs_advance_spec m curr stack vc :
  grid_ok m -> in_grid m curr = true ->
  forall dirs,
    (DFSSolver.advance dirs curr m stack vc = (m, stack, vc, false) /\
     DFSSolver.has_opts dirs curr m = false /\
     forall d, d ∈ dirs -> canMove m curr d = true -> order m (Pos.move curr d) <> -1)
    \/
    (exists d,
        canMove m curr d = true /\ order m (Pos.move curr d) = -1 /\
        DFSSolver.advance dirs curr m stack vc
        = (setDirectionRouteBT
             (markOnStack (setVisitOrder m (Pos.move curr d) vc) (Pos.move curr d) true)
             (Pos.move curr d) (parent_of d),
           stack ++ [(Pos.move curr d, parent_of d)], vc + 1, true)).
Proof.
  intros Hok Hc. induction dirs as [|d dirs IH].
  - left. repeat split. intros d Hd. apply elem_of_nil in Hd. contradiction.
  - cbn [DFSSolver.advance DFSSolver.has_opts].
    destruct (canMove m curr d) eqn:Hmv.
    + pose proof (canMove_in_grid m curr d Hc Hmv) as Hn.
      rewrite (unvisited_test m _ Hok Hn). case_bool_decide as Ho.
      * right. exists d. auto.
      * destruct IH as [(I1 & I2 & I3)|IH]; [left|right; exact IH].
        repeat split; try assumption. intros e He. apply elem_of_cons in He.
        destruct He as [->|He]; [intros _; exact Ho|apply I3; exact He].
    + destruct IH as [(I1 & I2 & I3)|IH]; [left|right; exact IH].
      repeat split; try assumption. intros e He. apply elem_of_cons in He.
      destruct He as [->|He]; [congruence|apply I3; exact He].
Qed.

Lemma parent_links_ext_in m m' l :
  Forall (fun q => getDirectionRouteBT m' q = getDirectionRouteBT m q) l ->
  (forall q d, canMove m' q d = canMove m q d) ->
  getStart m' = getStart m ->
  parent_links m l -> parent_links m' l.
Proof.
  intros Hd Hc Hs. induction l as [|a l IH]; [auto|].
  destruct l as [|b l]; [auto|]. rewrite !parent_links_cons.
  apply Forall_cons in Hd as [_ Hd]. pose proof Hd as Hd'.
  apply Forall_cons in Hd' as [Hb _].
  intros [H1 H2]. split; [rewrite Hb, Hc, Hs; exact H1|]. apply IH; assumption.
Qed.

Lemma parent_links_app_l m l1 l2 : parent_links m (l1 ++ l2) -> parent_links m l1.
Proof.
  induction l1 as [|a l1 IH]; [intros; exact I|].
  destruct l1 as [|b l1]; [intros; exact I|].
  change ((a :: b :: l1) ++ l2) with (a :: b :: (l1 ++ l2)).
  rewrite !parent_links_cons. intros [H1 H2]. split; [exact H1|]. apply IH. exact H2.
Qed.

Lemma last_map_fst {A B} (l : list (A * B)) x e :
  last l = Some (x, e) -> exists l', l = l' ++ [(x, e)].
Proof.
  destruct l as [|y l] using rev_ind; [discriminate|].
  rewrite last_snoc. intros [= ->]. eauto.
Qed.

Lemma dfs_push m0 m m' st curr e vc d :
  dfs_inv m0 m (st ++ [(curr, e)]) vc ->
  canMove m curr d = true -> order m (Pos.move curr d) = -1 ->
  visit_update m m' (Pos.move curr d) (push_word (parent_of d)) vc ->
  dfs_inv m0 m' ((st ++ [(curr, e)]) ++ [(Pos.move curr d, parent_of d)]) (vc + 1).
Proof.
  intros [Hok W Hnp Hcount [Hvc Hlen] [Hsg Hso] Hhead Hgrid Hlinks Hnd Hcl Hend] Hmv Hun U.
  assert (Hback : Pos.move (Pos.move curr d) (reverseDir d) = curr) by apply move_back.
  rewrite !map_app in *. cbn [map fst] in *.
  set (ps := map fst st) in *.
  assert (Hcg : in_grid m curr = true).
  { rewrite Forall_app in Hgrid. destruct Hgrid as [_ Hg].
    apply Forall_cons in Hg as [[Hg _] _]. exact Hg. }
  pose proof (canMove_in_grid m curr d Hcg Hmv) as Hn.
  pose proof (canMove_back m curr d Hcg Hmv) as Hcb.
  remember (Pos.move curr d) as n eqn:En'.
  pose proof (keeps_push_word_walls (parent_of d)) as Kw.
  pose proof (keeps_push_word_path (parent_of d)) as Kp.
  assert (G : forall x, in_grid m' x = in_grid m x) by (intros; eapply vu_in_grid; eauto).
  assert (Onew : order m' n = vc) by (eapply vu_order_new; eauto).
  assert (Oold : forall x, in_grid m x = true -> x <> n -> order m' x = order m x).
  { intros x Hx Hxn. eapply vu_order_other; eauto. }
  assert (CM : forall x f, canMove m' x f = canMove m x f)
    by (intros; eapply vu_canMove; eauto).
  assert (St : getStart m' = getStart m) by (eapply vu_start; eauto).
  assert (En : getEnd m' = getEnd m) by (eapply vu_end; eauto).
  assert (Hsn : getStart m <> n) by (intros E; rewrite <- E in Hun; contradiction).
  assert (Hnin : n ∉ ps ++ [curr]).
  { intros Hin. rewrite Forall_forall in Hgrid. destruct (Hgrid n Hin) as [_ Ho].
    contradiction. }
  assert (Hdne : d <> Uninitialized) by (apply (canMove_not_Uninitialized m curr); exact Hmv).
  split; rewrite ?map_app; cbn [map fst]; fold ps.
  - exact (vu_ok _ _ _ _ _ U).
  - eapply vu_same_walls; eauto.
  - intros x. rewrite (vu_on_path _ _ _ _ _ U x Kp). apply Hnp.
  - rewrite (vu_cells _ _ _ _ _ U). pose proof (vu_count _ _ _ _ _ U). lia.
  - rewrite length_app. cbn [length]. lia.
  - rewrite St, G, (Oold _ Hsg Hsn). auto.
  - intros x Hx. rewrite St. apply Hhead.
    destruct ps; exact Hx.
  - rewrite Forall_app. split.
    + rewrite Forall_forall in Hgrid |- *. intros x Hx. destruct (Hgrid x Hx) as [Hxg Hxo].
      rewrite G, Oold; [auto|exact Hxg|]. intros ->. contradiction.
    + constructor; [|constructor]. rewrite G, Onew. split; [exact Hn|lia].
  - rewrite <- app_assoc. cbn [app]. apply parent_links_snoc. split.
    + apply (parent_links_ext_in m); try assumption.
      rewrite Forall_forall. intros x Hx. apply (vu_dir_other _ _ _ _ _ U).
      intros <-. contradiction.
    + rewrite (vu_dir_new _ _ _ _ _ U). unfold push_word.
      rewrite dir_of_route_word, parent_of_reverseDir
        by (rewrite parent_of_reverseDir; destruct d; try discriminate; contradiction).
      rewrite Hback, CM, St.
      repeat split; try assumption; [destruct d; try discriminate; contradiction|congruence].
  - apply NoDup_app. split; [exact Hnd|]. split; [|apply NoDup_singleton].
    intros x Hx Hxn. apply list_elem_of_singleton in Hxn. subst x. contradiction.
  - intros x f Hx Hxo Hxin Hxf. rewrite G in Hx. rewrite CM in Hxf.
    assert (Hxn : x <> n).
    { intros ->. apply Hxin. rewrite elem_of_app. right. left. }
    rewrite (Oold x Hx Hxn) in Hxo.
    assert (Hxin' : x ∉ ps ++ [curr]).
    { intros Hin. apply Hxin. rewrite elem_of_app. left. exact Hin. }
    pose proof (Hcl x f Hx Hxo Hxin' Hxf) as Hy.
    pose proof (canMove_in_grid m x f Hx Hxf) as Hyg.
    rewrite (vu_order _ _ _ _ _ U) by exact Hyg.
    destruct (decide (n = Pos.move x f)); [lia|exact Hy].
  - intros x Hx Hxo Hxin. rewrite G in Hx. rewrite En.
    assert (Hxn : x <> n).
    { intros ->. apply Hxin. rewrite elem_of_app. right. left. }
    rewrite (Oold x Hx Hxn) in Hxo. apply Hend; try assumption.
    intros Hin. apply Hxin. rewrite elem_of_app. left. exact Hin.
Qed.

Lemma dfs_pop m0 m m' st curr e vc f :
  dfs_inv m0 m (st ++ [(curr, e)]) vc ->
  curr <> getEnd m ->
  (forall d, canMove m curr d = true -> order m (Pos.move curr d) <> -1) ->
  cell_update m m' curr f ->
  keeps 3 f -> keeps PATH_BIT f -> keeps PARENT_MASK f ->
  dfs_inv m0 m' st vc.
Proof.
  intros [Hok W Hnp Hcount [Hvc Hlen] [Hsg Hso] Hhead Hgrid Hlinks Hnd Hcl Hend]
         Hce Hno U Kw Kp Kd.
  rewrite !map_app in *. cbn [map fst] in *. set (ps := map fst st) in *.
  assert (G : forall x, in_grid m' x = in_grid m x)
    by (intros x; apply (cell_update_in_grid _ _ _ _ x U)).
  assert (O : forall x, order m' x = order m x) by (intros; eapply cu_order_eq; eauto).
  assert (CM : forall x d, canMove m' x d = canMove m x d)
    by (intros; eapply cu_canMove; eauto).
  assert (St : getStart m' = getStart m) by (eapply cu_start; eauto).
  assert (En : getEnd m' = getEnd m) by (eapply cu_end; eauto).
  assert (Hcg : in_grid m curr = true /\ order m curr <> -1).
  { rewrite Forall_app in Hgrid. destruct Hgrid as [_ Hg].
    apply Forall_cons in Hg as [Hg _]. exact Hg. }
  apply NoDup_app in Hnd as (Hnd & Hdisj & _).
  split; fold ps.
  - exact (cu_ok _ _ _ _ U).
  - eapply cu_same_walls; eauto.
  - intros x. rewrite (cu_on_path _ _ _ _ U x Kp). apply Hnp.
  - rewrite (cu_cells _ _ _ _ U), (cu_unvisited _ _ _ _ U). exact Hcount.
  - rewrite length_app in Hlen. cbn [length] in Hlen. lia.
  - rewrite St, G, O. auto.
  - intros x Hx. rewrite St. apply Hhead. destruct ps; [discriminate|exact Hx].
  - rewrite Forall_app in Hgrid. destruct Hgrid as [Hg _].
    eapply Forall_impl; [exact Hg|]. intros x Hx. cbn. rewrite G, O. exact Hx.
  - apply (parent_links_ext m); try assumption.
    + intros q. apply (cu_dir _ _ _ _ U). exact Kd.
    + apply (parent_links_app_l m ps [curr]). exact Hlinks.
  - exact Hnd.
  - intros x d Hx Hxo Hxin Hxd. rewrite G in Hx. rewrite O in Hxo |- *. rewrite CM in Hxd.
    destruct (decide (x = curr)) as [->|Hxc]; [apply Hno; exact Hxd|].
    apply Hcl; try assumption. rewrite elem_of_app. intros [H|H]; [contradiction|].
    apply list_elem_of_singleton in H. contradiction.
  - intros x Hx Hxo Hxin. rewrite G in Hx. rewrite O in Hxo. rewrite En.
    destruct (decide (x = curr)) as [->|Hxc]; [exact Hce|].
    apply Hend; try assumption. rewrite elem_of_app. intros [H|H]; [contradiction|].
    apply list_elem_of_singleton in H. contradiction.
Qed.

Lemma DFS_loop_head_nil vc m :
  DFSSolver.loop_head [] vc m = (Yield NO_SOLUTION, DFSSolver.AtLast, m).
Proof. reflexivity. Qed.

Lemma DFS_loop_head_cons p st vc m :
  DFSSolver.loop_head (p :: st) vc m
  = (Yield SEARCHING, DFSSolver.AtSearching (p :: st) vc, m).
Proof.
  unfold DFSSolver.loop_head. cbn [length].
  destruct (Z.ltb_spec 0 (Z.of_nat (S (length st)))); [reflexivity|lia].
Qed.

(** One pass of the DFS loop on a top cell that is not End: a push or a
    pop. *)
Lemma dfs_search_step m0 m st curr e vc :
  dfs_inv m0 m (st ++ [(curr, e)]) vc -> curr <> getEnd m ->
  exists m' st' vc',
    DFSSolver.next (DFSSolver.AtSearching (st ++ [(curr, e)]) vc) m
    = DFSSolver.loop_head st' vc' m' /\
    dfs_inv m0 m' st' vc' /\
    2 * Z.of_nat (unvisited_count m') + Z.of_nat (length st') + 1
    = 2 * Z.of_nat (unvisited_count m) + Z.of_nat (length (st ++ [(curr, e)])).
Proof.
  intros H Hce. pose proof (di_ok _ _ _ _ H) as Hok.
  assert (Hcg : in_grid m curr = true).
  { pose proof (di_grid _ _ _ _ H) as Hg. rewrite map_app, Forall_app in Hg.
    destruct Hg as [_ Hg]. apply Forall_cons in Hg as [[Hg _] _]. exact Hg. }
  cbn [DFSSolver.next]. rewrite last_snoc. rewrite (proj2 (Pos_eq_false _ _) Hce).
  destruct (dfs_advance_spec m curr (st ++ [(curr, e)]) vc Hok Hcg
              [South; East; West; North]) as [(A1 & A2 & A3)|(d & A1 & A2 & A3)].
  - rewrite A1. cbn [negb]. rewrite last_snoc, A2. cbn [negb].
    rewrite removelast_last.
    pose proof (dfs_pop_update m curr Hok Hcg) as U. cbv zeta in U.
    eexists _, st, vc. split; [reflexivity|]. split.
    + eapply (dfs_pop m0 m _ st curr e vc _ H Hce); [|exact U| | |].
      * intros d Hd. apply A3; [|exact Hd].
        apply canMove_not_Uninitialized in Hd.
        destruct d; try contradiction; apply list_elem_of_In; cbn; auto.
      * apply keeps_pop_word_walls.
      * apply keeps_pop_word_path.
      * apply keeps_pop_word_parent.
    + rewrite (cu_unvisited _ _ _ _ U), length_app. cbn [length]. lia.
  - rewrite A3. cbn [negb].
    assert (Hr : 0 <= vc < 2 ^ 31).
    { destruct (di_len _ _ _ _ H). pose proof (di_count _ _ _ _ H).
      pose proof (go_cells _ Hok). lia. }
    pose proof (canMove_in_grid m curr d Hcg A1) as Hn.
    pose proof (dfs_push_update m _ d vc Hok Hn A2 Hr) as U.
    eexists _, _, _. split; [reflexivity|]. split.
    + exact (dfs_push _ _ _ _ _ _ _ _ H A1 A2 U).
    + pose proof (vu_count _ _ _ _ _ U). rewrite !length_app. cbn [length]. lia.
Qed.

(* ================================================================== *)
(** ** Depth-first search: from the first step to the last            *)
(* ================================================================== *)

Lemma dfs_init m0 :
  fresh m0 ->
  dfs_inv m0
    (setDirectionRouteBT (markOnStack (setVisitOrder m0 (getStart m0) 0) (getStart m0) true)
                         (getStart m0) Uninitialized)
    [(getStart m0, Uninitialized)] 1.
Proof.
  intros Hf. pose proof (fresh_grid_ok m0 Hf) as Hok.
  pose proof (start_in_grid m0 (go_width _ Hok) (go_height _ Hok)) as Hs.
  pose proof (dfs_push_update m0 (getStart m0) Uninitialized 0 Hok Hs
                (fresh_not_visited m0 _ Hf Hs) ltac:(lia)) as U.
  change (parent_of Uninitialized) with Uninitialized in U.
  set (s := getStart m0) in *.
  set (m := setDirectionRouteBT _ s Uninitialized) in *.
  assert (G : forall x, in_grid m x = in_grid m0 x) by (intros; eapply vu_in_grid; eauto).
  assert (St : getStart m = s) by (eapply vu_start; eauto).
  assert (O : forall x, in_grid m0 x = true -> order m x = if decide (s = x) then 0 else -1).
  { intros x Hx. rewrite (vu_order _ _ _ _ _ U) by exact Hx.
    destruct (decide (s = x)); [reflexivity|]. apply fresh_not_visited; assumption. }
  assert (Os : order m s = 0).
  { rewrite (O s Hs). destruct (decide (s = s)); [reflexivity|contradiction]. }
  assert (V : forall x, in_grid m x = true -> order m x <> -1 -> x ∈ [s]).
  { intros x Hx Ho. rewrite G in Hx. rewrite (O x Hx) in Ho.
    destruct (decide (s = x)) as [<-|]; [left|contradiction]. }
  split; cbn [map fst].
  - exact (vu_ok _ _ _ _ _ U).
  - eapply vu_same_walls; [exact U|apply keeps_push_word_walls|].
    split; [reflexivity|split; [reflexivity|]]. intros x. reflexivity.
  - intros x. rewrite (vu_on_path _ _ _ _ _ U x (keeps_push_word_path _)).
    apply fresh_no_path. exact Hf.
  - rewrite (vu_cells _ _ _ _ _ U). pose proof (vu_count _ _ _ _ _ U).
    pose proof (fresh_unvisited_count m0 Hf). lia.
  - cbn. lia.
  - rewrite St, G, Os. split; [exact Hs|lia].
  - intros x [= <-]. symmetry. exact St.
  - constructor; [|constructor]. rewrite G, Os. split; [exact Hs|lia].
  - exact I.
  - apply NoDup_singleton.
  - intros x d Hx Ho Hin. destruct (Hin (V x Hx Ho)).
  - intros x Hx Ho Hin. destruct (Hin (V x Hx Ho)).
Qed.

(** With the stack empty, every cell a chain from Start reaches has
    been visited. *)
Lemma dfs_reach m0 m vc :
  dfs_inv m0 m [] vc ->
  forall l p,
    head (l ++ [p]) = Some (getStart m) ->
    Forall (fun x => in_grid m x = true) (l ++ [p]) ->
    linked m (l ++ [p]) ->
    in_grid m p = true /\ order m p <> -1.
Proof.
  intros H.
  induction l as [|p' l IH] using rev_ind; intros p Hh Hg Hl.
  - cbn in Hh. injection Hh as ->. exact (di_start _ _ _ _ H).
  - rewrite <- app_assoc in Hh, Hg, Hl. cbn [app] in Hh, Hg, Hl.
    apply linked_snoc in Hl as [Hl (d & E1 & E2)].
    assert (Hg' : Forall (fun x => in_grid m x = true) (l ++ [p'])).
    { rewrite Forall_app in Hg |- *. destruct Hg as [G1 G2]. split; [exact G1|].
      apply Forall_cons in G2 as [G2 _]. constructor; [exact G2|constructor]. }
    assert (Hh' : head (l ++ [p']) = Some (getStart m))
      by (destruct l; cbn in *; exact Hh).
    destruct (IH p' Hh' Hg' Hl) as [Hp' Ho'].
    pose proof (di_closed _ _ _ _ H p' d Hp' Ho' ltac:(cbn; apply not_elem_of_nil) E1) as Hn.
    rewrite E2 in Hn. split; [|exact Hn].
    rewrite <- E2. apply canMove_in_grid; assumption.
Qed.

Lemma dfs_none m0 m vc : dfs_inv m0 m [] vc -> ~ solvable m0.
Proof.
  intros H [l Hr].
  apply (route_same_walls m0 m l (di_walls _ _ _ _ H)) in Hr.
  destruct (route_split m l Hr) as [l' ->]. destruct Hr as [Hs He Hg Hl].
  destruct (dfs_reach _ _ _ H l' (getEnd m) Hs Hg Hl) as [He1 He2].
  apply (di_end _ _ _ _ H (getEnd m) He1 He2); [cbn; apply not_elem_of_nil|reflexivity].
Qed.

Lemma DFS_next_AtBacktracking curr maze :
  DFSSolver.next (DFSSolver.AtBacktracking curr) maze
  = if Pos.eq curr (getStart maze) then (Yield FINISHED, DFSSolver.AtLast, maze)
    else
      let parent_dir := getDirectionRouteBT maze curr in
      if Direction_eqb parent_dir Uninitialized
      then (Yield FINISHED, DFSSolver.AtLast, maze)
      else
        let curr := Pos.move curr parent_dir in
        let maze := markPath maze curr in
        (Yield BACKTRACKING, DFSSolver.AtBacktracking curr, maze).
Proof. reflexivity. Qed.

Lemma dfs_found m0 m st e vc :
  dfs_inv m0 m (st ++ [(getEnd m, e)]) vc ->
  exists m' l,
    runs DFSSolver.next (DFSSolver.AtSearching (st ++ [(getEnd m, e)]) vc) m
         (repeat BACKTRACKING (length l) ++ [FINISHED]) m' /\
    finished_with m0 m' l.
Proof.
  intros H. pose proof (di_ok _ _ _ _ H) as Hok.
  pose proof (di_grid _ _ _ _ H) as Hgrid. pose proof (di_links _ _ _ _ H) as Hlinks.
  pose proof (di_nodup _ _ _ _ H) as Hnd. pose proof (di_head _ _ _ _ H) as Hhead.
  rewrite map_app in Hgrid, Hlinks, Hnd, Hhead. cbn [map fst] in *.
  set (pre := map fst st) in *.
  assert (Hg : Forall (fun x => in_grid m x = true) (pre ++ [getEnd m])).
  { eapply Forall_impl; [exact Hgrid|]. intros x [Hx _]. exact Hx. }
  assert (He : in_grid m (getEnd m) = true).
  { rewrite Forall_app in Hg. destruct Hg as [_ Hg].
    apply Forall_cons in Hg as [Hg _]. exact Hg. }
  assert (Hh : head (pre ++ [getEnd m]) = Some (getStart m)).
  { destruct (pre ++ [getEnd m]) as [|y l] eqn:E; [destruct pre; discriminate|].
    cbn. f_equal. apply Hhead. reflexivity. }
  pose proof (markPath_update m (getEnd m) Hok He) as U.
  assert (Hl' : parent_links (markPath m (getEnd m)) (pre ++ [getEnd m])).
  { apply (parent_links_ext m); try assumption.
    - intros x. apply (cu_dir _ _ _ _ U). exact keeps_path_parent.
    - intros x d. apply (cu_canMove _ _ _ _ U). exact keeps_path_walls.
    - exact (cu_start _ _ _ _ U). }
  assert (Hh' : head (pre ++ [getEnd m]) = Some (getStart (markPath m (getEnd m))))
    by (rewrite (cu_start _ _ _ _ U); exact Hh).
  assert (Hg' : Forall (fun x => in_grid (markPath m (getEnd m)) x = true)
                       (pre ++ [getEnd m])).
  { eapply Forall_impl; [exact Hg|]. intros x Hx. cbn.
    rewrite (cell_update_in_grid _ _ _ _ x U). exact Hx. }
  destruct (backtrack_runs DFSSolver.next DFSSolver.AtBacktracking DFSSolver.AtLast
              DFSSolver.Finished DFS_next_AtBacktracking ltac:(reflexivity)
              pre (getEnd m) (markPath m (getEnd m)) (cu_ok _ _ _ _ U) Hh' Hg' Hl')
    as (m' & R & P).
  assert (Hcells : cells m = cells m0).
  { destruct (di_walls _ _ _ _ H) as (Hw & Hh0 & _). unfold cells. rewrite Hw, Hh0.
    reflexivity. }
  assert (Hlen : Z.of_nat (length (pre ++ [getEnd m])) <= cells m0).
  { destruct (di_len _ _ _ _ H) as [_ Hlen]. pose proof (di_count _ _ _ _ H).
    rewrite length_app in Hlen |- *. unfold pre. rewrite length_map.
    cbn [length] in *. lia. }
  exists m', (pre ++ [getEnd m]). split.
  - rewrite length_app. cbn [length]. rewrite <- repeat_snoc_app.
    eapply runs_yield; [|exact R].
    cbn [DFSSolver.next]. rewrite last_snoc.
    rewrite (proj2 (Pos_eq_spec _ _) eq_refl). reflexivity.
  - apply (reconstruction_marks m0 m m' pre); try assumption.
    + exact (di_walls _ _ _ _ H).
    + exact (di_nopath _ _ _ _ H).
Qed.

(** From any state of the search loop the generator runs to its end;
    each further SEARCHING token pays for a push or a pop. *)
Lemma dfs_search_runs m0 : forall k m st vc,
  dfs_inv m0 m st vc -> st <> [] ->
  2 * Z.of_nat (unvisited_count m) + Z.of_nat (length st) <= Z.of_nat k ->
  exists toks m' l,
    runs DFSSolver.next (DFSSolver.AtSearching st vc) m toks m' /\
    search_result m0 (Z.of_nat k - 1) toks m' l.
Proof.
  induction k as [|k IH]; intros m st vc H Hst Hk.
  - destruct st; [contradiction|]. cbn [length] in Hk. lia.
  - destruct st as [|[cur e] st _] using rev_ind; [contradiction|].
    destruct (decide (cur = getEnd m)) as [->|Hce].
    + destruct (dfs_found _ _ _ _ _ H) as (m' & l & R & F).
      exists (repeat BACKTRACKING (length l) ++ [FINISHED]), m', l.
      split; [exact R|].
      apply (result_finished _ _ _ _ _ 0%nat); [reflexivity|lia|exact F].
    + destruct (dfs_search_step _ _ _ _ _ _ H Hce) as (m1 & st1 & vc1 & E & H1 & M1).
      destruct st1 as [|p1 st1].
      * exists [NO_SOLUTION], m1, []. split.
        -- eapply runs_yield; [rewrite E; apply DFS_loop_head_nil|].
           eapply runs_return. reflexivity.
        -- apply (result_no_solution _ _ _ _ _ 0%nat); [reflexivity|lia|reflexivity| | | |].
           ++ exact (dfs_none _ _ _ H1).
           ++ exact (di_nopath _ _ _ _ H1).
           ++ exact (di_walls _ _ _ _ H1).
           ++ exact (di_ok _ _ _ _ H1).
      * destruct (IH m1 (p1 :: st1) vc1 H1 ltac:(discriminate) ltac:(lia))
          as (toks & m' & l & R & Res).
        exists (SEARCHING :: toks), m', l. split.
        -- eapply runs_yield; [rewrite E; apply DFS_loop_head_cons|exact R].
        -- destruct Res as [a Ht Ha F|a Ht Ha El Hns Hnp W' Hok'].
           ++ apply (result_finished _ _ _ _ _ (S a)); [rewrite Ht; reflexivity|lia|exact F].
           ++ apply (result_no_solution _ _ _ _ _ (S a));
                [rewrite Ht; reflexivity|lia|assumption..].
Qed.

(** Depth-first search on a fresh maze runs to its end. *)
Lemma DFS_total m0 :
  fresh m0 ->
  exists toks m' l,
    runs DFSSolver.next DFSSolver.Start m0 toks m' /\
    search_result m0 (2 * cells m0) toks m' l.
Proof.
  intros Hf. pose proof (dfs_init m0 Hf) as H.
  pose proof (di_count _ _ _ _ H) as Hc.
  assert (Hcells : cells (setDirectionRouteBT
                            (markOnStack (setVisitOrder m0 (getStart m0) 0) (getStart m0) true)
                            (getStart m0) Uninitialized) = cells m0).
  { destruct (di_walls _ _ _ _ H) as (Hw & Hh & _). unfold cells. rewrite Hw, Hh.
    reflexivity. }
  pose proof (go_cells _ (fresh_grid_ok m0 Hf)) as Hlt.
  pose proof (fresh_width m0 Hf). pose proof (fresh_height m0 Hf).
  assert (0 < cells m0) by (unfold cells; nia).
  destruct (dfs_search_runs m0 (Z.to_nat (2 * cells m0)) _ _ _ H ltac:(discriminate)
              ltac:(cbn [length]; lia)) as (toks & m' & l & R & Res).
  exists (SEARCHING :: toks), m', l. split.
  - eapply runs_yield; [|exact R]. reflexivity.
  - destruct Res as [a Ht Ha F|a Ht Ha El Hns Hnp W' Hok'].
    + apply (result_finished _ _ _ _ _ (S a)); [rewrite Ht; reflexivity|lia|exact F].
    + apply (result_no_solution _ _ _ _ _ (S a));
        [rewrite Ht; reflexivity|lia|assumption..].
Qed.

(* ================================================================== *)
(** ** What a finished search leaves                                  *)
(* ================================================================== *)

Lemma drive_S {S : Type} (next : S -> Maze -> IterResult * S * Maze) n s m :
  drive next (Datatypes.S n) s m
  = match next s m with
    | (Yield t, s', m') => let '(ts, o) := drive next n s' m' in (t :: ts, o)
    | (Return, _, m') => ([], Completed m')
    | (Throw e, _, m') => ([], Failed e m')
    | (Pending, _, _) => ([], Suspended s m)
    end.
Proof. reflexivity. Qed.

(** A run that completes takes one call of [next] for each token and
    one more. *)
Lemma drive_exact {S : Type} (next : S -> Maze -> IterResult * S * Maze) n s m toks m' :
  drive next n s m = (toks, Completed m') ->
  drive next (Datatypes.S (length toks)) s m = (toks, Completed m').
Proof.
  revert s m toks. induction n as [|n IH]; intros s m toks H; [discriminate|].
  rewrite drive_S in H |- *. destruct (next s m) as [[[t| |e|] s1] m1].
  - destruct (drive next n s1 m1) as [ts o] eqn:E. injection H as <- ->.
    cbn [length]. rewrite (IH _ _ _ E). reflexivity.
  - injection H as <- <-. reflexivity.
  - discriminate.
  - discriminate.
Qed.

Lemma runs_exact {S : Type} (next : S -> Maze -> IterResult * S * Maze) s m toks m' :
  runs next s m toks m' ->
  drive next (Datatypes.S (length toks)) s m = (toks, Completed m').
Proof. intros [n H]. exact (drive_exact next n s m toks m' H). Qed.

(** The cells on the path are as many as the cells of the chain that
    is marked. *)
Lemma path_marked_count m l : path_marked m l -> NoDup l -> on_path_count m = length l.
Proof.
  intros [Hr Hm] Hnd. unfold on_path_count. apply Permutation_length.
  apply NoDup_Permutation; [apply NoDup_filter, NoDup_grid_positions|exact Hnd|].
  intros p. rewrite list_elem_of_filter, elem_of_grid_positions. split.
  - intros [Hp Hg]. apply Hm; assumption.
  - intros Hp.
    assert (Hg : in_grid m p = true).
    { pose proof (route_grid _ _ Hr) as G. rewrite Forall_forall in G. apply G. exact Hp. }
    split; [apply Hm; assumption|exact Hg].
Qed.

Lemma path_marked_end m l : path_marked m l -> on_path m (getEnd m) = true.
Proof.
  intros [Hr Hm].
  destruct (route_split m l Hr) as [l' ->].
  assert (Hin : getEnd m ∈ l' ++ [getEnd m]) by (rewrite elem_of_app; right; left).
  apply Hm; [|exact Hin].
  pose proof (route_grid _ _ Hr) as G. rewrite Forall_forall in G. apply G. exact Hin.
Qed.

Lemma search_result_length m0 bound toks m' l :
  0 <= cells m0 ->
  search_result m0 bound toks m' l ->
  Z.of_nat (length toks) <= bound + cells m0 + 1.
Proof.
  intros Hc [a -> Ha F|a -> Ha -> _ _ _ _].
  - pose proof (fw_cells _ _ _ F).
    rewrite !length_app, !repeat_length. cbn [length]. lia.
  - rewrite length_app, repeat_length. cbn [length]. lia.
Qed.

Lemma search_result_ends m0 bound toks m' l :
  search_result m0 bound toks m' l ->
  exists t, ends_once toks t /\ (~ solvable m0 -> t = NO_SOLUTION) /\
            (solvable m0 -> t = FINISHED /\ finished_with m0 m' l).
Proof.
  assert (Hrep : forall (x : Token) n, ~ terminal x ->
                   Forall (fun y => ~ terminal y) (repeat x n)).
  { intros x n Hx. induction n; constructor; assumption. }
  intros [a -> Ha F|a -> Ha -> Hns Hnp W' Hok'].
  - exists FINISHED. split; [|split].
    + exists (repeat SEARCHING a ++ repeat BACKTRACKING (length l)).
      rewrite <- app_assoc. split; [reflexivity|]. split; [left; reflexivity|].
      apply Forall_app. split; apply Hrep; intros [H|H]; discriminate.
    + intros Hns. destruct Hns. exists l. exact (fw_route _ _ _ F).
    + intros _. split; [reflexivity|exact F].
  - exists NO_SOLUTION. split; [|split].
    + exists (repeat SEARCHING a). split; [reflexivity|]. split; [right; reflexivity|].
      apply Hrep. intros [H|H]; discriminate.
    + reflexivity.
    + intros Hs. contradiction.
Qed.

Lemma search_result_finished m0 bound toks m' l :
  search_result m0 bound toks m' l -> last toks = Some FINISHED ->
  finished_with m0 m' l.
Proof.
  intros [a -> Ha F|a -> Ha -> Hns Hnp W' Hok'] Hl; [exact F|].
  rewrite last_snoc in Hl. discriminate.
Qed.

Ltac fresh_by_computation :=
  split; [vm_compute; reflexivity | vm_compute; reflexivity | vm_compute; reflexivity
         | split; vm_compute; reflexivity
         | vm_compute; reflexivity | vm_compute; reflexivity
         | vm_compute; repeat constructor | vm_compute; repeat constructor].

(* ================================================================== *)
(** ** The two single-walker searches                                 *)
(* ================================================================== *)

(** C1 (as amended: BFS and DFS).  On a maze as the loader leaves it,
    when the token sequence of BFS or of DFS ends with FINISHED, the
    cells with ON_PATH set are exactly the cells of one chain from Start
    to End whose consecutive cells are joined by an open edge, no cell
    twice, and End has ON_PATH set. *)
Theorem finished_search_marks_a_chain m0 n toks m' :
  fresh m0 ->
  BFSSolver.solve_step_by_step n m0 = (toks, Completed m') \/
  DFSSolver.solve_step_by_step n m0 = (toks, Completed m') ->
  last toks = Some FINISHED ->
  (exists l, path_marked m' l /\ NoDup l) /\ on_path m' (getEnd m') = true.
Proof.
  intros Hf Hrun Hlast.
  assert (F : exists l, finished_with m0 m' l).
  { destruct Hrun as [Hrun|Hrun].
    - destruct (BFS_total m0 Hf) as (toks1 & m1 & l & R & Res & _).
      destruct (runs_unique _ _ _ _ _ _ _ _ R Hrun) as [-> ->].
      exists l. exact (search_result_finished _ _ _ _ _ Res Hlast).
    - destruct (DFS_total m0 Hf) as (toks1 & m1 & l & R & Res).
      destruct (runs_unique _ _ _ _ _ _ _ _ R Hrun) as [-> ->].
      exists l. exact (search_result_finished _ _ _ _ _ Res Hlast). }
  destruct F as [l F]. split.
  - exists l. split; [exact (fw_marked _ _ _ F)|exact (fw_nodup _ _ _ F)].
  - exact (path_marked_end _ _ (fw_marked _ _ _ F)).
Qed.

Lemma finished_search_marks_a_chain_witness :
  exists m',
    DFSSolver.solve_step_by_step 12 maze_snake
    = (repeat SEARCHING 5 ++ repeat BACKTRACKING 5 ++ [FINISHED], Completed m') /\
    (exists l, path_marked m' l /\ NoDup l) /\ on_path m' (getEnd m') = true.
Proof.
  eexists. split; [vm_compute; reflexivity|].
  apply (finished_search_marks_a_chain maze_snake 12
           (repeat SEARCHING 5 ++ repeat BACKTRACKING 5 ++ [FINISHED])).
  - fresh_by_computation.
  - right. vm_compute. reflexivity.
  - reflexivity.
Defined.

(** C2 (as amended: BFS and DFS).  On a maze as the loader leaves it
    the token sequence of BFS and that of DFS are finite: the generator
    returns after a last token that is FINISHED or NO_SOLUTION, neither
    occurs before it, it is NO_SOLUTION when no chain leads from Start to
    End, and the tokens are at most 2 * cells + 1 for BFS and
    3 * cells + 1 for DFS. *)
Theorem search_ends_with_one_terminal_token m0 :
  fresh m0 ->
  (exists toks m' t,
      BFSSolver.solve_step_by_step (S (length toks)) m0 = (toks, Completed m') /\
      ends_once toks t /\ (~ solvable m0 -> t = NO_SOLUTION) /\
      Z.of_nat (length toks) <= 2 * cells m0 + 1) /\
  (exists toks m' t,
      DFSSolver.solve_step_by_step (S (length toks)) m0 = (toks, Completed m') /\
      ends_once toks t /\ (~ solvable m0 -> t = NO_SOLUTION) /\
      Z.of_nat (length toks) <= 3 * cells m0 + 1).
Proof.
  intros Hf.
  assert (Hc : 0 <= cells m0).
  { pose proof (fresh_width _ Hf). pose proof (fresh_height _ Hf). unfold cells. nia. }
  split.
  - destruct (BFS_total m0 Hf) as (toks & m' & l & R & Res & _).
    destruct (search_result_ends _ _ _ _ _ Res) as (t & E & Hns & _).
    exists toks, m', t. split; [exact (runs_exact _ _ _ _ _ R)|].
    split; [exact E|]. split; [exact Hns|].
    pose proof (search_result_length _ _ _ _ _ Hc Res). lia.
  - destruct (DFS_total m0 Hf) as (toks & m' & l & R & Res).
    destruct (search_result_ends _ _ _ _ _ Res) as (t & E & Hns & _).
    exists toks, m', t. split; [exact (runs_exact _ _ _ _ _ R)|].
    split; [exact E|]. split; [exact Hns|].
    pose proof (search_result_length _ _ _ _ _ Hc Res). lia.
Qed.

Lemma search_ends_with_one_terminal_token_witness :
  (exists toks m' t,
      BFSSolver.solve_step_by_step (S (length toks)) maze_deadend = (toks, Completed m') /\
      ends_once toks t /\ (~ solvable maze_deadend -> t = NO_SOLUTION) /\
      Z.of_nat (length toks) <= 2 * cells maze_deadend + 1) /\
  (exists toks m' t,
      DFSSolver.solve_step_by_step (S (length toks)) maze_deadend = (toks, Completed m') /\
      ends_once toks t /\ (~ solvable maze_deadend -> t = NO_SOLUTION) /\
      Z.of_nat (length toks) <= 3 * cells maze_deadend + 1).
Proof.
  apply (search_ends_with_one_terminal_token maze_deadend). fresh_by_computation.
Defined.

(** C3 (as amended).  On a solvable maze as the loader leaves it BFS
    ends with FINISHED, the number of cells marked ON_PATH is the
    distance from Start to End counted in cells, and the visit order
    stored at End is the number of cells discovered before it (the
    cells that hold a smaller visit order), which is at least that
    distance less one and less than the number of cells. *)
Theorem BFS_marks_a_shortest_path m0 n :
  fresh m0 -> distance_in_cells m0 n ->
  exists toks m' o,
    BFSSolver.solve_step_by_step (S (length toks)) m0 = (toks, Completed m') /\
    last toks = Some FINISHED /\
    on_path_count m' = n /\
    getVisitOrder m' (getEnd m') = Some o /\
    Z.of_nat (discovered_before m' (getEnd m')) = o /\
    Z.of_nat n - 1 <= o < cells m0.
Proof.
  intros Hf [(l0 & Hr0 & Hn0) Hmin].
  destruct (BFS_total m0 Hf) as (toks & m' & l & R & Res & X).
  destruct (search_result_ends _ _ _ _ _ Res) as (t & (pre & -> & _) & _ & Hs).
  destruct (Hs (ex_intro _ l0 Hr0)) as [-> F].
  assert (Hl : l <> []).
  { intros ->. pose proof (route_end _ _ (fw_route _ _ _ F)). discriminate. }
  destruct (X Hl) as (Hshort & Hord & Hbefore).
  assert (Hlen : length l = n).
  { pose proof (Hmin l (fw_route _ _ _ F)). pose proof (Hshort l0 Hr0). lia. }
  assert (He : getEnd m' = getEnd m0).
  { destruct (fw_walls _ _ _ F) as (Hw & Hh & _). unfold getEnd. rewrite Hw, Hh.
    reflexivity. }
  rewrite Hlen in Hord. unfold order in Hord.
  exists (pre ++ [FINISHED]), m', (order m' (getEnd m0)).
  split; [exact (runs_exact _ _ _ _ _ R)|]. split; [apply last_snoc|].
  split; [rewrite <- Hlen; exact (path_marked_count _ _ (fw_marked _ _ _ F) (fw_nodup _ _ _ F))|].
  rewrite He. split; [|split; [exact Hbefore|fold (order m' (getEnd m0)); exact Hord]].
  unfold order.
  destruct (getVisitOrder m' (getEnd m0)) as [o|]; [reflexivity|].
  cbn [default from_option] in Hord. destruct l; [contradiction|].
  cbn [length] in Hlen. lia.
Qed.

Lemma BFS_marks_a_shortest_path_witness :
  exists toks m' o,
    BFSSolver.solve_step_by_step (S (length toks)) maze_open3 = (toks, Completed m') /\
    last toks = Some FINISHED /\
    on_path_count m' = 3%nat /\
    getVisitOrder m' (getEnd m') = Some o /\
    Z.of_nat (discovered_before m' (getEnd m')) = o /\
    Z.of_nat 3 - 1 <= o < cells maze_open3.
Proof.
  apply (BFS_marks_a_shortest_path maze_open3 3).
  - fresh_by_computation.
  - exact open3_distance.
Defined.

(** A search that ends with NO_SOLUTION decides that no chain leads
    from Start to End. *)
Lemma BFS_no_solution_decides m0 n toks m' :
  fresh m0 ->
  BFSSolver.solve_step_by_step n m0 = (toks, Completed m') ->
  last toks = Some NO_SOLUTION ->
  ~ solvable m0.
Proof.
  intros Hf Hrun Hlast.
  destruct (BFS_total m0 Hf) as (toks1 & m1 & l & R & Res & _).
  destruct (runs_unique _ _ _ _ _ _ _ _ R Hrun) as [-> ->].
  destruct Res as [a -> Ha F|a -> Ha -> Hns Hnp W' Hok']; [|exact Hns].
  rewrite !app_assoc, last_snoc in Hlast. discriminate.
Qed.

(* ================================================================== *)
(** ** MT-M2: a walker's step looks at the top of its stack only      *)
(* ================================================================== *)

Lemma last_app_ne {A} (b s : list A) : s <> [] -> last (b ++ s) = last s.
Proof.
  intros Hs. destruct s as [|x s] using rev_ind; [contradiction|].
  rewrite app_assoc, !last_snoc. reflexivity.
Qed.

Lemma removelast_app_ne {A} (b s : list A) :
  s <> [] -> removelast (b ++ s) = b ++ removelast s.
Proof. intros Hs. apply removelast_app. exact Hs. Qed.

Lemma set_last_app {A} (b s : list A) x :
  s <> [] -> set_last (b ++ s) x = b ++ set_last s x.
Proof.
  intros Hs. unfold set_last. rewrite removelast_app_ne by exact Hs.
  rewrite app_assoc. reflexivity.
Qed.

Lemma set_last_ne {A} (s : list A) x : set_last s x <> [].
Proof. unfold set_last. destruct (removelast s); discriminate. Qed.

Lemma removelast_set_last {A} (s : list A) x : removelast (set_last s x) = removelast s.
Proof. unfold set_last. apply removelast_last. Qed.

Lemma two_deep_removelast {A} (s : list A) :
  (2 <= length s)%nat -> removelast s <> [].
Proof.
  destruct s as [|x s] using rev_ind; [cbn; lia|].
  rewrite removelast_last, length_app. cbn. destruct s; [cbn; lia|discriminate].
Qed.

(** The step of a walker with two junctions on its stack does the same
    with any stack put underneath, and leaves a junction. *)
Lemma step_frame base t m :
  (2 <= length (DFSThread.stack t))%nat ->
  DFSThread.step (with_base base t) m
  = (fst (fst (DFSThread.step t m)),
     with_base base (snd (fst (DFSThread.step t m))),
     snd (DFSThread.step t m)) /\
  DFSThread.stack (snd (fst (DFSThread.step t m))) <> [].
Proof.
  intros Hlen.
  assert (Hne : DFSThread.stack t <> []) by (destruct (DFSThread.stack t); [cbn in Hlen; lia|discriminate]).
  destruct t as [id tb stack fin st tp cd bt]. cbn [DFSThread.stack] in *.
  unfold DFSThread.step, with_base.
  cbn [DFSThread.finished DFSThread.stack DFSThread.state DFSThread.target_pos
       DFSThread.id DFSThread.is_tb DFSThread.corridor_dir DFSThread.backtrack_target].
  rewrite length_app.
  destruct fin; [cbn; auto|]. cbn [orb].
  destruct (Z.eqb_spec (Z.of_nat (length stack)) 0) as [E|_]; [lia|].
  destruct (Z.eqb_spec (Z.of_nat (length base + length stack)) 0) as [E|_]; [lia|].
  destruct (st =? 0).
  { rewrite last_app_ne by exact Hne.
    destruct (last stack) as [junc|] eqn:El; [|cbn; auto].
    unfold DFSThread.step_junction.
    cbn [DFSThread.finished DFSThread.stack DFSThread.state DFSThread.target_pos
         DFSThread.id DFSThread.is_tb DFSThread.corridor_dir DFSThread.backtrack_target].
    match goal with |- context [if ?c then (Some DFSThread.FOUND_TARGET, _, _) else _] =>
      destruct c end; [cbn; auto|].
    set (e := if 0 <? Branches.size (branches junc) then _ else _).
    destruct e as [[d br] mz].
    rewrite set_last_app by exact Hne.
    destruct (Direction_eqb d Uninitialized); [|cbn; split; [reflexivity|apply set_last_ne]].
    rewrite removelast_app_ne by apply set_last_ne.
    rewrite removelast_set_last.
    pose proof (two_deep_removelast stack Hlen) as Hr.
    rewrite last_app_ne by exact Hr.
    destruct (last (removelast stack)) as [parent|] eqn:Ep.
    - set (e := Branches.popCurrThreads _ _ _). destruct e as [[d2 pbr] mz2].
      rewrite set_last_app by exact Hr. cbn. split; [reflexivity|apply set_last_ne].
    - destruct (removelast stack) using rev_ind; [contradiction|].
      rewrite last_snoc in Ep. discriminate. }
  destruct (st =? 1).
  { destruct tp as [target|]; [|cbn; auto].
    unfold DFSThread.step_corridor.
    cbn [DFSThread.finished DFSThread.stack DFSThread.state DFSThread.target_pos
         DFSThread.id DFSThread.is_tb DFSThread.corridor_dir DFSThread.backtrack_target].
    match goal with |- context [if ?c then (Some DFSThread.FOUND_TARGET, _, _) else _] =>
      destruct c end.
    - cbn. rewrite app_assoc. split; [reflexivity|]. destruct stack; discriminate.
    - match goal with |- context [if negb ?c then _ else _] => destruct c end; cbn.
      + auto.
      + rewrite app_assoc. split; [reflexivity|]. destruct stack; discriminate. }
  destruct (st =? 2).
  { destruct tp as [target|]; [|cbn; auto].
    unfold DFSThread.step_backtrack.
    cbn [DFSThread.finished DFSThread.stack DFSThread.state DFSThread.target_pos
         DFSThread.id DFSThread.is_tb DFSThread.corridor_dir DFSThread.backtrack_target].
    destruct bt as [goal|]; [|cbn; auto].
    destruct (Pos.eq target goal); [cbn; auto|].
    match goal with |- context [Direction_eqb ?x Uninitialized] =>
      destruct (Direction_eqb x Uninitialized) end; cbn; auto. }
  cbn. auto.
Qed.

Lemma with_bases_snoc dbs done b t :
  length dbs = length done ->
  with_bases (dbs ++ [b]) (done ++ [t]) = with_bases dbs done ++ [with_base b t].
Proof. intros H. unfold with_bases. rewrite zip_with_app by exact H. reflexivity. Qed.

Lemma with_bases_app dbs done bs ths :
  length dbs = length done ->
  with_bases (dbs ++ bs) (done ++ ths) = with_bases dbs done ++ with_bases bs ths.
Proof. intros H. unfold with_bases. rewrite zip_with_app by exact H. reflexivity. Qed.

Lemma with_bases_compose bs ds ths :
  with_bases bs (with_bases ds ths) = with_bases (zip_with app bs ds) ths.
Proof.
  revert ds ths. induction bs as [|b bs IH]; intros [|d ds] [|t ths]; try reflexivity.
  cbn. rewrite <- IH. f_equal. unfold with_base. cbn. rewrite app_assoc. reflexivity.
Qed.

(** A round of the main loop does the same with any stacks put under
    those of deep walkers. *)
Lemma round_frame todo : forall bs dbs done m f cp a,
  forallb deep todo = true -> length bs = length todo -> length dbs = length done ->
  MTSolver.round (with_bases bs todo) (with_bases dbs done) m f cp a
  = match MTSolver.round todo done m f cp a with
    | Some (ths, m', f', cp', a') => Some (with_bases (dbs ++ bs) ths, m', f', cp', a')
    | None => None
    end.
Proof.
  induction todo as [|t todo IH]; intros [|b bs] dbs done m f cp a Hd Hb Hdb;
    try discriminate.
  - cbn. rewrite app_nil_r. reflexivity.
  - cbn [forallb] in Hd. apply andb_true_iff in Hd as [Ht Hd].
    cbn [length] in Hb. injection Hb as Hb.
    assert (Hsn : forall t', length (dbs ++ [b]) = length (done ++ [t'])).
    { intros t'. rewrite !length_app. cbn. lia. }
    change (with_bases (b :: bs) (t :: todo)) with (with_base b t :: with_bases bs todo).
    cbn [MTSolver.round].
    change (DFSThread.finished (with_base b t)) with (DFSThread.finished t).
    destruct (DFSThread.finished t) eqn:Ef.
    + rewrite <- with_bases_snoc by exact Hdb.
      rewrite (IH bs (dbs ++ [b]) (done ++ [t]) m f cp a Hd Hb (Hsn t)).
      rewrite <- app_assoc. reflexivity.
    + unfold deep in Ht. rewrite Ef in Ht. cbn [orb] in Ht.
      apply Z.leb_le in Ht.
      destruct (step_frame b t m ltac:(lia)) as [Es Hne]. rewrite Es.
      destruct (DFSThread.step t m) as [[r t'] m']. cbn [fst snd] in *.
      destruct r as [[| |]|].
      * change (DFSThread.set_finished (with_base b t') true)
          with (with_base b (DFSThread.set_finished t' true)).
        rewrite <- with_bases_snoc by exact Hdb.
        rewrite (IH bs (dbs ++ [b]) (done ++ [_]) m' f cp a Hd Hb (Hsn _)).
        rewrite <- app_assoc. reflexivity.
      * change (DFSThread.target_pos (with_base b t')) with (DFSThread.target_pos t').
        change (DFSThread.stack (with_base b t')) with (b ++ DFSThread.stack t').
        rewrite length_app.
        destruct (Z.ltb_spec 0 (Z.of_nat (length (DFSThread.stack t')))) as [_|E];
          [|destruct (DFSThread.stack t'); [contradiction|cbn in E; lia]].
        destruct (Z.ltb_spec 0 (Z.of_nat (length b + length (DFSThread.stack t'))))
          as [_|E]; [|destruct (DFSThread.stack t'); [contradiction|cbn in E; lia]].
        rewrite (with_bases_app dbs done (b :: bs) (t' :: todo) Hdb). reflexivity.
      * rewrite <- with_bases_snoc by exact Hdb.
        rewrite (IH bs (dbs ++ [b]) (done ++ [_]) m' f cp (a + 1) Hd Hb (Hsn _)).
        rewrite <- app_assoc. reflexivity.
      * reflexivity.
Qed.

(** Rounds in which nothing is found run the same on any stacks put
    under those of the walkers, and yield SEARCHING each. *)
Lemma searching_rounds_frame fuel n : forall ths cp a m ths' cp' a' m' bs,
  searching_rounds n ths cp a m = Some (ths', cp', a', m') ->
  length bs = length ths ->
  drive (MTSolver.next fuel) n (MTSolver.AtSearching (with_bases bs ths) false cp a) m
  = (repeat SEARCHING n,
     Suspended (MTSolver.AtSearching (with_bases bs ths') false cp' a') m').
Proof.
  induction n as [|n IH]; intros ths cp a m ths' cp' a' m' bs H Hb.
  - cbn in H. injection H as <- <- <- <-. reflexivity.
  - cbn [searching_rounds] in H.
    destruct (forallb deep ths) eqn:Hd; [|discriminate]. cbn [andb] in H.
    destruct (Z.eqb_spec a 0) as [|Ha]; [discriminate|]. cbn [negb] in H.
    destruct (MTSolver.round ths [] m false cp 0) as [[[[[ths1 m1] f1] cp1] a1]|] eqn:Er;
      [|discriminate].
    destruct f1; [discriminate|].
    destruct (Nat.eqb_spec (length ths1) (length ths)) as [El|]; [|discriminate].
    cbn [drive MTSolver.next].
    destruct (Z.eqb_spec a 0) as [|_]; [contradiction|]. cbn [andb].
    unfold MTSolver.loop_head. cbn [negb].
    pose proof (round_frame ths bs [] [] m false cp 0 Hd Hb eq_refl) as Hr.
    change (with_bases [] []) with (@nil DFSThread.t) in Hr. rewrite Hr, Er.
    cbn [app]. rewrite (IH ths1 cp1 a1 m1 ths' cp' a' m' bs H ltac:(lia)).
    reflexivity.
Qed.

Lemma drive_prefix {S : Type} (next : S -> Maze -> IterResult * S * Maze) t k :
  forall n s m s' m',
    drive next (k + n) s m = (repeat t (k + n), Suspended s' m') ->
    exists s1 m1, drive next k s m = (repeat t k, Suspended s1 m1).
Proof.
  induction k as [|k IH]; intros n s m s' m' H; [cbn; eauto|].
  cbn [Nat.add drive repeat] in *.
  destruct (next s m) as [[[t1| |e|] s1] m1]; try discriminate.
  destruct (drive next (k + n) s1 m1) as [ts o] eqn:E. injection H as -> -> ->.
  destruct (IH n s1 m1 s' m' E) as (s2 & m2 & E2). rewrite E2. eauto.
Qed.

(* ================================================================== *)
(** ** MT-M2 on the ring maze                                         *)
(* ================================================================== *)

Lemma ring_reached fuel :
  drive (MTSolver.next fuel) 19 MTSolver.Start maze_ring
  = (repeat SEARCHING 19,
     Suspended (MTSolver.AtSearching (with_bases (map under2 ring_threads) ring_core)
                                     false None 3) ring_maze).
Proof. vm_compute. reflexivity. Qed.

(** One lap: five rounds later the maze and the tops of the stacks are
    as before, and each walker has one more junction underneath. *)
Lemma ring_lap_rounds :
  searching_rounds 5 ring_core None 3 ring_maze
  = Some (with_bases ring_lap ring_core, None, 3, ring_maze).
Proof. vm_compute. reflexivity. Qed.

Lemma ring_laps fuel k : forall bs,
  length bs = 6%nat ->
  exists bs', length bs' = 6%nat /\
    drive (MTSolver.next fuel) (5 * k)
          (MTSolver.AtSearching (with_bases bs ring_core) false None 3) ring_maze
    = (repeat SEARCHING (5 * k),
       Suspended (MTSolver.AtSearching (with_bases bs' ring_core) false None 3) ring_maze).
Proof.
  induction k as [|k IH]; intros bs Hb.
  - exists bs. split; [exact Hb|reflexivity].
  - pose proof (searching_rounds_frame fuel 5 _ _ _ _ _ _ _ _ bs ring_lap_rounds Hb) as H5.
    rewrite with_bases_compose in H5.
    destruct (IH (zip_with app bs ring_lap)) as (bs' & Hb' & Hk).
    { rewrite length_zip_with, Hb. reflexivity. }
    exists bs'. split; [exact Hb'|].
    replace (5 * S k)%nat with (5 + 5 * k)%nat by lia.
    rewrite (drive_app _ 5 (5 * k) _ _ _ _ _ H5 eq_refl), Hk. cbn [fst snd].
    rewrite <- repeat_app. reflexivity.
Qed.

(** On the ring maze MT-M2 yields SEARCHING for ever: the walkers of
    Start go round the ring, pushing the junction they pass at every
    lap. *)
Lemma MT_M2_ring_runs n :
  exists s m,
    MTSolver.solve_step_by_step n maze_ring = (repeat SEARCHING n, Suspended s m).
Proof.
  unfold MTSolver.solve_step_by_step.
  destruct (ring_laps n n (map under2 ring_threads) eq_refl) as (bs' & _ & Hk).
  apply (drive_prefix _ SEARCHING n (19 + 4 * n) _ _
           (MTSolver.AtSearching (with_bases bs' ring_core) false None 3) ring_maze).
  replace (n + (19 + 4 * n))%nat with (19 + 5 * n)%nat by lia.
  rewrite (drive_app _ 19 (5 * n) _ _ _ _ _ (ring_reached n) eq_refl), Hk. cbn [fst snd].
  rewrite <- repeat_app. reflexivity.
Qed.

(** C2 as stated fails for both multi-walker solvers.  On the two-cell
    maze whose Start is walled off no chain leads to End, and MT-M1
    yields SEARCHING for ever; on the ring maze no chain leads to End,
    and MT-M2 yields SEARCHING for ever.  However many tokens are taken,
    the generator is still suspended and has yielded nothing else. *)
Lemma multi_walker_searches_never_stop :
  (~ solvable maze_walled /\
   forall n, exists s m,
     MT_M1_Solver.solve_step_by_step n maze_walled
     = (repeat SEARCHING n, Suspended s m)) /\
  (~ solvable maze_ring /\
   forall n, exists s m,
     MTSolver.solve_step_by_step n maze_ring = (repeat SEARCHING n, Suspended s m)).
Proof.
  split; split; [|exact MT_M1_walled_runs| |exact MT_M2_ring_runs].
  - eapply (BFS_no_solution_decides maze_walled 3 [SEARCHING; NO_SOLUTION]).
    + fresh_by_computation.
    + vm_compute. reflexivity.
    + reflexivity.
  - eapply (BFS_no_solution_decides maze_ring 7 (repeat SEARCHING 5 ++ [NO_SOLUTION])).
    + fresh_by_computation.
    + vm_compute. reflexivity.
    + reflexivity.
Qed.

(* ================================================================== *)
(** ** Further properties: the loader                                 *)
(* ================================================================== *)

Lemma Load_cells_keeps n this r c bits :
  typed this ->
  let this' := fst (Load_cells n this r c bits) in
  typed this' /\
  order_slots this' = order_slots this /\
  thread_ownership this' = thread_ownership this /\
  length (cell_words this') = length (cell_words this) /\
  (Forall (fun v => Z.land v 3 = v) (cell_words this) ->
   Forall (fun v => Z.land v 3 = v) (cell_words this')).
Proof.
  revert this c bits. induction n as [|n IH]; intros this c bits Ht; cbn [Load_cells].
  - cbn. auto.
  - destruct (width this <=? c); [cbn; auto|]. cbv zeta.
    match goal with |- context [Load_cells n (mkMaze ?w ?h (arr_set ?a ?i ?v) ?o ?t) _ _ _] =>
      change (mkMaze w h (arr_set a i v) o t) with (setCell this (mkPosition r c) v) end.
    match goal with |- context [Load_cells n (setCell this ?p ?v) _ _ _] =>
      destruct (setCell_typed this p v Ht) as [Ht' [Ed Ev]];
      destruct (IH (setCell this p v) (c + 1) (ToInt32 (Z.shiftr bits 2)) Ht')
        as (I0 & I1 & I2 & I3 & I4) end.
    rewrite I1, I2, I3, Ed, Ev, ta_set_length. split; [exact I0|].
    repeat split; try reflexivity.
    intros H. apply I4. rewrite Ed. apply ta_set_Forall; [exact H|].
    destruct (Z.land bits 1 =? 0), (Z.land (Z.shiftr bits 1) 1 =? 0); reflexivity.
Qed.

Lemma Load_words_keeps fuel buffer this r c offset :
  typed this ->
  let this' := fst (fst (Load_words fuel buffer this r c offset)) in
  typed this' /\
  width this' = width this /\ height this' = height this /\
  order_slots this' = order_slots this /\
  thread_ownership this' = thread_ownership this /\
  length (cell_words this') = length (cell_words this) /\
  (Forall (fun v => Z.land v 3 = v) (cell_words this) ->
   Forall (fun v => Z.land v 3 = v) (cell_words this')).
Proof.
  revert this c offset. induction fuel as [|fuel IH]; intros this c offset Ht;
    cbn [Load_words]; [cbn; auto 10|].
  destruct (c <? width this); [|cbn; auto 10].
  destruct (byteLength buffer <=? offset); [cbn; auto 10|].
  destruct (getInt32 buffer offset) as [bits|]; [|cbn; auto 10].
  pose proof (Load_cells_keeps 16 this r c bits Ht) as (C0 & C1 & C2 & C3 & C4).
  pose proof (Load_cells_width 16 this r c bits) as [Cw Ch].
  destruct (Load_cells 16 this r c bits) as [this1 c1]. cbn [fst] in *.
  destruct (IH this1 c1 (offset + 4) C0) as (I0 & I1 & I2 & I3 & I4 & I5 & I6).
  cbv zeta. rewrite I1, I2, I3, I4, I5. split; [exact I0|]. repeat split; try congruence.
  intros H. apply I6, C4, H.
Qed.

Lemma Load_rows_keeps n buffer this r offset :
  typed this ->
  let this' := fst (Load_rows n buffer this r offset) in
  typed this' /\
  width this' = width this /\ height this' = height this /\
  order_slots this' = order_slots this /\
  thread_ownership this' = thread_ownership this /\
  length (cell_words this') = length (cell_words this) /\
  (Forall (fun v => Z.land v 3 = v) (cell_words this) ->
   Forall (fun v => Z.land v 3 = v) (cell_words this')).
Proof.
  revert this r offset. induction n as [|n IH]; intros this r offset Ht;
    cbn [Load_rows]; [cbn; auto 10|].
  pose proof (Load_words_keeps (Z.to_nat (width this)) buffer this r 0 offset Ht)
    as (W0 & W1 & W2 & W3 & W4 & W5 & W6).
  destruct (Load_words (Z.to_nat (width this)) buffer this r 0 offset)
    as [[this1 offset1] [e|]]; cbn [fst] in *; [auto 10|].
  destruct (IH this1 (r + 1) offset1 W0) as (I0 & I1 & I2 & I3 & I4 & I5 & I6).
  cbv zeta. rewrite I1, I2, I3, I4, I5. split; [exact I0|]. repeat split; try congruence.
  intros H. apply I6, W6, H.
Qed.

(** X1.  A load that completes, with positive dimensions and fewer
    than 2^31 cells, leaves a maze whose words hold wall bits only and
    whose cells are all unvisited, with the dimensions of the header;
    the ownership map is left as it was. *)
Theorem Load_leaves_a_fresh_maze (engine : Z -> bool) (this : Maze)
    (buffer : list byte) (m : Maze) :
  Load engine this buffer = (m, None) ->
  0 < width m -> 0 < height m -> cells m < 2 ^ 31 ->
  fresh m /\
  getInt32 buffer 0 = Some (width m) /\ getInt32 buffer 4 = Some (height m) /\
  thread_ownership m = thread_ownership this.
Proof.
  unfold Load. intros H Hw Hh Hc.
  destruct (getInt32 buffer 0) as [w|]; [|discriminate].
  destruct (getInt32 buffer 4) as [h|]; [|discriminate].
  destruct (getInt32 buffer 8) as [sv|]; [|discriminate].
  cbn [width height poMazeData visitOrder thread_ownership] in H.
  unfold Int32Array_new in H.
  destruct ((w * h <? 0) || (2 ^ 53 - 1 <? 4 * (w * h)) || negb (engine (w * h)));
    [discriminate|].
  match type of H with Load_rows ?n ?b ?t ?r ?o = _ =>
    destruct (typed_intro t (replicate (Z.to_nat (w * h)) 0)
                (replicate (length (replicate (Z.to_nat (w * h)) 0)) (-1))
                eq_refl eq_refl) as [Ht [Ed Ev]];
    pose proof (Load_rows_keeps n b t r o Ht) as (I0 & I1 & I2 & I3 & I4 & I5 & I6);
    rewrite H in I0, I1, I2, I3, I4, I5, I6 end.
  rewrite Ed in I5, I6. rewrite Ev in I3.
  cbn [fst width height poMazeData visitOrder thread_ownership] in *.
  subst w h. split; [|auto]. split; try assumption.
  - rewrite I5, length_replicate. reflexivity.
  - rewrite I3, !length_replicate. reflexivity.
  - apply I6, Forall_replicate. reflexivity.
  - rewrite I3. apply Forall_replicate. reflexivity.
Qed.

Lemma Load_leaves_a_fresh_maze_witness :
  fresh maze_snake /\
  getInt32 (blob 3 3 [27; 51; 63]) 0 = Some (width maze_snake) /\
  getInt32 (blob 3 3 [27; 51; 63]) 4 = Some (height maze_snake) /\
  thread_ownership maze_snake = thread_ownership Maze_new.
Proof.
  apply (Load_leaves_a_fresh_maze roomy Maze_new (blob 3 3 [27; 51; 63]) maze_snake);
    vm_compute; reflexivity.
Defined.

(* ================================================================== *)
(** ** Further properties: the two single-walker searches             *)
(* ================================================================== *)

(** X2.  BFS and DFS decide whether a chain leads from Start to End:
    on a maze as the loader leaves it each ends with FINISHED exactly
    when there is one, and with NO_SOLUTION exactly when there is
    none. *)
Theorem searches_decide_solvability (m0 : Maze) :
  fresh m0 ->
  (exists toks m',
      BFSSolver.solve_step_by_step (S (length toks)) m0 = (toks, Completed m') /\
      (last toks = Some FINISHED <-> solvable m0) /\
      (last toks = Some NO_SOLUTION <-> ~ solvable m0)) /\
  (exists toks m',
      DFSSolver.solve_step_by_step (S (length toks)) m0 = (toks, Completed m') /\
      (last toks = Some FINISHED <-> solvable m0) /\
      (last toks = Some NO_SOLUTION <-> ~ solvable m0)).
Proof.
  intros Hf.
  assert (D : forall bound toks m' l, search_result m0 bound toks m' l ->
            (last toks = Some FINISHED <-> solvable m0) /\
            (last toks = Some NO_SOLUTION <-> ~ solvable m0)).
  { intros bound toks m' l [a -> Ha F|a -> Ha -> Hns Hnp W' Hok'].
    - rewrite !app_assoc, last_snoc.
      assert (solvable m0) by (exists l; exact (fw_route _ _ _ F)).
      split; split; try discriminate; tauto.
    - rewrite last_snoc. split; split; try discriminate; tauto. }
  split.
  - destruct (BFS_total m0 Hf) as (toks & m' & l & R & Res & _).
    exists toks, m'. split; [exact (runs_exact _ _ _ _ _ R)|exact (D _ _ _ _ Res)].
  - destruct (DFS_total m0 Hf) as (toks & m' & l & R & Res).
    exists toks, m'. split; [exact (runs_exact _ _ _ _ _ R)|exact (D _ _ _ _ Res)].
Qed.

Lemma searches_decide_solvability_witness :
  (exists toks m',
      BFSSolver.solve_step_by_step (S (length toks)) maze_ring = (toks, Completed m') /\
      (last toks = Some FINISHED <-> solvable maze_ring) /\
      (last toks = Some NO_SOLUTION <-> ~ solvable maze_ring)) /\
  (exists toks m',
      DFSSolver.solve_step_by_step (S (length toks)) maze_ring = (toks, Completed m') /\
      (last toks = Some FINISHED <-> solvable maze_ring) /\
      (last toks = Some NO_SOLUTION <-> ~ solvable maze_ring)).
Proof.
  apply (searches_decide_solvability maze_ring). fresh_by_computation.
Defined.

(** X3.  The tokens of a search that finds End: some SEARCHING, then
    one BACKTRACKING for every cell that ends up ON_PATH, then
    FINISHED; and a search that finds nothing marks nothing.  Either
    way no wall has changed. *)
Theorem search_tokens_count_the_path (m0 : Maze) (n : nat) (toks : list Token)
    (m' : Maze) :
  fresh m0 ->
  BFSSolver.solve_step_by_step n m0 = (toks, Completed m') \/
  DFSSolver.solve_step_by_step n m0 = (toks, Completed m') ->
  (exists a,
      Z.of_nat a <= 2 * cells m0 /\
      (toks = repeat SEARCHING a ++ repeat BACKTRACKING (on_path_count m') ++ [FINISHED] \/
       toks = repeat SEARCHING a ++ [NO_SOLUTION] /\ on_path_count m' = 0%nat)) /\
  same_walls m0 m'.
Proof.
  intros Hf Hrun.
  assert (Hc : 0 <= cells m0).
  { pose proof (fresh_width _ Hf). pose proof (fresh_height _ Hf). unfold cells. nia. }
  assert (Res : exists bound l, bound <= 2 * cells m0 /\ search_result m0 bound toks m' l).
  { destruct Hrun as [Hrun|Hrun].
    - destruct (BFS_total m0 Hf) as (toks1 & m1 & l & R & Res & _).
      destruct (runs_unique _ _ _ _ _ _ _ _ R Hrun) as [-> ->].
      exists (cells m0), l. split; [lia|exact Res].
    - destruct (DFS_total m0 Hf) as (toks1 & m1 & l & R & Res).
      destruct (runs_unique _ _ _ _ _ _ _ _ R Hrun) as [-> ->].
      exists (2 * cells m0), l. split; [lia|exact Res]. }
  destruct Res as (bound & l & Hb & [a -> Ha F|a -> Ha -> Hns Hnp W' Hok']).
  - split; [|exact (fw_walls _ _ _ F)]. exists a. split; [lia|]. left.
    rewrite (path_marked_count _ _ (fw_marked _ _ _ F) (fw_nodup _ _ _ F)). reflexivity.
  - split; [|exact W']. exists a. split; [lia|]. right. split; [reflexivity|].
    unfold on_path_count. induction (grid_positions m') as [|p ps IH]; [reflexivity|].
    rewrite filter_cons. destruct (decide (on_path m' p = true)) as [E|_]; [|exact IH].
    rewrite Hnp in E. discriminate.
Qed.

Lemma search_tokens_count_the_path_witness :
  exists m',
    BFSSolver.solve_step_by_step 12 maze_snake
    = (repeat SEARCHING 5 ++ repeat BACKTRACKING 5 ++ [FINISHED], Completed m') /\
    (exists a,
      Z.of_nat a <= 2 * cells maze_snake /\
      (repeat SEARCHING 5 ++ repeat BACKTRACKING 5 ++ [FINISHED]
       = repeat SEARCHING a ++ repeat BACKTRACKING (on_path_count m') ++ [FINISHED] \/
       repeat SEARCHING 5 ++ repeat BACKTRACKING 5 ++ [FINISHED]
       = repeat SEARCHING a ++ [NO_SOLUTION] /\ on_path_count m' = 0%nat)) /\
    same_walls maze_snake m'.
Proof.
  eexists. split; [vm_compute; reflexivity|].
  apply (search_tokens_count_the_path maze_snake 12).
  - fresh_by_computation.
  - left. vm_compute. reflexivity.
Defined.

(* ================================================================== *)
(** ** Further properties: the mutators of [Maze]                     *)
(* ================================================================== *)

Lemma same_walls_refl m : same_walls m m.
Proof. split; [reflexivity|split; [reflexivity|]]. intros p. reflexivity. Qed.

Lemma same_walls_trans a b c : same_walls a b -> same_walls b c -> same_walls a c.
Proof.
  intros (W1 & H1 & C1) (W2 & H2 & C2). split; [congruence|split; [congruence|]].
  intros p. rewrite C2. apply C1.
Qed.

Lemma unmarkVisitedTeam_update m p :
  grid_ok m -> in_grid m p = true ->
  cell_update m (unmarkVisitedTeam m p) p
    (fun v => Z.land (Z.land (Z.land v (Z.lnot VISITED_TB)) (Z.lnot VISITED_BT))
                     (Z.lnot VISITED_BIT)).
Proof.
  intros Hok Hp. unfold unmarkVisitedTeam.
  pose proof (_clearFlag_update m p VISITED_TB Hok Hp) as U1.
  pose proof (_clearFlag_update _ p VISITED_BT (cu_ok _ _ _ _ U1)
                ltac:(rewrite (cell_update_in_grid _ _ _ _ p U1); exact Hp)) as U2.
  pose proof (_clearFlag_update _ p VISITED_BIT (cu_ok _ _ _ _ U2)
                ltac:(rewrite (cell_update_in_grid _ _ _ _ p U2),
                              (cell_update_in_grid _ _ _ _ p U1); exact Hp)) as U3.
  exact (cell_update_compose _ _ _ _ _ _ (cell_update_compose _ _ _ _ _ _ U1 U2) U3).
Qed.

Lemma setThreadOwner_grid_ok m p t : grid_ok m -> grid_ok (setThreadOwner m p t).
Proof. intros []. split; assumption. Qed.

(** A mutator that rewrites the word of one cell of the grid without
    touching its wall bits. *)
Lemma mutates_update m m' :
  grid_ok m -> mutates m m' ->
  (exists p f, in_grid m p = true /\ cell_update m m' p f /\ keeps 3 f) \/
  (grid_ok m' /\ width m' = width m /\ height m' = height m /\
   poMazeData m' = poMazeData m).
Proof.
  intros Hok [p o Hp|p d Hp|p Hp|p b Hp|p Hp|p d Hp|p d Hp|p b Hp|p Hp|p Hp|p t|p Hp].
  - right. split; [apply setVisitOrder_grid_ok; exact Hok|auto].
  - left. exists p, (route_word d). split; [exact Hp|].
    split; [apply setDirectionRouteBT_update; assumption|apply keeps_route_word_walls].
  - left. exists p, (fun v => Z.lor v PATH_BIT). split; [exact Hp|].
    split; [apply markPath_update; assumption|apply keeps_lor; reflexivity].
  - left. eexists p, _. split; [exact Hp|].
    split; [apply markOnStack_update; assumption|].
    destruct b; [apply keeps_lor|apply keeps_land]; reflexivity.
  - left. eexists p, _. split; [exact Hp|].
    split; [apply _clearFlag_update; assumption|apply keeps_land; reflexivity].
  - left. eexists p, _. split; [exact Hp|].
    split; [apply _setFlag_update; try assumption; destruct d; reflexivity|].
    apply keeps_lor. destruct d; reflexivity.
  - left. eexists p, _. split; [exact Hp|].
    split; [apply _setFlag_update; try assumption; destruct d; reflexivity|].
    apply keeps_lor. destruct d; reflexivity.
  - left. destruct b; eexists p, _; (split; [exact Hp|]);
      (split; [apply _setFlag_update; try assumption; reflexivity|]);
      apply keeps_lor; reflexivity.
  - left. eexists p, _. split; [exact Hp|].
    split; [apply markDeadJunction_update; assumption|].
    intros v. bits.
  - left. eexists p, _. split; [exact Hp|].
    split; [apply unmarkVisitedTeam_update; assumption|].
    intros v. bits.
  - right. split; [apply setThreadOwner_grid_ok; exact Hok|auto].
  - left. eexists p, _. split; [exact Hp|].
    split; [apply _setFlag_update; try assumption; reflexivity|].
    apply keeps_lor. reflexivity.
Qed.

Lemma mutates_keeps m m' :
  grid_ok m -> mutates m m' -> grid_ok m' /\ same_walls m m'.
Proof.
  intros Hok H. destruct (mutates_update m m' Hok H)
    as [(p & f & Hp & U & K)|(Hok' & Hw & Hh & Hd)].
  - split; [exact (cu_ok _ _ _ _ U)|].
    exact (cu_same_walls _ _ _ _ U m K (same_walls_refl m)).
  - split; [exact Hok'|]. split; [exact Hw|split; [exact Hh|]].
    intros q. unfold getCell. rewrite (in_grid_dims m m' q Hw Hh), Hd.
    unfold _cellIndex. rewrite Hw. reflexivity.
Qed.

Lemma marks_keeps m m' : grid_ok m -> marks m m' -> grid_ok m' /\ same_walls m m'.
Proof.
  intros Hok H. induction H as [|m1 m2 H IH Hm].
  - split; [exact Hok|apply same_walls_refl].
  - destruct IH as [Hok1 W1]. destruct (mutates_keeps m1 m2 Hok1 Hm) as [Hok2 W2].
    split; [exact Hok2|exact (same_walls_trans _ _ _ W1 W2)].
Qed.

(** X4.  However the cells of the grid are marked, by whatever
    sequence of mutator calls, the two arrays keep the size of the
    grid, the words keep to the known bits, and no dimension, wall or
    open edge changes. *)
Theorem marks_keep_the_walls (m m' : Maze) :
  grid_ok m -> marks m m' ->
  grid_ok m' /\ same_walls m m' /\
  (forall p d, canMove m' p d = canMove m p d) /\
  (forall p, isJunction m' p = isJunction m p) /\
  getStart m' = getStart m /\ getEnd m' = getEnd m.
Proof.
  intros Hok H. destruct (marks_keeps m m' Hok H) as [Hok' W].
  assert (C : forall p d, canMove m' p d = canMove m p d)
    by (intros; apply canMove_same_walls; exact W).
  split; [exact Hok'|]. split; [exact W|]. split; [exact C|].
  destruct W as (Hw & Hh & _).
  split; [|split; [unfold getStart; rewrite Hw; reflexivity
                  |unfold getEnd; rewrite Hw, Hh; reflexivity]].
  intros p. unfold isJunction. rewrite !C. reflexivity.
Qed.

Lemma marks_keep_the_walls_witness :
  grid_ok (markPruned (markVisitedTeam maze_snake (mkPosition 0 1) true) (mkPosition 1 1)) /\
  same_walls maze_snake
    (markPruned (markVisitedTeam maze_snake (mkPosition 0 1) true) (mkPosition 1 1)) /\
  (forall p d,
      canMove (markPruned (markVisitedTeam maze_snake (mkPosition 0 1) true)
                          (mkPosition 1 1)) p d
      = canMove maze_snake p d) /\
  (forall p,
      isJunction (markPruned (markVisitedTeam maze_snake (mkPosition 0 1) true)
                             (mkPosition 1 1)) p
      = isJunction maze_snake p) /\
  getStart (markPruned (markVisitedTeam maze_snake (mkPosition 0 1) true) (mkPosition 1 1))
  = getStart maze_snake /\
  getEnd (markPruned (markVisitedTeam maze_snake (mkPosition 0 1) true) (mkPosition 1 1))
  = getEnd maze_snake.
Proof.
  refine (marks_keep_the_walls maze_snake
            (markPruned (markVisitedTeam maze_snake (mkPosition 0 1) true) (mkPosition 1 1))
            _ _).
  - apply fresh_grid_ok. fresh_by_computation.
  - refine (marks_step _ _ _ (marks_step _ _ _ (marks_refl _) _) _).
    + refine (mut_markVisitedTeam maze_snake (mkPosition 0 1) true _).
      vm_compute. reflexivity.
    + refine (mut_markPruned _ (mkPosition 1 1) _). vm_compute. reflexivity.
Defined.



Lemma cellIndex_position m i :
  0 < width m -> 0 <= i < cells m ->
  in_grid m (mkPosition (i / width m) (i mod width m)) = true /\
  _cellIndex m (mkPosition (i / width m) (i mod width m)) = i.
Proof.
  intros Hw Hi. unfold cells in Hi.
  pose proof (Z.div_mod i (width m) ltac:(lia)) as Hd.
  pose proof (Z.mod_pos_bound i (width m) Hw) as Hm.
  split.
  - apply in_grid_spec. cbn. split; [|lia]. split.
    + apply Z.div_pos; lia.
    + apply Z.div_lt_upper_bound; [lia|]. nia.
  - unfold _cellIndex. cbn. lia.
Qed.

(** [Reset] gives back a maze that has been marked since it was
    loaded. *)
Lemma Reset_restores m0 m' :
  fresh m0 -> thread_ownership m0 = ∅ -> grid_ok m' -> same_walls m0 m' ->
  Reset m' = m0.
Proof.
  intros Hf Ho Hok (Hw & Hh & Hc).
  assert (Hcells : cells m' = cells m0) by (unfold cells; rewrite Hw, Hh; reflexivity).
  pose proof (go_typed _ Hok) as Ht. pose proof (fresh_typed _ Hf) as Ht0.
  destruct (Reset_typed m' Ht) as ([Rd Rv] & L1 & L2 & _).
  assert (Ed : cell_words (Reset m') = cell_words m0).
  { apply list_eq. intros i. rewrite (Reset_data m' i Ht).
    destruct (cell_words m' !! i) as [v'|] eqn:E'.
    - pose proof (lookup_lt_Some _ _ _ E') as Hi. rewrite (go_data _ Hok) in Hi.
      destruct (lookup_lt_is_Some_2 (cell_words m0) i) as [v0 E0].
      { rewrite (fresh_data _ Hf). lia. }
      destruct (cellIndex_position m0 (Z.of_nat i) (fresh_width _ Hf) ltac:(lia))
        as [Hg Hx].
      set (p := mkPosition (Z.of_nat i / width m0) (Z.of_nat i mod width m0)) in *.
      specialize (Hc p). rewrite (getCell_typed m' p Ht), (getCell_typed m0 p Ht0) in Hc.
      rewrite (in_grid_dims m0 m' p Hw Hh), Hg in Hc.
      unfold _cellIndex in Hc, Hx. rewrite Hw, Hx in Hc. unfold ta_get in Hc.
      destruct (Z.leb_spec 0 (Z.of_nat i)); [|lia].
      rewrite Nat2Z.id, E', E0 in Hc. cbn in Hc.
      rewrite E0. cbn. f_equal.
      pose proof (go_known _ Hok) as K. rewrite Forall_lookup in K.
      rewrite (known_Reset_mask v' (K i v' E')), Hc.
      pose proof (fresh_walls _ Hf) as Wl. rewrite Forall_lookup in Wl.
      exact (Wl i v0 E0).
    - cbn. symmetry. apply lookup_ge_None. apply lookup_ge_None in E'.
      rewrite (go_data _ Hok) in E'. rewrite (fresh_data _ Hf). lia. }
  assert (Ev : order_slots (Reset m') = order_slots m0).
  { apply list_eq. intros i. rewrite (Reset_order m' i Ht).
    destruct (decide (i < Z.to_nat (cells m0))%nat) as [Hi|Hi].
    - rewrite bool_decide_eq_true_2 by (rewrite (go_data _ Hok); lia).
      destruct (lookup_lt_is_Some_2 (order_slots m') i) as [v' E'].
      { rewrite (go_order _ Hok). lia. }
      destruct (lookup_lt_is_Some_2 (order_slots m0) i) as [v0 E0].
      { rewrite (fresh_order _ Hf). lia. }
      rewrite E', E0. cbn. f_equal.
      pose proof (fresh_unvisited _ Hf) as U. rewrite Forall_lookup in U.
      symmetry. exact (U i v0 E0).
    - rewrite bool_decide_eq_false_2 by (rewrite (go_data _ Hok); lia).
      rewrite (proj2 (lookup_ge_None (order_slots m') i))
        by (rewrite (go_order _ Hok); lia).
      symmetry. apply lookup_ge_None. rewrite (fresh_order _ Hf). lia. }
  rewrite Ed in Rd. rewrite Ev in Rv. destruct Ht0 as [Hd0 Hv0].
  rewrite <- Hd0 in Rd. rewrite <- Hv0 in Rv.
  pose proof (Reset_thread_ownership m') as Ro.
  assert (Rw : width (Reset m') = width m' /\ height (Reset m') = height m').
  { unfold Reset. destruct (Reset_loop _ _ _ _). auto. }
  destruct Rw as [Rw Rh].
  destruct (Reset m') as [w1 h1 d1 v1 o1], m0 as [w0 h0 d0 v0 o0]. cbn in *.
  congruence.
Qed.

Lemma search_result_frame m0 bound toks m' l :
  search_result m0 bound toks m' l -> grid_ok m' /\ same_walls m0 m'.
Proof.
  intros [a _ _ F|a _ _ _ _ _ W' Hok'].
  - split; [exact (fw_ok _ _ _ F)|exact (fw_walls _ _ _ F)].
  - split; assumption.
Qed.

(** X6.  [Reset] undoes a search: after any sequence of mutator calls
    on cells of the grid, and after a whole run of BFS or of DFS, it
    gives back the maze exactly as it was loaded. *)
Theorem Reset_undoes_the_marks (m0 m' : Maze) (n : nat) (toks : list Token) :
  fresh m0 -> thread_ownership m0 = ∅ ->
  marks m0 m' \/
  BFSSolver.solve_step_by_step n m0 = (toks, Completed m') \/
  DFSSolver.solve_step_by_step n m0 = (toks, Completed m') ->
  Reset m' = m0.
Proof.
  intros Hf Ho H.
  assert (K : grid_ok m' /\ same_walls m0 m').
  { destruct H as [H|[H|H]].
    - exact (marks_keeps m0 m' (fresh_grid_ok m0 Hf) H).
    - destruct (BFS_total m0 Hf) as (toks1 & m1 & l & R & Res & _).
      destruct (runs_unique _ _ _ _ _ _ _ _ R H) as [-> ->].
      exact (search_result_frame _ _ _ _ _ Res).
    - destruct (DFS_total m0 Hf) as (toks1 & m1 & l & R & Res).
      destruct (runs_unique _ _ _ _ _ _ _ _ R H) as [-> ->].
      exact (search_result_frame _ _ _ _ _ Res). }
  destruct K as [Hok W]. exact (Reset_restores m0 m' Hf Ho Hok W).
Qed.

Lemma Reset_undoes_the_marks_witness :
  exists m',
    DFSSolver.solve_step_by_step 12 maze_snake
    = (repeat SEARCHING 5 ++ repeat BACKTRACKING 5 ++ [FINISHED], Completed m') /\
    m' <> maze_snake /\ Reset m' = maze_snake.
Proof.
  eexists. split; [vm_compute; reflexivity|]. split; [vm_compute; discriminate|].
  apply (Reset_undoes_the_marks maze_snake _ 12
           (repeat SEARCHING 5 ++ repeat BACKTRACKING 5 ++ [FINISHED])).
  - fresh_by_computation.
  - vm_compute. reflexivity.
  - right. right. vm_compute. reflexivity.
Defined.

(** X7.  What a setter stores its getter reads back, on every cell of
    the grid: the visit order, the parent direction, the owner, the
    team marks, the marks of dead and occupied branches, the path and
    pruned marks; and the two calls that give a cell up clear both team
    marks. *)
Theorem setters_are_read_back (m : Maze) (p : Position) :
  grid_ok m -> in_grid m p = true ->
  (forall o, - 2 ^ 31 <= o < 2 ^ 31 -> getVisitOrder (setVisitOrder m p o) p = Some o) /\
  (forall d, getDirectionRouteBT (setDirectionRouteBT m p d) p = d) /\
  (forall t, getThreadOwner (setThreadOwner m p t) p = t) /\
  (forall b, isVisitedByTeam (markVisitedTeam m p b) p b = true) /\
  (forall d, d <> Uninitialized ->
     checkBranchDead (setBranchDeadFromOrigin m p d) p d = true /\
     checkBranchOccupied (setBranchOccupied m p d) p d = true) /\
  on_path (markPath m p) p = true /\
  isPruned (markPruned m p) p = true /\
  (forall b, isVisitedByTeam (unmarkVisitedTeam m p) p b = false /\
             isVisitedByTeam (markDeadJunction m p) p b = false).
Proof.
  intros Hok Hp.
  assert (Hset : forall b, known b -> b <> 0 -> _hasFlag (_setFlag m p b) p b = true).
  { intros b Kb Hb. pose proof (_setFlag_update m p b Hok Hp Kb) as U.
    rewrite hasFlag_land, (cu_cell _ _ _ _ U).
    destruct (decide (p = p)); [|contradiction].
    rewrite Z.land_lor_distr_l, Z.land_diag.
    destruct (Z.eqb_spec (Z.lor (Z.land (getCell m p) b) b) 0) as [E|]; [|reflexivity].
    apply Z.lor_eq_0_iff in E. destruct E. contradiction. }
  repeat split.
  - intros o Ho. rewrite (getVisitOrder_order _ _ (setVisitOrder_grid_ok m p o Hok) Hp).
    rewrite (order_setVisitOrder m p o p Hok Hp Hp Ho).
    destruct (decide (p = p)); [reflexivity|contradiction].
  - intros d. pose proof (setDirectionRouteBT_update m p d Hok Hp) as U.
    rewrite getDirectionRouteBT_dir_of, (cu_cell _ _ _ _ U).
    destruct (decide (p = p)); [|contradiction].
    destruct d; try (apply dir_of_route_word; discriminate).
    unfold route_word. rewrite <- dir_of_mask.
    replace (Z.land (Z.lor (Z.land (getCell m p) (Z.lnot PARENT_MASK)) VISITED_BIT)
                    PARENT_MASK) with 0; [reflexivity|]. symmetry. bits.
  - intros t. unfold getThreadOwner, setThreadOwner. cbn [thread_ownership].
    change (_cellIndex (mkMaze _ _ _ _ _) p) with (_cellIndex m p).
    rewrite lookup_insert_eq. reflexivity.
  - intros [|]; apply Hset; (reflexivity || discriminate).
  - apply Hset; destruct d; (reflexivity || discriminate || contradiction).
  - apply Hset; destruct d; (reflexivity || discriminate || contradiction).
  - apply Hset; (reflexivity || discriminate).
  - apply Hset; (reflexivity || discriminate).
  - pose proof (unmarkVisitedTeam_update m p Hok Hp) as U.
    unfold isVisitedByTeam. rewrite !hasFlag_land, (cu_cell _ _ _ _ U).
    destruct (decide (p = p)); [|contradiction].
    destruct b.
    + replace (Z.land _ VISITED_TB) with 0; [reflexivity|]. symmetry. bits.
    + replace (Z.land _ VISITED_BT) with 0; [reflexivity|]. symmetry. bits.
  - pose proof (markDeadJunction_update m p Hok Hp) as U.
    unfold isVisitedByTeam. rewrite !hasFlag_land, (cu_cell _ _ _ _ U).
    destruct (decide (p = p)); [|contradiction].
    destruct b.
    + replace (Z.land _ VISITED_TB) with 0; [reflexivity|]. symmetry. bits.
    + replace (Z.land _ VISITED_BT) with 0; [reflexivity|]. symmetry. bits.
Qed.

Lemma setters_are_read_back_witness :
  getVisitOrder (setVisitOrder maze_snake (mkPosition 1 1) 7) (mkPosition 1 1) = Some 7 /\
  getDirectionRouteBT (setDirectionRouteBT maze_snake (mkPosition 1 1) West)
                      (mkPosition 1 1) = West.
Proof.
  destruct (setters_are_read_back maze_snake (mkPosition 1 1))
    as (H1 & H2 & _).
  - apply fresh_grid_ok. fresh_by_computation.
  - vm_compute. reflexivity.
  - split; [apply H1; lia|apply H2].
Defined.

(* ================================================================== *)
(** ** Further properties: Branches                                   *)
(* ================================================================== *)

Lemma live_insert_clear ds k d :
  ds !! k = Some d -> d <> Uninitialized ->
  Branches.live (<[k := Uninitialized]> ds) = Branches.live ds - 1.
Proof.
  revert k. induction ds as [|x ds IH]; intros k Hk Hd; [discriminate|].
  destruct k as [|k].
  - change (<[0%nat := Uninitialized]> (x :: ds)) with (Uninitialized :: ds).
    rewrite !live_cons. cbn in Hk. injection Hk as ->.
    destruct (decide (Uninitialized = Uninitialized)); [|contradiction].
    destruct (decide (d = Uninitialized)); [contradiction|lia].
  - change (<[S k := Uninitialized]> (x :: ds)) with (x :: <[k := Uninitialized]> ds).
    rewrite !live_cons. cbn in Hk. rewrite (IH k Hk Hd). lia.
Qed.

Lemma slot_live ds i :
  Branches.slot ds i <> Uninitialized ->
  exists d, ds !! Z.to_nat i = Some d /\ d <> Uninitialized /\ Branches.slot ds i = d.
Proof.
  unfold Branches.slot. destruct (ds !! Z.to_nat i) as [d|]; cbn; [eauto|contradiction].
Qed.

Lemma wf_clear ds c i :
  Branches.wf (Branches.mk ds c i) -> Branches.slot ds i <> Uninitialized ->
  Branches.wf (Branches.mk (Branches.set_slot ds i Uninitialized) (c - 1) i).
Proof.
  intros (HL & Hi & Hc) Hs.
  cbn [Branches.directions Branches.count Branches.index] in *.
  destruct (slot_live ds i Hs) as (d & Hd & Hne & _).
  split; [|split]; cbn [Branches.directions Branches.count Branches.index].
  - unfold Branches.set_slot. rewrite length_insert. exact HL.
  - exact Hi.
  - unfold Branches.set_slot. rewrite (live_insert_clear ds _ d Hd Hne). lia.
Qed.

Lemma wf_index ds c i j :
  Branches.wf (Branches.mk ds c i) -> 0 <= j <= 3 -> Branches.wf (Branches.mk ds c j).
Proof. intros (HL & _ & Hc) Hj. split; [exact HL|split; [exact Hj|exact Hc]]. Qed.

Lemma land3_range i : 0 <= Z.land i 3 <= 3.
Proof.
  assert (N : 0 <= Z.land i 3) by (apply Z.land_nonneg; right; lia).
  split; [exact N|].
  assert (E : Z.land i 3 = i mod 4) by (apply (Z.land_ones i 2); lia).
  rewrite E. pose proof (Z.mod_pos_bound i 4 ltac:(lia)). lia.
Qed.

Lemma remove_loop_wf n : forall i b d,
  Branches.wf b -> d <> Uninitialized -> Branches.wf (Branches.remove_loop n i b d).
Proof.
  induction n as [|n IH]; intros i b d Hwf Hd; cbn [Branches.remove_loop]; [exact Hwf|].
  unfold Direction_eqb. case_bool_decide as E; [|apply IH; assumption].
  destruct b as [ds c j]. cbn [Branches.directions Branches.count Branches.index] in *.
  destruct Hwf as (HL & Hj & Hc).
  cbn [Branches.directions Branches.count Branches.index] in *.
  destruct (slot_live ds i ltac:(congruence)) as (x & Hx & Hne & _).
  split; [|split]; cbn [Branches.directions Branches.count Branches.index].
  - unfold Branches.set_slot. rewrite length_insert. exact HL.
  - exact Hj.
  - unfold Branches.set_slot. rewrite (live_insert_clear ds _ x Hx Hne). lia.
Qed.

Lemma getNextThreads_loop_wf at_ maze n : forall b fb,
  Branches.wf b -> fb = -1 \/ 0 <= fb <= 3 ->
  Branches.wf (snd (fst (Branches.getNextThreads_loop n b fb at_ maze))).
Proof.
  induction n as [|n IH]; intros [ds c i] fb Hwf Hfb; cbn [Branches.getNextThreads_loop].
  - destruct (Z.eqb_spec fb (-1)); cbn [negb fst snd]; [exact Hwf|].
    apply (wf_index ds c i); [exact Hwf|lia].
  - cbv zeta. cbn [Branches.directions Branches.count Branches.index].
    pose proof (land3_range (i + 1)) as Hr.
    pose proof (wf_index ds c i _ Hwf Hr) as Hwf1.
    unfold Direction_eqb. case_bool_decide as Hd; [apply IH; assumption|].
    destruct (checkBranchDead maze at_ _).
    + pose proof (wf_clear ds c _ Hwf1 Hd) as Hwf2.
      destruct (c - 1 =? 0); [exact Hwf2|]. apply IH; assumption.
    + destruct (checkBranchOccupied maze at_ _); [|exact Hwf1].
      apply IH; [exact Hwf1|]. destruct (Z.eqb_spec fb (-1)); [right; exact Hr|].
      destruct Hfb; [contradiction|right; assumption].
Qed.

Lemma getNext_loop_wf n : forall b,
  Branches.wf b -> Branches.wf (snd (Branches.getNext_loop n b)).
Proof.
  induction n as [|n IH]; intros [ds c i] Hwf; cbn [Branches.getNext_loop]; [exact Hwf|].
  cbv zeta. cbn [Branches.directions Branches.count Branches.index].
  pose proof (wf_index ds c i _ Hwf (land3_range (i + 1))) as Hwf1.
  destruct (negb _); [exact Hwf1|]. apply IH. exact Hwf1.
Qed.

(** X8.  The constructor of Branches records the open directions of
    the cell, one per slot in the order North, East, South, West; the
    object it builds satisfies the class invariant (four slots, cursor
    in range, [count] the number of slots in use), and a cell is a
    junction exactly when that count exceeds two. *)
Theorem Branches_new_counts_the_exits (m : Maze) (p : Position) (threadID : Z) :
  Branches.wf (Branches.new m p threadID) /\
  Branches.directions (Branches.new m p threadID)
  = map (fun d => if canMove m p d then d else Uninitialized) [North; East; South; West] /\
  Branches.index (Branches.new m p threadID) = Z.land threadID 3 /\
  isJunction m p = (2 <? Branches.size (Branches.new m p threadID)).
Proof.
  pose proof (land3_range threadID) as Hr.
  unfold Branches.new, isJunction, Branches.size. cbn [Branches.new_loop map].
  cbn [Branches.directions Branches.count Branches.index].
  destruct (canMove m p North), (canMove m p East), (canMove m p South),
           (canMove m p West);
    (split; [split; [reflexivity|split; [exact Hr|reflexivity]]|]);
    (split; [reflexivity|split; reflexivity]).
Qed.

(** X9.  Every method of Branches keeps the class invariant;
    [remove] does when it is given a direction.  Given Uninitialized,
    [remove] takes the first empty slot for a match and counts it
    down. *)
Theorem Branches_methods_keep_wf (b : Branches.t) (at_ : Position) (maze : Maze) :
  Branches.wf b ->
  (forall d, d <> Uninitialized -> Branches.wf (Branches.remove b d)) /\
  Branches.wf (snd (fst (Branches.getNextThreads b at_ maze))) /\
  Branches.wf (snd (fst (Branches.popCurrThreads b at_ maze))) /\
  Branches.wf (snd (Branches.getNext b)) /\
  (Branches.count b < 4 -> ~ Branches.wf (Branches.remove b Uninitialized)).
Proof.
  intros Hwf. split; [|split; [|split; [|split]]].
  - intros d Hd. apply remove_loop_wf; assumption.
  - unfold Branches.getNextThreads. destruct (Branches.count b =? 0); [exact Hwf|].
    apply getNextThreads_loop_wf; [exact Hwf|left; reflexivity].
  - unfold Branches.popCurrThreads. destruct b as [ds c i].
    cbn [Branches.directions Branches.count Branches.index].
    unfold Direction_eqb. case_bool_decide as Hd; cbn [negb fst snd]; [exact Hwf|].
    apply wf_clear; assumption.
  - unfold Branches.getNext. destruct (Branches.count b =? 0); [exact Hwf|].
    apply getNext_loop_wf. exact Hwf.
  - intros Hlt Hwf'. destruct b as [ds c i]. destruct Hwf as (HL & Hi & Hc).
    cbn [Branches.directions Branches.count Branches.index] in *.
    destruct ds as [|d0 [|d1 [|d2 [|d3 [|? ?]]]]]; try discriminate.
    destruct Hwf' as (_ & _ & Hc').
    subst c. destruct d0, d1, d2, d3; vm_compute in Hlt, Hc'; congruence.
Qed.

Lemma Branches_methods_keep_wf_witness :
  Branches.wf (snd (Branches.getNext (Branches.new maze_snake (mkPosition 1 1) 5))) /\
  ~ Branches.wf (Branches.remove (Branches.new maze_snake (mkPosition 1 1) 5) Uninitialized).
Proof.
  destruct (Branches_methods_keep_wf (Branches.new maze_snake (mkPosition 1 1) 5)
              (mkPosition 1 1) maze_snake) as (_ & _ & _ & H4 & H5).
  - repeat split; vm_compute; congruence.
  - split; [exact H4|]. apply H5. vm_compute. reflexivity.
Defined.

(** X10.  [getNext] on a Branches object with a slot in use moves the
    cursor to a slot in use and returns its direction, changing neither
    the slots nor the count; with none in use it returns Uninitialized
    and changes nothing. *)
Theorem getNext_returns_a_slot_in_use (b : Branches.t) :
  Branches.wf b ->
  (Branches.count b = 0 -> Branches.getNext b = (Uninitialized, b)) /\
  (0 < Branches.count b ->
   fst (Branches.getNext b) <> Uninitialized /\
   Branches.slot (Branches.directions b) (Branches.index (snd (Branches.getNext b)))
   = fst (Branches.getNext b) /\
   Branches.directions (snd (Branches.getNext b)) = Branches.directions b /\
   Branches.count (snd (Branches.getNext b)) = Branches.count b).
Proof.
  intros (HL & Hi & Hc). split.
  - intros H0. unfold Branches.getNext. rewrite H0. reflexivity.
  - intros Hpos. destruct b as [ds c i].
    cbn [Branches.directions Branches.count Branches.index] in *.
    destruct ds as [|d0 [|d1 [|d2 [|d3 [|? ?]]]]]; try discriminate.
    unfold Branches.getNext. cbn [Branches.count].
    destruct (Z.eqb_spec c 0) as [|_]; [lia|].
    assert (Hcases : i = 0 \/ i = 1 \/ i = 2 \/ i = 3) by lia.
    assert (Hlive : d0 <> Uninitialized \/ d1 <> Uninitialized \/
                    d2 <> Uninitialized \/ d3 <> Uninitialized).
    { rewrite !live_cons in Hc. change (Branches.live []) with 0 in Hc.
      destruct (decide (d0 = Uninitialized)), (decide (d1 = Uninitialized)),
               (decide (d2 = Uninitialized)), (decide (d3 = Uninitialized)); auto.
      lia. }
    clear Hc Hpos HL Hi.
    destruct Hcases as [->|[->|[->| ->]]];
      cbn [Branches.getNext_loop Branches.directions Branches.count Branches.index];
      unfold Direction_eqb, Branches.slot; cbn [Z.land Pos.land Z.add Pos.add Pos.succ
        Z.to_nat Pos.to_nat Pos.iter_op Nat.add lookup list_lookup default from_option id];
      repeat (case_bool_decide; cbn [negb fst snd Branches.directions Branches.count
                                     Branches.index lookup list_lookup default
                                     from_option id Z.to_nat Pos.to_nat Pos.iter_op Nat.add]);
      try (repeat split; (assumption || reflexivity));
      exfalso; tauto.
Qed.

Lemma getNext_returns_a_slot_in_use_witness :
  fst (Branches.getNext (Branches.new maze_snake (mkPosition 1 1) 5)) <> Uninitialized /\
  Branches.slot (Branches.directions (Branches.new maze_snake (mkPosition 1 1) 5))
    (Branches.index (snd (Branches.getNext (Branches.new maze_snake (mkPosition 1 1) 5))))
  = fst (Branches.getNext (Branches.new maze_snake (mkPosition 1 1) 5)) /\
  Branches.directions (snd (Branches.getNext (Branches.new maze_snake (mkPosition 1 1) 5)))
  = Branches.directions (Branches.new maze_snake (mkPosition 1 1) 5) /\
  Branches.count (snd (Branches.getNext (Branches.new maze_snake (mkPosition 1 1) 5)))
  = Branches.count (Branches.new maze_snake (mkPosition 1 1) 5).
Proof.
  apply (getNext_returns_a_slot_in_use (Branches.new maze_snake (mkPosition 1 1) 5)).
  - repeat split; vm_compute; congruence.
  - vm_compute. reflexivity.
Defined.

(* ================================================================== *)
(** ** Further properties: the multi-walker solvers                   *)
(* ================================================================== *)

(** X11.  A step of an MT-M2 walker reads and writes the top of its
    stack only: with two junctions on the stack it returns the same
    result, leaves the same maze and the same walker whatever lies
    underneath, and it leaves a junction on the stack. *)
Theorem walker_step_ignores_the_stack_below (base : list Junction) (t : DFSThread.t)
    (m : Maze) :
  (2 <= length (DFSThread.stack t))%nat ->
  DFSThread.step (with_base base t) m
  = (fst (fst (DFSThread.step t m)),
     with_base base (snd (fst (DFSThread.step t m))),
     snd (DFSThread.step t m)) /\
  DFSThread.stack (snd (fst (DFSThread.step t m))) <> [].
Proof. exact (step_frame base t m). Qed.

Lemma walker_step_ignores_the_stack_below_witness :
  let j0 := mkJunction (mkPosition 0 1) Uninitialized
                       (Branches.new maze_open3 (mkPosition 0 1) 0) false in
  let j1 := mkJunction (mkPosition 1 1) North
                       (Branches.new maze_open3 (mkPosition 1 1) 0) false in
  let t := DFSThread.mk 0 true [j0; j1] false 0 (Some (mkPosition 1 1)) South None in
  DFSThread.step (with_base [j0; j0] t) maze_open3
  = (fst (fst (DFSThread.step t maze_open3)),
     with_base [j0; j0] (snd (fst (DFSThread.step t maze_open3))),
     snd (DFSThread.step t maze_open3)) /\
  DFSThread.stack (snd (fst (DFSThread.step t maze_open3))) <> [].
Proof.
  intros j0 j1 t. apply (walker_step_ignores_the_stack_below [j0; j0] t maze_open3).
  cbn. lia.
Defined.

Lemma MT_M1_tokens s m :
  match fst (fst (MT_M1_Solver.next s m)) with
  | Yield t => t <> NO_SOLUTION
  | Return => True
  | Throw _ | Pending => False
  end.
Proof.
  assert (B : forall curr maze,
             match fst (fst (MT_M1_Solver.bt_head curr maze)) with
             | Yield t => t <> NO_SOLUTION | Return => True | _ => False end).
  { intros curr maze. unfold MT_M1_Solver.bt_head, MT_M1_Solver.last_mark.
    destruct (negb _); [|cbn; discriminate].
    destruct (Direction_eqb _ _); cbn; discriminate. }
  assert (T : forall curr rest maze,
             match fst (fst (MT_M1_Solver.tb_head curr rest maze)) with
             | Yield t => t <> NO_SOLUTION | Return => True | _ => False end).
  { intros curr [|d rest] maze; cbn [MT_M1_Solver.tb_head]; [apply B|cbn; discriminate]. }
  assert (L : forall this maze,
             match fst (fst (MT_M1_Solver.loop_head this maze)) with
             | Yield t => t <> NO_SOLUTION | Return => True | _ => False end).
  { intros this maze. unfold MT_M1_Solver.loop_head.
    destruct (_ && _); [|apply T].
    destruct (MT_M1_Solver.step_pruners _ _ _ _) as [[pruners maze1] queues].
    destruct (WalkThreadTB.step _ _ _ _) as [[[walker maze2] solve_list] first_exit].
    destruct (BFSThreadBT.step _ _ _) as [[bfs maze3] first_exit'].
    destruct (_ && _); [apply T|cbn; discriminate]. }
  destruct s; cbn [MT_M1_Solver.next]; try apply L; try apply T; try apply B; exact I.
Qed.

(** X12.  MT-M1 never yields NO_SOLUTION and never throws: whatever
    the maze and however long it is driven, its tokens are SEARCHING,
    BACKTRACKING and FINISHED. *)
Theorem MT_M1_never_says_NO_SOLUTION (n : nat) (m : Maze) :
  (NO_SOLUTION ∉ fst (MT_M1_Solver.solve_step_by_step n m)) /\
  forall e m', snd (MT_M1_Solver.solve_step_by_step n m) <> Failed e m'.
Proof.
  rewrite MT_M1_solve_unfold.
  generalize (MT_M1_Solver.Start (fst (MT_M1_Solver.new m))) (snd (MT_M1_Solver.new m)).
  induction n as [|n IH]; intros s m1; cbn [drive].
  - split; [apply not_elem_of_nil|discriminate].
  - pose proof (MT_M1_tokens s m1) as H.
    destruct (MT_M1_Solver.next s m1) as [[[t| |e|] s'] m']; cbn [fst] in H;
      try contradiction; [|split; [apply not_elem_of_nil|discriminate]].
    specialize (IH s' m'). destruct (drive MT_M1_Solver.next n s' m') as [ts o].
    cbn [fst snd] in *. destruct IH as [I1 I2]. split; [|exact I2].
    rewrite not_elem_of_cons. split; [congruence|exact I1].
Qed.

(** X13.  The four pruners of MT-M1 split the rows of the grid among
    them: consecutive ranges from row 0 to the last, none shorter than a
    quarter of the height rounded down nor longer by more than one; each
    is wired to its own queue and to those of the ranges above and
    below. *)
Theorem pruner_rows_partition (m : Maze) :
  0 <= height m ->
  exists a b c,
    map (fun p => (PruneThread.row_start p, PruneThread.row_end p))
        (MT_M1_Solver.pruners (fst (MT_M1_Solver.new m)))
    = [(0, a); (a, b); (b, c); (c, height m)] /\
    Forall (fun n => height m / 4 <= n <= height m / 4 + 1)
           [a - 0; b - a; c - b; height m - c] /\
    map (fun p => (PruneThread.in_q p, PruneThread.out_qs p))
        (MT_M1_Solver.pruners (fst (MT_M1_Solver.new m)))
    = [(0, (None, Some 1)); (1, (Some 0, Some 2)); (2, (Some 1, Some 3));
       (3, (Some 2, None))].
Proof.
  intros Hh. unfold MT_M1_Solver.new.
  destruct (BFSThreadBT.new m) as [bfs m1]. cbn [fst MT_M1_Solver.pruners map].
  unfold MT_M1_Solver.make_pruner, PruneThread.new.
  cbn [PruneThread.row_start PruneThread.row_end PruneThread.in_q PruneThread.out_qs].
  rewrite (Z.rem_mod_nonneg (height m) 4) by lia.
  pose proof (Z.div_mod (height m) 4 ltac:(lia)) as Hd.
  pose proof (Z.mod_pos_bound (height m) 4 ltac:(lia)) as Hm.
  remember (height m / 4) as k eqn:Ek. remember (height m mod 4) as r eqn:Er.
  eexists _, _, _. split; [|split].
  - repeat f_equal; try reflexivity; lia.
  - repeat constructor; lia.
  - reflexivity.
Qed.

Lemma pruner_rows_partition_witness :
  exists a b c,
    map (fun p => (PruneThread.row_start p, PruneThread.row_end p))
        (MT_M1_Solver.pruners (fst (MT_M1_Solver.new maze_ring)))
    = [(0, a); (a, b); (b, c); (c, height maze_ring)] /\
    Forall (fun n => height maze_ring / 4 <= n <= height maze_ring / 4 + 1)
           [a - 0; b - a; c - b; height maze_ring - c] /\
    map (fun p => (PruneThread.in_q p, PruneThread.out_qs p))
        (MT_M1_Solver.pruners (fst (MT_M1_Solver.new maze_ring)))
    = [(0, (None, Some 1)); (1, (Some 0, Some 2)); (2, (Some 1, Some 3));
       (3, (Some 2, None))].
Proof. apply (pruner_rows_partition maze_ring). vm_compute. discriminate. Defined.

(* ================================================================== *)
(** ** Further properties: MT-M1 stays in the grid                    *)
(* ================================================================== *)

Lemma safe_dims m0 m :
  safe m0 m ->
  (forall p, in_grid m p = in_grid m0 p) /\
  getStart m = getStart m0 /\ getEnd m = getEnd m0 /\
  width m = width m0 /\ height m = height m0.
Proof.
  intros H. destruct (safe_walls _ _ H) as (Hw & Hh & _).
  split; [intros p; apply in_grid_dims; assumption|].
  unfold getStart, getEnd. rewrite Hw, Hh. auto.
Qed.

Lemma hasFlag_false m p b : _hasFlag m p b = false <-> Z.land (getCell m p) b = 0.
Proof.
  rewrite hasFlag_land. destruct (Z.eqb_spec (Z.land (getCell m p) b) 0); cbn;
    split; congruence.
Qed.

(** Rewriting the word of one cell of the grid keeps the maze safe
    when the parent direction it leaves points into the grid and
    neither Start nor End gets pruned. *)
Lemma safe_update m0 m m' p f :
  safe m0 m -> mutates m m' -> cell_update m m' p f -> keeps 3 f ->
  (dir_of (f (getCell m p)) <> Uninitialized ->
   in_grid m (Pos.move p (dir_of (f (getCell m p)))) = true) ->
  (p = getStart m \/ p = getEnd m -> Z.land (f (getCell m p)) PRUNED_BIT = 0) ->
  safe m0 m'.
Proof.
  intros [Hok Hm W Hp Hs He] Hmut U K Hd Hpr.
  assert (G : forall q, in_grid m' q = in_grid m q)
    by (intros q; apply (cell_update_in_grid _ _ _ _ q U)).
  split.
  - exact (cu_ok _ _ _ _ U).
  - exact (marks_step m0 m m' Hm Hmut).
  - exact (cu_same_walls _ _ _ _ U m0 K W).
  - intros c Hc. rewrite G in Hc. rewrite G, getDirectionRouteBT_dir_of.
    rewrite (cu_cell _ _ _ _ U). destruct (decide (p = c)) as [<-|Hne].
    + exact Hd.
    + apply Hp. exact Hc.
  - rewrite (cu_start _ _ _ _ U). unfold isPruned. apply hasFlag_false.
    rewrite (cu_cell _ _ _ _ U). destruct (decide (p = getStart m)) as [E|_].
    + apply Hpr. left. exact E.
    + apply hasFlag_false. exact Hs.
  - rewrite (cu_end _ _ _ _ U). unfold isPruned. apply hasFlag_false.
    rewrite (cu_cell _ _ _ _ U). destruct (decide (p = getEnd m)) as [E|_].
    + apply Hpr. right. exact E.
    + apply hasFlag_false. exact He.
Qed.

(** The same for an update that leaves the parent bits alone. *)
Lemma safe_update_mark m0 m m' p f :
  safe m0 m -> in_grid m p = true -> mutates m m' -> cell_update m m' p f ->
  keeps 3 f -> keeps PARENT_MASK f ->
  (p = getStart m \/ p = getEnd m -> keeps PRUNED_BIT f) ->
  safe m0 m'.
Proof.
  intros H Hp Hmut U K3 KP KR.
  apply (safe_update m0 m m' p f H Hmut U K3).
  - rewrite (keeps_dir_of f _ KP). apply (safe_pointers _ _ H p Hp).
  - intros E. rewrite (KR E).
    destruct E as [-> | ->]; apply hasFlag_false;
      [exact (safe_start _ _ H)|exact (safe_end _ _ H)].
Qed.

Lemma safe_markPruned m0 m p :
  safe m0 m -> inner m p -> safe m0 (markPruned m p).
Proof.
  intros H (Hp & Hs & He).
  apply (safe_update_mark m0 m _ p (fun v => Z.lor v PRUNED_BIT) H Hp).
  - apply mut_markPruned. exact Hp.
  - apply _setFlag_update; [exact (safe_ok _ _ H)|exact Hp|reflexivity].
  - apply keeps_lor. reflexivity.
  - apply keeps_lor. reflexivity.
  - intros [E|E]; contradiction.
Qed.

Lemma safe_markVisitedTeam m0 m p b :
  safe m0 m -> in_grid m p = true -> safe m0 (markVisitedTeam m p b).
Proof.
  intros H Hp. destruct b.
  - apply (safe_update_mark m0 m _ p (fun v => Z.lor v VISITED_TB) H Hp).
    + apply (mut_markVisitedTeam m p true). exact Hp.
    + apply _setFlag_update; [exact (safe_ok _ _ H)|exact Hp|reflexivity].
    + apply keeps_lor. reflexivity.
    + apply keeps_lor. reflexivity.
    + intros _. apply keeps_lor. reflexivity.
  - apply (safe_update_mark m0 m _ p (fun v => Z.lor v VISITED_BT) H Hp).
    + apply (mut_markVisitedTeam m p false). exact Hp.
    + apply _setFlag_update; [exact (safe_ok _ _ H)|exact Hp|reflexivity].
    + apply keeps_lor. reflexivity.
    + apply keeps_lor. reflexivity.
    + intros _. apply keeps_lor. reflexivity.
Qed.

Lemma safe_markPath m0 m p :
  safe m0 m -> in_grid m p = true -> safe m0 (markPath m p).
Proof.
  intros H Hp.
  apply (safe_update_mark m0 m _ p (fun v => Z.lor v PATH_BIT) H Hp).
  - apply mut_markPath. exact Hp.
  - apply markPath_update; [exact (safe_ok _ _ H)|exact Hp].
  - apply keeps_lor. reflexivity.
  - apply keeps_lor. reflexivity.
  - intros _. apply keeps_lor. reflexivity.
Qed.

Lemma dir_of_route_word_any d v : dir_of (route_word d v) = d.
Proof.
  destruct d; try (apply dir_of_route_word; discriminate).
  unfold route_word. rewrite <- dir_of_mask.
  replace (Z.land (Z.lor (Z.land v (Z.lnot PARENT_MASK)) VISITED_BIT) PARENT_MASK)
    with 0; [reflexivity|]. symmetry. bits.
Qed.

Lemma safe_setDirectionRouteBT m0 m p d :
  safe m0 m -> in_grid m p = true ->
  (d <> Uninitialized -> in_grid m (Pos.move p d) = true) ->
  safe m0 (setDirectionRouteBT m p d).
Proof.
  intros H Hp Hd.
  apply (safe_update m0 m _ p (route_word d) H).
  - apply mut_setDirectionRouteBT. exact Hp.
  - apply setDirectionRouteBT_update; [exact (safe_ok _ _ H)|exact Hp].
  - apply keeps_route_word_walls.
  - rewrite dir_of_route_word_any. exact Hd.
  - intros E.
    assert (K : keeps PRUNED_BIT (route_word d))
      by (intros v; unfold route_word; destruct d; bits).
    rewrite K. destruct E as [-> | ->]; apply hasFlag_false;
      [exact (safe_start _ _ H)|exact (safe_end _ _ H)].
Qed.

Lemma safe_setThreadOwner m0 m p t : safe m0 m -> safe m0 (setThreadOwner m p t).
Proof.
  intros [Hok Hm W Hp Hs He]. split.
  - apply setThreadOwner_grid_ok. exact Hok.
  - exact (marks_step m0 m _ Hm (mut_setThreadOwner m p t)).
  - exact W.
  - exact Hp.
  - exact Hs.
  - exact He.
Qed.

Lemma fresh_safe m0 : fresh m0 -> safe m0 m0.
Proof.
  intros Hf. split.
  - exact (fresh_grid_ok m0 Hf).
  - apply marks_refl.
  - apply same_walls_refl.
  - intros c Hc Hd. exfalso. apply Hd.
    rewrite getDirectionRouteBT_dir_of, <- (fresh_cell m0 c Hf), <- dir_of_mask.
    rewrite <- Z.land_assoc. change (Z.land 3 PARENT_MASK) with 0.
    rewrite Z.land_0_r. reflexivity.
  - unfold isPruned. apply hasFlag_false. rewrite <- (fresh_cell m0 _ Hf).
    rewrite <- Z.land_assoc. change (Z.land 3 PRUNED_BIT) with 0. apply Z.land_0_r.
  - unfold isPruned. apply hasFlag_false. rewrite <- (fresh_cell m0 _ Hf).
    rewrite <- Z.land_assoc. change (Z.land 3 PRUNED_BIT) with 0. apply Z.land_0_r.
Qed.

Lemma moves_can_move m p d :
  d ∈ getAvailableMovesNoPruned m p -> canMove m p d = true.
Proof.
  unfold getAvailableMovesNoPruned. rewrite list_elem_of_filter.
  intros [H _]. apply andb_true_iff in H. apply H.
Qed.

Lemma path_in_grid_head m p l : path_in_grid m p l -> in_grid m p = true.
Proof. destruct l; intros [H _]; exact H. Qed.

Lemma path_in_grid_snoc m l : forall p d,
  path_in_grid m p l -> in_grid m (Pos.move (walk p l) d) = true ->
  path_in_grid m p (l ++ [d]).
Proof.
  induction l as [|x l IH]; intros p d H Hd.
  - cbn in *. destruct H as [H _]. auto.
  - destruct H as [H1 H2]. split; [exact H1|]. apply IH; assumption.
Qed.

Lemma walk_snoc p l d : walk p (l ++ [d]) = Pos.move (walk p l) d.
Proof. unfold walk. rewrite fold_left_app. reflexivity. Qed.

Lemma path_in_grid_dims m m' p l :
  width m' = width m -> height m' = height m ->
  path_in_grid m p l -> path_in_grid m' p l.
Proof.
  intros Hw Hh. revert p. induction l as [|d l IH]; intros p [H1 H2];
    (split; [rewrite (in_grid_dims m m' p Hw Hh); exact H1|]); [exact I|].
  apply IH. exact H2.
Qed.

Lemma on_path_markPath m p q :
  grid_ok m -> in_grid m p = true ->
  on_path (markPath m p) q = on_path m q || bool_decide (p = q).
Proof.
  intros Hok Hp. pose proof (markPath_update m p Hok Hp) as U.
  unfold on_path. rewrite !hasFlag_land, (cu_cell _ _ _ _ U).
  destruct (decide (p = q)) as [->|Hne].
  - rewrite bool_decide_eq_true_2 by reflexivity. rewrite orb_true_r.
    rewrite Z.land_lor_distr_l. change (Z.land PATH_BIT PATH_BIT) with 8.
    destruct (Z.eqb_spec (Z.lor (Z.land (getCell m q) PATH_BIT) 8) 0) as [E|]; [|reflexivity].
    apply Z.lor_eq_0_iff in E. destruct E. discriminate.
  - rewrite bool_decide_eq_false_2 by exact Hne. rewrite orb_false_r. reflexivity.
Qed.

Lemma inner_dims m0 m p : safe m0 m -> inner m0 p -> inner m p.
Proof.
  intros H (Hp & Hs & He). destruct (safe_dims m0 m H) as (G & S & E & _).
  split; [rewrite G; exact Hp|]. rewrite S, E. auto.
Qed.

Lemma Forall_removelast {A} (P : A -> Prop) l : Forall P l -> Forall P (removelast l).
Proof.
  destruct l as [|x l _] using rev_ind; [auto|].
  rewrite removelast_last, Forall_app. tauto.
Qed.

Lemma Forall_last {A} (P : A -> Prop) l x : Forall P l -> last l = Some x -> P x.
Proof.
  destruct l as [|y l _] using rev_ind; [discriminate|].
  rewrite last_snoc, Forall_app. intros [_ H] [= <-].
  apply Forall_cons in H. apply H.
Qed.

Lemma path_in_grid_walk m l : forall p,
  path_in_grid m p l -> in_grid m (walk p l) = true.
Proof.
  induction l as [|d l IH]; intros p [H1 H2]; [exact H1|]. apply (IH _ H2).
Qed.

Lemma queue_append_ok (P : Position -> Prop) qs i p :
  Forall (Forall P) qs -> P p -> Forall (Forall P) (queue_append qs i p).
Proof.
  intros H Hp. unfold queue_append.
  case_match eqn:E; [|exact H].
  apply Forall_insert; [exact H|]. apply Forall_app. split; [|apply Forall_singleton; exact Hp].
  rewrite Forall_lookup in H. exact (H _ _ E).
Qed.

Lemma pruner_ok_set_iter m0 this r c :
  pruner_ok m0 this -> 0 <= r -> 0 <= c -> pruner_ok m0 (PruneThread.set_iter this r c).
Proof. intros (H1 & H2 & H3 & H4) Hr Hc. repeat split; assumption. Qed.

Lemma pruner_ok_set_stack m0 this st :
  pruner_ok m0 this -> Forall (inner m0) st -> pruner_ok m0 (PruneThread.set_stack this st).
Proof. intros (H1 & H2 & H3 & H4) Hs. repeat split; assumption. Qed.

Lemma pruner_ok_set_phase m0 this ph :
  pruner_ok m0 this -> pruner_ok m0 (PruneThread.set_phase this ph).
Proof. intros (H1 & H2 & H3 & H4). repeat split; assumption. Qed.

(** The scan phase stacks cells of the pruner's rows only, never Start
    or End. *)
Lemma scan_loop_ok m0 m n : forall this,
  0 < width m -> width m = width m0 -> height m = height m0 ->
  pruner_ok m0 this -> pruner_ok m0 (PruneThread.scan_loop n this m).
Proof.
  intros this0 Hpos Hw Hh. revert this0.
  induction n as [|n IH]; intros this H; cbn [PruneThread.scan_loop]; [exact H|].
  cbv zeta.
  set (this1 := if width m <=? PruneThread.iter_col this
                then PruneThread.set_iter this (PruneThread.iter_row this + 1) 0
                else this).
  assert (H1 : pruner_ok m0 this1 /\ PruneThread.iter_col this1 < width m).
  { unfold this1. destruct (Z.leb_spec (width m) (PruneThread.iter_col this)).
    - split; [|cbn; lia]. destruct H as (A & B & C & D).
      apply pruner_ok_set_iter; [repeat split; assumption|lia|lia].
    - split; assumption. }
  clearbody this1. destruct H1 as [H1 Hc]. clear H this.
  destruct (Z.leb_spec (PruneThread.row_end this1) (PruneThread.iter_row this1)) as [|Hr];
    [apply pruner_ok_set_phase; exact H1|].
  pose proof H1 as (A & B & C & D).
  set (pos := mkPosition (PruneThread.iter_row this1) (PruneThread.iter_col this1)).
  destruct (Pos.eq pos (getStart m) || Pos.eq pos (getEnd m)) eqn:E.
  - apply IH. apply pruner_ok_set_iter; [exact H1|lia|lia].
  - apply orb_false_iff in E as [E1 E2].
    apply Pos_eq_false in E1. apply Pos_eq_false in E2.
    assert (Hin : inner m0 pos).
    { split; [apply in_grid_spec; cbn; lia|].
      unfold getStart, getEnd in *. rewrite Hw, Hh in *. auto. }
    apply IH.
    destruct (Z.of_nat (length (getAvailableMovesNoPruned m pos)) <=? 1);
      (apply pruner_ok_set_iter; [|cbn; lia|cbn; lia]); [|exact H1].
    apply pruner_ok_set_stack; [exact H1|].
    apply Forall_app. split; [exact D|apply Forall_singleton; exact Hin].
Qed.

(** Pruning one cell marks that cell only and hands on a neighbour of
    the grid that is neither Start nor End. *)
Lemma prune_one_ok m0 m this qs pos :
  safe m0 m -> pruner_ok m0 this -> Forall (Forall (inner m0)) qs -> inner m0 pos ->
  safe m0 (snd (fst (PruneThread.prune_one this m qs pos))) /\
  pruner_ok m0 (fst (fst (PruneThread.prune_one this m qs pos))) /\
  Forall (Forall (inner m0)) (snd (PruneThread.prune_one this m qs pos)).
Proof.
  intros H Hp Hq Hin. unfold PruneThread.prune_one.
  destruct (isPruned m pos); [cbn; auto|]. cbv zeta.
  pose proof (safe_markPruned m0 m pos H (inner_dims m0 m pos H Hin)) as H1.
  pose proof (safe_setThreadOwner m0 _ pos (PruneThread.id this) H1) as H2.
  set (m2 := setThreadOwner (markPruned m pos) pos (PruneThread.id this)) in *.
  destruct (safe_dims m0 m2 H2) as (G & S & E & _).
  destruct (getAvailableMovesNoPruned m2 pos) as [|d [|d' moves]] eqn:Em;
    [cbn; auto| |cbn; auto].
  assert (Hd : canMove m2 pos d = true).
  { apply moves_can_move. rewrite Em. left. }
  assert (Hn : in_grid m0 (Pos.move pos d) = true).
  { rewrite <- G. apply canMove_in_grid; [rewrite G; apply Hin|exact Hd]. }
  destruct (Pos.eq (Pos.move pos d) (getStart m2) || Pos.eq (Pos.move pos d) (getEnd m2))
    eqn:Ese; [cbn; auto|].
  apply orb_false_iff in Ese as [E1 E2].
  apply Pos_eq_false in E1. apply Pos_eq_false in E2. rewrite S in E1. rewrite E in E2.
  assert (Hni : inner m0 (Pos.move pos d)) by (split; [exact Hn|auto]).
  destruct (Z.of_nat (length (getAvailableMovesNoPruned m2 (Pos.move pos d))) <=? 1);
    [|cbn; auto].
  destruct (row (Pos.move pos d) <? PruneThread.row_start this).
  { destruct (fst (PruneThread.out_qs this)); cbn [fst snd]; [|auto].
    split; [exact H2|split; [exact Hp|]]. apply queue_append_ok; assumption. }
  destruct (PruneThread.row_end this <=? row (Pos.move pos d)).
  { destruct (snd (PruneThread.out_qs this)); cbn [fst snd]; [|auto].
    split; [exact H2|split; [exact Hp|]]. apply queue_append_ok; assumption. }
  cbn [fst snd]. split; [exact H2|split; [|exact Hq]].
  apply pruner_ok_set_stack; [exact Hp|]. destruct Hp as (_ & _ & _ & D).
  apply Forall_app. split; [exact D|apply Forall_singleton; exact Hni].
Qed.

Lemma PruneThread_step_ok m0 m this qs :
  safe m0 m -> pruner_ok m0 this -> Forall (Forall (inner m0)) qs ->
  safe m0 (snd (fst (PruneThread.step this m qs))) /\
  pruner_ok m0 (fst (fst (PruneThread.step this m qs))) /\
  Forall (Forall (inner m0)) (snd (PruneThread.step this m qs)).
Proof.
  intros H Hp Hq. unfold PruneThread.step.
  destruct (PruneThread.finished this); [cbn; auto|].
  destruct (safe_dims m0 m H) as (_ & _ & _ & Hw & Hh).
  destruct (PruneThread.phase this).
  - cbn [fst snd]. split; [exact H|split; [|exact Hq]].
    apply scan_loop_ok; try assumption. exact (go_width _ (safe_ok _ _ H)).
  - cbv zeta.
    set (inq := default [] (_ !! _)).
    assert (Hinq : Forall (inner m0) inq).
    { unfold inq. destruct (_ !! _) as [q|] eqn:E; [|constructor].
      rewrite Forall_lookup in Hq. exact (Hq _ _ E). }
    clearbody inq.
    assert (Hq' : Forall (Forall (inner m0)) (<[Z.to_nat (PruneThread.in_q this) := []]> qs)).
    { destruct (decide (Z.to_nat (PruneThread.in_q this) < length qs)%nat).
      - apply Forall_insert; [exact Hq|constructor].
      - rewrite list_insert_ge by lia. exact Hq. }
    pose proof Hp as (_ & _ & _ & D).
    assert (Hst : Forall (inner m0) (PruneThread.stack this ++ inq))
      by (apply Forall_app; auto).
    pose proof (pruner_ok_set_stack m0 this _ Hp Hst) as Hp1.
    cbn [PruneThread.stack PruneThread.set_stack PruneThread.in_q].
    destruct (last (PruneThread.stack this ++ inq)) as [pos|] eqn:El.
    + apply prune_one_ok; try assumption.
      * apply (pruner_ok_set_stack m0 _ _ Hp1). cbn. apply Forall_removelast. exact Hst.
      * exact (Forall_last _ _ _ Hst El).
    + cbn [fst snd]. auto.
Qed.

Lemma step_pruners_ok m0 todo : forall done m qs,
  safe m0 m -> Forall (pruner_ok m0) todo -> Forall (pruner_ok m0) done ->
  Forall (Forall (inner m0)) qs ->
  safe m0 (snd (fst (MT_M1_Solver.step_pruners todo done m qs))) /\
  Forall (pruner_ok m0) (fst (fst (MT_M1_Solver.step_pruners todo done m qs))) /\
  Forall (Forall (inner m0)) (snd (MT_M1_Solver.step_pruners todo done m qs)).
Proof.
  induction todo as [|p todo IH]; intros done m qs H Ht Hd Hq;
    cbn [MT_M1_Solver.step_pruners]; [cbn; auto|].
  apply Forall_cons in Ht as [Hp Ht].
  destruct (PruneThread_step_ok m0 m p qs H Hp Hq) as (S1 & S2 & S3).
  destruct (PruneThread.step p m qs) as [[p' m'] qs']. cbn [fst snd] in *.
  apply IH; try assumption. apply Forall_app. split; [exact Hd|apply Forall_singleton; exact S2].
Qed.

Lemma remove_first_subset d moves x :
  x ∈ WalkThreadTB.remove_first d moves -> x ∈ moves.
Proof.
  induction moves as [|y moves IH]; cbn [WalkThreadTB.remove_first]; [auto|].
  destruct (Direction_eqb y d); [intros H; right; exact H|].
  rewrite !elem_of_cons. intros [->|H]; [left; reflexivity|right; apply IH; exact H].
Qed.

(** The walker moves along open edges: it stays in the grid and the
    list of its moves leads from Start to where it is. *)
Lemma WalkThreadTB_step_ok m0 m w sl fe :
  safe m0 m -> WalkThreadTB.curr w = walk (getStart m0) sl ->
  path_in_grid m0 (getStart m0) sl ->
  let r := WalkThreadTB.step w m sl fe in
  safe m0 (snd (fst (fst r))) /\
  WalkThreadTB.curr (fst (fst (fst r))) = walk (getStart m0) (snd (fst r)) /\
  path_in_grid m0 (getStart m0) (snd (fst r)).
Proof.
  intros H Hc Hp. unfold WalkThreadTB.step.
  destruct (WalkThreadTB.finished w); [cbn; auto|]. cbv zeta.
  destruct (negb _); [cbn; auto|].
  destruct (Pos.eq _ _); [cbn; auto|].
  set (moves := if negb _ then _ else _).
  assert (Hm : forall d, d ∈ moves -> canMove m (WalkThreadTB.curr w) d = true).
  { intros d Hd. apply moves_can_move. unfold moves in Hd.
    destruct (negb _); [apply remove_first_subset in Hd|]; exact Hd. }
  clearbody moves. destruct moves as [|go_to [|d' moves]]; [cbn; auto| |cbn; auto].
  cbn [fst snd WalkThreadTB.curr].
  destruct (safe_dims m0 m H) as (G & _).
  assert (Hn : in_grid m0 (Pos.move (WalkThreadTB.curr w) go_to) = true).
  { rewrite <- G. apply canMove_in_grid.
    - rewrite G, Hc. apply path_in_grid_walk. exact Hp.
    - apply Hm. left. }
  split; [apply safe_markVisitedTeam; [exact H|rewrite G; exact Hn]|].
  split; [rewrite walk_snoc, Hc; reflexivity|].
  apply path_in_grid_snoc; [exact Hp|]. rewrite <- Hc. exact Hn.
Qed.

(** The backward search queues cells of the grid and stores parent
    directions that point into the grid. *)
Lemma BFSThreadBT_expand_ok m0 cur dirs : forall m q,
  safe m0 m -> in_grid m0 cur = true -> Forall (fun p => in_grid m0 p = true) q ->
  safe m0 (fst (BFSThreadBT.expand dirs cur m q)) /\
  Forall (fun p => in_grid m0 p = true) (snd (BFSThreadBT.expand dirs cur m q)).
Proof.
  induction dirs as [|d dirs IH]; intros m q H Hc Hq; cbn [BFSThreadBT.expand];
    [cbn; auto|].
  destruct (canMove m cur d) eqn:Hd; [|apply IH; assumption].
  cbv zeta.
  destruct (isPruned m (Pos.move cur d)); [apply IH; assumption|].
  destruct (Direction_eqb _ _); [|apply IH; assumption].
  destruct (safe_dims m0 m H) as (G & _).
  assert (Hn : in_grid m (Pos.move cur d) = true)
    by (apply canMove_in_grid; [rewrite G; exact Hc|exact Hd]).
  assert (H1 : safe m0 (setDirectionRouteBT m (Pos.move cur d) (reverseDir d))).
  { apply safe_setDirectionRouteBT; [exact H|exact Hn|].
    intros _. rewrite move_back, G. exact Hc. }
  destruct (safe_dims m0 _ H1) as (G1 & _).
  apply IH; [|exact Hc|].
  - apply safe_markVisitedTeam; [exact H1|]. rewrite G1, <- G. exact Hn.
  - apply Forall_app. split; [exact Hq|]. apply Forall_singleton. rewrite <- G. exact Hn.
Qed.

Lemma BFSThreadBT_step_loop_ok m0 n : forall b m fe,
  safe m0 m -> Forall (fun p => in_grid m0 p = true) (BFSThreadBT.q b) ->
  let r := BFSThreadBT.step_loop n b m fe in
  safe m0 (snd (fst r)) /\
  Forall (fun p => in_grid m0 p = true) (BFSThreadBT.q (fst (fst r))).
Proof.
  induction n as [|n IH]; intros b m fe H Hq; cbn [BFSThreadBT.step_loop]; [cbn; auto|].
  destruct (BFSThreadBT.q b) as [|cur rest] eqn:Eq; [cbn; rewrite Eq; auto|].
  apply Forall_cons in Hq as [Hc Hr]. cbv zeta. cbn [BFSThreadBT.q BFSThreadBT.finished
    BFSThreadBT.found].
  destruct (isPruned m cur); [apply IH; assumption|].
  destruct (Pos.eq cur (getStart m)); [cbn; auto|].
  destruct (BFSThreadBT_expand_ok m0 cur [South; West; East; North] m rest H Hc Hr)
    as [E1 E2].
  destruct (BFSThreadBT.expand [South; West; East; North] cur m rest) as [m' q'].
  apply IH; assumption.
Qed.

Lemma BFSThreadBT_step_ok m0 b m fe :
  safe m0 m -> Forall (fun p => in_grid m0 p = true) (BFSThreadBT.q b) ->
  let r := BFSThreadBT.step b m fe in
  safe m0 (snd (fst r)) /\
  Forall (fun p => in_grid m0 p = true) (BFSThreadBT.q (fst (fst r))).
Proof.
  intros H Hq. unfold BFSThreadBT.step.
  destruct (_ || _); [cbn; auto|]. apply BFSThreadBT_step_loop_ok; assumption.
Qed.

Lemma last_mark_ok m0 m :
  safe m0 m -> on_path m (getStart m0) = true \/ getEnd m0 = getStart m0 ->
  m1_step_ok m0 (MT_M1_Solver.last_mark m).
Proof.
  intros H Hs. destruct (safe_dims m0 m H) as (G & S & E & _).
  assert (He : in_grid m (getEnd m) = true).
  { apply end_in_grid; [exact (go_width _ (safe_ok _ _ H))|exact (go_height _ (safe_ok _ _ H))]. }
  unfold MT_M1_Solver.last_mark, m1_step_ok. cbn [fst snd]. split; [|left; auto].
  split; [apply safe_markPath; assumption|]. cbn.
  rewrite !(on_path_markPath m _ _ (safe_ok _ _ H) He), E.
  split.
  - destruct Hs as [-> | ->]; [reflexivity|].
    rewrite bool_decide_eq_true_2 by reflexivity. apply orb_true_r.
  - rewrite bool_decide_eq_true_2 by reflexivity. apply orb_true_r.
Qed.

Lemma bt_head_ok m0 m curr :
  safe m0 m -> in_grid m0 curr = true ->
  on_path m (getStart m0) = true \/ curr = getStart m0 ->
  m1_step_ok m0 (MT_M1_Solver.bt_head curr m).
Proof.
  intros H Hc Hs. destruct (safe_dims m0 m H) as (G & S & E & _).
  unfold MT_M1_Solver.bt_head.
  destruct (Pos.eq curr (getEnd m)) eqn:Ee; cbn [negb].
  - apply Pos_eq_spec in Ee. apply last_mark_ok; [exact H|].
    destruct Hs as [Hs| ->]; [left; exact Hs|right]. rewrite <- E. symmetry. exact Ee.
  - cbv zeta.
    assert (Hc' : in_grid m curr = true) by (rewrite G; exact Hc).
    pose proof (safe_markPath m0 m curr H Hc') as H1.
    assert (Hp : on_path (markPath m curr) (getStart m0) = true).
    { rewrite (on_path_markPath m _ _ (safe_ok _ _ H) Hc').
      destruct Hs as [-> | ->]; [reflexivity|].
      rewrite bool_decide_eq_true_2 by reflexivity. apply orb_true_r. }
    unfold Direction_eqb. case_bool_decide as Hd.
    + apply last_mark_ok; [exact H1|left; exact Hp].
    + unfold m1_step_ok. cbn [fst snd]. split.
      * split; [exact H1|]. cbn. split; [|exact Hp].
        destruct (safe_dims m0 _ H1) as (G1 & _).
        rewrite <- G1. apply (safe_pointers _ _ H1); [rewrite G1; exact Hc|exact Hd].
      * right. exists BACKTRACKING. repeat split; discriminate.
Qed.

Lemma tb_head_ok m0 m curr rest :
  safe m0 m -> path_in_grid m0 curr rest ->
  on_path m (getStart m0) = true \/ curr = getStart m0 ->
  m1_step_ok m0 (MT_M1_Solver.tb_head curr rest m).
Proof.
  intros H Hp Hs. destruct (safe_dims m0 m H) as (G & S & E & _).
  pose proof (path_in_grid_head _ _ _ Hp) as Hc.
  destruct rest as [|d rest]; cbn [MT_M1_Solver.tb_head].
  - apply bt_head_ok; assumption.
  - assert (Hc' : in_grid m curr = true) by (rewrite G; exact Hc).
    unfold m1_step_ok. cbn [fst snd]. split.
    + split; [apply safe_markPath; assumption|]. cbn. split; [apply Hp|].
      rewrite (on_path_markPath m _ _ (safe_ok _ _ H) Hc').
      destruct Hs as [-> | ->]; [reflexivity|].
      rewrite bool_decide_eq_true_2 by reflexivity. apply orb_true_r.
    + right. exists BACKTRACKING. repeat split; discriminate.
Qed.

Lemma loop_head_ok m0 m this :
  safe m0 m -> m1_inv m0 this -> m1_step_ok m0 (MT_M1_Solver.loop_head this m).
Proof.
  intros H [Ip Iq Iw Ipath Ib]. destruct (safe_dims m0 m H) as (G & S & E & _).
  unfold MT_M1_Solver.loop_head.
  destruct (_ && _).
  - destruct (step_pruners_ok m0 (MT_M1_Solver.pruners this) [] m
                (MT_M1_Solver.queues this) H Ip ltac:(constructor) Iq) as (P1 & P2 & P3).
    destruct (MT_M1_Solver.step_pruners _ _ _ _) as [[pruners m1] queues].
    cbn [fst snd] in P1, P2, P3.
    destruct (WalkThreadTB_step_ok m0 m1 (MT_M1_Solver.walker this)
                (MT_M1_Solver.solve_list this) (MT_M1_Solver.first_exit this) P1 Iw Ipath)
      as (W1 & W2 & W3).
    destruct (WalkThreadTB.step _ _ _ _) as [[[walker m2] solve_list] first_exit].
    cbn [fst snd] in W1, W2, W3.
    destruct (BFSThreadBT_step_ok m0 (MT_M1_Solver.bfs this) m2 first_exit W1 Ib)
      as (B1 & B2).
    destruct (BFSThreadBT.step _ _ _) as [[bfs m3] first_exit'].
    cbn [fst snd] in B1, B2.
    destruct (safe_dims m0 m3 B1) as (G3 & S3 & E3 & _).
    destruct (_ && _).
    + rewrite S3. apply tb_head_ok; [exact B1|exact W3|right; reflexivity].
    + unfold m1_step_ok. cbn [fst snd]. split.
      * split; [exact B1|]. split; assumption.
      * right. exists SEARCHING. repeat split; discriminate.
  - rewrite S. apply tb_head_ok; [exact H|exact Ipath|right; reflexivity].
Qed.

Lemma MT_M1_next_ok m0 s m :
  m1_state_ok m0 s m -> s <> MT_M1_Solver.AtLast -> s <> MT_M1_Solver.Finished ->
  m1_step_ok m0 (MT_M1_Solver.next s m).
Proof.
  intros [H I] H1 H2. destruct s; cbn [MT_M1_Solver.next]; try contradiction.
  - apply loop_head_ok; assumption.
  - apply loop_head_ok; assumption.
  - destruct I as [Ip Is]. apply tb_head_ok; [exact H|exact Ip|left; exact Is].
  - destruct I as [Ic Is]. apply bt_head_ok; [exact H|exact Ic|left; exact Is].
Qed.

Lemma MT_M1_drive_ok m0 n : forall s m,
  m1_state_ok m0 s m -> s <> MT_M1_Solver.AtLast -> s <> MT_M1_Solver.Finished ->
  safe m0 (outcome_maze (snd (drive MT_M1_Solver.next n s m))) /\
  forall m', snd (drive MT_M1_Solver.next n s m) = Completed m' ->
             last (fst (drive MT_M1_Solver.next n s m)) = Some FINISHED /\
             on_path m' (getStart m0) = true /\ on_path m' (getEnd m0) = true.
Proof.
  induction n as [|n IH]; intros s m Hs H1 H2; cbn [drive].
  - cbn. split; [apply Hs|discriminate].
  - destruct (MT_M1_next_ok m0 s m Hs H1 H2) as [Hs' Hr].
    destruct (MT_M1_Solver.next s m) as [[r s'] m1]. cbn [fst snd] in *.
    destruct Hr as [[-> ->]|(t & -> & Ht & Hs1 & Hs2)].
    + destruct n as [|n]; cbn [drive MT_M1_Solver.next fst snd outcome_maze].
      * split; [apply Hs'|discriminate].
      * split; [apply Hs'|]. intros m' [= <-]. split; [reflexivity|apply Hs'].
    + specialize (IH s' m1 Hs' Hs1 Hs2).
      destruct (drive MT_M1_Solver.next n s' m1) as [ts o]. cbn [fst snd] in *.
      destruct IH as [I1 I2]. split; [exact I1|].
      intros m' Ho. destruct (I2 m' Ho) as (L & P1 & P2). split; [|auto].
      destruct ts as [|t' ts]; [discriminate|]. exact L.
Qed.

Lemma MT_M1_new_ok m0 :
  fresh m0 ->
  m1_state_ok m0 (MT_M1_Solver.Start (fst (MT_M1_Solver.new m0)))
              (snd (MT_M1_Solver.new m0)).
Proof.
  intros Hf. pose proof (fresh_safe m0 Hf) as H.
  pose proof (fresh_width _ Hf) as Hw. pose proof (fresh_height _ Hf) as Hh.
  pose proof (start_in_grid m0 Hw Hh) as Hs. pose proof (end_in_grid m0 Hw Hh) as He.
  unfold MT_M1_Solver.new, BFSThreadBT.new. cbn [fst snd]. split.
  - apply safe_setDirectionRouteBT; [exact H|exact He|]. intros C. contradiction.
  - split; cbn [MT_M1_Solver.pruners MT_M1_Solver.queues MT_M1_Solver.walker
                MT_M1_Solver.solve_list MT_M1_Solver.bfs WalkThreadTB.new
                WalkThreadTB.curr BFSThreadBT.q].
    + rewrite (Z.rem_mod_nonneg (height m0) 4) by lia.
      pose proof (Z.div_mod (height m0) 4 ltac:(lia)) as Hd.
      pose proof (Z.mod_pos_bound (height m0) 4 ltac:(lia)) as Hm.
      assert (0 <= height m0 / 4) by (apply Z.div_pos; lia).
      remember (height m0 / 4) as k eqn:Ek. remember (height m0 mod 4) as r eqn:Er.
      repeat (apply Forall_cons; split); [| | | |constructor];
        unfold pruner_ok, MT_M1_Solver.make_pruner, PruneThread.new;
        cbn [PruneThread.iter_row PruneThread.row_end PruneThread.iter_col
             PruneThread.stack];
        (split; [lia|split; [lia|split; [lia|constructor]]]).
    + repeat constructor.
    + reflexivity.
    + split; [exact Hs|exact I].
    + apply Forall_singleton. exact He.
Qed.

(** X14.  MT-M1 writes to cells of the grid only, whatever the maze
    and however long it runs: the maze it leaves is the loaded one with
    marks on cells of the grid, no wall has changed, neither Start nor
    End is pruned, and [Reset] gives the loaded maze back.  When the
    generator returns, its last token was FINISHED and both Start and
    End are ON_PATH. *)
Theorem MT_M1_stays_in_the_grid (m0 : Maze) (n : nat) :
  fresh m0 ->
  let r := MT_M1_Solver.solve_step_by_step n m0 in
  let m' := outcome_maze (snd r) in
  marks m0 m' /\ grid_ok m' /\ same_walls m0 m' /\
  isPruned m' (getStart m0) = false /\ isPruned m' (getEnd m0) = false /\
  (thread_ownership m0 = ∅ -> Reset m' = m0) /\
  (forall m1, snd r = Completed m1 ->
     last (fst r) = Some FINISHED /\
     on_path m1 (getStart m0) = true /\ on_path m1 (getEnd m0) = true).
Proof.
  intros Hf. cbv zeta. rewrite MT_M1_solve_unfold.
  destruct (MT_M1_drive_ok m0 n _ _ (MT_M1_new_ok m0 Hf)) as [H1 H2]; try discriminate.
  destruct (safe_dims m0 _ H1) as (_ & S & E & _).
  split; [exact (safe_marks _ _ H1)|]. split; [exact (safe_ok _ _ H1)|].
  split; [exact (safe_walls _ _ H1)|].
  split; [rewrite <- S; exact (safe_start _ _ H1)|].
  split; [rewrite <- E; exact (safe_end _ _ H1)|].
  split; [|exact H2].
  intros Ho. exact (Reset_restores m0 _ Hf Ho (safe_ok _ _ H1) (safe_walls _ _ H1)).
Qed.

Lemma MT_M1_stays_in_the_grid_witness :
  let r := MT_M1_Solver.solve_step_by_step 12 maze_open3 in
  let m' := outcome_maze (snd r) in
  marks maze_open3 m' /\ grid_ok m' /\ same_walls maze_open3 m' /\
  isPruned m' (getStart maze_open3) = false /\ isPruned m' (getEnd maze_open3) = false /\
  (thread_ownership maze_open3 = ∅ -> Reset m' = maze_open3) /\
  (forall m1, snd r = Completed m1 ->
     last (fst r) = Some FINISHED /\
     on_path m1 (getStart maze_open3) = true /\ on_path m1 (getEnd maze_open3) = true).
Proof. apply (MT_M1_stays_in_the_grid maze_open3 12). fresh_by_computation. Defined.

(* ================================================================== *)
(** ** Further properties: the loader reads the wire format           *)
(* ================================================================== *)

Lemma ToInt32_range v : - 2 ^ 31 <= ToInt32 v < 2 ^ 31.
Proof. unfold ToInt32. pose proof (Z.mod_pos_bound (v + 2 ^ 31) (2 ^ 32)). lia. Qed.

Lemma getInt32_inside buffer offset :
  0 <= offset -> offset + 4 <= byteLength buffer ->
  exists bits, getInt32 buffer offset = Some bits /\ - 2 ^ 31 <= bits < 2 ^ 31.
Proof.
  intros H0 H1. unfold getInt32.
  destruct (Z.leb_spec 0 offset); [|lia].
  destruct (Z.leb_spec (offset + 4) (byteLength buffer)); [|lia].
  cbn [andb]. eexists. split; [reflexivity|apply ToInt32_range].
Qed.

Lemma shiftr2_int32 v : - 2 ^ 31 <= v < 2 ^ 31 -> - 2 ^ 31 <= Z.shiftr v 2 < 2 ^ 31.
Proof.
  intros H. rewrite Z.shiftr_div_pow2 by lia. change (2 ^ 2) with 4.
  pose proof (Z.div_mod v 4 ltac:(lia)). pose proof (Z.mod_pos_bound v 4 ltac:(lia)). lia.
Qed.

Lemma land_flag_testbit x k :
  0 <= k -> (Z.land x (2 ^ k) =? 0) = negb (Z.testbit x k).
Proof.
  intros Hk. destruct (Z.testbit x k) eqn:E; cbn [negb].
  - apply Z.eqb_neq. intros C.
    assert (T : Z.testbit (Z.land x (2 ^ k)) k = true)
      by (rewrite Z.land_spec, E, Z.pow2_bits_true by lia; reflexivity).
    rewrite C, Z.bits_0 in T. discriminate.
  - apply Z.eqb_eq. apply Z.bits_inj'. intros n Hn.
    rewrite Z.land_spec, Z.bits_0, Z.pow2_bits_eqb by lia.
    destruct (Z.eqb_spec k n) as [->|]; [rewrite E; reflexivity|apply andb_false_r].
Qed.

(** The word the inner loop stores: the two low bits of [bits]. *)
Lemma Load_cell_word bits :
  (let val := 0 in
   let val := if Z.land bits 1 =? 0 then val else Z.lor val EAST_BIT in
   if Z.land (Z.shiftr bits 1) 1 =? 0 then val else Z.lor val SOUTH_BIT)
  = Z.land bits 3.
Proof.
  cbv zeta.
  assert (L1 : Z.land bits 1 = bits mod 2) by (apply (Z.land_ones bits 1); lia).
  assert (L2 : Z.land (Z.shiftr bits 1) 1 = (bits / 2) mod 2).
  { rewrite Z.shiftr_div_pow2 by lia. apply (Z.land_ones (bits / 2 ^ 1) 1). lia. }
  assert (L3 : Z.land bits 3 = bits mod 4) by (apply (Z.land_ones bits 2); lia).
  rewrite L1, L2, L3.
  pose proof (Z.div_mod bits 2 ltac:(lia)) as D1.
  pose proof (Z.mod_pos_bound bits 2 ltac:(lia)) as B1.
  pose proof (Z.div_mod (bits / 2) 2 ltac:(lia)) as D2.
  pose proof (Z.mod_pos_bound (bits / 2) 2 ltac:(lia)) as B2.
  pose proof (Z.div_mod bits 4 ltac:(lia)) as D3.
  pose proof (Z.mod_pos_bound bits 4 ltac:(lia)) as B3.
  assert (E : bits mod 4 = bits mod 2 + 2 * ((bits / 2) mod 2)) by lia.
  rewrite E. unfold EAST_BIT, SOUTH_BIT.
  assert (C1 : bits mod 2 = 0 \/ bits mod 2 = 1) by lia.
  assert (C2 : (bits / 2) mod 2 = 0 \/ (bits / 2) mod 2 = 1) by lia.
  destruct C1 as [-> | ->], C2 as [-> | ->]; reflexivity.
Qed.

Lemma Load_pair_past buffer base k :
  byteLength buffer <= base + 4 * (k / 16) -> Load_pair buffer base k = 0.
Proof.
  intros H. unfold Load_pair. rewrite getInt32_short by lia.
  cbn [default from_option id]. rewrite Z.shiftr_0_l. reflexivity.
Qed.

Lemma Load_cells_decodes n r : forall this c bits,
  typed this ->
  - 2 ^ 31 <= bits < 2 ^ 31 -> 0 <= c <= width this ->
  0 <= r * width this ->
  r * width this + width this <= Z.of_nat (length (cell_words this)) ->
  snd (Load_cells n this r c bits) = Z.min (c + Z.of_nat n) (width this) /\
  forall i,
    ta_get (cell_words (fst (Load_cells n this r c bits))) i
    = if decide (r * width this + c <= i < r * width this + Z.min (c + Z.of_nat n) (width this))
      then Some (Z.land (Z.shiftr bits (2 * (i - (r * width this + c)))) 3)
      else ta_get (cell_words this) i.
Proof.
  induction n as [|n IH]; intros this c bits Ht Hb Hc Hr Hl; cbn [Load_cells].
  - cbn [fst snd]. split; [lia|]. intros i.
    destruct (decide _) as [H|H]; [lia|reflexivity].
  - destruct (Z.leb_spec (width this) c) as [Hw|Hw].
    + cbn [fst snd]. split; [lia|]. intros i.
      destruct (decide _) as [H|H]; [lia|reflexivity].
    + rewrite Load_cell_word.
      change (mkMaze (width this) (height this)
                (arr_set (poMazeData this) (r * width this + c) (Z.land bits 3))
                (visitOrder this) (thread_ownership this))
        with (setCell this (mkPosition r c) (Z.land bits 3)).
      destruct (setCell_typed this (mkPosition r c) (Z.land bits 3) Ht) as [Ht1 [Ed _]].
      change (_cellIndex this (mkPosition r c)) with (r * width this + c) in Ed.
      set (this1 := setCell this (mkPosition r c) (Z.land bits 3)) in *.
      assert (Hb' : - 2 ^ 31 <= Z.shiftr bits 2 < 2 ^ 31) by (apply shiftr2_int32; exact Hb).
      rewrite (ToInt32_small _ Hb').
      destruct (IH this1 (c + 1) (Z.shiftr bits 2) Ht1 Hb') as [I1 I2].
      * cbn. lia.
      * exact Hr.
      * rewrite Ed, ta_set_length. exact Hl.
      * change (width this1) with (width this) in I1, I2. split; [rewrite I1; lia|].
        intros i. rewrite I2.
        replace (Z.min (c + 1 + Z.of_nat n) (width this))
          with (Z.min (c + Z.of_nat (S n)) (width this)) by lia.
        destruct (decide (r * width this + (c + 1) <= i < _)) as [H|H].
        -- destruct (decide _) as [H'|H']; [|lia].
           rewrite Z.shiftr_shiftr by lia. do 3 f_equal. lia.
        -- rewrite Ed.
           destruct (decide (r * width this + c <= i < _)) as [H'|H'].
           ++ assert (i = r * width this + c) as -> by lia.
              rewrite ta_get_set_eq by lia.
              rewrite Z.sub_diag, Z.mul_0_r, Z.shiftr_0_r. f_equal.
              apply ToInt32_small.
              change 3 with (Z.ones 2). rewrite Z.land_ones by lia.
              pose proof (Z.mod_pos_bound bits (2 ^ 2) ltac:(lia)). lia.
           ++ apply ta_get_set_ne. lia.
Qed.

(** One row.  The words of the row start at [base]; the loop reads them
    as long as the buffer holds them and leaves the cells of the words
    it does not hold as they are, at 0. *)
Lemma Load_words_decodes buffer r fuel : forall this c offset,
  let w := width this in
  let W := (w + 15) / 16 in
  forall base,
  typed this ->
  0 <= r * w -> r * w + w <= Z.of_nat (length (cell_words this)) ->
  0 <= c < w -> c mod 16 = 0 -> 0 <= base ->
  offset = Z.min (base + 4 * (c / 16)) (byteLength buffer) ->
  base + 4 * W <= byteLength buffer \/ (byteLength buffer - base) mod 4 = 0 ->
  (forall i, r * w + c <= i < r * w + w -> ta_get (cell_words this) i = Some 0) ->
  (Z.to_nat (w - c) <= fuel)%nat ->
  exists this',
    Load_words fuel buffer this r c offset
    = (this', Z.min (base + 4 * W) (byteLength buffer), None) /\
    typed this' /\
    forall i,
      ta_get (cell_words this') i
      = if decide (r * w + c <= i < r * w + w)
        then Some (Load_pair buffer base (i - r * w))
        else ta_get (cell_words this) i.
Proof.
  induction fuel as [|fuel IH];
    intros this c offset w W base Ht Hr Hl Hc Hm Hbase Ho Hfit Hz Hf; [lia|].
  cbn [Load_words]. fold w.
  pose proof (Z.div_mod c 16 ltac:(lia)) as Dc.
  pose proof (Z.div_mod (w + 15) 16 ltac:(lia)) as DW.
  pose proof (Z.mod_pos_bound (w + 15) 16 ltac:(lia)) as BW. fold W in DW.
  assert (HcW : c / 16 < W) by lia.
  destruct (Z.ltb_spec c w) as [_|]; [|lia].
  destruct (Z.leb_spec (byteLength buffer) offset) as [Hend|Hin].
  - exists this. split; [do 2 f_equal; lia|]. split; [exact Ht|].
    intros i. destruct (decide _) as [Hi|Hi]; [|reflexivity].
    rewrite (Hz i Hi). f_equal. symmetry. apply Load_pair_past.
    assert (c / 16 <= (i - r * w) / 16) by (apply Z.div_le_mono; lia). lia.
  - assert (Ho' : offset = base + 4 * (c / 16)) by lia.
    assert (Hin' : offset + 4 <= byteLength buffer).
    { destruct Hfit as [Hfit|Hfit]; [lia|].
      pose proof (Z.div_mod (byteLength buffer - base) 4 ltac:(lia)) as Da.
      rewrite Hfit in Da. lia. }
    destruct (getInt32_inside buffer offset ltac:(lia) Hin') as (bits & Eb & Rb).
    rewrite Eb.
    destruct (Load_cells_decodes 16 r this c bits Ht Rb ltac:(fold w; lia) Hr Hl)
      as [C1 C2].
    pose proof (Load_cells_width 16 this r c bits) as [Ww Wh].
    pose proof (Load_cells_keeps 16 this r c bits Ht) as (Kt & _ & _ & Kl & _).
    destruct (Load_cells 16 this r c bits) as [this1 c1]. cbn [fst snd] in *.
    fold w in C1, C2. change (Z.of_nat 16) with 16 in C1, C2.
    assert (Dec : forall i, r * w + c <= i < r * w + Z.min (c + 16) w ->
                    Some (Z.land (Z.shiftr bits (2 * (i - (r * w + c)))) 3)
                    = Some (Load_pair buffer base (i - r * w))).
    { intros i Hi. unfold Load_pair.
      assert (E1 : (i - r * w) / 16 = c / 16).
      { symmetry. apply (Z.div_unique _ 16 _ (i - r * w - c)); lia. }
      assert (E2 : (i - r * w) mod 16 = i - r * w - c).
      { symmetry. apply (Z.mod_unique _ 16 (c / 16)); lia. }
      rewrite E1, E2, <- Ho', Eb. cbn [default from_option id]. do 3 f_equal. lia. }
    destruct (Z.lt_ge_cases (c + 16) w) as [Hlt|Hge].
    + assert (c1 = c + 16) by lia. clear C1. subst c1.
      assert (E16 : (c + 16) / 16 = c / 16 + 1).
      { replace (c + 16) with (c + 1 * 16) by lia. rewrite Z.div_add by lia. lia. }
      destruct (IH this1 (c + 16) (offset + 4) base) as (this' & E & Ht' & D).
      * exact Kt.
      * rewrite Ww. exact Hr.
      * rewrite Ww, Kl. exact Hl.
      * rewrite Ww. lia.
      * rewrite <- Z.add_mod_idemp_l, Hm by lia. reflexivity.
      * exact Hbase.
      * rewrite E16. lia.
      * rewrite Ww. exact Hfit.
      * rewrite Ww. fold w. intros i Hi. rewrite C2.
        destruct (decide _) as [H'|H']; [lia|]. apply Hz. lia.
      * rewrite Ww. fold w. lia.
      * rewrite Ww in E, D. fold w W in E, D. exists this'. split; [exact E|].
        split; [exact Ht'|].
        intros i. rewrite D.
        destruct (decide (r * w + (c + 16) <= i < r * w + w)) as [H|H].
        -- destruct (decide _) as [H'|H']; [reflexivity|lia].
        -- rewrite C2.
           destruct (decide (r * w + c <= i < r * w + Z.min (c + 16) w)) as [H1|H1].
           ++ destruct (decide _) as [H'|H']; [|lia]. apply Dec. exact H1.
           ++ destruct (decide _) as [H'|H']; [lia|reflexivity].
    + assert (c1 = w) by lia. clear C1. subst c1.
      assert (EW : c / 16 + 1 = W).
      { apply (Z.div_unique _ 16 _ (w + 15 - c - 16)); lia. }
      exists this1. split; [|split; [exact Kt|]].
      * destruct fuel as [|fuel]; cbn [Load_words].
        -- do 2 f_equal. lia.
        -- rewrite Ww. fold w. rewrite Z.ltb_irrefl. do 2 f_equal. lia.
      * intros i. rewrite C2.
        destruct (decide (r * w + c <= i < r * w + Z.min (c + 16) w)) as [H1|H1].
        -- destruct (decide _) as [H'|H']; [|lia]. apply Dec. exact H1.
        -- destruct (decide _) as [H'|H']; [lia|reflexivity].
Qed.

(** The rows.  Each starts a new word; when the buffer holds the whole
    body, or stops at a word boundary, no read fails and every cell
    holds the pair of bits the format gives it, 0 past the data. *)
Lemma Load_rows_decodes buffer n : forall this r,
  let w := width this in
  let h := height this in
  let W := (w + 15) / 16 in
  typed this ->
  0 < w -> 0 <= r -> r + Z.of_nat n = h ->
  w * h = Z.of_nat (length (cell_words this)) ->
  12 + 4 * (h * W) <= byteLength buffer \/ (byteLength buffer - 12) mod 4 = 0 ->
  (forall i, r * w <= i < h * w -> ta_get (cell_words this) i = Some 0) ->
  exists this',
    Load_rows n buffer this r (Z.min (12 + 4 * (r * W)) (byteLength buffer))
    = (this', None) /\
    typed this' /\ width this' = w /\ height this' = h /\
    forall i,
      ta_get (cell_words this') i
      = if decide (r * w <= i < h * w)
        then Some (Load_pair buffer (12 + 4 * (i / w * W)) (i mod w))
        else ta_get (cell_words this) i.
Proof.
  induction n as [|n IH]; intros this r w h W Ht Hw Hr Hn Hl Hfit Hz; cbn [Load_rows].
  - exists this. split; [reflexivity|]. split; [exact Ht|]. split; [reflexivity|].
    split; [reflexivity|]. intros i.
    destruct (decide _) as [H|H]; [|reflexivity]. nia.
  - assert (HW : 0 <= W) by (apply Z.div_pos; lia).
    pose proof (Load_words_decodes buffer r (Z.to_nat w) this 0
                  (Z.min (12 + 4 * (r * W)) (byteLength buffer))
                  (12 + 4 * (r * W))) as LW.
    cbv zeta in LW. fold w in LW. fold W in LW.
    destruct LW as (this1 & E & Ht1 & D); try lia; try nia.
    + exact Ht.
    + reflexivity.
    + rewrite Z.div_0_l by lia. lia.
    + destruct Hfit as [Hfit|Hfit]; [left; nia|right].
      replace (byteLength buffer - (12 + 4 * (r * W)))
        with (byteLength buffer - 12 + (- (r * W)) * 4) by lia.
      rewrite Z_mod_plus_full. exact Hfit.
    + intros i Hi. apply Hz. nia.
    + pose proof (Load_words_keeps (Z.to_nat w) buffer this r 0
                    (Z.min (12 + 4 * (r * W)) (byteLength buffer)) Ht)
        as (_ & Kw & Kh & _ & _ & Kl & _).
      fold w in Kw, Kh, Kl |- *. rewrite E in Kw, Kh, Kl |- *. cbn [fst] in Kw, Kh, Kl.
      replace (12 + 4 * (r * W) + 4 * W) with (12 + 4 * ((r + 1) * W)) by lia.
      destruct (IH this1 (r + 1)) as (this' & E' & Ht' & W' & H' & D').
      * exact Ht1.
      * rewrite Kw. exact Hw.
      * lia.
      * rewrite Kh. fold h. lia.
      * rewrite Kw, Kh, Kl. exact Hl.
      * rewrite Kw, Kh. exact Hfit.
      * rewrite Kw, Kh. fold w h. intros i Hi. rewrite D.
        destruct (decide _) as [H1|H1]; [lia|]. apply Hz. lia.
      * rewrite Kw in E', W', D'. rewrite Kh in H', D'. fold w h W in E', W', H', D'.
        exists this'. split; [exact E'|]. split; [exact Ht'|].
        split; [exact W'|]. split; [exact H'|].
        intros i. rewrite D'.
        destruct (decide ((r + 1) * w <= i < h * w)) as [H1|H1].
        -- destruct (decide _) as [H2|H2]; [reflexivity|lia].
        -- rewrite D.
           destruct (decide (r * w + 0 <= i < r * w + w)) as [H2|H2].
           ++ destruct (decide _) as [H3|H3]; [|nia].
              assert (E1 : i / w = r)
                by (symmetry; apply (Z.div_unique _ w _ (i - r * w)); lia).
              assert (E2 : i mod w = i - r * w)
                by (symmetry; apply (Z.mod_unique _ w r); lia).
              rewrite E1, E2. reflexivity.
           ++ destruct (decide _) as [H3|H3]; [lia|reflexivity].
Qed.

(** What a load that completes has read and been granted. *)
Lemma Load_completed_header engine this buffer m :
  Load engine this buffer = (m, None) ->
  getInt32 buffer 0 = Some (width m) /\ getInt32 buffer 4 = Some (height m) /\
  12 <= byteLength buffer /\ 0 <= width m * height m /\
  4 * (width m * height m) <= 2 ^ 53 - 1 /\ engine (width m * height m) = true.
Proof.
  unfold Load. intros H.
  destruct (getInt32 buffer 0) as [w|]; [|discriminate].
  destruct (getInt32 buffer 4) as [h|]; [|discriminate].
  destruct (getInt32 buffer 8) as [sv|] eqn:E8; [|discriminate].
  cbn [width height poMazeData visitOrder thread_ownership] in H.
  unfold Int32Array_new in H.
  destruct (Z.ltb_spec (w * h) 0); [discriminate|].
  destruct (Z.ltb_spec (2 ^ 53 - 1) (4 * (w * h))); [discriminate|].
  destruct (engine (w * h)) eqn:Ee; [|discriminate]. cbn [orb negb] in H.
  match type of H with Load_rows ?n ?b ?t ?r ?o = _ =>
    destruct (typed_intro t (replicate (Z.to_nat (w * h)) 0)
                (replicate (length (replicate (Z.to_nat (w * h)) 0)) (-1))
                eq_refl eq_refl) as [Ht _];
    pose proof (Load_rows_keeps n b t r o Ht) as (_ & Kw & Kh & _);
    rewrite H in Kw, Kh end.
  cbn [fst width height] in Kw, Kh. subst w h.
  unfold getInt32 in E8. destruct (Z.leb_spec (8 + 4) (byteLength buffer));
    [|rewrite andb_false_r in E8; discriminate].
  repeat split; try assumption; try reflexivity; lia.
Qed.

(** The cells of a loaded maze, by the wire format. *)
Lemma Load_decodes engine this buffer w h :
  getInt32 buffer 0 = Some w -> getInt32 buffer 4 = Some h ->
  12 <= byteLength buffer ->
  0 < w -> 0 < h -> 4 * (w * h) <= 2 ^ 53 - 1 -> engine (w * h) = true ->
  12 + 4 * (h * ((w + 15) / 16)) <= byteLength buffer \/
  (byteLength buffer - 12) mod 4 = 0 ->
  exists m,
    Load engine this buffer = (m, None) /\ width m = w /\ height m = h /\
    forall r c, 0 <= r < h -> 0 <= c < w ->
      getCell m (mkPosition r c) = Load_pair buffer (12 + 4 * (r * ((w + 15) / 16))) c.
Proof.
  intros E0 E4 HL Hw Hh Hsz He Hfit. unfold Load. rewrite E0, E4.
  set (W := (w + 15) / 16) in *.
  destruct (getInt32_inside buffer 8 ltac:(lia) ltac:(lia)) as (sv & E8 & _).
  rewrite E8. cbn [width height poMazeData visitOrder thread_ownership].
  unfold Int32Array_new.
  destruct (Z.ltb_spec (w * h) 0) as [|_]; [nia|].
  destruct (Z.ltb_spec (2 ^ 53 - 1) (4 * (w * h))) as [|_]; [lia|].
  rewrite He. cbn [orb negb].
  set (this0 := mkMaze w h _ _ _).
  destruct (typed_intro this0 (replicate (Z.to_nat (w * h)) 0)
              (replicate (length (replicate (Z.to_nat (w * h)) 0)) (-1))
              eq_refl eq_refl) as [Ht [Ed _]].
  destruct (Load_rows_decodes buffer (Z.to_nat h) this0 0) as (m & E & Htm & Ew & Eh & D).
  - exact Ht.
  - exact Hw.
  - lia.
  - cbn. lia.
  - rewrite Ed, length_replicate. cbn [this0 width height]. nia.
  - exact Hfit.
  - intros i Hi. cbn [this0 width height] in Hi. rewrite Ed. unfold ta_get.
    destruct (Z.leb_spec 0 i); [|lia].
    rewrite lookup_replicate_2 by nia. reflexivity.
  - cbn [this0 width height] in E, Ew, Eh, D. fold W in E, D.
    replace (Z.min (12 + 4 * (0 * W)) (byteLength buffer)) with 12 in E by lia.
    exists m. split; [exact E|]. split; [exact Ew|]. split; [exact Eh|].
    intros r c Hr Hc. rewrite (getCell_typed m _ Htm).
    unfold in_grid, _cellIndex. cbn [row col]. rewrite Ew, Eh.
    destruct (Z.leb_spec 0 r); [|lia]. destruct (Z.ltb_spec r h); [|lia].
    destruct (Z.leb_spec 0 c); [|lia]. destruct (Z.ltb_spec c w); [|lia].
    cbn [andb]. rewrite D.
    destruct (decide _) as [H3|H3]; [|nia].
    assert (E1 : (r * w + c) / w = r)
      by (symmetry; apply (Z.div_unique _ w _ c); lia).
    assert (E2 : (r * w + c) mod w = c)
      by (symmetry; apply (Z.mod_unique _ w r); lia).
    rewrite E1, E2. reflexivity.
Qed.

(** X15.  The loader reads the wire format: when a load has completed
    with positive dimensions from a buffer that holds every word of
    the body (each row starts a new word and takes one word per 16
    cells), the dimensions are those of the header, and the cell in
    row [r], column [c] has its east wall exactly when bit
    [2 * (c mod 16)] of word [r * ceil(w / 16) + c / 16] of the body is
    set, its south wall exactly when the next bit is set, and no other
    bit. *)
Theorem Load_decodes_the_body (engine : Z -> bool) (this : Maze) (buffer : list byte)
    (m : Maze) :
  Load engine this buffer = (m, None) ->
  0 < width m -> 0 < height m ->
  12 + 4 * (height m * ((width m + 15) / 16)) <= byteLength buffer ->
  getInt32 buffer 0 = Some (width m) /\ getInt32 buffer 4 = Some (height m) /\
  forall r c, 0 <= r < height m -> 0 <= c < width m ->
    exists bits,
      getInt32 buffer (12 + 4 * (r * ((width m + 15) / 16) + c / 16)) = Some bits /\
      getCell m (mkPosition r c) = Z.land (Z.shiftr bits (2 * (c mod 16))) 3 /\
      _hasFlag m (mkPosition r c) EAST_BIT = Z.testbit bits (2 * (c mod 16)) /\
      _hasFlag m (mkPosition r c) SOUTH_BIT = Z.testbit bits (2 * (c mod 16) + 1).
Proof.
  intros H Hw Hh Hlen.
  destruct (Load_completed_header engine this buffer m H) as (E0 & E4 & HL & _ & Hsz & He).
  destruct (Load_decodes engine this buffer _ _ E0 E4 HL Hw Hh Hsz He (or_introl Hlen))
    as (m' & E & _ & _ & D).
  rewrite H in E. injection E as <-.
  split; [exact E0|]. split; [exact E4|].
  set (w := width m) in *. set (h := height m) in *. set (W := (w + 15) / 16) in *.
  assert (HW : 0 < W).
  { unfold W. pose proof (Z.div_mod (w + 15) 16 ltac:(lia)).
    pose proof (Z.mod_pos_bound (w + 15) 16 ltac:(lia)). lia. }
  intros r c Hr Hc.
  destruct (getInt32_inside buffer (12 + 4 * (r * W + c / 16))) as (bits & Eb & Rb).
  - assert (0 <= c / 16) by (apply Z.div_pos; lia). nia.
  - assert (c / 16 < W).
    { unfold W. pose proof (Z.div_mod c 16 ltac:(lia)).
      pose proof (Z.mod_pos_bound c 16 ltac:(lia)).
      pose proof (Z.div_mod (w + 15) 16 ltac:(lia)).
      pose proof (Z.mod_pos_bound (w + 15) 16 ltac:(lia)). lia. }
    nia.
  - exists bits. split; [exact Eb|].
    assert (G : getCell m (mkPosition r c) = Z.land (Z.shiftr bits (2 * (c mod 16))) 3).
    { rewrite (D r c Hr Hc). unfold Load_pair.
      replace (12 + 4 * (r * W) + 4 * (c / 16)) with (12 + 4 * (r * W + c / 16)) by lia.
      rewrite Eb. reflexivity. }
    split; [exact G|].
    pose proof (Z.mod_pos_bound c 16 ltac:(lia)) as Bc.
    unfold _hasFlag. rewrite G.
    change 3 with (Z.ones 2). rewrite <- !Z.land_assoc.
    change (Z.land (Z.ones 2) EAST_BIT) with (2 ^ 0).
    change (Z.land (Z.ones 2) SOUTH_BIT) with (2 ^ 1).
    rewrite !land_flag_testbit, !negb_involutive, !Z.shiftr_spec by lia.
    split; f_equal; lia.
Qed.

Lemma Load_decodes_the_body_witness :
  getInt32 (blob 3 3 [27; 51; 63]) 0 = Some (width maze_snake) /\
  getInt32 (blob 3 3 [27; 51; 63]) 4 = Some (height maze_snake) /\
  forall r c, 0 <= r < height maze_snake -> 0 <= c < width maze_snake ->
    exists bits,
      getInt32 (blob 3 3 [27; 51; 63])
               (12 + 4 * (r * ((width maze_snake + 15) / 16) + c / 16)) = Some bits /\
      getCell maze_snake (mkPosition r c) = Z.land (Z.shiftr bits (2 * (c mod 16))) 3 /\
      _hasFlag maze_snake (mkPosition r c) EAST_BIT = Z.testbit bits (2 * (c mod 16)) /\
      _hasFlag maze_snake (mkPosition r c) SOUTH_BIT
      = Z.testbit bits (2 * (c mod 16) + 1).
Proof.
  apply (Load_decodes_the_body roomy Maze_new (blob 3 3 [27; 51; 63]) maze_snake);
    [vm_compute; reflexivity|vm_compute; reflexivity|vm_compute; reflexivity
    |vm_compute; discriminate].
Defined.

(* ================================================================== *)
(** ** What the loader rejects                                        *)
(* ================================================================== *)




(* ================================================================== *)
(** ** Further properties: MT-M1 prunes dead ends only                *)
(* ================================================================== *)

Lemma isPruned_update m m' p f q :
  cell_update m m' p f -> keeps PRUNED_BIT f -> isPruned m' q = isPruned m q.
Proof.
  intros U K. unfold isPruned. rewrite !hasFlag_land, (cu_land _ _ _ _ U _ q K).
  reflexivity.
Qed.

Lemma isPruned_markVisitedTeam m p b q :
  grid_ok m -> in_grid m p = true -> isPruned (markVisitedTeam m p b) q = isPruned m q.
Proof.
  intros Hok Hp. destruct b.
  - apply (isPruned_update m _ p (fun v => Z.lor v VISITED_TB)).
    + apply _setFlag_update; [exact Hok|exact Hp|reflexivity].
    + apply keeps_lor. reflexivity.
  - apply (isPruned_update m _ p (fun v => Z.lor v VISITED_BT)).
    + apply _setFlag_update; [exact Hok|exact Hp|reflexivity].
    + apply keeps_lor. reflexivity.
Qed.

Lemma isPruned_markPath m p q :
  grid_ok m -> in_grid m p = true -> isPruned (markPath m p) q = isPruned m q.
Proof.
  intros Hok Hp. apply (isPruned_update m _ p (fun v => Z.lor v PATH_BIT)).
  - apply markPath_update; assumption.
  - apply keeps_lor. reflexivity.
Qed.

Lemma isPruned_setDirectionRouteBT m p d q :
  grid_ok m -> in_grid m p = true -> isPruned (setDirectionRouteBT m p d) q = isPruned m q.
Proof.
  intros Hok Hp. apply (isPruned_update m _ p (route_word d)).
  - apply setDirectionRouteBT_update; assumption.
  - intros v. unfold route_word. destruct d; bits.
Qed.

Lemma isPruned_markPruned m p q :
  grid_ok m -> in_grid m p = true ->
  isPruned (markPruned m p) q = isPruned m q || bool_decide (p = q).
Proof.
  intros Hok Hp.
  pose proof (_setFlag_update m p PRUNED_BIT Hok Hp ltac:(reflexivity)) as U.
  unfold isPruned, markPruned. rewrite !hasFlag_land, (cu_cell _ _ _ _ U).
  destruct (decide (p = q)) as [->|Hne].
  - rewrite bool_decide_eq_true_2 by reflexivity. rewrite orb_true_r.
    rewrite Z.land_lor_distr_l, Z.land_diag.
    destruct (Z.eqb_spec (Z.lor (Z.land (getCell m q) PRUNED_BIT) PRUNED_BIT) 0) as [E|];
      [|reflexivity].
    apply Z.lor_eq_0_iff in E. destruct E. discriminate.
  - rewrite bool_decide_eq_false_2 by exact Hne. rewrite orb_false_r. reflexivity.
Qed.

Lemma grows_refl m : grows m m.
Proof. split; auto. Qed.

Lemma grows_trans m1 m2 m3 : grows m1 m2 -> grows m2 m3 -> grows m1 m3.
Proof.
  intros [C1 P1] [C2 P2]. split.
  - intros p d. rewrite C2. apply C1.
  - intros p H. apply P2, P1, H.
Qed.

Lemma safe_can_move m0 m m' p d : safe m0 m -> safe m0 m' -> canMove m' p d = canMove m p d.
Proof.
  intros H H'. rewrite (canMove_same_walls m0 m' p d (safe_walls _ _ H')).
  symmetry. apply canMove_same_walls. exact (safe_walls _ _ H).
Qed.

(** Between two safe mazes with the same pruned cells. *)
Lemma same_pruned_grows m0 m m' :
  safe m0 m -> safe m0 m' -> (forall q, isPruned m' q = isPruned m q) -> grows m m'.
Proof.
  intros H H' E. split.
  - intros p d. apply (safe_can_move m0); assumption.
  - intros p Hp. rewrite E. exact Hp.
Qed.

Lemma filter_length_mono {A} (P Q : A -> Prop) `{!forall x, Decision (P x)}
    `{!forall x, Decision (Q x)} (l : list A) :
  (forall x, P x -> Q x) -> (length (filter P l) <= length (filter Q l))%nat.
Proof.
  intros Himp. induction l as [|x l IH]; [reflexivity|].
  rewrite !filter_cons. destruct (decide (P x)) as [HP|HP].
  - destruct (decide (Q x)) as [HQ|HQ]; [cbn; lia|]. destruct HQ. apply Himp, HP.
  - destruct (decide (Q x)); cbn; lia.
Qed.

Lemma dead_grows m m' p : grows m m' -> dead m p -> dead m' p.
Proof.
  intros [C P] H. unfold dead in *.
  etransitivity; [|exact H]. unfold getAvailableMovesNoPruned.
  apply filter_length_mono. intros d Hd. rewrite C in Hd.
  apply andb_true_iff in Hd as [H1 H2]. rewrite H1. cbn [andb].
  destruct (isPruned m (Pos.move p d)) eqn:E; [|reflexivity].
  rewrite (P _ E) in H2. discriminate.
Qed.

Lemma waiting_dead_grows m m' prs qs :
  grows m m' -> waiting_dead m prs qs -> waiting_dead m' prs qs.
Proof.
  intros G [H1 H2]. split.
  - eapply Forall_impl; [exact H1|]. intros pr H. eapply Forall_impl; [exact H|].
    intros p. apply dead_grows. exact G.
  - eapply Forall_impl; [exact H2|]. intros q H. eapply Forall_impl; [exact H|].
    intros p. apply dead_grows. exact G.
Qed.

Lemma clear_routes_same m0 m m' :
  (forall q, isPruned m' q = isPruned m q) -> clear_routes m0 m -> clear_routes m0 m'.
Proof. intros E H l Hr Hn p Hp. rewrite E. exact (H l Hr Hn p Hp). Qed.

(** Two exits that are not pruned: the cell is not dead. *)
Lemma two_moves m p d1 d2 :
  d1 <> d2 ->
  canMove m p d1 = true -> isPruned m (Pos.move p d1) = false ->
  canMove m p d2 = true -> isPruned m (Pos.move p d2) = false ->
  ~ dead m p.
Proof.
  intros Hne C1 P1 C2 P2 H. unfold dead in H.
  assert (I1 : d1 ∈ getAvailableMovesNoPruned m p).
  { unfold getAvailableMovesNoPruned. apply list_elem_of_filter. split.
    - rewrite C1, P1. reflexivity.
    - destruct d1; [set_solver..|discriminate]. }
  assert (I2 : d2 ∈ getAvailableMovesNoPruned m p).
  { unfold getAvailableMovesNoPruned. apply list_elem_of_filter. split.
    - rewrite C2, P2. reflexivity.
    - destruct d2; [set_solver..|discriminate]. }
  destruct (getAvailableMovesNoPruned m p) as [|x [|y l]]; cbn in H; [| |lia].
  - apply elem_of_nil in I1. exact I1.
  - apply list_elem_of_singleton in I1, I2. congruence.
Qed.

Lemma linked_middle m l1 a b l2 : linked m (l1 ++ a :: b :: l2) -> open_edge m a b.
Proof. intros H. apply linked_app_inv in H. apply H. Qed.

(** A cell inside a chain without repetition has two different
    neighbours on it. *)
Lemma route_neighbours m l p :
  route m l -> NoDup l -> p ∈ l -> p <> getStart m -> p <> getEnd m ->
  exists a b, a <> b /\ a ∈ l /\ b ∈ l /\ in_grid m a = true /\
              open_edge m a p /\ open_edge m p b.
Proof.
  intros [Hs He Hg HL] Hn Hp Hps Hpe.
  apply list_elem_of_split in Hp as (l1 & l2 & ->).
  destruct l1 as [|a l1 _] using rev_ind; [cbn in Hs; congruence|].
  destruct l2 as [|b l2].
  { rewrite last_snoc in He. congruence. }
  exists a, b. rewrite <- app_assoc in *. cbn [app] in *.
  split; [|split; [|split; [|split; [|split]]]].
  - intros ->. apply NoDup_app in Hn as (_ & _ & Hn).
    apply NoDup_cons in Hn as [Hn _]. apply Hn. set_solver.
  - set_solver.
  - set_solver.
  - rewrite Forall_app in Hg. destruct Hg as [_ Hg]. apply Forall_cons in Hg. apply Hg.
  - apply (linked_middle m l1 a p (b :: l2) HL).
  - apply (linked_middle m (l1 ++ [a]) p b l2). rewrite <- app_assoc. exact HL.
Qed.

(** Pruning a dead cell other than Start and End leaves every chain
    without repetition clear. *)
Lemma prune_keeps_routes m0 m p :
  safe m0 m -> clear_routes m0 m -> inner m0 p -> dead m p ->
  clear_routes m0 (markPruned m p).
Proof.
  intros H Hc (Hp & Hs & He) Hd l Hr Hn q Hq.
  destruct (safe_dims m0 m H) as (G & _).
  rewrite (isPruned_markPruned m p q (safe_ok _ _ H)) by (rewrite G; exact Hp).
  rewrite (Hc l Hr Hn q Hq). cbn [orb].
  apply bool_decide_eq_false_2. intros <-.
  destruct (route_neighbours m0 l p Hr Hn Hq Hs He)
    as (a & b & Hab & Ha & Hb & Hga & (da & Ca & Ma) & (db & Cb & Mb)).
  apply (two_moves m p (reverseDir da) db); [| | | | |exact Hd].
  - intros E. apply Hab. rewrite <- Mb, <- E, <- Ma. symmetry. apply move_back.
  - rewrite (canMove_same_walls m0 m _ _ (safe_walls _ _ H)), <- Ma.
    apply canMove_back; assumption.
  - rewrite <- Ma, move_back. exact (Hc l Hr Hn a Ha).
  - rewrite (canMove_same_walls m0 m _ _ (safe_walls _ _ H)). exact Cb.
  - rewrite Mb. exact (Hc l Hr Hn b Hb).
Qed.

Lemma scan_loop_dead m n : forall this,
  Forall (dead m) (PruneThread.stack this) ->
  Forall (dead m) (PruneThread.stack (PruneThread.scan_loop n this m)).
Proof.
  induction n as [|n IH]; intros this H; cbn [PruneThread.scan_loop]; [exact H|].
  cbv zeta.
  set (this1 := if width m <=? PruneThread.iter_col this
                then PruneThread.set_iter this (PruneThread.iter_row this + 1) 0
                else this).
  assert (H1 : Forall (dead m) (PruneThread.stack this1))
    by (unfold this1; destruct (_ <=? _); exact H).
  clearbody this1. clear H this.
  destruct (_ <=? _); [exact H1|].
  destruct (_ || _); [apply IH; exact H1|].
  apply IH. cbn [PruneThread.set_iter PruneThread.stack].
  destruct (Z.leb_spec (Z.of_nat (length (getAvailableMovesNoPruned m
             (mkPosition (PruneThread.iter_row this1) (PruneThread.iter_col this1))))) 1)
    as [Hl|Hl]; [|exact H1].
  cbn [PruneThread.set_stack PruneThread.stack].
  apply Forall_app. split; [exact H1|]. apply Forall_singleton. unfold dead. lia.
Qed.

Lemma queue_append_dead m qs i p :
  Forall (Forall (dead m)) qs -> dead m p -> Forall (Forall (dead m)) (queue_append qs i p).
Proof. apply queue_append_ok. Qed.

Lemma prune_one_dead m0 m this qs pos :
  safe m0 m -> clear_routes m0 m -> inner m0 pos -> dead m pos ->
  Forall (dead m) (PruneThread.stack this) -> Forall (Forall (dead m)) qs ->
  let r := PruneThread.prune_one this m qs pos in
  clear_routes m0 (snd (fst r)) /\ grows m (snd (fst r)) /\
  Forall (dead (snd (fst r))) (PruneThread.stack (fst (fst r))) /\
  Forall (Forall (dead (snd (fst r)))) (snd r).
Proof.
  intros H Hc Hin Hd Hst Hq. unfold PruneThread.prune_one.
  destruct (isPruned m pos).
  { cbn [fst snd]. split; [exact Hc|split; [apply grows_refl|split; assumption]]. }
  cbv zeta.
  pose proof (inner_dims m0 m pos H Hin) as Hin'.
  pose proof (safe_markPruned m0 m pos H Hin') as H1.
  pose proof (safe_setThreadOwner m0 _ pos (PruneThread.id this) H1) as H2.
  pose proof (prune_keeps_routes m0 m pos H Hc Hin Hd) as Hc1.
  set (m2 := setThreadOwner (markPruned m pos) pos (PruneThread.id this)) in *.
  assert (E2 : forall q, isPruned m2 q = isPruned (markPruned m pos) q) by reflexivity.
  assert (Hc2 : clear_routes m0 m2) by (apply (clear_routes_same m0 _ _ E2 Hc1)).
  assert (G : grows m m2).
  { split; [intros p d; apply (safe_can_move m0); assumption|].
    intros p Hp. rewrite E2, (isPruned_markPruned m pos p (safe_ok _ _ H)) by apply Hin'.
    rewrite Hp. reflexivity. }
  assert (Hst2 : Forall (dead m2) (PruneThread.stack this))
    by (eapply Forall_impl; [exact Hst|]; intros p; apply dead_grows; exact G).
  assert (Hq2 : Forall (Forall (dead m2)) qs).
  { eapply Forall_impl; [exact Hq|]. intros q Hq'. eapply Forall_impl; [exact Hq'|].
    intros p. apply dead_grows. exact G. }
  assert (Done : forall this' qs',
             Forall (dead m2) (PruneThread.stack this') -> Forall (Forall (dead m2)) qs' ->
             clear_routes m0 (snd (fst (this', m2, qs'))) /\
             grows m (snd (fst (this', m2, qs'))) /\
             Forall (dead (snd (fst (this', m2, qs'))))
                    (PruneThread.stack (fst (fst (this', m2, qs')))) /\
             Forall (Forall (dead (snd (fst (this', m2, qs'))))) (snd (this', m2, qs')))
    by (intros; cbn [fst snd]; auto).
  destruct (getAvailableMovesNoPruned m2 pos) as [|d [|d' moves]];
    [apply Done; assumption| |apply Done; assumption].
  destruct (_ || _); [apply Done; assumption|].
  destruct (Z.leb_spec (Z.of_nat (length (getAvailableMovesNoPruned m2 (Pos.move pos d)))) 1)
    as [Hl|Hl]; [|apply Done; assumption].
  assert (Hn : dead m2 (Pos.move pos d)) by (unfold dead; lia).
  destruct (row (Pos.move pos d) <? PruneThread.row_start this).
  { destruct (fst (PruneThread.out_qs this)); apply Done; try assumption.
    apply queue_append_dead; assumption. }
  destruct (PruneThread.row_end this <=? row (Pos.move pos d)).
  { destruct (snd (PruneThread.out_qs this)); apply Done; try assumption.
    apply queue_append_dead; assumption. }
  apply Done; [|assumption]. cbn [PruneThread.set_stack PruneThread.stack].
  apply Forall_app. split; [exact Hst2|apply Forall_singleton; exact Hn].
Qed.

Lemma PruneThread_step_dead m0 m this qs :
  safe m0 m -> pruner_ok m0 this -> Forall (Forall (inner m0)) qs ->
  clear_routes m0 m ->
  Forall (dead m) (PruneThread.stack this) -> Forall (Forall (dead m)) qs ->
  let r := PruneThread.step this m qs in
  clear_routes m0 (snd (fst r)) /\ grows m (snd (fst r)) /\
  Forall (dead (snd (fst r))) (PruneThread.stack (fst (fst r))) /\
  Forall (Forall (dead (snd (fst r)))) (snd r).
Proof.
  intros H Hp Hqi Hc Hst Hq. unfold PruneThread.step.
  destruct (PruneThread.finished this).
  { cbn [fst snd]. split; [exact Hc|split; [apply grows_refl|split; assumption]]. }
  destruct (PruneThread.phase this).
  - cbn [fst snd]. split; [exact Hc|split; [apply grows_refl|split; [|exact Hq]]].
    apply scan_loop_dead. exact Hst.
  - cbv zeta.
    set (inq := default [] (_ !! _)).
    assert (Hinq : Forall (inner m0) inq /\ Forall (dead m) inq).
    { unfold inq. destruct (_ !! _) as [q|] eqn:E; [|split; constructor].
      rewrite Forall_lookup in Hqi, Hq. split; [exact (Hqi _ _ E)|exact (Hq _ _ E)]. }
    clearbody inq. destruct Hinq as [Hinq Hdq].
    assert (Hq' : Forall (Forall (dead m)) (<[Z.to_nat (PruneThread.in_q this) := []]> qs)).
    { destruct (decide (Z.to_nat (PruneThread.in_q this) < length qs)%nat).
      - apply Forall_insert; [exact Hq|constructor].
      - rewrite list_insert_ge by lia. exact Hq. }
    pose proof Hp as (_ & _ & _ & D).
    assert (Hsi : Forall (inner m0) (PruneThread.stack this ++ inq))
      by (apply Forall_app; auto).
    assert (Hsd : Forall (dead m) (PruneThread.stack this ++ inq))
      by (apply Forall_app; auto).
    cbn [PruneThread.stack PruneThread.set_stack PruneThread.in_q].
    destruct (last (PruneThread.stack this ++ inq)) as [pos|] eqn:El.
    + apply prune_one_dead; try assumption.
      * exact (Forall_last _ _ _ Hsi El).
      * exact (Forall_last _ _ _ Hsd El).
      * cbn. apply Forall_removelast. exact Hsd.
    + cbn [fst snd]. split; [exact Hc|split; [apply grows_refl|split; assumption]].
Qed.

Lemma step_pruners_dead m0 todo : forall done m qs,
  safe m0 m -> Forall (pruner_ok m0) todo -> Forall (Forall (inner m0)) qs ->
  clear_routes m0 m -> waiting_dead m (done ++ todo) qs ->
  let r := MT_M1_Solver.step_pruners todo done m qs in
  clear_routes m0 (snd (fst r)) /\
  waiting_dead (snd (fst r)) (fst (fst r)) (snd r).
Proof.
  induction todo as [|p todo IH]; intros done m qs H Ht Hqi Hc [Hw Hq];
    cbn [MT_M1_Solver.step_pruners].
  { cbn [fst snd]. rewrite app_nil_r in Hw. split; [exact Hc|split; assumption]. }
  apply Forall_cons in Ht as [Hp Ht].
  rewrite Forall_app, Forall_cons in Hw. destruct Hw as (Hd & Hsp & Hst).
  destruct (PruneThread_step_ok m0 m p qs H Hp Hqi) as (S1 & S2 & S3).
  destruct (PruneThread_step_dead m0 m p qs H Hp Hqi Hc Hsp Hq) as (D1 & D2 & D3 & D4).
  destruct (PruneThread.step p m qs) as [[p' m'] qs']. cbn [fst snd] in *.
  apply IH; try assumption. split; [|exact D4].
  rewrite <- app_assoc. cbn [app]. rewrite Forall_app, Forall_cons.
  split; [|split; [exact D3|]].
  - eapply Forall_impl; [exact Hd|]. intros pr Hpr. eapply Forall_impl; [exact Hpr|].
    intros q. apply dead_grows. exact D2.
  - eapply Forall_impl; [exact Hst|]. intros pr Hpr. eapply Forall_impl; [exact Hpr|].
    intros q. apply dead_grows. exact D2.
Qed.

(** The walker and the backward search prune nothing. *)
Lemma WalkThreadTB_step_pruned m0 m w sl fe q :
  safe m0 m -> WalkThreadTB.curr w = walk (getStart m0) sl ->
  path_in_grid m0 (getStart m0) sl ->
  isPruned (snd (fst (fst (WalkThreadTB.step w m sl fe)))) q = isPruned m q.
Proof.
  intros H Hc Hp. unfold WalkThreadTB.step.
  destruct (WalkThreadTB.finished w); [reflexivity|]. cbv zeta.
  destruct (negb _); [reflexivity|].
  destruct (Pos.eq _ _); [reflexivity|].
  set (moves := if negb _ then _ else _).
  assert (Hm : forall d, d ∈ moves -> canMove m (WalkThreadTB.curr w) d = true).
  { intros d Hd. apply moves_can_move. unfold moves in Hd.
    destruct (negb _); [apply remove_first_subset in Hd|]; exact Hd. }
  clearbody moves. destruct moves as [|go_to [|d' moves]]; [reflexivity| |reflexivity].
  cbn [fst snd]. destruct (safe_dims m0 m H) as (G & _).
  apply isPruned_markVisitedTeam; [exact (safe_ok _ _ H)|].
  apply canMove_in_grid.
  - rewrite G, Hc. apply path_in_grid_walk. exact Hp.
  - apply Hm. left.
Qed.

Lemma BFSThreadBT_expand_pruned m0 cur dirs x : forall m q,
  safe m0 m -> in_grid m0 cur = true ->
  isPruned (fst (BFSThreadBT.expand dirs cur m q)) x = isPruned m x.
Proof.
  induction dirs as [|d dirs IH]; intros m q H Hc; cbn [BFSThreadBT.expand];
    [reflexivity|].
  destruct (canMove m cur d) eqn:Hd; [|apply IH; assumption].
  cbv zeta.
  destruct (isPruned m (Pos.move cur d)); [apply IH; assumption|].
  destruct (Direction_eqb _ _); [|apply IH; assumption].
  destruct (safe_dims m0 m H) as (G & _).
  assert (Hn : in_grid m (Pos.move cur d) = true)
    by (apply canMove_in_grid; [rewrite G; exact Hc|exact Hd]).
  assert (H1 : safe m0 (setDirectionRouteBT m (Pos.move cur d) (reverseDir d))).
  { apply safe_setDirectionRouteBT; [exact H|exact Hn|].
    intros _. rewrite move_back, G. exact Hc. }
  destruct (safe_dims m0 _ H1) as (G1 & _).
  rewrite IH.
  - rewrite isPruned_markVisitedTeam; [|exact (safe_ok _ _ H1)|rewrite G1, <- G; exact Hn].
    apply isPruned_setDirectionRouteBT; [exact (safe_ok _ _ H)|exact Hn].
  - apply safe_markVisitedTeam; [exact H1|]. rewrite G1, <- G. exact Hn.
  - exact Hc.
Qed.

Lemma BFSThreadBT_step_loop_pruned m0 n x : forall b m fe,
  safe m0 m -> Forall (fun p => in_grid m0 p = true) (BFSThreadBT.q b) ->
  isPruned (snd (fst (BFSThreadBT.step_loop n b m fe))) x = isPruned m x.
Proof.
  induction n as [|n IH]; intros b m fe H Hq; cbn [BFSThreadBT.step_loop]; [reflexivity|].
  destruct (BFSThreadBT.q b) as [|cur rest] eqn:Eq; [reflexivity|].
  apply Forall_cons in Hq as [Hc Hr]. cbv zeta. cbn [BFSThreadBT.q BFSThreadBT.finished
    BFSThreadBT.found].
  destruct (isPruned m cur); [apply IH; assumption|].
  destruct (Pos.eq cur (getStart m)); [reflexivity|].
  destruct (BFSThreadBT_expand_ok m0 cur [South; West; East; North] m rest H Hc Hr)
    as [E1 E2].
  pose proof (BFSThreadBT_expand_pruned m0 cur [South; West; East; North] x m rest H Hc)
    as E3.
  destruct (BFSThreadBT.expand [South; West; East; North] cur m rest) as [m' q'].
  cbn [fst snd] in *. rewrite IH; assumption.
Qed.

Lemma BFSThreadBT_step_pruned m0 b m fe x :
  safe m0 m -> Forall (fun p => in_grid m0 p = true) (BFSThreadBT.q b) ->
  isPruned (snd (fst (BFSThreadBT.step b m fe))) x = isPruned m x.
Proof.
  intros H Hq. unfold BFSThreadBT.step.
  destruct (_ || _); [reflexivity|]. apply (BFSThreadBT_step_loop_pruned m0); assumption.
Qed.

Lemma markPath_routes m0 m p :
  safe m0 m -> in_grid m0 p = true -> clear_routes m0 m -> clear_routes m0 (markPath m p).
Proof.
  intros H Hp. destruct (safe_dims m0 m H) as (G & _).
  apply clear_routes_same. intros q.
  apply isPruned_markPath; [exact (safe_ok _ _ H)|rewrite G; exact Hp].
Qed.

Lemma last_mark_routes m0 m :
  safe m0 m -> clear_routes m0 m ->
  clear_routes m0 (snd (MT_M1_Solver.last_mark m)).
Proof.
  intros H Hc. cbn [MT_M1_Solver.last_mark snd].
  destruct (safe_dims m0 m H) as (G & S & E & _).
  apply markPath_routes; [exact H| |exact Hc].
  rewrite <- G. apply end_in_grid;
    [exact (go_width _ (safe_ok _ _ H))|exact (go_height _ (safe_ok _ _ H))].
Qed.

Lemma bt_head_routes m0 m curr :
  safe m0 m -> in_grid m0 curr = true -> clear_routes m0 m ->
  m1_prune_ok m0 (snd (fst (MT_M1_Solver.bt_head curr m))) (snd (MT_M1_Solver.bt_head curr m)).
Proof.
  intros H Hp Hc. unfold MT_M1_Solver.bt_head.
  destruct (negb _).
  - cbv zeta. destruct (safe_dims m0 m H) as (G & _).
    pose proof (safe_markPath m0 m curr H ltac:(rewrite G; exact Hp)) as H1.
    pose proof (markPath_routes m0 m curr H Hp Hc) as Hc1.
    destruct (Direction_eqb _ _).
    + split; [apply last_mark_routes; assumption|exact I].
    + split; [exact Hc1|exact I].
  - split; [apply last_mark_routes; assumption|exact I].
Qed.

Lemma tb_head_routes m0 m curr rest :
  safe m0 m -> path_in_grid m0 curr rest -> clear_routes m0 m ->
  m1_prune_ok m0 (snd (fst (MT_M1_Solver.tb_head curr rest m)))
              (snd (MT_M1_Solver.tb_head curr rest m)).
Proof.
  intros H Hp Hc. pose proof (path_in_grid_head _ _ _ Hp) as Hg.
  destruct rest as [|d rest]; cbn [MT_M1_Solver.tb_head].
  - apply bt_head_routes; assumption.
  - split; [|exact I]. cbn [fst snd]. apply markPath_routes; assumption.
Qed.

Lemma loop_head_routes m0 m this :
  safe m0 m -> m1_inv m0 this -> clear_routes m0 m ->
  waiting_dead m (MT_M1_Solver.pruners this) (MT_M1_Solver.queues this) ->
  m1_prune_ok m0 (snd (fst (MT_M1_Solver.loop_head this m)))
              (snd (MT_M1_Solver.loop_head this m)).
Proof.
  intros H [Ip Iq Iw Ipath Ib] Hc Hw. destruct (safe_dims m0 m H) as (G & S & E & _).
  unfold MT_M1_Solver.loop_head.
  destruct (_ && _).
  - destruct (step_pruners_ok m0 (MT_M1_Solver.pruners this) [] m
                (MT_M1_Solver.queues this) H Ip ltac:(constructor) Iq) as (P1 & P2 & P3).
    destruct (step_pruners_dead m0 (MT_M1_Solver.pruners this) [] m
                (MT_M1_Solver.queues this) H Ip Iq Hc Hw) as (Q1 & Q2).
    destruct (MT_M1_Solver.step_pruners _ _ _ _) as [[pruners m1] queues].
    cbn [fst snd] in P1, P2, P3, Q1, Q2.
    destruct (WalkThreadTB_step_ok m0 m1 (MT_M1_Solver.walker this)
                (MT_M1_Solver.solve_list this) (MT_M1_Solver.first_exit this) P1 Iw Ipath)
      as (W1 & W2 & W3).
    pose proof (fun q => WalkThreadTB_step_pruned m0 m1 (MT_M1_Solver.walker this)
                (MT_M1_Solver.solve_list this) (MT_M1_Solver.first_exit this) q P1 Iw Ipath)
      as W4.
    destruct (WalkThreadTB.step _ _ _ _) as [[[walker m2] solve_list] first_exit].
    cbn [fst snd] in W1, W2, W3, W4.
    destruct (BFSThreadBT_step_ok m0 (MT_M1_Solver.bfs this) m2 first_exit W1 Ib)
      as (B1 & B2).
    pose proof (fun q => BFSThreadBT_step_pruned m0 (MT_M1_Solver.bfs this) m2 first_exit
                           q W1 Ib) as B3.
    destruct (BFSThreadBT.step _ _ _) as [[bfs m3] first_exit'].
    cbn [fst snd] in B1, B2, B3.
    assert (E3 : forall q, isPruned m3 q = isPruned m1 q)
      by (intros q; rewrite B3; apply W4).
    pose proof (clear_routes_same m0 m1 m3 E3 Q1) as Hc3.
    destruct (safe_dims m0 m3 B1) as (G3 & S3 & _).
    destruct (_ && _).
    + rewrite S3. apply tb_head_routes; assumption.
    + split; [exact Hc3|]. cbn [fst snd MT_M1_Solver.pruners MT_M1_Solver.queues].
      apply (waiting_dead_grows m1); [|exact Q2].
      apply (same_pruned_grows m0); assumption.
  - rewrite S. apply tb_head_routes; assumption.
Qed.

Lemma MT_M1_next_routes m0 s m :
  m1_state_ok m0 s m -> m1_prune_ok m0 s m ->
  m1_prune_ok m0 (snd (fst (MT_M1_Solver.next s m))) (snd (MT_M1_Solver.next s m)).
Proof.
  intros [H I] [Hc J]. destruct s; cbn [MT_M1_Solver.next].
  - apply loop_head_routes; assumption.
  - apply loop_head_routes; assumption.
  - apply tb_head_routes; [exact H|apply I|exact Hc].
  - apply bt_head_routes; [exact H|apply I|exact Hc].
  - split; [exact Hc|exact J].
  - split; [exact Hc|exact J].
Qed.

Lemma MT_M1_drive_routes m0 n : forall s m,
  m1_state_ok m0 s m -> s <> MT_M1_Solver.AtLast -> s <> MT_M1_Solver.Finished ->
  m1_prune_ok m0 s m ->
  clear_routes m0 (outcome_maze (snd (drive MT_M1_Solver.next n s m))).
Proof.
  induction n as [|n IH]; intros s m Hs H1 H2 Hp; cbn [drive].
  - apply Hp.
  - destruct (MT_M1_next_ok m0 s m Hs H1 H2) as [Hs' Hr].
    pose proof (MT_M1_next_routes m0 s m Hs Hp) as Hp'.
    destruct (MT_M1_Solver.next s m) as [[r s'] m1]. cbn [fst snd] in *.
    destruct Hr as [[-> ->]|(t & -> & Ht & Hs1 & Hs2)].
    + destruct n as [|n]; cbn [drive MT_M1_Solver.next fst snd outcome_maze]; apply Hp'.
    + specialize (IH s' m1 Hs' Hs1 Hs2 Hp').
      destruct (drive MT_M1_Solver.next n s' m1) as [ts o]. exact IH.
Qed.

Lemma fresh_clear_routes m0 : fresh m0 -> clear_routes m0 m0.
Proof.
  intros Hf l _ _ p _. unfold isPruned. apply hasFlag_false.
  rewrite <- (fresh_cell m0 p Hf), <- Z.land_assoc.
  change (Z.land 3 PRUNED_BIT) with 0. apply Z.land_0_r.
Qed.

(** A chain can be cut down to one that visits no cell twice. *)
Lemma chain_simple m b l : forall a,
  head l = Some a -> last l = Some b -> linked m l ->
  exists l', head l' = Some a /\ last l' = Some b /\ linked m l' /\ NoDup l' /\ l' ⊆ l.
Proof.
  induction l as [|x l IH]; intros a Hh Hl HL; [discriminate|].
  injection Hh as ->. destruct l as [|c l].
  - exists [a]. repeat split; [exact Hl| |set_solver].
    apply NoDup_singleton.
  - destruct HL as [Hac HL].
    destruct (IH c eq_refl Hl HL) as (l' & H1 & H2 & H3 & H4 & H5).
    destruct (decide (a ∈ l')) as [Hin|Hin].
    + apply list_elem_of_split in Hin as (l1 & l2 & ->).
      exists (a :: l2). split; [reflexivity|]. split; [|split; [|split]].
      * rewrite last_app in H2. cbn [last] in H2 |- *.
        destruct (last (a :: l2)) eqn:E; [exact H2|].
        apply last_None in E. discriminate.
      * exact (linked_app_inv m l1 (a :: l2) H3).
      * apply NoDup_app in H4. apply H4.
      * intros y Hy. apply elem_of_cons in Hy as [->|Hy]; [left|].
        right. apply H5. set_solver.
    + exists (a :: l'). split; [reflexivity|]. split; [|split; [|split]].
      * destruct l' as [|y l']; [discriminate|]. exact H2.
      * destruct l' as [|y l']; [discriminate|]. injection H1 as ->.
        split; [exact Hac|exact H3].
      * apply NoDup_cons. split; assumption.
      * intros y Hy. apply elem_of_cons in Hy as [->|Hy]; [left|right; apply H5, Hy].
Qed.

Lemma route_simple m l : route m l -> exists l', route m l' /\ NoDup l'.
Proof.
  intros [Hs He Hg HL].
  destruct (chain_simple m (getEnd m) l (getStart m) Hs He HL)
    as (l' & H1 & H2 & H3 & H4 & H5).
  exists l'. split; [|exact H4]. split; try assumption.
  rewrite Forall_forall in Hg |- *. intros p Hp. apply Hg, H5, Hp.
Qed.

Lemma linked_same m m' l :
  (forall p d, canMove m' p d = canMove m p d) -> linked m l -> linked m' l.
Proof.
  intros C. induction l as [|a [|b l] IH]; [auto..|].
  intros [(d & H1 & H2) HL]. split; [|apply IH; exact HL].
  exists d. rewrite C. auto.
Qed.

Lemma route_safe m0 m l : safe m0 m -> route m0 l -> route m l.
Proof.
  intros H [Hs He Hg HL]. destruct (safe_dims m0 m H) as (G & S & E & _).
  split.
  - rewrite S. exact Hs.
  - rewrite E. exact He.
  - eapply Forall_impl; [exact Hg|]. intros p Hp. rewrite G. exact Hp.
  - apply (linked_same m0); [|exact HL].
    intros p d. apply canMove_same_walls. exact (safe_walls _ _ H).
Qed.

(** X16.  MT-M1 prunes dead ends only: on every fresh maze and after
    any number of calls of [next], no cell of a chain from Start to End
    along open edges that visits no cell twice is pruned; so when the
    maze has a solution, a chain from Start to End through cells that
    are not pruned is still there. *)
Theorem MT_M1_prunes_dead_ends_only (m0 : Maze) (n : nat) :
  fresh m0 ->
  let m' := outcome_maze (snd (MT_M1_Solver.solve_step_by_step n m0)) in
  (forall l p, route m0 l -> NoDup l -> p ∈ l -> isPruned m' p = false) /\
  (solvable m0 ->
   exists l, route m' l /\ Forall (fun p => isPruned m' p = false) l).
Proof.
  intros Hf. cbv zeta. rewrite MT_M1_solve_unfold.
  destruct (MT_M1_drive_ok m0 n _ _ (MT_M1_new_ok m0 Hf)) as [Hsafe _]; try discriminate.
  assert (Hc : clear_routes m0
                 (outcome_maze (snd (drive MT_M1_Solver.next n
                    (MT_M1_Solver.Start (fst (MT_M1_Solver.new m0)))
                    (snd (MT_M1_Solver.new m0)))))).
  { refine (MT_M1_drive_routes m0 n _ _ (MT_M1_new_ok m0 Hf) _ _ _); try discriminate.
    pose proof (fresh_safe m0 Hf) as H.
    pose proof (end_in_grid m0 (fresh_width _ Hf) (fresh_height _ Hf)) as He.
    unfold MT_M1_Solver.new, BFSThreadBT.new. cbn [fst snd]. split.
    - apply (clear_routes_same m0 m0); [|apply fresh_clear_routes; exact Hf].
      intros q. apply isPruned_setDirectionRouteBT; [exact (safe_ok _ _ H)|exact He].
    - cbn [MT_M1_Solver.pruners MT_M1_Solver.queues]. split; repeat constructor. }
  split.
  - intros l p Hr Hn Hp. exact (Hc l Hr Hn p Hp).
  - intros [l Hr]. destruct (route_simple m0 l Hr) as (l' & Hr' & Hn).
    exists l'. split; [exact (route_safe m0 _ l' Hsafe Hr')|].
    apply Forall_forall. intros p Hp. exact (Hc l' Hr' Hn p Hp).
Qed.

Lemma MT_M1_prunes_dead_ends_only_witness :
  let m' := outcome_maze (snd (MT_M1_Solver.solve_step_by_step 4 maze_snake)) in
  (forall l p, route maze_snake l -> NoDup l -> p ∈ l -> isPruned m' p = false) /\
  (solvable maze_snake ->
   exists l, route m' l /\ Forall (fun p => isPruned m' p = false) l).
Proof. apply (MT_M1_prunes_dead_ends_only maze_snake 4). fresh_by_computation. Defined.

(* ================================================================== *)
(** ** Further properties: the search phase of MT-M2                  *)
(* ================================================================== *)

Lemma safe_setFlag m0 m p b :
  safe m0 m -> in_grid m p = true -> mutates m (_setFlag m p b) -> known b ->
  Z.land b 3 = 0 -> Z.land b PARENT_MASK = 0 -> Z.land b PRUNED_BIT = 0 ->
  safe m0 (_setFlag m p b).
Proof.
  intros H Hp Hm Kb K3 KP KR.
  apply (safe_update_mark m0 m _ p (fun v => Z.lor v b) H Hp Hm).
  - apply _setFlag_update; [exact (safe_ok _ _ H)|exact Hp|exact Kb].
  - apply keeps_lor. exact K3.
  - apply keeps_lor. exact KP.
  - intros _. apply keeps_lor. exact KR.
Qed.

Lemma safe_setBranchOccupied m0 m p d :
  safe m0 m -> in_grid m p = true -> safe m0 (setBranchOccupied m p d).
Proof.
  intros H Hp. apply safe_setFlag; [exact H|exact Hp| |destruct d; reflexivity..].
  apply mut_setBranchOccupied. exact Hp.
Qed.

Lemma safe_setBranchDeadFromOrigin m0 m p d :
  safe m0 m -> in_grid m p = true -> safe m0 (setBranchDeadFromOrigin m p d).
Proof.
  intros H Hp. apply safe_setFlag; [exact H|exact Hp| |destruct d; reflexivity..].
  apply mut_setBranchDeadFromOrigin. exact Hp.
Qed.

Lemma safe_markDeadJunction m0 m p :
  safe m0 m -> in_grid m p = true -> safe m0 (markDeadJunction m p).
Proof.
  intros H Hp.
  apply (safe_update_mark m0 m _ p _ H Hp (mut_markDeadJunction m p Hp)
           (markDeadJunction_update m p (safe_ok _ _ H) Hp)).
  - intros v. bits.
  - intros v. bits.
  - intros _ v. bits.
Qed.

Lemma safe_unmarkVisitedTeam m0 m p :
  safe m0 m -> in_grid m p = true -> safe m0 (unmarkVisitedTeam m p).
Proof.
  intros H Hp.
  apply (safe_update_mark m0 m _ p _ H Hp (mut_unmarkVisitedTeam m p Hp)
           (unmarkVisitedTeam_update m p (safe_ok _ _ H) Hp)).
  - intros v. bits.
  - intros v. bits.
  - intros _ v. bits.
Qed.

Lemma opens_in_grid m p d : in_grid m p = true -> opens m p d -> in_grid m (Pos.move p d) = true.
Proof.
  intros Hp [-> | Hc]; [exact Hp|]. apply canMove_in_grid; assumption.
Qed.

Lemma opens_safe m0 m p d : safe m0 m -> opens m p d -> opens m0 p d.
Proof.
  intros H [-> | Hc]; [left; reflexivity|right].
  rewrite <- (canMove_same_walls m0 m p d (safe_walls _ _ H)). exact Hc.
Qed.

Lemma slot_opens m p ds i : Forall (opens m p) ds -> opens m p (Branches.slot ds i).
Proof.
  intros H. unfold Branches.slot. destruct (ds !! Z.to_nat i) as [d|] eqn:E; cbn.
  - rewrite Forall_lookup in H. exact (H _ _ E).
  - left. reflexivity.
Qed.

Lemma set_slot_opens m p ds i d :
  Forall (opens m p) ds -> opens m p d -> Forall (opens m p) (Branches.set_slot ds i d).
Proof. intros H Hd. unfold Branches.set_slot. apply Forall_insert; assumption. Qed.

Lemma Branches_new_loop_opens m0 m p dirs : forall idx this,
  safe m0 m -> Forall (opens m0 p) (Branches.directions this) ->
  Forall (opens m0 p) (Branches.directions (Branches.new_loop m p dirs idx this)).
Proof.
  induction dirs as [|d dirs IH]; intros idx this H Hs; cbn [Branches.new_loop]; [exact Hs|].
  apply IH; [exact H|].
  destruct (canMove m p d) eqn:E; cbn [Branches.directions]; apply set_slot_opens;
    try exact Hs; [|left; reflexivity].
  apply (opens_safe m0 m); [exact H|right; exact E].
Qed.

Lemma Branches_new_opens m0 m p tid :
  safe m0 m -> Forall (opens m0 p) (Branches.directions (Branches.new m p tid)).
Proof.
  intros H. apply Branches_new_loop_opens; [exact H|].
  repeat constructor; left; reflexivity.
Qed.

Lemma Branches_remove_loop_opens m p d n : forall i this,
  Forall (opens m p) (Branches.directions this) ->
  Forall (opens m p) (Branches.directions (Branches.remove_loop n i this d)).
Proof.
  induction n as [|n IH]; intros i this H; cbn [Branches.remove_loop]; [exact H|].
  destruct (Direction_eqb _ _); [|apply IH; exact H].
  cbn [Branches.directions]. apply set_slot_opens; [exact H|left; reflexivity].
Qed.

Lemma Branches_getNext_loop_opens m p n : forall this,
  Forall (opens m p) (Branches.directions this) ->
  opens m p (fst (Branches.getNext_loop n this)).
Proof.
  induction n as [|n IH]; intros this H; cbn [Branches.getNext_loop]; [left; reflexivity|].
  cbv zeta. cbn [Branches.directions Branches.index].
  destruct (negb _); [cbn [fst]; apply slot_opens; exact H|].
  apply IH. exact H.
Qed.

Lemma Branches_getNext_opens m p this :
  Forall (opens m p) (Branches.directions this) -> opens m p (fst (Branches.getNext this)).
Proof.
  intros H. unfold Branches.getNext.
  destruct (_ =? _); [left; reflexivity|]. apply Branches_getNext_loop_opens. exact H.
Qed.

Lemma getNextThreads_loop_safe m0 at_ n : forall this fb m,
  safe m0 m -> in_grid m0 at_ = true -> Forall (opens m0 at_) (Branches.directions this) ->
  let r := Branches.getNextThreads_loop n this fb at_ m in
  opens m0 at_ (fst (fst r)) /\
  Forall (opens m0 at_) (Branches.directions (snd (fst r))) /\
  safe m0 (snd r).
Proof.
  induction n as [|n IH]; intros this fb m H Hp Hs; cbn [Branches.getNextThreads_loop].
  - destruct (negb _); cbn [fst snd Branches.directions Branches.index].
    + split; [apply slot_opens; exact Hs|split; assumption].
    + split; [left; reflexivity|split; assumption].
  - cbv zeta. cbn [Branches.directions Branches.index Branches.count].
    destruct (Direction_eqb _ _); [apply IH; assumption|].
    destruct (checkBranchDead _ _ _).
    + destruct (_ =? _).
      * cbn [fst snd Branches.directions]. split; [left; reflexivity|].
        split; [|exact H]. apply set_slot_opens; [exact Hs|left; reflexivity].
      * apply IH; [exact H|exact Hp|]. cbn [Branches.directions].
        apply set_slot_opens; [exact Hs|left; reflexivity].
    + destruct (checkBranchOccupied _ _ _); [apply IH; assumption|].
      cbn [fst snd Branches.directions].
      split; [apply slot_opens; exact Hs|]. split; [exact Hs|].
      destruct (safe_dims m0 m H) as (G & _).
      apply safe_setBranchOccupied; [exact H|rewrite G; exact Hp].
Qed.

Lemma getNextThreads_safe m0 at_ this m :
  safe m0 m -> in_grid m0 at_ = true -> Forall (opens m0 at_) (Branches.directions this) ->
  let r := Branches.getNextThreads this at_ m in
  opens m0 at_ (fst (fst r)) /\
  Forall (opens m0 at_) (Branches.directions (snd (fst r))) /\
  safe m0 (snd r).
Proof.
  intros H Hp Hs. unfold Branches.getNextThreads.
  destruct (_ =? _); [cbn [fst snd]; split; [left; reflexivity|split; assumption]|].
  apply getNextThreads_loop_safe; assumption.
Qed.

Lemma popCurrThreads_safe m0 at_ this m :
  safe m0 m -> in_grid m0 at_ = true -> Forall (opens m0 at_) (Branches.directions this) ->
  let r := Branches.popCurrThreads this at_ m in
  Forall (opens m0 at_) (Branches.directions (snd (fst r))) /\ safe m0 (snd r).
Proof.
  intros H Hp Hs. unfold Branches.popCurrThreads. cbv zeta.
  destruct (negb _); cbn [fst snd Branches.directions]; [|split; assumption].
  split; [apply set_slot_opens; [exact Hs|left; reflexivity]|].
  destruct (safe_dims m0 m H) as (G & _).
  apply safe_setBranchDeadFromOrigin; [exact H|rewrite G; exact Hp].
Qed.

Lemma Forall_set_last {A} (P : A -> Prop) l x :
  Forall P l -> P x -> Forall P (set_last l x).
Proof.
  intros H Hx. unfold set_last. apply Forall_app. split.
  - apply Forall_removelast. exact H.
  - apply Forall_singleton. exact Hx.
Qed.

Lemma last_length_pos {A} (l : list A) :
  (Z.of_nat (length l) =? 0) = false -> exists x, last l = Some x.
Proof.
  destruct l as [|y l _] using rev_ind; [discriminate|].
  intros _. exists y. apply last_snoc.
Qed.

(** State 0. *)
Lemma step_junction_ok m0 m t junc :
  safe m0 m -> walker_ok m0 t -> last (DFSThread.stack t) = Some junc ->
  DFSThread.state t = 0 ->
  let r := DFSThread.step_junction t m junc in
  safe m0 (snd r) /\ fst (fst r) <> None /\
  (fst (fst r) <> Some DFSThread.FOUND_TARGET -> walker_ok m0 (snd (fst r))).
Proof.
  intros H Hw Hl Hst. unfold DFSThread.step_junction.
  pose proof (Forall_last _ _ _ (wk_stack _ _ Hw) Hl) as [Hj Hb].
  destruct (safe_dims m0 m H) as (G & _).
  match goal with |- context [if ?c then (Some DFSThread.FOUND_TARGET, t, m) else _] =>
    destruct c end.
  { cbn [fst snd]. split; [exact H|]. split; [discriminate|]. intros C. contradiction. }
  cbv zeta.
  pose proof (safe_markVisitedTeam m0 m (at_ junc) (DFSThread.is_tb t) H
                ltac:(rewrite G; exact Hj)) as H1.
  pose proof (safe_setThreadOwner m0 _ (at_ junc) (DFSThread.id t) H1) as H2.
  set (m2 := setThreadOwner _ _ _) in *.
  set (e := if 0 <? Branches.size (branches junc) then _ else _).
  assert (He : opens m0 (at_ junc) (fst (fst e)) /\
               Forall (opens m0 (at_ junc)) (Branches.directions (snd (fst e))) /\
               safe m0 (snd e)).
  { unfold e. destruct (_ <? _).
    - apply getNextThreads_safe; assumption.
    - cbn [fst snd]. split; [left; reflexivity|split; assumption]. }
  clearbody e. destruct e as [[d br] m3]. cbn [fst snd] in He.
  destruct He as (Hd & Hbr & H3). cbn [at_ came_from branches isOverlap].
  destruct (safe_dims m0 m3 H3) as (G3 & _).
  assert (Hj' : junction_ok m0 (mkJunction (at_ junc) (came_from junc) br (isOverlap junc)))
    by (split; assumption).
  destruct (Direction_eqb d Uninitialized) eqn:Ed.
  - set (m4 := if isJunction m3 (at_ junc) then _ else _).
    assert (H4 : safe m0 m4).
    { unfold m4. destruct (isJunction _ _);
        [apply safe_markDeadJunction|apply safe_unmarkVisitedTeam];
        try exact H3; rewrite G3; exact Hj. }
    clearbody m4.
    assert (Hrl : removelast (set_last (DFSThread.stack t)
                    (mkJunction (at_ junc) (came_from junc) br (isOverlap junc)))
                  = removelast (DFSThread.stack t)).
    { unfold set_last. apply removelast_last. }
    rewrite Hrl.
    pose proof (Forall_removelast _ _ (wk_stack _ _ Hw)) as Hrs.
    destruct (last (removelast (DFSThread.stack t))) as [parent|] eqn:Ep.
    + pose proof (Forall_last _ _ _ Hrs Ep) as [Hpj Hpb].
      destruct (popCurrThreads_safe m0 (at_ parent) (branches parent) m4 H4 Hpj Hpb)
        as [P1 P2].
      destruct (Branches.popCurrThreads (branches parent) (at_ parent) m4) as [[d' pbr] m5].
      cbn [fst snd] in *. split; [exact P2|]. split; [discriminate|]. intros _.
      split; cbn [DFSThread.stack DFSThread.target_pos DFSThread.state
                  DFSThread.corridor_dir DFSThread.backtrack_target at_].
      * apply Forall_set_last; [exact Hrs|]. split; assumption.
      * intros p [= <-]. exact Hj.
      * discriminate.
      * intros _. split; discriminate.
    + cbn [fst snd]. split; [exact H4|]. split; [discriminate|]. intros _.
      split; cbn [DFSThread.stack DFSThread.target_pos DFSThread.state
                  DFSThread.corridor_dir DFSThread.backtrack_target].
      * exact Hrs.
      * exact (wk_target _ _ Hw).
      * rewrite Hst. discriminate.
      * rewrite Hst. discriminate.
  - cbn [fst snd]. split; [exact H3|]. split; [discriminate|]. intros _.
    split; cbn [DFSThread.stack DFSThread.target_pos DFSThread.state
                DFSThread.corridor_dir DFSThread.backtrack_target].
    + apply Forall_set_last; [exact (wk_stack _ _ Hw)|exact Hj'].
    + intros p [= <-]. exact Hj.
    + intros _. exists (at_ junc). split; [reflexivity|exact Hd].
    + discriminate.
Qed.

(** State 1. *)
Lemma step_corridor_ok m0 m t target :
  safe m0 m -> walker_ok m0 t -> DFSThread.target_pos t = Some target ->
  DFSThread.state t = 1 ->
  let r := DFSThread.step_corridor t m target in
  safe m0 (snd r) /\ fst (fst r) <> None /\
  (fst (fst r) <> Some DFSThread.FOUND_TARGET -> walker_ok m0 (snd (fst r))).
Proof.
  intros H Hw Ht Hst. unfold DFSThread.step_corridor. cbv zeta.
  destruct (wk_corridor _ _ Hw Hst) as (p & Ep & Hop).
  rewrite Ht in Ep. injection Ep as <-.
  pose proof (wk_target _ _ Hw _ Ht) as Hg.
  pose proof (opens_in_grid m0 target _ Hg Hop) as Hn.
  set (next_p := Pos.move target (DFSThread.corridor_dir t)) in *.
  destruct (safe_dims m0 m H) as (G & _).
  match goal with |- context [if ?c then (Some DFSThread.FOUND_TARGET, _, m) else _] =>
    destruct c end.
  { cbn [fst snd]. split; [exact H|]. split; [discriminate|]. intros C. contradiction. }
  pose proof (safe_markVisitedTeam m0 m next_p (DFSThread.is_tb t) H
                ltac:(rewrite G; exact Hn)) as H1.
  pose proof (safe_setThreadOwner m0 _ next_p (DFSThread.id t) H1) as H2.
  set (m2 := setThreadOwner _ _ _) in *.
  destruct (safe_dims m0 m2 H2) as (G2 & _).
  assert (H3 : safe m0 (setDirectionRouteBT m2 next_p
                          (reverseDir (DFSThread.corridor_dir t)))).
  { apply safe_setDirectionRouteBT; [exact H2|rewrite G2; exact Hn|].
    intros _. unfold next_p. rewrite move_back, G2. exact Hg. }
  set (m3 := setDirectionRouteBT _ _ _) in *.
  set (br := Branches.remove _ _).
  assert (Hbr : Forall (opens m0 next_p) (Branches.directions br)).
  { unfold br, Branches.remove. apply Branches_remove_loop_opens.
    apply Branches_new_opens. exact H3. }
  clearbody br.
  destruct (negb _); cbn [fst snd]; (split; [exact H3|]); (split; [discriminate|]);
    intros _; split;
    cbn [DFSThread.stack DFSThread.target_pos DFSThread.state
         DFSThread.corridor_dir DFSThread.backtrack_target].
  - apply Forall_app. split; [exact (wk_stack _ _ Hw)|].
    apply Forall_singleton. split; assumption.
  - intros p [= <-]. exact Hn.
  - discriminate.
  - discriminate.
  - exact (wk_stack _ _ Hw).
  - intros p [= <-]. exact Hn.
  - intros _. exists next_p. split; [reflexivity|].
    apply Branches_getNext_opens. exact Hbr.
  - rewrite Hst. discriminate.
Qed.

(** State 2. *)
Lemma step_backtrack_ok m0 m t target :
  safe m0 m -> walker_ok m0 t -> DFSThread.target_pos t = Some target ->
  DFSThread.state t = 2 ->
  let r := DFSThread.step_backtrack t m target in
  safe m0 (snd r) /\ fst (fst r) <> None /\
  (fst (fst r) <> Some DFSThread.FOUND_TARGET -> walker_ok m0 (snd (fst r))).
Proof.
  intros H Hw Ht Hst. unfold DFSThread.step_backtrack. cbv zeta.
  pose proof (wk_target _ _ Hw _ Ht) as Hg.
  destruct (safe_dims m0 m H) as (G & _).
  set (m1 := if negb (isJunction m target) then _ else _).
  assert (H1 : safe m0 m1).
  { unfold m1. destruct (negb _); [|exact H].
    apply safe_unmarkVisitedTeam; [exact H|rewrite G; exact Hg]. }
  clearbody m1. destruct (safe_dims m0 m1 H1) as (G1 & _).
  destruct (wk_backtrack _ _ Hw Hst) as [_ Hb].
  destruct (DFSThread.backtrack_target t) as [goal|] eqn:Eg; [|contradiction].
  destruct (Pos.eq target goal).
  { cbn [fst snd]. split; [exact H1|]. split; [discriminate|]. intros _.
    split; cbn [DFSThread.stack DFSThread.target_pos DFSThread.state
                DFSThread.corridor_dir DFSThread.backtrack_target].
    - exact (wk_stack _ _ Hw).
    - exact (wk_target _ _ Hw).
    - discriminate.
    - discriminate. }
  destruct (Direction_eqb _ _) eqn:Ed.
  { cbn [fst snd]. split; [exact H1|]. split; [discriminate|]. intros _.
    split; cbn [DFSThread.stack DFSThread.target_pos DFSThread.state
                DFSThread.corridor_dir DFSThread.backtrack_target].
    - exact (wk_stack _ _ Hw).
    - exact (wk_target _ _ Hw).
    - discriminate.
    - discriminate. }
  cbn [fst snd]. split; [exact H1|]. split; [discriminate|]. intros _.
  split; cbn [DFSThread.stack DFSThread.target_pos DFSThread.state
              DFSThread.corridor_dir DFSThread.backtrack_target].
  - exact (wk_stack _ _ Hw).
  - intros p [= <-]. rewrite <- G1.
    apply (safe_pointers _ _ H1); [rewrite G1; exact Hg|].
    unfold Direction_eqb in Ed. apply bool_decide_eq_false in Ed. exact Ed.
  - rewrite Hst. discriminate.
  - intros _. split; discriminate.
Qed.

(** A step of a walker stays in the grid and never calls a method on
    null; but for FOUND_TARGET the walker is ready for its next
    step. *)
Lemma DFSThread_step_ok m0 m t :
  safe m0 m -> walker_ok m0 t ->
  let r := DFSThread.step t m in
  safe m0 (snd r) /\ fst (fst r) <> None /\
  (fst (fst r) <> Some DFSThread.FOUND_TARGET -> walker_ok m0 (snd (fst r))).
Proof.
  intros H Hw. unfold DFSThread.step.
  assert (Same : forall r, safe m0 (snd (Some r, t, m)) /\
                           fst (fst (Some r, t, m)) <> None /\
                           (fst (fst (Some r, t, m)) <> Some DFSThread.FOUND_TARGET ->
                            walker_ok m0 (snd (fst (Some r, t, m)))))
    by (intros r; cbn [fst snd]; split; [exact H|split; [discriminate|intros _; exact Hw]]).
  destruct (DFSThread.finished t); [apply Same|]. cbn [orb].
  destruct (Z.of_nat (length (DFSThread.stack t)) =? 0) eqn:El; [apply Same|].
  destruct (Z.eqb_spec (DFSThread.state t) 0) as [E0|N0].
  { destruct (last_length_pos _ El) as [junc Ej]. rewrite Ej.
    apply step_junction_ok; assumption. }
  destruct (Z.eqb_spec (DFSThread.state t) 1) as [E1|N1].
  { destruct (wk_corridor _ _ Hw E1) as (p & Ep & _). rewrite Ep.
    apply step_corridor_ok; assumption. }
  destruct (Z.eqb_spec (DFSThread.state t) 2) as [E2|N2]; [|apply Same].
  destruct (wk_backtrack _ _ Hw E2) as [Hp _].
  destruct (DFSThread.target_pos t) as [p|] eqn:Ep; [|contradiction].
  apply step_backtrack_ok; assumption.
Qed.

Lemma walker_ok_set_finished m0 t b :
  walker_ok m0 t -> walker_ok m0 (DFSThread.set_finished t b).
Proof. intros [A B C D]. split; assumption. Qed.

Lemma DFSThread_new_ok m0 m tid is_tb p :
  safe m0 m -> in_grid m0 p = true -> walker_ok m0 (DFSThread.new tid is_tb p m).
Proof.
  intros H Hp. unfold DFSThread.new. cbv zeta. split;
    cbn [DFSThread.stack DFSThread.target_pos DFSThread.state
         DFSThread.corridor_dir DFSThread.backtrack_target].
  - apply Forall_singleton. split; [exact Hp|]. cbn [at_ branches].
    apply Branches_new_opens. exact H.
  - discriminate.
  - discriminate.
  - discriminate.
Qed.

(** One round of the walkers. *)
Lemma round_ok m0 todo : forall done m found cp act,
  safe m0 m -> Forall (walker_ok m0) todo -> Forall (walker_ok m0) done ->
  exists threads' m' found' cp' act',
    MTSolver.round todo done m found cp act = Some (threads', m', found', cp', act') /\
    safe m0 m' /\ (found' = false -> Forall (walker_ok m0) threads').
Proof.
  induction todo as [|t todo IH]; intros done m found cp act H Ht Hd;
    cbn [MTSolver.round].
  - exists done, m, found, cp, act. auto.
  - apply Forall_cons in Ht as [Hw Ht].
    destruct (DFSThread.finished t).
    { apply IH; [exact H|exact Ht|]. apply Forall_app. split; [exact Hd|].
      apply Forall_singleton. exact Hw. }
    destruct (DFSThread_step_ok m0 m t H Hw) as (S1 & S2 & S3).
    destruct (DFSThread.step t m) as [[[r|] t'] m']; cbn [fst snd] in *; [|contradiction].
    destruct r.
    + apply IH; [exact S1|exact Ht|]. apply Forall_app. split; [exact Hd|].
      apply Forall_singleton. apply walker_ok_set_finished. apply S3. discriminate.
    + eexists _, _, _, _, _. split; [reflexivity|]. split; [exact S1|discriminate].
    + apply IH; [exact S1|exact Ht|]. apply Forall_app. split; [exact Hd|].
      apply Forall_singleton. apply S3. discriminate.
Qed.

Lemma MT_M2_loop_head_ok fuel m0 threads found cp m :
  safe m0 m -> (found = false -> Forall (walker_ok m0) threads) ->
  m2_step_ok m0 (MTSolver.loop_head fuel threads found cp m).
Proof.
  intros H Hw. unfold MTSolver.loop_head. destruct found; cbn [negb].
  - destruct cp as [c|]; [|exact I]. cbv zeta.
    destruct (MTSolver.collect_tb _ _ _ _ _) as [path|]; [|exact I].
    assert (E : (path ++ [getStart m]) !! Z.to_nat (Z.of_nat (length (path ++ [getStart m])) - 1)
                = Some (getStart m)).
    { rewrite length_app. cbn [length].
      replace (Z.to_nat (Z.of_nat (length path + 1) - 1)) with (length path + 0)%nat by lia.
      rewrite lookup_app_r by lia. replace (length path + 0 - length path)%nat with 0%nat by lia.
      reflexivity. }
    rewrite E. exact I.
  - destruct (round_ok m0 threads [] m false cp 0 H (Hw eq_refl) ltac:(constructor))
      as (threads' & m' & found' & cp' & act' & E & H' & Hw').
    rewrite E. unfold m2_step_ok. cbn [fst snd]. split; [exact I|]. split; assumption.
Qed.

Lemma MT_M2_next_ok fuel m0 s m :
  m2_searching s -> m2_state_ok m0 s m -> m2_step_ok m0 (MTSolver.next fuel s m).
Proof.
  intros Hs [H Hw]. destruct s; try contradiction; cbn [MTSolver.next].
  - cbv zeta.
    pose proof (safe_ok _ _ H) as Hok.
    destruct (safe_dims m0 m H) as (G & S & E & _).
    pose proof (start_in_grid m (go_width _ Hok) (go_height _ Hok)) as Hst.
    pose proof (end_in_grid m (go_width _ Hok) (go_height _ Hok)) as Hen.
    pose proof (safe_markVisitedTeam m0 m _ true H Hst) as H1.
    pose proof (safe_setThreadOwner m0 _ (getStart m) 0 H1) as H2.
    destruct (safe_dims m0 _ H2) as (G2 & _).
    pose proof (safe_markVisitedTeam m0 _ (getEnd m) false H2
                  ltac:(rewrite G2, <- G; exact Hen)) as H3.
    pose proof (safe_setThreadOwner m0 _ (getEnd m) 3 H3) as H4.
    apply MT_M2_loop_head_ok; [exact H4|]. intros _.
    rewrite G in Hst, Hen.
    cbn [map app].
    repeat (apply Forall_cons_2; [apply DFSThread_new_ok; assumption|]).
    apply Forall_nil_2.
  - destruct (_ && _); [exact I|]. apply MT_M2_loop_head_ok; assumption.
Qed.

Lemma MT_M2_drive_ok fuel m0 n : forall s m,
  m2_searching s -> m2_state_ok m0 s m ->
  Forall (fun t => t = SEARCHING) (fst (drive (MTSolver.next fuel) n s m)) ->
  exists s' m', snd (drive (MTSolver.next fuel) n s m) = Suspended s' m' /\ safe m0 m'.
Proof.
  induction n as [|n IH]; intros s m Hs Hok; cbn [drive].
  - intros _. exists s, m. split; [reflexivity|apply Hok].
  - pose proof (MT_M2_next_ok fuel m0 s m Hs Hok) as Hn. unfold m2_step_ok in Hn.
    destruct (MTSolver.next fuel s m) as [[[t| |e|] s1] m1]; cbn [fst snd] in Hn;
      try contradiction.
    + specialize (IH s1 m1).
      destruct (drive (MTSolver.next fuel) n s1 m1) as [ts o]. cbn [fst snd] in *.
      intros HF. apply Forall_cons in HF as [-> HF].
      destruct Hn as [Hs1 Hok1]. exact (IH Hs1 Hok1 HF).
    + intros _. exists s, m. split; [reflexivity|apply Hok].
Qed.

(** X17.  The search phase of MT-M2 stays in the grid.  On every fresh
    maze, as long as every token given so far is SEARCHING, no call has
    thrown (no walker has called a method on a position that is still
    null) and the maze is the loaded one with marks on cells of the
    grid: no wall or dimension has changed, and [Reset] gives the
    loaded maze back. *)
Theorem MT_M2_search_stays_in_the_grid (m0 : Maze) (n : nat) :
  fresh m0 ->
  let r := MTSolver.solve_step_by_step n m0 in
  Forall (fun t => t = SEARCHING) (fst r) ->
  exists s m',
    snd r = Suspended s m' /\
    marks m0 m' /\ grid_ok m' /\ same_walls m0 m' /\
    (thread_ownership m0 = ∅ -> Reset m' = m0).
Proof.
  intros Hf. cbv zeta. unfold MTSolver.solve_step_by_step. intros HF.
  destruct (MT_M2_drive_ok n m0 n MTSolver.Start m0 I
              (conj (fresh_safe m0 Hf) I) HF) as (s & m' & E & H).
  exists s, m'. split; [exact E|].
  split; [exact (safe_marks _ _ H)|]. split; [exact (safe_ok _ _ H)|].
  split; [exact (safe_walls _ _ H)|].
  intros Ho. exact (Reset_restores m0 m' Hf Ho (safe_ok _ _ H) (safe_walls _ _ H)).
Qed.

Lemma MT_M2_search_stays_in_the_grid_witness :
  exists s m',
    snd (MTSolver.solve_step_by_step 6 maze_ring) = Suspended s m' /\
    marks maze_ring m' /\ grid_ok m' /\ same_walls maze_ring m' /\
    (thread_ownership maze_ring = ∅ -> Reset m' = maze_ring).
Proof.
  apply (MT_M2_search_stays_in_the_grid maze_ring 6).
  - fresh_by_computation.
  - vm_compute. repeat constructor.
Defined.

(* ================================================================== *)
(** ** Further properties: MT-M2 finds only what is there             *)
(* ================================================================== *)

Lemma reach_in_grid m a b : reach m a b -> in_grid m a = true /\ in_grid m b = true.
Proof.
  induction 1 as [Ha|b d _ [Ha Hb] Hc]; [auto|].
  split; [exact Ha|]. apply canMove_in_grid; assumption.
Qed.

Lemma reach_trans m a b c : reach m a b -> reach m b c -> reach m a c.
Proof.
  intros Hab Hbc. induction Hbc as [_|c d _ IH Hc]; [exact Hab|].
  apply reach_step; assumption.
Qed.

Lemma reach_sym m a b : reach m a b -> reach m b a.
Proof.
  induction 1 as [Ha|b d Hab IH Hc]; [apply reach_here; exact Ha|].
  destruct (reach_in_grid m a b Hab) as [_ Hb].
  refine (reach_trans m _ b a _ IH).
  rewrite <- (move_back b d) at 2.
  apply reach_step; [|apply canMove_back; assumption].
  apply reach_here. apply canMove_in_grid; assumption.
Qed.

Lemma reach_chain m a b :
  reach m a b ->
  exists l, head l = Some a /\ last l = Some b /\
            Forall (fun p => in_grid m p = true) l /\ linked m l.
Proof.
  induction 1 as [Ha|b d Hab (l & H1 & H2 & H3 & H4) Hc].
  - exists [a]. split; [reflexivity|]. split; [reflexivity|]. split; [|exact I].
    apply Forall_singleton. exact Ha.
  - destruct (reach_in_grid m a b Hab) as [_ Hb].
    destruct l as [|x l _] using rev_ind; [discriminate|].
    rewrite last_snoc in H2. injection H2 as ->.
    exists ((l ++ [b]) ++ [Pos.move b d]). split; [|split; [|split]].
    + destruct l; exact H1.
    + apply last_snoc.
    + apply Forall_app. split; [exact H3|]. apply Forall_singleton.
      apply canMove_in_grid; assumption.
    + rewrite <- app_assoc. cbn [app]. apply linked_snoc. split; [exact H4|].
      exists d. auto.
Qed.

(** A cell reached from both ends: the maze has a solution. *)
Lemma meet_solvable m c :
  reach m (getStart m) c -> reach m (getEnd m) c -> solvable m.
Proof.
  intros Hs He.
  destruct (reach_chain m _ _ (reach_trans m _ c _ Hs (reach_sym m _ _ He)))
    as (l & H1 & H2 & H3 & H4).
  exists l. split; assumption.
Qed.

Lemma conn_same_cells m0 m m' :
  (forall q, getCell m' q = getCell m q) -> conn_ok m0 m -> conn_ok m0 m'.
Proof.
  intros E [T P]. split.
  - intros c b. unfold isVisitedByTeam, _hasFlag. rewrite E. apply T.
  - intros c. unfold getDirectionRouteBT. rewrite E. apply P.
Qed.

Lemma isVisitedByTeam_land m c b :
  isVisitedByTeam m c b
  = negb (Z.land (getCell m c) (if b then VISITED_TB else VISITED_BT) =? 0).
Proof. destruct b; reflexivity. Qed.

(** Rewriting the word of one cell: a team mark that appears is on a
    cell its team reaches, a parent direction that appears is an open
    edge. *)
Lemma conn_update m0 m m' p f :
  cell_update m m' p f -> conn_ok m0 m ->
  (forall b : bool, Z.land (f (getCell m p)) (if b then VISITED_TB else VISITED_BT) <> 0 ->
             isVisitedByTeam m p b = true \/ reach m0 (team_origin m0 b) p) ->
  (in_grid m0 p = true -> dir_of (f (getCell m p)) <> Uninitialized ->
   dir_of (f (getCell m p)) = dir_of (getCell m p) \/
   canMove m0 p (dir_of (f (getCell m p))) = true) ->
  conn_ok m0 m'.
Proof.
  intros U [T P] HT HP. split.
  - intros c b. rewrite isVisitedByTeam_land, (cu_cell _ _ _ _ U).
    destruct (decide (p = c)) as [<-|Hne].
    + intros Hc. apply negb_true_iff, Z.eqb_neq in Hc.
      destruct (HT b Hc) as [Ho|Hr]; [apply T; exact Ho|exact Hr].
    + rewrite <- isVisitedByTeam_land. apply T.
  - intros c Hc. rewrite getDirectionRouteBT_dir_of, (cu_cell _ _ _ _ U).
    destruct (decide (p = c)) as [<-|Hne].
    + intros Hd. destruct (HP Hc Hd) as [E|Ho]; [|exact Ho].
      rewrite E in Hd |- *. apply P; assumption.
    + apply P. exact Hc.
Qed.

Lemma conn_keep m0 m m' p f :
  cell_update m m' p f -> conn_ok m0 m ->
  keeps VISITED_TB f -> keeps VISITED_BT f -> keeps PARENT_MASK f ->
  conn_ok m0 m'.
Proof.
  intros U C K1 K2 K3. apply (conn_update m0 m m' p f U C).
  - intros b Hb. left. rewrite isVisitedByTeam_land. apply negb_true_iff, Z.eqb_neq.
    destruct b; [rewrite <- K1|rewrite <- K2]; exact Hb.
  - intros _ _. left. apply keeps_dir_of. exact K3.
Qed.

(** A rewrite that only clears team marks. *)
Lemma conn_clear m0 m m' p f :
  cell_update m m' p f -> conn_ok m0 m ->
  (forall v, Z.land (f v) VISITED_TB = 0) -> (forall v, Z.land (f v) VISITED_BT = 0) ->
  keeps PARENT_MASK f ->
  conn_ok m0 m'.
Proof.
  intros U C K1 K2 K3. apply (conn_update m0 m m' p f U C).
  - intros b Hb. exfalso. apply Hb. destruct b; [apply K1|apply K2].
  - intros _ _. left. apply keeps_dir_of. exact K3.
Qed.

Lemma conn_markVisitedTeam m0 m p b :
  safe m0 m -> conn_ok m0 m -> reach m0 (team_origin m0 b) p ->
  conn_ok m0 (markVisitedTeam m p b).
Proof.
  intros H C Hr. destruct (safe_dims m0 m H) as (G & _).
  pose proof (reach_in_grid _ _ _ Hr) as [_ Hp]. rewrite <- G in Hp.
  assert (U : cell_update m (markVisitedTeam m p b) p
                (fun v => Z.lor v (if b then VISITED_TB else VISITED_BT))).
  { destruct b; apply _setFlag_update; try reflexivity; try assumption;
      exact (safe_ok _ _ H). }
  apply (conn_update m0 m _ p _ U C).
  - intros b' Hb'. destruct b, b'; try (right; exact Hr); left;
      rewrite isVisitedByTeam_land; apply negb_true_iff, Z.eqb_neq;
      intros E; apply Hb'; rewrite Z.land_lor_distr_l, E; reflexivity.
  - intros _ _. left.
    apply (keeps_dir_of (fun v => Z.lor v (if b then VISITED_TB else VISITED_BT))).
    destruct b; apply keeps_lor; reflexivity.
Qed.

Lemma conn_setThreadOwner m0 m p t : conn_ok m0 m -> conn_ok m0 (setThreadOwner m p t).
Proof. apply conn_same_cells. reflexivity. Qed.

Lemma conn_setFlag m0 m p b :
  safe m0 m -> in_grid m0 p = true -> conn_ok m0 m -> known b ->
  Z.land b VISITED_TB = 0 -> Z.land b VISITED_BT = 0 -> Z.land b PARENT_MASK = 0 ->
  conn_ok m0 (_setFlag m p b).
Proof.
  intros H Hp C Kb K1 K2 K3. destruct (safe_dims m0 m H) as (G & _).
  apply (conn_keep m0 m _ p (fun v => Z.lor v b)); try (apply keeps_lor; assumption);
    [|exact C].
  apply _setFlag_update; [exact (safe_ok _ _ H)|rewrite G; exact Hp|exact Kb].
Qed.

Lemma conn_setBranchOccupied m0 m p d :
  safe m0 m -> in_grid m0 p = true -> conn_ok m0 m -> conn_ok m0 (setBranchOccupied m p d).
Proof. intros H Hp C. apply conn_setFlag; try assumption; destruct d; reflexivity. Qed.

Lemma conn_setBranchDeadFromOrigin m0 m p d :
  safe m0 m -> in_grid m0 p = true -> conn_ok m0 m ->
  conn_ok m0 (setBranchDeadFromOrigin m p d).
Proof. intros H Hp C. apply conn_setFlag; try assumption; destruct d; reflexivity. Qed.

Lemma conn_markDeadJunction m0 m p :
  safe m0 m -> in_grid m0 p = true -> conn_ok m0 m -> conn_ok m0 (markDeadJunction m p).
Proof.
  intros H Hp C. destruct (safe_dims m0 m H) as (G & _).
  apply (conn_clear m0 m _ p _
           (markDeadJunction_update m p (safe_ok _ _ H) ltac:(rewrite G; exact Hp)) C).
  - intros v. bits.
  - intros v. bits.
  - intros v. bits.
Qed.

Lemma conn_unmarkVisitedTeam m0 m p :
  safe m0 m -> in_grid m0 p = true -> conn_ok m0 m -> conn_ok m0 (unmarkVisitedTeam m p).
Proof.
  intros H Hp C. destruct (safe_dims m0 m H) as (G & _).
  apply (conn_clear m0 m _ p _
           (unmarkVisitedTeam_update m p (safe_ok _ _ H) ltac:(rewrite G; exact Hp)) C).
  - intros v. bits.
  - intros v. bits.
  - intros v. bits.
Qed.

Lemma conn_setDirectionRouteBT m0 m p d :
  safe m0 m -> in_grid m0 p = true -> conn_ok m0 m ->
  (d <> Uninitialized -> canMove m0 p d = true) ->
  conn_ok m0 (setDirectionRouteBT m p d).
Proof.
  intros H Hp C Hd. destruct (safe_dims m0 m H) as (G & _).
  apply (conn_update m0 m _ p (route_word d)
           (setDirectionRouteBT_update m p d (safe_ok _ _ H) ltac:(rewrite G; exact Hp)) C).
  - intros b Hb. left. rewrite isVisitedByTeam_land. apply negb_true_iff, Z.eqb_neq.
    intros E. apply Hb. rewrite <- E. unfold route_word. destruct b, d; bits.
  - intros _. rewrite dir_of_route_word_any. intros Hne. right. apply Hd. exact Hne.
Qed.

Lemma getNextThreads_loop_maze at_ n : forall this fb m,
  snd (Branches.getNextThreads_loop n this fb at_ m) = m \/
  exists d, snd (Branches.getNextThreads_loop n this fb at_ m) = setBranchOccupied m at_ d.
Proof.
  induction n as [|n IH]; intros this fb m; cbn [Branches.getNextThreads_loop].
  - destruct (negb _); left; reflexivity.
  - cbv zeta. destruct (Direction_eqb _ _); [apply IH|].
    destruct (checkBranchDead _ _ _).
    + destruct (_ =? _); [left; reflexivity|apply IH].
    + destruct (checkBranchOccupied _ _ _); [apply IH|]. right. eexists. reflexivity.
Qed.

Lemma getNextThreads_conn m0 at_ this m :
  safe m0 m -> in_grid m0 at_ = true -> conn_ok m0 m ->
  conn_ok m0 (snd (Branches.getNextThreads this at_ m)).
Proof.
  intros H Hp C. unfold Branches.getNextThreads.
  destruct (_ =? _); [exact C|].
  destruct (getNextThreads_loop_maze at_ 4 this (-1) m) as [-> | [d ->]]; [exact C|].
  apply conn_setBranchOccupied; assumption.
Qed.

Lemma popCurrThreads_conn m0 at_ this m :
  safe m0 m -> in_grid m0 at_ = true -> conn_ok m0 m ->
  conn_ok m0 (snd (Branches.popCurrThreads this at_ m)).
Proof.
  intros H Hp C. unfold Branches.popCurrThreads. cbv zeta.
  destruct (negb _); cbn [snd]; [|exact C].
  apply conn_setBranchDeadFromOrigin; assumption.
Qed.

(** Two walkers of different teams on one cell, or a walker from Start
    on End: the maze has a solution. *)
Lemma collision_solvable m0 m c (is_tb : bool) :
  safe m0 m -> conn_ok m0 m -> reach m0 (team_origin m0 is_tb) c ->
  (if is_tb
   then if Pos.eq c (getEnd m) then true else isVisitedByTeam m c false
   else isVisitedByTeam m c true) = true ->
  solvable m0.
Proof.
  intros H [T _] Hr Hc. destruct (safe_dims m0 m H) as (_ & _ & E & _).
  apply (meet_solvable m0 c); destruct is_tb; cbn [team_origin] in *.
  - exact Hr.
  - exact (T c true Hc).
  - destruct (Pos.eq c (getEnd m)) eqn:Ee.
    + apply Pos_eq_spec in Ee. rewrite E in Ee. subst c.
      apply reach_here. apply (reach_in_grid _ _ _ Hr).
    + exact (T c false Hc).
  - exact Hr.
Qed.

Lemma step_junction_conn m0 m t junc :
  safe m0 m -> walker_ok m0 t -> conn_ok m0 m -> walker_conn m0 t ->
  last (DFSThread.stack t) = Some junc ->
  let r := DFSThread.step_junction t m junc in
  (fst (fst r) = Some DFSThread.FOUND_TARGET -> solvable m0) /\
  (fst (fst r) <> Some DFSThread.FOUND_TARGET ->
   conn_ok m0 (snd r) /\ walker_conn m0 (snd (fst r))).
Proof.
  intros H Hw C Hc Hl. unfold DFSThread.step_junction.
  pose proof (Forall_last _ _ _ (wk_stack _ _ Hw) Hl) as [Hj Hb].
  pose proof (Forall_last _ _ _ (wc_stack _ _ Hc) Hl) as Hr. cbn beta in Hr.
  destruct (safe_dims m0 m H) as (G & _).
  match goal with |- context [if ?c then (Some DFSThread.FOUND_TARGET, t, m) else _] =>
    destruct c eqn:Ecol end.
  { cbn [fst snd]. split; [|intros N; contradiction]. intros _.
    exact (collision_solvable m0 m (at_ junc) (DFSThread.is_tb t) H C Hr Ecol). }
  cbv zeta.
  pose proof (safe_markVisitedTeam m0 m (at_ junc) (DFSThread.is_tb t) H
                ltac:(rewrite G; exact Hj)) as H1.
  pose proof (conn_markVisitedTeam m0 m (at_ junc) (DFSThread.is_tb t) H C Hr) as C1.
  pose proof (safe_setThreadOwner m0 _ (at_ junc) (DFSThread.id t) H1) as H2.
  pose proof (conn_setThreadOwner m0 _ (at_ junc) (DFSThread.id t) C1) as C2.
  set (m2 := setThreadOwner _ _ _) in *.
  set (e := if 0 <? Branches.size (branches junc) then _ else _).
  assert (He : safe m0 (snd e) /\ conn_ok m0 (snd e)).
  { unfold e. destruct (_ <? _).
    - split; [apply getNextThreads_safe; assumption|apply getNextThreads_conn; assumption].
    - cbn [snd]. split; assumption. }
  clearbody e. destruct e as [[d br] m3]. cbn [fst snd] in He.
  destruct He as (H3 & C3). cbn [at_ came_from branches isOverlap].
  destruct (Direction_eqb d Uninitialized) eqn:Ed.
  - set (m4 := if isJunction m3 (at_ junc) then _ else _).
    assert (H4 : safe m0 m4 /\ conn_ok m0 m4).
    { destruct (safe_dims m0 m3 H3) as (G3 & _).
      unfold m4. destruct (isJunction _ _).
      - split; [apply safe_markDeadJunction; [exact H3|rewrite G3; exact Hj]
               |apply conn_markDeadJunction; assumption].
      - split; [apply safe_unmarkVisitedTeam; [exact H3|rewrite G3; exact Hj]
               |apply conn_unmarkVisitedTeam; assumption]. }
    clearbody m4. destruct H4 as [H4 C4].
    assert (Hrl : removelast (set_last (DFSThread.stack t)
                    (mkJunction (at_ junc) (came_from junc) br (isOverlap junc)))
                  = removelast (DFSThread.stack t)).
    { unfold set_last. apply removelast_last. }
    rewrite Hrl.
    pose proof (Forall_removelast _ _ (wk_stack _ _ Hw)) as Hrs.
    pose proof (Forall_removelast _ _ (wc_stack _ _ Hc)) as Hrc.
    destruct (last (removelast (DFSThread.stack t))) as [parent|] eqn:Ep.
    + pose proof (Forall_last _ _ _ Hrs Ep) as [Hpj Hpb].
      pose proof (Forall_last _ _ _ Hrc Ep) as Hpr. cbn beta in Hpr.
      pose proof (popCurrThreads_conn m0 (at_ parent) (branches parent) m4 H4 Hpj C4) as P3.
      destruct (Branches.popCurrThreads (branches parent) (at_ parent) m4) as [[d' pbr] m5].
      cbn [fst snd] in *. split; [discriminate|]. intros _. split; [exact P3|].
      split; cbn [DFSThread.stack DFSThread.target_pos DFSThread.is_tb at_].
      * apply Forall_set_last; [exact Hrc|exact Hpr].
      * intros p [= <-]. exact Hr.
    + cbn [fst snd]. split; [discriminate|]. intros _. split; [exact C4|].
      split; cbn [DFSThread.stack DFSThread.target_pos DFSThread.is_tb].
      * exact Hrc.
      * exact (wc_target _ _ Hc).
  - cbn [fst snd]. split; [discriminate|]. intros _. split; [exact C3|].
    split; cbn [DFSThread.stack DFSThread.target_pos DFSThread.is_tb].
    + apply Forall_set_last; [exact (wc_stack _ _ Hc)|exact Hr].
    + intros p [= <-]. exact Hr.
Qed.

Lemma step_corridor_conn m0 m t target :
  safe m0 m -> walker_ok m0 t -> conn_ok m0 m -> walker_conn m0 t ->
  DFSThread.target_pos t = Some target -> DFSThread.state t = 1 ->
  let r := DFSThread.step_corridor t m target in
  (fst (fst r) = Some DFSThread.FOUND_TARGET -> solvable m0) /\
  (fst (fst r) <> Some DFSThread.FOUND_TARGET ->
   conn_ok m0 (snd r) /\ walker_conn m0 (snd (fst r))).
Proof.
  intros H Hw C Hc Ht Hst. unfold DFSThread.step_corridor. cbv zeta.
  destruct (wk_corridor _ _ Hw Hst) as (p & Ep & Hop).
  rewrite Ht in Ep. injection Ep as <-.
  pose proof (wk_target _ _ Hw _ Ht) as Hg.
  pose proof (opens_in_grid m0 target _ Hg Hop) as Hn.
  pose proof (wc_target _ _ Hc _ Ht) as Hrt.
  assert (Hr : reach m0 (team_origin m0 (DFSThread.is_tb t))
                 (Pos.move target (DFSThread.corridor_dir t))).
  { destruct Hop as [E|Hop]; [rewrite E; exact Hrt|]. apply reach_step; assumption. }
  set (next_p := Pos.move target (DFSThread.corridor_dir t)) in *.
  destruct (safe_dims m0 m H) as (G & _).
  match goal with |- context [if ?c then (Some DFSThread.FOUND_TARGET, _, m) else _] =>
    destruct c eqn:Ecol end.
  { cbn [fst snd]. split; [|intros N; contradiction]. intros _.
    apply (collision_solvable m0 m next_p (DFSThread.is_tb t) H C Hr).
    destruct (DFSThread.is_tb t); exact Ecol. }
  pose proof (safe_markVisitedTeam m0 m next_p (DFSThread.is_tb t) H
                ltac:(rewrite G; exact Hn)) as H1.
  pose proof (conn_markVisitedTeam m0 m next_p (DFSThread.is_tb t) H C Hr) as C1.
  pose proof (safe_setThreadOwner m0 _ next_p (DFSThread.id t) H1) as H2.
  pose proof (conn_setThreadOwner m0 _ next_p (DFSThread.id t) C1) as C2.
  set (m2 := setThreadOwner _ _ _) in *.
  assert (C3 : conn_ok m0 (setDirectionRouteBT m2 next_p
                             (reverseDir (DFSThread.corridor_dir t)))).
  { apply conn_setDirectionRouteBT; [exact H2|exact Hn|exact C2|].
    intros Hne. destruct Hop as [E|Hop]; [rewrite E in Hne; contradiction|].
    apply canMove_back; assumption. }
  set (m3 := setDirectionRouteBT _ _ _) in *.
  destruct (negb _); cbn [fst snd]; (split; [discriminate|]); intros _;
    (split; [exact C3|]); split;
    cbn [DFSThread.stack DFSThread.target_pos DFSThread.is_tb at_].
  - apply Forall_app. split; [exact (wc_stack _ _ Hc)|].
    apply Forall_singleton. exact Hr.
  - intros p [= <-]. exact Hr.
  - exact (wc_stack _ _ Hc).
  - intros p [= <-]. exact Hr.
Qed.

Lemma step_backtrack_conn m0 m t target :
  safe m0 m -> walker_ok m0 t -> conn_ok m0 m -> walker_conn m0 t ->
  DFSThread.target_pos t = Some target ->
  let r := DFSThread.step_backtrack t m target in
  (fst (fst r) = Some DFSThread.FOUND_TARGET -> solvable m0) /\
  (fst (fst r) <> Some DFSThread.FOUND_TARGET ->
   conn_ok m0 (snd r) /\ walker_conn m0 (snd (fst r))).
Proof.
  intros H Hw C Hc Ht. unfold DFSThread.step_backtrack. cbv zeta.
  pose proof (wk_target _ _ Hw _ Ht) as Hg.
  pose proof (wc_target _ _ Hc _ Ht) as Hrt.
  set (m1 := if negb (isJunction m target) then _ else _).
  assert (C1 : conn_ok m0 m1).
  { unfold m1. destruct (negb _); [|exact C]. apply conn_unmarkVisitedTeam; assumption. }
  clearbody m1.
  assert (Keep : forall st, conn_ok m0 m1 /\
            walker_conn m0 (DFSThread.mk (DFSThread.id t) (DFSThread.is_tb t)
              (DFSThread.stack t) (DFSThread.finished t) st (DFSThread.target_pos t)
              (DFSThread.corridor_dir t) (DFSThread.backtrack_target t))).
  { intros st. split; [exact C1|]. destruct Hc as [A B]. split; assumption. }
  destruct (DFSThread.backtrack_target t) as [goal|] eqn:Eg.
  2:{ cbn [fst snd]. split; [discriminate|]. intros _. split; [exact C1|exact Hc]. }
  destruct (Pos.eq target goal).
  { cbn [fst snd]. split; [discriminate|]. intros _. apply Keep. }
  destruct (Direction_eqb _ _) eqn:Ed.
  { cbn [fst snd]. split; [discriminate|]. intros _. apply Keep. }
  cbn [fst snd]. split; [discriminate|]. intros _. split; [exact C1|].
  split; cbn [DFSThread.stack DFSThread.target_pos DFSThread.is_tb].
  - exact (wc_stack _ _ Hc).
  - intros p [= <-]. apply reach_step; [exact Hrt|].
    apply (proj2 C1); [exact Hg|].
    unfold Direction_eqb in Ed. apply bool_decide_eq_false in Ed. exact Ed.
Qed.

Lemma DFSThread_step_conn m0 m t :
  safe m0 m -> walker_ok m0 t -> conn_ok m0 m -> walker_conn m0 t ->
  let r := DFSThread.step t m in
  (fst (fst r) = Some DFSThread.FOUND_TARGET -> solvable m0) /\
  (fst (fst r) <> Some DFSThread.FOUND_TARGET ->
   conn_ok m0 (snd r) /\ walker_conn m0 (snd (fst r))).
Proof.
  intros H Hw C Hc. unfold DFSThread.step.
  assert (Same : forall r, r <> Some DFSThread.FOUND_TARGET ->
            (fst (fst (r, t, m)) = Some DFSThread.FOUND_TARGET -> solvable m0) /\
            (fst (fst (r, t, m)) <> Some DFSThread.FOUND_TARGET ->
             conn_ok m0 (snd (r, t, m)) /\ walker_conn m0 (snd (fst (r, t, m)))))
    by (intros r Hr; cbn [fst snd]; split; [intros E; contradiction|intros _; auto]).
  destruct (DFSThread.finished t); [apply Same; discriminate|]. cbn [orb].
  destruct (Z.of_nat (length (DFSThread.stack t)) =? 0) eqn:El;
    [apply Same; discriminate|].
  destruct (Z.eqb_spec (DFSThread.state t) 0) as [E0|N0].
  { destruct (last_length_pos _ El) as [junc Ej]. rewrite Ej.
    apply step_junction_conn; assumption. }
  destruct (Z.eqb_spec (DFSThread.state t) 1) as [E1|N1].
  { destruct (DFSThread.target_pos t) as [p|] eqn:Ep; [|apply Same; discriminate].
    apply step_corridor_conn; assumption. }
  destruct (Z.eqb_spec (DFSThread.state t) 2) as [E2|N2]; [|apply Same; discriminate].
  destruct (DFSThread.target_pos t) as [p|] eqn:Ep; [|apply Same; discriminate].
  apply step_backtrack_conn; assumption.
Qed.

Lemma walker_conn_set_finished m0 t b :
  walker_conn m0 t -> walker_conn m0 (DFSThread.set_finished t b).
Proof. intros [A B]. split; assumption. Qed.

Lemma round_conn m0 todo : forall done m found cp act r,
  safe m0 m -> conn_ok m0 m ->
  Forall (walker_ok m0) todo -> Forall (walker_conn m0) todo ->
  Forall (walker_conn m0) done -> found = false ->
  MTSolver.round todo done m found cp act = Some r ->
  let '(threads', m', found', _, _) := r in
  (found' = true -> solvable m0) /\
  (found' = false -> conn_ok m0 m' /\ Forall (walker_conn m0) threads').
Proof.
  induction todo as [|t todo IH]; intros done m found cp act r H C Ht Hc Hd Hf;
    cbn [MTSolver.round].
  - intros [= <-]. split; [congruence|auto].
  - apply Forall_cons in Ht as [Hw Ht]. apply Forall_cons in Hc as [Hwc Hc].
    destruct (DFSThread.finished t).
    { apply IH; try assumption. apply Forall_app. split; [exact Hd|].
      apply Forall_singleton. exact Hwc. }
    destruct (DFSThread_step_ok m0 m t H Hw) as (S1 & S2 & S3).
    destruct (DFSThread_step_conn m0 m t H Hw C Hwc) as (D1 & D2).
    destruct (DFSThread.step t m) as [[[res|] t'] m']; cbn [fst snd] in *; [|discriminate].
    destruct res.
    + destruct D2 as [D2 D3]; [discriminate|].
      apply IH; try assumption. apply Forall_app. split; [exact Hd|].
      apply Forall_singleton. apply walker_conn_set_finished. exact D3.
    + intros [= <-]. split; [intros _; apply D1; reflexivity|discriminate].
    + destruct D2 as [D2 D3]; [discriminate|].
      apply IH; try assumption. apply Forall_app. split; [exact Hd|].
      apply Forall_singleton. exact D3.
Qed.

Lemma fresh_conn_ok m0 : fresh m0 -> conn_ok m0 m0.
Proof.
  intros Hf. split.
  - intros c b. rewrite isVisitedByTeam_land, <- (fresh_cell m0 c Hf), <- Z.land_assoc.
    destruct b; cbn; rewrite Z.land_0_r; discriminate.
  - intros c _ Hd. exfalso. apply Hd.
    rewrite getDirectionRouteBT_dir_of, <- (fresh_cell m0 c Hf), <- dir_of_mask.
    rewrite <- Z.land_assoc. change (Z.land 3 PARENT_MASK) with 0.
    rewrite Z.land_0_r. reflexivity.
Qed.

Lemma DFSThread_new_conn m0 m tid (is_tb : bool) :
  in_grid m0 (team_origin m0 is_tb) = true ->
  walker_conn m0 (DFSThread.new tid is_tb (team_origin m0 is_tb) m).
Proof.
  intros Hp. unfold DFSThread.new. cbv zeta. split;
    cbn [DFSThread.stack DFSThread.target_pos DFSThread.is_tb].
  - apply Forall_singleton. cbn [at_]. apply reach_here. exact Hp.
  - discriminate.
Qed.

(** A round in which no two walkers meet, or a maze with a
    solution. *)
Lemma MT_M2_loop_head_apart fuel m0 threads cp m :
  safe m0 m -> conn_ok m0 m ->
  Forall (walker_ok m0) threads -> Forall (walker_conn m0) threads ->
  let r := MTSolver.loop_head fuel threads false cp m in
  solvable m0 \/
  (fst (fst r) = Yield SEARCHING /\ m2_apart m0 (snd (fst r)) (snd r)).
Proof.
  intros H C Hw Hc. unfold MTSolver.loop_head. cbn [negb].
  destruct (round_ok m0 threads [] m false cp 0 H Hw ltac:(constructor))
    as (threads' & m' & found' & cp' & act' & E & H' & Hw').
  pose proof (round_conn m0 threads [] m false cp 0 _ H C Hw Hc ltac:(constructor)
                eq_refl E) as [D1 D2].
  rewrite E. cbn [fst snd]. destruct found'.
  - left. apply D1. reflexivity.
  - right. split; [reflexivity|]. destruct (D2 eq_refl) as [C' Hc'].
    split; [exact I|]. split; [split; assumption|]. split; [exact C'|].
    split; [reflexivity|exact Hc'].
Qed.

Lemma MT_M2_next_apart fuel m0 s m :
  m2_apart m0 s m ->
  let r := MTSolver.next fuel s m in
  solvable m0 \/
  (fst (fst r) = Yield SEARCHING /\ m2_apart m0 (snd (fst r)) (snd r)) \/
  (fst (fst r) = Yield NO_SOLUTION /\ snd (fst r) = MTSolver.AtLast).
Proof.
  intros (Hs & [H Hw] & C & Hc). destruct s; try contradiction; cbn [MTSolver.next].
  - cbv zeta.
    pose proof (safe_ok _ _ H) as Hok.
    destruct (safe_dims m0 m H) as (G & S & E & _).
    pose proof (start_in_grid m (go_width _ Hok) (go_height _ Hok)) as Hst.
    pose proof (end_in_grid m (go_width _ Hok) (go_height _ Hok)) as Hen.
    rewrite G in Hst, Hen. rewrite S in Hst. rewrite E in Hen. rewrite S, E.
    pose proof (safe_markVisitedTeam m0 m (getStart m0) true H
                  ltac:(rewrite G; exact Hst)) as H1.
    pose proof (conn_markVisitedTeam m0 m (getStart m0) true H C
                  (reach_here m0 _ Hst)) as C1.
    pose proof (safe_setThreadOwner m0 _ (getStart m0) 0 H1) as H2.
    pose proof (conn_setThreadOwner m0 _ (getStart m0) 0 C1) as C2.
    destruct (safe_dims m0 _ H2) as (G2 & _).
    pose proof (safe_markVisitedTeam m0 _ (getEnd m0) false H2
                  ltac:(rewrite G2; exact Hen)) as H3.
    pose proof (conn_markVisitedTeam m0 _ (getEnd m0) false H2 C2
                  (reach_here m0 (getEnd m0) Hen)) as C3.
    pose proof (safe_setThreadOwner m0 _ (getEnd m0) 3 H3) as H4.
    pose proof (conn_setThreadOwner m0 _ (getEnd m0) 3 C3) as C4.
    destruct (MT_M2_loop_head_apart fuel m0
                (map (fun i => DFSThread.new i true (getStart m0) m) [0; 1; 2] ++
                 map (fun i => DFSThread.new (i + 3) false (getEnd m0) m) [0; 1; 2])
                None _ H4 C4) as [Sv|R]; [| |left; exact Sv|right; left; exact R].
    + cbn [map app].
      repeat (apply Forall_cons_2; [apply DFSThread_new_ok; assumption|]).
      apply Forall_nil_2.
    + cbn [map app].
      repeat (apply Forall_cons_2;
              [first [exact (DFSThread_new_conn m0 m _ true Hst)
                     |exact (DFSThread_new_conn m0 m _ false Hen)]|]).
      apply Forall_nil_2.
  - destruct Hc as [-> Hc]. destruct (_ && _); [right; right; split; reflexivity|].
    destruct (MT_M2_loop_head_apart fuel m0 threads collision_pos m H C (Hw eq_refl) Hc)
      as [Sv|R]; [left; exact Sv|right; left; exact R].
Qed.

Lemma MT_M2_drive_apart fuel m0 n : forall s m,
  solvable m0 \/ s = MTSolver.AtLast \/ s = MTSolver.Finished \/ m2_apart m0 s m ->
  forall t, t ∈ fst (drive (MTSolver.next fuel) n s m) ->
            t = SEARCHING \/ t = NO_SOLUTION \/ solvable m0.
Proof.
  induction n as [|n IH]; intros s m Hs t; cbn [drive].
  - intros Ht. apply elem_of_nil in Ht. contradiction.
  - destruct Hs as [Sv| [-> | [-> |Ha]]].
    + auto.
    + cbn. intros Ht. apply elem_of_nil in Ht. contradiction.
    + cbn. intros Ht. apply elem_of_nil in Ht. contradiction.
    + destruct (MT_M2_next_apart fuel m0 s m Ha) as [Sv| [[E Ha']|[E Es]]]; [auto| |];
        destruct (MTSolver.next fuel s m) as [[res s1] m1]; cbn [fst snd] in *; subst res.
      * specialize (IH s1 m1 (or_intror (or_intror (or_intror Ha'))) t).
        destruct (drive (MTSolver.next fuel) n s1 m1) as [ts o]. cbn [fst] in *.
        intros Ht. apply elem_of_cons in Ht as [-> |Ht]; [auto|apply IH, Ht].
      * specialize (IH s1 m1 (or_intror (or_introl Es)) t).
        destruct (drive (MTSolver.next fuel) n s1 m1) as [ts o]. cbn [fst] in *.
        intros Ht. apply elem_of_cons in Ht as [-> |Ht]; [auto|apply IH, Ht].
Qed.

(** X18.  MT-M2 finds only what is there: on a fresh maze, when a
    BACKTRACKING or a FINISHED token is given, the maze has a chain of
    open edges from Start to End.  In a maze without one, the solver
    only ever says SEARCHING and NO_SOLUTION. *)
Theorem MT_M2_finds_only_what_is_there (m0 : Maze) (n : nat) (t : Token) :
  fresh m0 ->
  t ∈ fst (MTSolver.solve_step_by_step n m0) ->
  t = BACKTRACKING \/ t = FINISHED ->
  solvable m0.
Proof.
  intros Hf Ht Hb. unfold MTSolver.solve_step_by_step in Ht.
  destruct (MT_M2_drive_apart n m0 n MTSolver.Start m0) with (t := t)
    as [-> | [-> |Sv]]; [| exact Ht| | |exact Sv].
  - right. right. right. split; [exact I|]. split; [split; [apply fresh_safe; exact Hf|exact I]|].
    split; [apply fresh_conn_ok; exact Hf|exact I].
  - destruct Hb; discriminate.
  - destruct Hb; discriminate.
Qed.

Lemma MT_M2_finds_only_what_is_there_witness : solvable maze_open3.
Proof.
  apply (MT_M2_finds_only_what_is_there maze_open3 12 BACKTRACKING).
  - fresh_by_computation.
  - vm_compute. repeat constructor.
  - left. reflexivity.
Defined.

(* ================================================================== *)
(** ** Further properties: MT-M2 on a maze of one row                 *)
(* ================================================================== *)

(** A walker from Start whose first junction is End reports that it
    has found its target, before it has a target position. *)
Lemma first_step_on_End t m junc :
  DFSThread.finished t = false -> DFSThread.stack t = [junc] ->
  DFSThread.state t = 0 -> DFSThread.is_tb t = true ->
  at_ junc = getEnd m ->
  DFSThread.step t m = (Some DFSThread.FOUND_TARGET, t, m).
Proof.
  intros Hf Hs Hst Htb Hat. unfold DFSThread.step, DFSThread.step_junction.
  rewrite Hf, Hs, Hst. cbn [orb length last Z.of_nat Z.eqb Pos.of_succ_nat].
  rewrite Htb, Hat.
  assert (E : Pos.eq (getEnd m) (getEnd m) = true) by (apply Pos_eq_spec; reflexivity).
  rewrite E. reflexivity.
Qed.

Lemma round_first_found t todo m cp :
  DFSThread.finished t = false ->
  DFSThread.step t m = (Some DFSThread.FOUND_TARGET, t, m) ->
  MTSolver.round (t :: todo) [] m false cp 0
  = Some (t :: todo, m, true,
          (if 0 <? Z.of_nat (length (DFSThread.stack t))
           then DFSThread.target_pos t else cp), 0).
Proof. intros Hf Hs. cbn [MTSolver.round]. rewrite Hf, Hs. reflexivity. Qed.

Lemma on_path_keep m m' p f q :
  cell_update m m' p f -> keeps PATH_BIT f -> on_path m' q = on_path m q.
Proof.
  intros U K. unfold on_path. rewrite !hasFlag_land, (cu_land _ _ _ _ U _ q K).
  reflexivity.
Qed.

Lemma on_path_markVisitedTeam m p b q :
  grid_ok m -> in_grid m p = true -> on_path (markVisitedTeam m p b) q = on_path m q.
Proof.
  intros Hok Hp. destruct b.
  - apply (on_path_keep m _ p (fun v => Z.lor v VISITED_TB)).
    + apply _setFlag_update; [exact Hok|exact Hp|reflexivity].
    + apply keeps_lor. reflexivity.
  - apply (on_path_keep m _ p (fun v => Z.lor v VISITED_BT)).
    + apply _setFlag_update; [exact Hok|exact Hp|reflexivity].
    + apply keeps_lor. reflexivity.
Qed.

(** X19.  In a maze of one row Start is End, and MT-M2 gives up on it:
    the first walker meets End at its first junction, before any
    walker has a target position, so the solver has [found] set and no
    collision cell; it says SEARCHING once, then NO_SOLUTION, and marks
    no cell ON_PATH, although the one-cell chain [Start] is a
    solution. *)
Theorem MT_M2_gives_up_on_one_row (m0 : Maze) :
  fresh m0 -> height m0 = 1 ->
  solvable m0 /\
  exists m',
    MTSolver.solve_step_by_step 3 m0 = ([SEARCHING; NO_SOLUTION], Completed m') /\
    forall p, on_path m' p = false.
Proof.
  intros Hf Hh.
  assert (Ese : getEnd m0 = getStart m0) by (unfold getEnd, getStart; rewrite Hh; reflexivity).
  pose proof (start_in_grid m0 (fresh_width _ Hf) (fresh_height _ Hf)) as Hst.
  split.
  - exists [getStart m0]. split; [reflexivity|cbn; rewrite Ese; reflexivity| |exact I].
    apply Forall_singleton. exact Hst.
  - set (m1 := setThreadOwner
                 (markVisitedTeam
                    (setThreadOwner (markVisitedTeam m0 (getStart m0) true) (getStart m0) 0)
                    (getEnd m0) false) (getEnd m0) 3).
    exists m1. split.
    + unfold MTSolver.solve_step_by_step.
      cbn [drive]. unfold MTSolver.next at 1. cbv zeta. fold m1.
      cbn [map app]. unfold MTSolver.loop_head at 1. cbn [negb].
      rewrite round_first_found; [|reflexivity|].
      * cbn. reflexivity.
      * eapply first_step_on_End; try reflexivity.
        cbn [at_]. change (getEnd m1) with (getEnd m0). symmetry. exact Ese.
    + intros p. pose proof (fresh_safe m0 Hf) as H.
      pose proof (safe_markVisitedTeam m0 m0 (getStart m0) true H Hst) as H1.
      pose proof (safe_setThreadOwner m0 _ (getStart m0) 0 H1) as H2.
      destruct (safe_dims m0 _ H2) as (G2 & _).
      unfold m1.
      change (on_path (setThreadOwner ?m ?q ?t) p) with (on_path m p).
      rewrite on_path_markVisitedTeam;
        [|exact (safe_ok _ _ H2)|rewrite G2, Ese; exact Hst].
      change (on_path (setThreadOwner ?m ?q ?t) p) with (on_path m p).
      rewrite on_path_markVisitedTeam; [|exact (safe_ok _ _ H)|exact Hst].
      unfold on_path. rewrite hasFlag_land, <- (fresh_cell m0 p Hf), <- Z.land_assoc.
      change (Z.land 3 PATH_BIT) with 0. rewrite Z.land_0_r. reflexivity.
Qed.

Lemma MT_M2_gives_up_on_one_row_witness :
  solvable (load_blob 3 1 [0]) /\
  exists m',
    MTSolver.solve_step_by_step 3 (load_blob 3 1 [0])
    = ([SEARCHING; NO_SOLUTION], Completed m') /\
    forall p, on_path m' p = false.
Proof.
  apply (MT_M2_gives_up_on_one_row (load_blob 3 1 [0])).
  - fresh_by_computation.
  - vm_compute. reflexivity.
Defined.

(* ================================================================== *)
(** ** Further properties: MT-M1 on a maze of one row                 *)
(* ================================================================== *)

(** Scanning pruners leave the maze and the queues alone. *)
Lemma step_pruners_scanning todo : forall done m qs,
  Forall (fun p => PruneThread.finished p = false /\ PruneThread.phase p = SCAN) todo ->
  exists done', MT_M1_Solver.step_pruners todo done m qs = (done', m, qs).
Proof.
  induction todo as [|p todo IH]; intros done m qs H; cbn [MT_M1_Solver.step_pruners].
  - exists done. reflexivity.
  - apply Forall_cons in H as [[Hf Hp] H]. unfold PruneThread.step. rewrite Hf, Hp.
    apply IH. exact H.
Qed.

Lemma getDirectionRouteBT_set m p d :
  grid_ok m -> in_grid m p = true ->
  getDirectionRouteBT (setDirectionRouteBT m p d) p = d.
Proof.
  intros Hok Hp. pose proof (setDirectionRouteBT_update m p d Hok Hp) as U.
  rewrite getDirectionRouteBT_dir_of, (cu_cell _ _ _ _ U).
  destruct (decide (p = p)); [|contradiction]. apply dir_of_route_word_any.
Qed.

(** X20.  In a maze of one row, where Start is End, MT-M1 says
    SEARCHING once and then FINISHED, and leaves exactly that cell
    ON_PATH. *)
Theorem MT_M1_solves_one_row (m0 : Maze) :
  fresh m0 -> height m0 = 1 ->
  exists m',
    MT_M1_Solver.solve_step_by_step 3 m0 = ([SEARCHING; FINISHED], Completed m') /\
    forall p, on_path m' p = bool_decide (p = getStart m0).
Proof.
  intros Hf Hh.
  assert (Ese : getEnd m0 = getStart m0) by (unfold getEnd, getStart; rewrite Hh; reflexivity).
  pose proof (fresh_grid_ok m0 Hf) as Hok.
  pose proof (start_in_grid m0 (fresh_width _ Hf) (fresh_height _ Hf)) as Hst.
  set (m1 := setDirectionRouteBT m0 (getEnd m0) Uninitialized).
  assert (Hok1 : grid_ok m1).
  { apply (cu_ok m0 m1 (getEnd m0) (route_word Uninitialized)).
    apply setDirectionRouteBT_update; [exact Hok|rewrite Ese; exact Hst]. }
  assert (S1 : getStart m1 = getStart m0) by reflexivity.
  assert (E1 : getEnd m1 = getStart m0) by (rewrite <- Ese; reflexivity).
  exists (markPath m1 (getEnd m1)). split.
  - rewrite MT_M1_solve_unfold. unfold MT_M1_Solver.new, BFSThreadBT.new. cbv zeta.
    cbn [fst snd]. fold m1. cbn [drive].
    unfold MT_M1_Solver.next at 1. unfold MT_M1_Solver.loop_head at 1.
    cbn [MT_M1_Solver.first_exit MT_M1_Solver.walker MT_M1_Solver.bfs
         MT_M1_Solver.pruners MT_M1_Solver.queues MT_M1_Solver.solve_list
         WalkThreadTB.new WalkThreadTB.finished negb andb orb].
    match goal with |- context [MT_M1_Solver.step_pruners ?todo [] m1 ?qs] =>
      destruct (step_pruners_scanning todo [] m1 qs) as [done' Ed];
        [repeat (apply Forall_cons_2; [split; reflexivity|]); apply Forall_nil_2|
         rewrite Ed]
    end.
    unfold WalkThreadTB.step, WalkThreadTB.new.
    cbn [WalkThreadTB.finished WalkThreadTB.curr WalkThreadTB.came_from
         WalkThreadTB.found WalkThreadTB.overlap]. cbv zeta.
    assert (Ed0 : getDirectionRouteBT m1 (getStart m0) = Uninitialized).
    { unfold m1. rewrite Ese. apply getDirectionRouteBT_set; assumption. }
    rewrite Ed0. cbn [Direction_eqb negb].
    assert (Eq : Pos.eq (getStart m0) (getEnd m1) = true)
      by (apply Pos_eq_spec; symmetry; exact E1).
    unfold Direction_eqb at 1. rewrite bool_decide_eq_true_2 by reflexivity.
    cbn [negb]. rewrite Eq.
    unfold BFSThreadBT.step. cbn [BFSThreadBT.finished orb WalkThreadTB.finished
      WalkThreadTB.overlap andb].
    rewrite bool_decide_eq_false_2 by (intros C; apply C; reflexivity).
    unfold MT_M1_Solver.next at 1. unfold MT_M1_Solver.loop_head at 1.
    cbn [MT_M1_Solver.first_exit negb andb MT_M1_Solver.solve_list
         MT_M1_Solver.tb_head].
    unfold MT_M1_Solver.bt_head. rewrite S1, Eq. cbn [negb].
    unfold MT_M1_Solver.last_mark. cbn [MT_M1_Solver.next]. reflexivity.
  - intros p. rewrite E1.
    rewrite (on_path_markPath m1 _ p Hok1 Hst).
    assert (E0 : on_path m1 p = false).
    { unfold m1, on_path. rewrite hasFlag_land.
      rewrite (cu_land _ _ _ _ (setDirectionRouteBT_update m0 (getEnd m0) Uninitialized Hok
                 ltac:(rewrite Ese; exact Hst)) PATH_BIT p (keeps_route_word_path _)).
      rewrite <- (fresh_cell m0 p Hf), <- Z.land_assoc.
      change (Z.land 3 PATH_BIT) with 0. rewrite Z.land_0_r. reflexivity. }
    rewrite E0. cbn [orb]. apply bool_decide_ext. split; congruence.
Qed.

Lemma MT_M1_solves_one_row_witness :
  exists m',
    MT_M1_Solver.solve_step_by_step 3 (load_blob 3 1 [0])
    = ([SEARCHING; FINISHED], Completed m') /\
    forall p, on_path m' p = bool_decide (p = getStart (load_blob 3 1 [0])).
Proof.
  apply (MT_M1_solves_one_row (load_blob 3 1 [0])).
  - fresh_by_computation.
  - vm_compute. reflexivity.
Defined.
